(** * cfg-toolkit: grammar validation, CNF conversion, CYK recognition

    A shallow embedding of the Python sources
      logic/cfg_parser.py, logic/cnf_converter.py, logic/cyk.py,
      logic/tree_builder.py, logic/generator.py and app.py
    together with the properties of the specification that were checked
    against them.

    Modelling conventions.
    - A Python [str] is a Rocq [string], i.e. the bytes of its UTF-8
      encoding.  Character tests ([str.isupper], [str.isdigit], whitespace
      for [str.split]/[str.strip]) are modelled on the ASCII range; the
      letter ε is the two bytes CE B5, neither of which is an ASCII capital
      or white space, exactly as [str.isupper] and [str.isspace] answer for
      U+03B5.  Symbols whose first character is a non-ASCII capital, and
      non-ASCII white space, are outside the model.
    - A Python [dict] is an association list in insertion order.  Reading,
      assigning and [setdefault] are written out below; a well-formed
      dictionary has pairwise distinct keys.
    - A Python [set] that is only tested for membership is a list.
    - Exceptions are values of [exn]; a computation yields an [outcome].
      [while] loops whose termination is not structural take fuel, and
      running out of it is the separate outcome [OutOfFuel]. *)

From Stdlib Require Import ZArith Ascii String.
From stdpp Require Import base option list strings pretty.

Local Open Scope string_scope.
Local Open Scope list_scope.
Local Set Warnings "-register-all".

(* ================================================================== *)
(** * Exceptions and outcomes                                          *)
(* ================================================================== *)

(** The [CFGError]s of cfg_parser.py, one constructor per [raise]. *)
Inductive cfg_error : Type :=
  | StartNotNonEmptyString
  | InvalidStartVariable (start : string)
  | InvalidLHSValue
  | InvalidVariableFormat (lhs : string)
  | RhsMustBeList (lhs : string)
  | UnsupportedRhsEntry (lhs : string)
  | EntryMustBeDict
  | InvalidOrMissingLHS
  | UnsupportedRhsType (lhs : string)
  | UnsupportedProductionsType
  | NoProductionRules
  | UndeclaredVariable (sym lhs : string) (rule : list string)
  | StartNotUseful (start : string)
  | StartNotReachable
  | StartMissingAfterFiltering.

Inductive exn : Type :=
  | CFGError (e : cfg_error)
  | ValueError (msg : string)
  | KeyError (key : string)
  | IndexError
  | AttributeError (attr : string)
  | RecursionError.

Inductive outcome (A : Type) : Type :=
  | Ok (a : A)
  | Raise (e : exn)
  | OutOfFuel.
Arguments Ok {A} a.
Arguments Raise {A} e.
Arguments OutOfFuel {A}.

Global Instance outcome_ret : MRet outcome := fun _ a => Ok a.
Global Instance outcome_bind : MBind outcome := fun _ _ k m =>
  match m with
  | Ok a => k a
  | Raise e => Raise e
  | OutOfFuel => OutOfFuel
  end.

(** [for x in xs: body] over a state that may raise. *)
Fixpoint for_each {A S} (body : A -> S -> outcome S) (xs : list A) (s : S)
  : outcome S :=
  match xs with
  | [] => Ok s
  | x :: xs' => s' ← body x s; for_each body xs' s'
  end.

(* ================================================================== *)
(** * Strings                                                          *)
(* ================================================================== *)

Definition char_between (lo hi : nat) (c : ascii) : bool :=
  let n := nat_of_ascii c in (lo <=? n)%nat && (n <=? hi)%nat.

(** [c.isupper()] on the ASCII range: 'A'..'Z'. *)
Definition isupper (c : ascii) : bool := char_between 65 90 c.
Definition islower (c : ascii) : bool := char_between 97 122 c.
(** [c.isdigit()] on the ASCII range: '0'..'9'. *)
Definition isdigit (c : ascii) : bool := char_between 48 57 c.
(** White space for [str.split()] and [str.strip()]: TAB, LF, VT, FF, CR,
    FS, GS, RS, US and the space. *)
Definition isspace (c : ascii) : bool :=
  char_between 9 13 c || char_between 28 32 c.

Definition str_eqb (a b : string) : bool := bool_decide (a = b).

(** [s.startswith(p)] *)
Fixpoint startswith (p s : string) : bool :=
  match p, s with
  | EmptyString, _ => true
  | String a p', String b s' => bool_decide (a = b) && startswith p' s'
  | String _ _, EmptyString => false
  end.

Fixpoint str_any (f : ascii -> bool) (s : string) : bool :=
  match s with
  | EmptyString => false
  | String c s' => f c || str_any f s'
  end.

Fixpoint str_rev_onto (s acc : string) : string :=
  match s with
  | EmptyString => acc
  | String c s' => str_rev_onto s' (String c acc)
  end.
Definition str_rev (s : string) : string := str_rev_onto s EmptyString.

Fixpoint lstrip (s : string) : string :=
  match s with
  | EmptyString => EmptyString
  | String c s' => if isspace c then lstrip s' else s
  end.
(** [s.strip()] *)
Definition strip (s : string) : string :=
  str_rev (lstrip (str_rev (lstrip s))).

(** [s.split(sep)] for a one-character separator: empty pieces are kept,
    and the empty string gives one empty piece. *)
Fixpoint split_on (sep : ascii) (s : string) : list string :=
  match s with
  | EmptyString => [EmptyString]
  | String c s' =>
      match split_on sep s' with
      | w :: ws =>
          if bool_decide (c = sep) then EmptyString :: w :: ws
          else String c w :: ws
      | [] => [EmptyString]
      end
  end.

(** [s.split()]: pieces between runs of white space, no empty piece.
    The auxiliary function returns the word being read at the front of [s]
    apart from the words after it. *)
Fixpoint split_ws_go (s : string) : string * list string :=
  match s with
  | EmptyString => (EmptyString, [])
  | String c s' =>
      let '(w, ws) := split_ws_go s' in
      if isspace c
      then (EmptyString, if str_eqb w "" then ws else w :: ws)
      else (String c w, ws)
  end.
Definition split_ws (s : string) : list string :=
  let '(w, ws) := split_ws_go s in
  if str_eqb w "" then ws else w :: ws.

(** ["sep".join(xs)] *)
Fixpoint str_join (sep : string) (xs : list string) : string :=
  match xs with
  | [] => ""
  | [x] => x
  | x :: xs' => x +:+ sep +:+ str_join sep xs'
  end.

(* ================================================================== *)
(** * Dictionaries in insertion order                                  *)
(* ================================================================== *)

Section Dict.
Context {V : Type}.

Definition dict : Type := list (string * V).

(** [d.get(k)] *)
Fixpoint dict_get (d : dict) (k : string) : option V :=
  match d with
  | [] => None
  | (k', v) :: d' => if decide (k' = k) then Some v else dict_get d' k
  end.

(** [k in d] *)
Definition dict_mem (d : dict) (k : string) : bool :=
  match dict_get d k with Some _ => true | None => false end.

(** [d[k] = v]: an existing key keeps its place, a new one goes last. *)
Fixpoint dict_set (d : dict) (k : string) (v : V) : dict :=
  match d with
  | [] => [(k, v)]
  | (k', v') :: d' =>
      if decide (k' = k) then (k, v) :: d' else (k', v') :: dict_set d' k v
  end.

(** [d[k]], raising [KeyError]. *)
Definition dict_getitem (d : dict) (k : string) : outcome V :=
  match dict_get d k with
  | Some v => Ok v
  | None => Raise (KeyError k)
  end.

Definition dict_keys (d : dict) : list string := d.*1.
End Dict.
Arguments dict V : clear implicits.

(** [d.get(k, [])] for a dictionary of lists. *)
Definition dict_get_list {A} (d : dict (list A)) (k : string) : list A :=
  default [] (dict_get d k).

(** [d[k] = f(d[k])] for a key that is present; does nothing otherwise.
    Used where the source updates [d[k]] in place with [k] ranging over the
    keys of [d]. *)
Definition dict_update {V} (d : dict V) (k : string) (f : V -> V) : dict V :=
  match dict_get d k with
  | Some v => dict_set d k (f v)
  | None => d
  end.

(** [d.setdefault(k, [])] *)
Definition dict_setdefault {A} (d : dict (list A)) (k : string)
  : dict (list A) :=
  if dict_mem d k then d else dict_set d k [].

(* ================================================================== *)
(** * Grammars                                                         *)
(* ================================================================== *)

Abbreviation symbol := string (only parsing).
Abbreviation rule := (list string) (only parsing).
(** [Dict[str, List[List[str]]]] *)
Abbreviation grammar := (dict (list (list string))) (only parsing).

Definition epsilon : string := "ε".
Definition eps_rule : rule := [epsilon].

(** [x in xs] on lists, by [==]. *)
Definition py_in {A} `{EqDecision A} (x : A) (xs : list A) : bool :=
  bool_decide (x ∈ xs).

(** [xs.remove(x)]: drops the first occurrence (the callers test [x in xs]
    first, so the [ValueError] of an absent [x] is never reached). *)
Fixpoint list_remove_first {A} `{EqDecision A} (x : A) (xs : list A) : list A :=
  match xs with
  | [] => []
  | y :: ys => if decide (y = x) then ys else y :: list_remove_first x ys
  end.

(* ================================================================== *)
(** * logic/cnf_converter.py                                           *)
(* ================================================================== *)

Module Cnf.

(** [is_variable(sym)]: [sym and sym[0].isupper()] *)
Definition is_variable (sym : symbol) : bool :=
  match sym with
  | EmptyString => false
  | String c _ => isupper c
  end.

(** ** Fresh names [X1, X2, ...] *)

(** [f"X{n}"] *)
Definition X_name (n : nat) : string := "X" +:+ pretty n.

(** [fresh_var()]: [counter] is the next value of [itertools.count(1)].
    The search skips the names in [all_vars]; it is given one more step
    than there are names to skip. *)
Fixpoint fresh_var_from (fuel : nat) (counter : nat) (all_vars : list string)
  : outcome (string * nat) :=
  match fuel with
  | 0 => OutOfFuel
  | S fuel' =>
      let v := X_name counter in
      if py_in v all_vars then fresh_var_from fuel' (S counter) all_vars
      else Ok (v, S counter)
  end.

(** ** Nullable variables *)

(** The two tests of the inner loop: [rule == ["ε"]], or
    [all((sym in nullable) for sym in rule if is_variable(sym))]. *)
Definition rule_makes_nullable (nullable : list string) (r : rule) : bool :=
  bool_decide (r = eps_rule)
  || forallb (fun sym => py_in sym nullable) (List.filter is_variable r).

(** One run of the [for A, rules in grammar.items()] loop; the second
    component is [changed]. *)
Definition nullable_pass (g : grammar) (nullable : list string)
  : list string * bool :=
  fold_left
    (fun '(nl, changed) '(A, rules) =>
       if py_in A nl then (nl, changed)
       else if existsb (rule_makes_nullable nl) rules then (nl ++ [A], true)
       else (nl, changed))
    g (nullable, false).

Fixpoint nullable_loop (fuel : nat) (g : grammar) (nullable : list string)
  : outcome (list string) :=
  match fuel with
  | 0 => OutOfFuel
  | S fuel' =>
      let '(nl, changed) := nullable_pass g nullable in
      if changed then nullable_loop fuel' g nl else Ok nl
  end.

Definition compute_nullable (g : grammar) : outcome (list string) :=
  nullable_loop (S (length g)) g [].

(** ** Step 2: epsilon elimination *)

(** The [subsets] of a rule: every symbol is kept, and a nullable variable
    is also dropped. *)
Definition nullable_subsets (nullable : list string) (r : rule) : list rule :=
  fold_left
    (fun subsets sym =>
       flat_map
         (fun s =>
            (s ++ [sym])
            :: (if is_variable sym && py_in sym nullable then [s] else []))
         subsets)
    r [[]].

(** [for s in subsets: ... new_grammar[A].append(s)] on the list
    [new_grammar[A]]. *)
Definition add_subsets (rules : list rule) (subsets : list rule) : list rule :=
  fold_left
    (fun acc s =>
       if bool_decide (length s = 0) then acc
       else if py_in s acc then acc
       else acc ++ [s])
    subsets rules.

Definition eliminate_epsilon (g : grammar) (nullable : list string) : grammar :=
  fold_left
    (fun new_grammar '(A, rules) =>
       fold_left
         (fun new_grammar r =>
            if bool_decide (r = eps_rule) then new_grammar
            else dict_update new_grammar A
                   (fun rs => add_subsets rs (nullable_subsets nullable r)))
         rules new_grammar)
    g (map (fun '(A, _) => (A, [])) g).

(** ** New start variable *)

(** [while S_new in grammar: S_new += "'"] *)
Fixpoint new_start_loop (fuel : nat) (g : grammar) (S_new : string)
  : outcome string :=
  if dict_mem g S_new then
    match fuel with
    | 0 => OutOfFuel
    | S fuel' => new_start_loop fuel' g (S_new +:+ "'")
    end
  else Ok S_new.

(** Returns the grammar, [current_start] and [all_vars]. *)
Definition introduce_start (g : grammar) (start_var : string)
    (nullable all_vars : list string)
  : outcome (grammar * string * list string) :=
  if py_in start_var nullable then
    S_new ← new_start_loop (length g) g (start_var +:+ "'");
    Ok (dict_set g S_new [[start_var]; eps_rule], S_new, all_vars ++ [S_new])
  else Ok (g, start_var, all_vars).

(** ** Step 3: unit productions *)

(** [is_unit(rule)] *)
Definition is_unit (r : rule) : bool :=
  match r with
  | [s] => is_variable s
  | _ => false
  end.

(** The test guarding the copy of a rule [rB] of [B]:
    [not is_unit(rB) or (len(rB) == 1 and not is_variable(rB[0]))] *)
Definition copied_by_unit (rB : rule) : bool :=
  negb (is_unit rB)
  || match rB with [s] => negb (is_variable s) | _ => false end.

(** The body of [for rule in rules] for the key [A]; the state is
    [new_prod] and [changed]. *)
Definition unit_step (g : grammar) (A : string) (r : rule)
    (st : grammar * bool) : grammar * bool :=
  match r with
  | [B] =>
      if is_variable B then
        if bool_decide (B = A) then st
        else
          let st1 :=
            fold_left
              (fun '(new_prod, changed) rB =>
                 if copied_by_unit rB then
                   if py_in rB (dict_get_list new_prod A) then (new_prod, changed)
                   else (dict_update new_prod A (fun rs => rs ++ [rB]), true)
                 else (new_prod, changed))
              (dict_get_list g B) st in
          let '(new_prod, changed) := st1 in
          if py_in r (dict_get_list new_prod A)
          then (dict_update new_prod A (list_remove_first r), true)
          else (new_prod, changed)
      else st
  | _ => st
  end.

(** One run of the body of [while changed]. *)
Definition unit_pass (g : grammar) : grammar * bool :=
  fold_left
    (fun st '(A, rules) => fold_left (fun st r => unit_step g A r st) rules st)
    g (g, false).

Fixpoint unit_loop (fuel : nat) (g : grammar) : outcome grammar :=
  match fuel with
  | 0 => OutOfFuel
  | S fuel' =>
      let '(new_prod, changed) := unit_pass g in
      if changed then unit_loop fuel' new_prod else Ok new_prod
  end.

Definition eliminate_units (g : grammar) : outcome grammar :=
  unit_loop (2 + length g) g.

(** ** Steps 4 and 5: terminal lifting and binarization *)

Record bin_state : Type := BinState {
  counter : nat;
  all_vars : list string;
  term_map : dict string;
  nonterm_map : dict string;
  final : grammar
}.

Definition fresh_var (st : bin_state) : outcome (string * bin_state) :=
  '(v, c) ← fresh_var_from (S (length (all_vars st))) (counter st) (all_vars st);
  Ok (v, BinState c (all_vars st ++ [v]) (term_map st) (nonterm_map st)
           (final st)).

(** [get_term_var(t)] *)
Definition get_term_var (t : string) (st : bin_state)
  : outcome (string * bin_state) :=
  st' ← (if dict_mem (term_map st) t then Ok st
         else
           '(v, st1) ← fresh_var st;
           Ok (BinState (counter st1) (all_vars st1)
                 (dict_set (term_map st1) t v)
                 (dict_set (nonterm_map st1) v t) (final st1)));
  v ← dict_getitem (term_map st') t;
  Ok (v, st').

(** [if not is_variable(s): s = get_term_var(s)] *)
Definition lift (s : symbol) (st : bin_state) : outcome (symbol * bin_state) :=
  if is_variable s then Ok (s, st) else get_term_var s st.

Definition with_final (st : bin_state) (f : grammar) : bin_state :=
  BinState (counter st) (all_vars st) (term_map st) (nonterm_map st) f.

(** [final[A].append(r)] *)
Definition final_append (A : string) (r : rule) (st : bin_state)
  : outcome bin_state :=
  rs ← dict_getitem (final st) A;
  Ok (with_final st (dict_set (final st) A (rs ++ [r]))).

(** The rule of length three or more: the [while len(chain) > 2] loop and
    what follows it.  [left, right = chain] raises [ValueError] unless
    exactly two symbols are left. *)
Fixpoint binarize_chain (current : string) (chain : list symbol)
    (st : bin_state) : outcome bin_state :=
  match chain with
  | s :: ((_ :: _ :: _) as rest) =>
      '(s', st) ← lift s st;
      '(new_var, st) ← fresh_var st;
      let f := dict_setdefault (final st) current in
      let f := dict_set f current (dict_get_list f current ++ [[s'; new_var]]) in
      let f := dict_setdefault f new_var in
      binarize_chain new_var rest (with_final st f)
  | [l; r] =>
      '(l', st) ← lift l st;
      '(r', st) ← lift r st;
      final_append current [l'; r'] st
  | [_] => Raise (ValueError "not enough values to unpack (expected 2, got 1)")
  | [] => Raise (ValueError "not enough values to unpack (expected 2, got 0)")
  end.

(** The body of [for rule in rules] of step 5. *)
Definition binarize_rule (A : string) (r : rule) (st : bin_state)
  : outcome bin_state :=
  match r with
  | [t] =>
      if negb (is_variable t) then final_append A [t] st
      else binarize_chain A r st
  | [s1; s2] =>
      '(s1', st) ← lift s1 st;
      '(s2', st) ← lift s2 st;
      final_append A [s1'; s2'] st
  | _ => binarize_chain A r st
  end.

Definition binarize (g : grammar) (st : bin_state) : outcome bin_state :=
  for_each
    (fun '(A, rules) st =>
       for_each (binarize_rule A) rules
         (with_final st (dict_set (final st) A [])))
    g st.

(** Step 6: [for v, t in nonterm_map.items(): ... final[v].append([t])] *)
Definition add_wrappers (nonterm_map : dict string) (f : grammar) : grammar :=
  fold_left
    (fun f '(v, t) =>
       let f := if dict_mem f v then f else dict_set f v [] in
       dict_set f v (dict_get_list f v ++ [[t]]))
    nonterm_map f.

(** [{A: rules for A, rules in final.items() if len(rules) > 0}] *)
Definition drop_empty (f : grammar) : grammar :=
  List.filter (fun '(_, rules) => negb (bool_decide (length rules = 0))) f.

(** The value returned by [convert_to_cnf]; [cnf_result_dict] below is the
    dictionary the [return] statement builds from it. *)
Record cnf_result : Type := CnfResult {
  res_grammar : grammar;
  res_start_var : string;
  res_term_map : dict string;
  res_nonterm_map : dict string
}.

Definition convert_to_cnf (g : grammar) (start_var : string)
  : outcome cnf_result :=
  let all_vars := dict_keys g in
  nullable ← compute_nullable g;
  let g1 := eliminate_epsilon g nullable in
  '(g2, current_start, all_vars) ← introduce_start g1 start_var nullable all_vars;
  g3 ← eliminate_units g2;
  st ← binarize g3 (BinState 1 all_vars [] [] []);
  let f := drop_empty (add_wrappers (nonterm_map st) (final st)) in
  Ok (CnfResult f current_start (term_map st) (nonterm_map st)).

Inductive cnf_value : Type :=
  | VGrammar (g : grammar)
  | VStr (s : string)
  | VMap (m : dict string).

Definition cnf_result_dict (r : cnf_result) : dict cnf_value :=
  [ ("grammar", VGrammar (res_grammar r));
    ("start_var", VStr (res_start_var r));
    ("term_map", VMap (res_term_map r));
    ("nonterm_map", VMap (res_nonterm_map r)) ].

End Cnf.

(* ================================================================== *)
(** * logic/cyk.py                                                     *)
(* ================================================================== *)

Module Cyk.

(** An entry of a cell: [[A, tok]] or [[A, k, left_entry, right_entry]]. *)
Inductive entry : Type :=
  | ETerm (A tok : string)
  | EBin (A : string) (k : nat) (left_ent right_ent : entry).

(** [entry[0]] *)
Definition evar (e : entry) : string :=
  match e with
  | ETerm A _ => A
  | EBin A _ _ _ => A
  end.

Abbreviation cell := (list entry) (only parsing).
(** [table[i][j]] is a list of entries. *)
Abbreviation table := (list (list (list entry))) (only parsing).

(** [table[i][j]] for indices inside the table (all the subscripts of
    [run_cyk] are: [0 <= i <= k < j < n]). *)
Definition tget (t : table) (i j : nat) : cell :=
  default [] (row ← t !! i; row !! j).

(** [table[i][j].append(e)] *)
Definition tappend (t : table) (i j : nat) (e : entry) : table :=
  match t !! i with
  | Some row => <[i := <[j := tget t i j ++ [e]]> row]> t
  | None => t
  end.

(** [[entry for entry in c if entry[0] == B]] *)
Definition matches (B : string) (c : cell) : list entry :=
  List.filter (fun e => str_eqb (evar e) B) c.

(** [any(entry[0] == A for entry in c)] *)
Definition present (A : string) (c : cell) : bool :=
  existsb (fun e => str_eqb (evar e) A) c.

(** [[[[] for _ in range(n)] for _ in range(n)]] *)
Definition empty_table (n : nat) : table := replicate n (replicate n []).

(** Step 1, the body of [for rule in rules] for token [tok] at [i]. *)
Definition init_rule (i : nat) (tok A : string) (t : table) (r : rule) : table :=
  match r with
  | [a] => if str_eqb a tok then tappend t i i (ETerm A tok) else t
  | _ => t
  end.

Definition init_token (g : grammar) (t : table) (itok : nat * string) : table :=
  let '(i, tok) := itok in
  fold_left
    (fun t '(A, rules) => fold_left (init_rule i tok A) rules t)
    g t.

(** Step 1: [for i, tok in enumerate(tokens)] *)
Definition init_diagonal (g : grammar) (tokens : list string) (t : table)
  : table :=
  fold_left (init_token g) (imap (fun i tok => (i, tok)) tokens) t.

(** Step 2, the body of [for rule in rules] for the key [A] at split [k]. *)
Definition combine_rule (i j k : nat) (left_cell right_cell : cell)
    (A : string) (t : table) (r : rule) : table :=
  match r with
  | [B; C] =>
      match matches B left_cell with
      | [] => t
      | b0 :: _ =>
          match matches C right_cell with
          | [] => t
          | c0 :: _ =>
              if present A (tget t i j) then t
              else tappend t i j (EBin A k b0 c0)
          end
      end
  | _ => t
  end.

(** The body of [for k in range(i, j)]. *)
Definition combine_split (g : grammar) (i j : nat) (t : table) (k : nat)
  : table :=
  let left_cell := tget t i k in
  let right_cell := tget t (k + 1) j in
  if bool_decide (left_cell = []) || bool_decide (right_cell = []) then t
  else
    fold_left
      (fun t '(A, rules) =>
         fold_left (combine_rule i j k left_cell right_cell A) rules t)
      g t.

(** The body of [for i in range(0, n - length + 1)]. *)
Definition combine_span (g : grammar) (len : nat) (t : table) (i : nat)
  : table :=
  let j := i + len - 1 in
  fold_left (combine_split g i j) (seq i (j - i)) t.

(** The body of [for length in range(2, n + 1)]. *)
Definition combine_length (g : grammar) (n : nat) (t : table) (len : nat)
  : table :=
  fold_left (combine_span g len) (seq 0 (n - len + 1)) t.

(** [{"table": ..., "success": ...}] *)
Record cyk_result : Type := CykResult {
  cyk_table : table;
  cyk_success : bool
}.

Definition fill_table (g : grammar) (tokens : list string) : table :=
  let n := length tokens in
  let t := init_diagonal g tokens (empty_table n) in
  fold_left (combine_length g n) (seq 2 (n + 1 - 2)) t.

Definition run_cyk (g : grammar) (start_var : string) (tokens : list string)
  : cyk_result :=
  let n := length tokens in
  if bool_decide (n = 0) then CykResult [] false
  else
    let t := fill_table g tokens in
    CykResult t (present start_var (tget t 0 (n - 1))).

(** ** Parse trees *)

(** [{"name": name}] has no children ([None]);
    [{"name": name, "children": cs}] has the list [cs]. *)
Inductive tree : Type :=
  | Node (name : string) (children : option (list tree)).

Definition tree_name (t : tree) : string :=
  match t with Node name _ => name end.
Definition tree_children (t : tree) : option (list tree) :=
  match t with Node _ cs => cs end.

(** The nesting of a tree, the number of nodes on its longest path: what
    a recursion over the tree needs of the call stack. *)
Fixpoint tree_depth (t : tree) : nat :=
  match t with
  | Node _ None => 1
  | Node _ (Some cs) => S (foldr Nat.max 0 (map tree_depth cs))
  end.

(** [f"\"{s}\""] *)
Definition quoted (s : string) : string :=
  String (ascii_of_nat 34) (s +:+ String (ascii_of_nat 34) EmptyString).

(** [append_child(child)] on the list [children]. *)
Definition append_child (nonterm_map : dict string) (children : list tree)
    (child : tree) : list tree :=
  if startswith "X" (tree_name child)
     && negb (dict_mem nonterm_map (tree_name child))
  then
    match tree_children child with
    | Some ccs => children ++ ccs
    | None => children
    end
  else children ++ [child].

(** [table[i][j]] with the [IndexError] of a subscript past the end. *)
Definition table_getitem (t : table) (i j : nat) : outcome cell :=
  match t !! i with
  | Some row =>
      match row !! j with
      | Some c => Ok c
      | None => Raise IndexError
      end
  | None => Raise IndexError
  end.

(** [reconstruct_tree(table, i, j, variable, nonterm_map)]; the recursion
    follows the split stored in the table, so it takes fuel. *)
Fixpoint reconstruct_tree (fuel : nat) (t : table) (i j : nat)
    (variable : string) (nonterm_map : dict string) : outcome tree :=
  match fuel with
  | 0 => OutOfFuel
  | S fuel' =>
      c ← table_getitem t i j;
      match matches variable c with
      | [] => Ok (Node ("ERROR:" +:+ variable) None)
      | ETerm A terminal :: _ =>
          match dict_get nonterm_map A with
          | Some w => Ok (Node (quoted w) None)
          | None => Ok (Node A (Some [Node (quoted terminal) None]))
          end
      | EBin A k left_ent right_ent :: _ =>
          let B := evar left_ent in
          let C := evar right_ent in
          left_child ← reconstruct_tree fuel' t i k B nonterm_map;
          right_child ← reconstruct_tree fuel' t (k + 1) j C nonterm_map;
          let children := append_child nonterm_map [] left_child in
          let children := append_child nonterm_map children right_child in
          Ok (Node A (Some children))
      end
  end.

End Cyk.

(* ================================================================== *)
(** * logic/tree_builder.py                                            *)
(* ================================================================== *)

Module TreeBuilder.
Import Cyk.

(** What [simplify_node] returns: a dictionary with both keys, or a list
    of such values (for a flattened node with several children). *)
Inductive simplified : Type :=
  | SDict (name : string) (children : list simplified)
  | SList (items : list simplified).

(** [name.startswith("X") and any(c.isdigit() for c in name[1:])] *)
Definition is_intermediate (name : string) : bool :=
  startswith "X" name
  && match name with
     | String _ rest => str_any isdigit rest
     | EmptyString => false
     end.

Fixpoint simplify_node (node : tree) : simplified :=
  match node with
  | Node name None => SDict name []
  | Node name (Some children) =>
      let normal := SDict name (map simplify_node children) in
      if is_intermediate name then
        match children with
        | [] => normal
        | [c] => simplify_node c
        | _ => SList (map simplify_node children)
        end
      else normal
  end.

(** [flatten_tree(node)] on a dictionary node: the [children] key is
    dropped when the list is empty or absent. *)
Fixpoint flatten_tree (node : tree) : tree :=
  match node with
  | Node name None => Node name None
  | Node name (Some []) => Node name None
  | Node name (Some children) => Node name (Some (map flatten_tree children))
  end.

(** The leaf labels of a tree, left to right. *)
Fixpoint leaves (t : tree) : list string :=
  match t with
  | Node name None => [name]
  | Node name (Some cs) => flat_map leaves cs
  end.

(** [flatten_tree(node)] on any value that [simplify_node] returns: a
    list has no [get], so [node.get("name", "")] raises. *)
Fixpoint flatten_tree_any (node : simplified) : outcome tree :=
  match node with
  | SList _ => Raise (AttributeError "get")
  | SDict name [] => Ok (Node name None)
  | SDict name children =>
      cs ← (fix each (l : list simplified) : outcome (list tree) :=
              match l with
              | [] => Ok []
              | c :: l' =>
                  c' ← flatten_tree_any c;
                  cs' ← each l';
                  Ok (c' :: cs')
              end) children;
      Ok (Node name (Some cs))
  end.

(** [build_tree_for_d3(tree)] *)
Definition build_tree_for_d3 (node : tree) : outcome tree :=
  flatten_tree_any (simplify_node node).

(** [flatten_tree(node)] on a dictionary node when the interpreter allows
    [depth] nested calls of it: the call beyond that raises
    [RecursionError]. *)
Fixpoint flatten_tree_within (depth : nat) (node : tree) : outcome tree :=
  match depth with
  | 0 => Raise RecursionError
  | S depth' =>
      match node with
      | Node name None => Ok (Node name None)
      | Node name (Some []) => Ok (Node name None)
      | Node name (Some children) =>
          cs ← (fix each (l : list tree) : outcome (list tree) :=
                  match l with
                  | [] => Ok []
                  | c :: l' =>
                      c' ← flatten_tree_within depth' c;
                      cs' ← each l';
                      Ok (c' :: cs')
                  end) children;
          Ok (Node name (Some cs))
      end
  end.

End TreeBuilder.

(* ================================================================== *)
(** * logic/cfg_parser.py                                              *)
(* ================================================================== *)

(** The values of a decoded JSON request body. *)
Inductive json : Type :=
  | JNull
  | JBool (b : bool)
  | JNum (z : Z)
  | JStr (s : string)
  | JList (items : list json)
  | JDict (fields : list (string * json)).

Module Parser.

(** [_VAR_RE = re.compile(r"^[A-Z][A-Za-z0-9_]*'?$")] *)
Definition is_word_char (c : ascii) : bool :=
  isupper c || islower c || isdigit c || bool_decide (c = "_"%char).

Fixpoint skip_word_chars (s : string) : string :=
  match s with
  | EmptyString => EmptyString
  | String c s' => if is_word_char c then skip_word_chars s' else s
  end.

(** [$] matches at the end and before a final line feed. *)
Definition at_end (s : string) : bool :=
  str_eqb s "" || str_eqb s (String (ascii_of_nat 10) EmptyString).

(** [is_variable(token)]: [bool(_VAR_RE.match(token))] *)
Definition is_variable (token : string) : bool :=
  match token with
  | EmptyString => false
  | String c rest =>
      isupper c
      && (let r := skip_word_chars rest in
          at_end r
          || match r with
             | String q r' => bool_decide (q = "'"%char) && at_end r'
             | EmptyString => false
             end)
  end.

(** [symbols if symbols else ["ε"]] *)
Definition or_epsilon (symbols : list string) : rule :=
  match symbols with
  | [] => eps_rule
  | _ => symbols
  end.

(** [_parse_rhs_string(rhs_str)] for a string argument. *)
Definition _parse_rhs_string (rhs_str : string) : list rule :=
  let parts := map strip (split_on "|"%char rhs_str) in
  map
    (fun p =>
       if str_eqb p "" then eps_rule
       else
         or_epsilon
           (map strip
              (List.filter (fun tok => negb (str_eqb (strip tok) ""))
                 (split_ws p))))
    parts.

(** [[s.strip() for s in r if isinstance(s, str) and s.strip() != ""]] *)
Definition stripped_symbols (r : list json) : list string :=
  omap
    (fun s =>
       match s with
       | JStr s => if str_eqb (strip s) "" then None else Some (strip s)
       | _ => None
       end)
    r.

Definition is_jlist (v : json) : bool :=
  match v with JList _ => true | _ => false end.

(** [productions_map[lhs].append(r)] and [.extend(rs)]; [lhs] is a key. *)
Definition pm_extend (pm : grammar) (lhs : string) (rs : list rule) : grammar :=
  dict_update pm lhs (fun old => old ++ rs).

(** [if lhs not in productions_map: productions_map[lhs] = []] *)
Definition pm_declare (pm : grammar) (lhs : string) : grammar :=
  if dict_mem pm lhs then pm else dict_set pm lhs [].

(** The body of [for lhs, rhs_list in productions.items()]. *)
Definition parse_mapping_entry (kv : string * json) (pm : grammar)
  : outcome grammar :=
  let '(lhs, rhs_list) := kv in
  if str_eqb lhs "" then Raise (CFGError InvalidLHSValue)
  else
    let lhs := strip lhs in
    if str_eqb lhs "" then Ok pm
    else if negb (is_variable lhs) then
      Raise (CFGError (InvalidVariableFormat lhs))
    else
      let pm := pm_declare pm lhs in
      match rhs_list with
      | JList rhss =>
          for_each
            (fun rhs pm =>
               match rhs with
               | JStr rhs =>
                   let syms := List.filter (fun t => negb (str_eqb t ""))
                                 (split_ws rhs) in
                   Ok (pm_extend pm lhs [or_epsilon syms])
               | JList rhs =>
                   Ok (pm_extend pm lhs [or_epsilon (stripped_symbols rhs)])
               | _ => Raise (CFGError (UnsupportedRhsEntry lhs))
               end)
            rhss pm
      | _ => Raise (CFGError (RhsMustBeList lhs))
      end.

(** The body of [for entry in productions] (list form). *)
Definition parse_list_entry (entry : json) (pm : grammar) : outcome grammar :=
  match entry with
  | JDict fields =>
      match dict_get fields "lhs" with
      | Some (JStr lhs) =>
          if str_eqb lhs "" then Raise (CFGError InvalidOrMissingLHS)
          else
            let lhs := strip lhs in
            if str_eqb lhs "" then Ok pm
            else if negb (is_variable lhs) then
              Raise (CFGError (InvalidVariableFormat lhs))
            else
              let pm := pm_declare pm lhs in
              match dict_get fields "rhs" with
              | Some (JStr rhs) => Ok (pm_extend pm lhs (_parse_rhs_string rhs))
              | Some (JList rhs) =>
                  if negb (bool_decide (length rhs = 0)) && forallb is_jlist rhs
                  then
                    Ok (fold_left
                          (fun pm r =>
                             match r with
                             | JList r =>
                                 pm_extend pm lhs [or_epsilon (stripped_symbols r)]
                             | _ => pm
                             end)
                          rhs pm)
                  else Ok (pm_extend pm lhs [or_epsilon (stripped_symbols rhs)])
              | _ => Raise (CFGError (UnsupportedRhsType lhs))
              end
      | _ => Raise (CFGError InvalidOrMissingLHS)
      end
  | _ => Raise (CFGError EntryMustBeDict)
  end.

(** The preliminary [productions_map]. *)
Definition build_productions_map (productions : json) : outcome grammar :=
  match productions with
  | JDict fields => for_each parse_mapping_entry fields []
  | JList entries => for_each parse_list_entry entries []
  | _ => Raise (CFGError UnsupportedProductionsType)
  end.

(** [{k: v for k, v in productions_map.items() if k and v}] *)
Definition drop_blank (pm : grammar) : grammar :=
  List.filter
    (fun '(k, v) => negb (str_eqb k "") && negb (bool_decide (length v = 0)))
    pm.

(** The check of the right-hand sides against [declared_vars]. *)
Definition check_declared (pm : grammar) : outcome unit :=
  let declared_vars := dict_keys pm in
  for_each
    (fun '(lhs, rules) (_ : unit) =>
       for_each
         (fun r (_ : unit) =>
            for_each
              (fun sym (_ : unit) =>
                 if str_eqb sym epsilon then Ok ()
                 else if is_variable sym && negb (py_in sym declared_vars)
                 then Raise (CFGError (UndeclaredVariable sym lhs r))
                 else Ok ())
              r ())
         rules ())
    pm ().

(** The test shared by the usefulness loop and the filter after it: no
    symbol of the rule, ε apart, is a variable outside [useful]. *)
Definition rule_useful (useful : list string) (r : rule) : bool :=
  forallb
    (fun sym =>
       str_eqb sym epsilon || negb (is_variable sym && negb (py_in sym useful)))
    r.

Definition useful_pass (g : grammar) (useful : list string)
  : list string * bool :=
  fold_left
    (fun '(useful, changed) var =>
       if py_in var useful then (useful, changed)
       else if existsb (rule_useful useful) (dict_get_list g var)
       then (useful ++ [var], true)
       else (useful, changed))
    (dict_keys g) (useful, false).

Fixpoint useful_loop (fuel : nat) (g : grammar) (useful : list string)
  : outcome (list string) :=
  match fuel with
  | 0 => OutOfFuel
  | S fuel' =>
      let '(useful', changed) := useful_pass g useful in
      if changed then useful_loop fuel' g useful' else Ok useful'
  end.

(** The depth-first search for the reachable variables; [stack.pop()]
    takes the last element. *)
Definition reach_visit (g : grammar) (v : string)
    (st : list string * list string) : list string * list string :=
  fold_left
    (fun st r =>
       fold_left
         (fun '(reachable, stack) sym =>
            if is_variable sym && negb (py_in sym reachable) && dict_mem g sym
            then (reachable ++ [sym], stack ++ [sym])
            else (reachable, stack))
         r st)
    (dict_get_list g v) st.

Fixpoint reach_loop (fuel : nat) (g : grammar) (reachable stack : list string)
  : outcome (list string) :=
  match reverse stack with
  | [] => Ok reachable
  | v :: rest =>
      match fuel with
      | 0 => OutOfFuel
      | S fuel' =>
          let '(reachable, stack) := reach_visit g v (reachable, reverse rest) in
          reach_loop fuel' g reachable stack
      end
  end.

Section WithSetOrder.
(** The order in which Python iterates over a [set] of strings is not
    fixed by the language; [set_iter l] is the order for the set whose
    elements were added in the order [l]. *)
Variable set_iter : list string -> list string.

(** [for var in useful: useful_grammar[var] = [...]] *)
Definition filter_useful (g : grammar) (useful : list string) : grammar :=
  fold_left
    (fun ug var =>
       dict_set ug var (List.filter (rule_useful useful) (dict_get_list g var)))
    (set_iter useful) [].

(** [for var in reachable: final_grammar[var] = grammar.get(var, [])] *)
Definition filter_reachable (g : grammar) (reachable : list string)
  : grammar :=
  fold_left (fun fg var => dict_set fg var (dict_get_list g var))
    (set_iter reachable) [].

(** [parse_cfg(start_variable, productions)] for a string
    [start_variable]. *)
Definition parse_cfg (start_variable : string) (productions : json)
  : outcome grammar :=
  if str_eqb start_variable "" then Raise (CFGError StartNotNonEmptyString)
  else
    let start_variable := strip start_variable in
    if negb (is_variable start_variable) then
      Raise (CFGError (InvalidStartVariable start_variable))
    else
      pm ← build_productions_map productions;
      let pm := drop_blank pm in
      if bool_decide (length pm = 0) then Raise (CFGError NoProductionRules)
      else
        _ ← check_declared pm;
        useful ← useful_loop (S (length pm)) pm [];
        if negb (py_in start_variable useful) then
          Raise (CFGError (StartNotUseful start_variable))
        else
          let g := filter_useful pm useful in
          reachable ← reach_loop (S (length g)) g [start_variable]
                        [start_variable];
          if negb (py_in start_variable reachable) then
            Raise (CFGError StartNotReachable)
          else
            let final_grammar := filter_reachable g reachable in
            if negb (dict_mem final_grammar start_variable) then
              Raise (CFGError StartMissingAfterFiltering)
            else Ok final_grammar.
End WithSetOrder.

(** The order of insertion, one of the orders a set may be iterated in. *)
Definition insertion_order (l : list string) : list string := l.

End Parser.

(* ================================================================== *)
(** * logic/generator.py                                               *)
(* ================================================================== *)

Module Generator.

(** [is_variable(sym)]: [bool(sym) and sym[0].isupper()] *)
Definition is_variable (sym : symbol) : bool :=
  match sym with
  | EmptyString => false
  | String c _ => isupper c
  end.

(** The truncation marker [[...]]. *)
Definition truncated : string := "[...]".

(** [len(s)]: the number of characters, that is, of the bytes that do not
    continue a UTF-8 sequence. *)
Fixpoint str_len (s : string) : nat :=
  match s with
  | EmptyString => 0
  | String c s' => (if char_between 128 191 c then 0 else 1) + str_len s'
  end.

(** [generated.add(s)] on a set kept in the order of insertion. *)
Definition set_add (s : string) (generated : list string) : list string :=
  if py_in s generated then generated else generated ++ [s].

Section WithRandom.
(** The state of the random source, and one draw from it.
    [random.choice(rules)] is [rules[k]] for an index [k] below
    [len(rules)]; the index is the draw reduced modulo the length, so that
    every index is the choice for some source. *)
Variable rng : Type.
Variable draw : rng -> nat * rng.

(** [generate_one] at [current_depth = max_depth + 1 - budget]: the test
    [current_depth > max_depth] is [budget = 0], and the recursive calls
    are made at [current_depth + 1].  [max_depth] is taken below the
    recursion limit of the interpreter, as its default 15 is, so that no
    [RecursionError] is raised.  The result is the value of the key
    ["string"]. *)
Fixpoint generate_one_from (budget : nat) (g : grammar) (sym : symbol)
    (r : rng) : string * rng :=
  match budget with
  | 0 => (truncated, r)
  | S budget' =>
      if negb (is_variable sym) then (sym, r)
      else
        match dict_get g sym with
        | None => ("", r)
        | Some [] => ("", r)
        | Some rules =>
            let '(k, r) := draw r in
            let chosen := nth (k mod length rules) rules [] in
            if bool_decide (chosen = eps_rule) then ("", r)
            else
              (fix expand (syms parts : list string) (r : rng) : string * rng :=
                 match syms with
                 | [] => (str_join " " parts, r)
                 | s :: syms' =>
                     let '(res, r) := generate_one_from budget' g s r in
                     if str_eqb res truncated then (truncated, r)
                     else
                       expand syms'
                         (if str_eqb res "" then parts else parts ++ [res]) r
                 end) chosen [] r
        end
  end.

(** [generate_one(grammar, symbol, max_depth, current_depth)] *)
Definition generate_one (g : grammar) (sym : symbol)
    (max_depth current_depth : nat) (r : rng) : string * rng :=
  generate_one_from (S max_depth - current_depth) g sym r.

(** The [while attempts < max_attempts and len(generated) < max_strings]
    loop, with [max_attempts - attempts] attempts left. *)
Fixpoint generate_loop (attempts_left : nat) (g : grammar) (start : symbol)
    (max_strings max_depth : nat) (generated : list string) (r : rng)
  : list string * rng :=
  match attempts_left with
  | 0 => (generated, r)
  | S attempts_left' =>
      if bool_decide (length generated < max_strings) then
        let '(s, r) := generate_one g start max_depth 0 r in
        let generated :=
          if str_eqb s truncated then generated
          else if bool_decide (str_len s = 0) then set_add s generated
          else if bool_decide (str_len s < 200)
                  && bool_decide (length (split_ws s) <= 40)
               then set_add s generated
               else generated in
        generate_loop attempts_left' g start max_strings max_depth generated r
      else (generated, r)
  end.

(** [generate_strings(grammar, start_symbol, max_strings, max_attempts,
    max_depth)]; [start_symbol] is a string or [None], the bounds are not
    negative. *)
Definition generate_strings (g : grammar) (start_symbol : option symbol)
    (max_strings max_attempts max_depth : nat) (r : rng)
  : list string * rng :=
  match start_symbol with
  | None => ([], r)
  | Some start =>
      let '(generated, r) :=
        generate_loop max_attempts g start max_strings max_depth [] r in
      if bool_decide (length generated = 0) then
        let '(s, r) := generate_one g start max_depth 0 r in
        if str_eqb s "" then (set_add s generated, r) else (generated, r)
      else (generated, r)
  end.
End WithRandom.

End Generator.

(* ================================================================== *)
(** * app.py                                                           *)
(* ================================================================== *)

Module App.

(** The five module-level globals; [None] is Python's [None]. *)
Record app_state : Type := AppState {
  GLOBAL_ORIGINAL_CFG : option grammar;
  GLOBAL_CNF : option Cnf.cnf_value;
  GLOBAL_START : option Cnf.cnf_value;
  GLOBAL_TERM_MAP : option Cnf.cnf_value;
  GLOBAL_NONTERM_MAP : option Cnf.cnf_value
}.

(** What the handler hands to [jsonify], or the exception that leaves it. *)
Inductive response : Type :=
  | Success (cnf : option Cnf.cnf_value)
  | GrammarError (e : exn)
  | Unhandled (e : exn)
  | NoAnswer.

(** [data.get(key, default)] on the request body. *)
Definition data_get (data : json) (key : string) (dflt : json) : outcome json :=
  match data with
  | JDict fields => Ok (default dflt (dict_get fields key))
  | _ => Raise (AttributeError "get")
  end.

(** [value.strip()] on a value taken from the body. *)
Definition json_strip (v : json) : outcome string :=
  match v with
  | JStr s => Ok (strip s)
  | _ => Raise (AttributeError "strip")
  end.

Section WithSetOrder.
Variable set_iter : list string -> list string.

(** The body of the [try] block: each assignment to a global is a step
    on the state, and an exception leaves the state as the steps before
    it made it. *)
Definition set_grammar_try (st : app_state) (start_var : string)
    (productions : json) : app_state * outcome (option Cnf.cnf_value) :=
  match Parser.parse_cfg set_iter start_var productions with
  | Ok original_cfg =>
      match Cnf.convert_to_cnf original_cfg start_var with
      | Ok r =>
          let cnf_result := Cnf.cnf_result_dict r in
          let st := AppState (Some original_cfg) (GLOBAL_CNF st)
                      (GLOBAL_START st) (GLOBAL_TERM_MAP st)
                      (GLOBAL_NONTERM_MAP st) in
          match dict_getitem cnf_result "grammar" with
          | Ok v =>
              let st := AppState (GLOBAL_ORIGINAL_CFG st) (Some v)
                          (GLOBAL_START st) (GLOBAL_TERM_MAP st)
                          (GLOBAL_NONTERM_MAP st) in
              match dict_getitem cnf_result "start" with
              | Ok v =>
                  let st := AppState (GLOBAL_ORIGINAL_CFG st) (GLOBAL_CNF st)
                              (Some v) (GLOBAL_TERM_MAP st)
                              (GLOBAL_NONTERM_MAP st) in
                  match dict_getitem cnf_result "term_map" with
                  | Ok v =>
                      let st := AppState (GLOBAL_ORIGINAL_CFG st)
                                  (GLOBAL_CNF st) (GLOBAL_START st) (Some v)
                                  (GLOBAL_NONTERM_MAP st) in
                      match dict_getitem cnf_result "nonterm_map" with
                      | Ok v =>
                          let st := AppState (GLOBAL_ORIGINAL_CFG st)
                                      (GLOBAL_CNF st) (GLOBAL_START st)
                                      (GLOBAL_TERM_MAP st) (Some v) in
                          (st, Ok (GLOBAL_CNF st))
                      | Raise e => (st, Raise e)
                      | OutOfFuel => (st, OutOfFuel)
                      end
                  | Raise e => (st, Raise e)
                  | OutOfFuel => (st, OutOfFuel)
                  end
              | Raise e => (st, Raise e)
              | OutOfFuel => (st, OutOfFuel)
              end
          | Raise e => (st, Raise e)
          | OutOfFuel => (st, OutOfFuel)
          end
      | Raise e => (st, Raise e)
      | OutOfFuel => (st, OutOfFuel)
      end
  | Raise e => (st, Raise e)
  | OutOfFuel => (st, OutOfFuel)
  end.

(** [set_grammar()] on the request body [data]: the statements before
    the [try] are not protected, [except Exception] turns every exception
    of the block into a failure response. *)
Definition set_grammar (st : app_state) (data : json)
  : app_state * response :=
  match (v ← data_get data "start" (JStr ""); json_strip v) with
  | Ok start_var =>
      match data_get data "productions" (JList []) with
      | Ok productions =>
          match set_grammar_try st start_var productions with
          | (st', Ok cnf) => (st', Success cnf)
          | (st', Raise e) => (st', GrammarError e)
          | (st', OutOfFuel) => (st', NoAnswer)
          end
      | Raise e => (st, Unhandled e)
      | OutOfFuel => (st, NoAnswer)
      end
  | Raise e => (st, Unhandled e)
  | OutOfFuel => (st, NoAnswer)
  end.
End WithSetOrder.


(** ** [/generate] and [/validate] *)

(** A global read where a string or [None] is expected: [GLOBAL_START]
    holds [None] or what [set_grammar] stored.  The result is [None] for a
    value of another type, which [set_grammar] never stores there; the
    handlers below are modelled on the other states. *)
Definition as_start (v : option Cnf.cnf_value) : option (option string) :=
  match v with
  | None => Some None
  | Some (Cnf.VStr s) => Some (Some s)
  | Some _ => None
  end.

(** What [generate] hands to [jsonify]. *)
Inductive generate_response : Type :=
  | GrammarNotSet
  | Generated (generated : list string).

Section Generate.
Variable set_iter : list string -> list string.
Variable rng : Type.
Variable draw : rng -> nat * rng.

(** [generate()]; [list(...)] iterates over the set returned by
    [generate_strings]. *)
Definition generate (st : app_state) (r : rng)
  : option (generate_response * rng) :=
  match GLOBAL_ORIGINAL_CFG st with
  | None => Some (GrammarNotSet, r)
  | Some cfg =>
      start ← as_start (GLOBAL_START st);
      let '(generated, r) :=
        Generator.generate_strings rng draw cfg start 10 50 15 r in
      Some (Generated (set_iter generated), r)
  end.
End Generate.

(** What [validate] hands to [jsonify], or the exception that leaves it. *)
Inductive validate_response : Type :=
  | PleaseSetGrammar
  | EpsilonDerivable (tree : Cyk.tree)
  | EmptyNotDerivable
  | NotDerivable
  | Derivable (tree : Cyk.tree)
  | ValidationError (e : exn)
  | ValidateUnhandled (e : exn)
  | ValidateNoAnswer.

(** [[t for t in input_str.split() if t]] *)
Definition tokenize (input_str : string) : list string :=
  List.filter (fun t => negb (str_eqb t "")) (split_ws input_str).

(** The test of the empty input: [GLOBAL_ORIGINAL_CFG.get(GLOBAL_START)]
    and the loop over its rules. *)
Definition epsilon_allowed (cfg : grammar) (start : option string) : bool :=
  match start with
  | None => false
  | Some s =>
      match dict_get cfg s with
      | Some (r :: rules) => existsb (fun r => bool_decide (r = eps_rule)) (r :: rules)
      | _ => false
      end
  end.

(** [run_cyk(GLOBAL_CNF, GLOBAL_START, tokens)] for a start that may be
    [None]: no entry has [None] as its variable. *)
Definition run_cyk_from (g : grammar) (start : option string)
    (tokens : list string) : Cyk.cyk_result :=
  match start with
  | Some s => Cyk.run_cyk g s tokens
  | None => Cyk.CykResult (Cyk.cyk_table (Cyk.run_cyk g "" tokens)) false
  end.

Section Validate.
(** Python bounds the depth of the call stack and raises [RecursionError]
    at the call that would exceed the bound.  [reconstruct_depth] is the
    nesting of calls of [reconstruct_tree] that the bound leaves to the
    handler, [flatten_depth] that of calls of [flatten_tree] (its recursive
    call stands in a list comprehension, which is a frame of its own
    before Python 3.12), and [jsonify_depth] the nesting of a tree that
    [jsonify], which is called inside the [try] block too, serialises
    within the bound.  The other responses are of a fixed, small
    nesting. *)
Variable reconstruct_depth flatten_depth jsonify_depth : nat.

(** [validate()] on the request body [data].  The fuel of
    [reconstruct_tree] is the nesting left to it: running out of it is the
    [RecursionError] that [except Exception] reports.  The result is
    [None] when a global that is read holds a value of a type that
    [set_grammar] never stores in it. *)
Definition validate (st : app_state) (data : json)
  : option validate_response :=
  match GLOBAL_CNF st with
  | None => Some PleaseSetGrammar
  | Some cnf =>
      match (v ← data_get data "string" (JStr ""); json_strip v) with
      | Raise e => Some (ValidateUnhandled e)
      | OutOfFuel => Some ValidateNoAnswer
      | Ok input_str =>
          let tokens := tokenize input_str in
          start ← as_start (GLOBAL_START st);
          if bool_decide (length tokens = 0) then
            match GLOBAL_ORIGINAL_CFG st with
            | None => Some (ValidateUnhandled (AttributeError "get"))
            | Some cfg =>
                if epsilon_allowed cfg start
                then Some (EpsilonDerivable (Cyk.Node (Cyk.quoted epsilon) None))
                else Some EmptyNotDerivable
            end
          else
            match cnf with
            | Cnf.VGrammar g =>
                let result := run_cyk_from g start tokens in
                if negb (Cyk.cyk_success result) then Some NotDerivable
                else
                  match start, GLOBAL_NONTERM_MAP st with
                  | Some s, Some (Cnf.VMap nonterm_map) =>
                      match Cyk.reconstruct_tree reconstruct_depth
                              (Cyk.cyk_table result) 0 (length tokens - 1) s
                              nonterm_map with
                      | Ok tree =>
                          match TreeBuilder.flatten_tree_within flatten_depth
                                  tree with
                          | Ok tree =>
                              if Nat.leb (Cyk.tree_depth tree) jsonify_depth
                              then Some (Derivable tree)
                              else Some (ValidationError RecursionError)
                          | Raise e => Some (ValidationError e)
                          | OutOfFuel => Some ValidateNoAnswer
                          end
                      | Raise e => Some (ValidationError e)
                      | OutOfFuel => Some (ValidationError RecursionError)
                      end
                  | _, _ => None
                  end
            | _ => None
            end
      end
  end.
End Validate.

End App.

(* ================================================================== *)
(** * Concrete inputs                                                  *)
(* ================================================================== *)

(** A list-form production [{"lhs": lhs, "rhs": rhs}]. *)
Definition production (lhs rhs : string) : json :=
  JDict [("lhs", JStr lhs); ("rhs", JStr rhs)].

(** The body of a [/set_grammar] request. *)
Definition grammar_request (start : string) (productions : list json) : json :=
  JDict [("start", JStr start); ("productions", JList productions)].

(** The state of a freshly started server. *)
Definition initial_state : App.app_state :=
  App.AppState None None None None None.

(** [S -> S | a] *)
Definition g_self_unit : grammar := [("S", [["S"]; ["a"]])].
(** [S -> a] *)
Definition g_single_terminal : grammar := [("S", [["a"]])].
(** [S -> A], [A -> a] *)
Definition g_unit_chain : grammar := [("S", [["A"]]); ("A", [["a"]])].
(** [S -> X Y], [X -> a], [Y -> b]: already in CNF, nothing synthetic. *)
Definition g_original_X : grammar :=
  [("S", [["X"; "Y"]]); ("X", [["a"]]); ("Y", [["b"]])].

(** [S -> S S | a]: ambiguous. *)
Definition g_ambiguous : grammar := [("S", [["S"; "S"]; ["a"]])].
(** [S -> a ε]: ε next to another symbol, as [parse_cfg] returns it. *)
Definition g_inner_epsilon : grammar := [("S", [["a"; epsilon]])].

(* ================================================================== *)
(** * Notions of the specification                                     *)
(* ================================================================== *)

(** The nullable variables in the words of the specification: the least
    set such that [A] is nullable if it has an Epsilon rule, or a rule all
    of whose symbols are nullable variables. *)
Inductive spec_nullable (g : grammar) : string -> Prop :=
  | spec_nullable_eps A rules :
      dict_get g A = Some rules ->
      eps_rule ∈ rules ->
      spec_nullable g A
  | spec_nullable_all A rules r :
      dict_get g A = Some rules ->
      r ∈ rules ->
      Forall (fun s => Cnf.is_variable s = true /\ spec_nullable g s) r ->
      spec_nullable g A.

(** A rule of a grammar in Chomsky normal form: one symbol that is not a
    variable, or two variables. *)
Definition is_cnf_rule (r : rule) : bool :=
  match r with
  | [t] => negb (Cnf.is_variable t)
  | [B; C] => Cnf.is_variable B && Cnf.is_variable C
  | _ => false
  end.

(** No key lists the same rule twice. *)
Definition no_duplicate_rules (g : grammar) : Prop :=
  Forall (fun kv => NoDup kv.2) g.

(** The rules of one symbol among the rules of a key. *)
Definition token_rules (rules : list rule) : list rule :=
  List.filter (fun r => bool_decide (length r = 1)) rules.

(** No key lists a rule of one symbol twice. *)
Definition no_duplicate_token_rules (g : grammar) : Prop :=
  Forall (fun kv : string * list (list string) => NoDup (token_rules kv.2)) g.

(** The symbol ε occurs in the grammar only as the whole rule [[ε]]. *)
Definition epsilon_only_alone (g : grammar) : Prop :=
  forall A rules r, (A, rules) ∈ g -> r ∈ rules -> epsilon ∈ r -> r = eps_rule.

(** Every symbol of a right-hand side that [convert_to_cnf] takes for a
    variable is a key of the grammar. *)
Definition rhs_closed (g : grammar) : Prop :=
  forall A rules r s,
    (A, rules) ∈ g -> r ∈ rules -> s ∈ r -> Cnf.is_variable s = true ->
    s ∈ dict_keys g.

(** [nonterm_map] names, for each of its keys, the terminal of that key's
    one-terminal rules in the grammar (as the map built by the converter
    does for the wrappers). *)
Definition wrappers_consistent (g : grammar) (nonterm_map : dict string)
  : Prop :=
  forall A w rules t,
    dict_get nonterm_map A = Some w -> (A, rules) ∈ g -> [t] ∈ rules -> t = w.

(** A rule [B C] matches at a split when [B] is present in the left cell
    and [C] in the right one. *)
Definition rule_matches (left_cell right_cell : Cyk.cell) (r : rule) : bool :=
  match r with
  | [B; C] => Cyk.present B left_cell && Cyk.present C right_cell
  | _ => false
  end.

(** The evidence for [A] at the split [k]: the first rule of [A], in the
    order of declaration, that matches, with the first entry for each of
    its two variables. *)
Definition first_evidence (rules : list rule) (A : string) (k : nat)
    (left_cell right_cell : Cyk.cell) : option Cyk.entry :=
  match List.find (rule_matches left_cell right_cell) rules with
  | Some [B; C] =>
      match Cyk.matches B left_cell, Cyk.matches C right_cell with
      | b0 :: _, c0 :: _ => Some (Cyk.EBin A k b0 c0)
      | _, _ => None
      end
  | _ => None
  end.

(** A word that [str.split()] and [split("|")] leave in one piece: not
    empty, without white space and without a pipe. *)
Definition plain_word (w : string) : bool :=
  negb (str_eqb w "")
  && negb (str_any (fun c => isspace c || bool_decide (c = "|"%char)) w).
(* ================================================================== *)
(** * Auxiliary definitions                                             *)
(* ================================================================== *)

(** ** Unit elimination, key by key *)

(** On the rule list of one key, the copying loop and the whole step. *)
Definition copy_step (st : list rule * bool) (rB : rule) : list rule * bool :=
  let '(rs, changed) := st in
  if Cnf.copied_by_unit rB then
    if py_in rB rs then (rs, changed) else (rs ++ [rB], true)
  else (rs, changed).

Definition key_step (g : grammar) (A : string) (st : list rule * bool)
    (r : rule) : list rule * bool :=
  match r with
  | [B] =>
      if Cnf.is_variable B then
        if bool_decide (B = A) then st
        else
          let '(rs1, changed1) := fold_left copy_step (dict_get_list g B) st in
          if py_in r rs1 then (list_remove_first r rs1, true)
          else (rs1, changed1)
      else st
  | _ => st
  end.

(** The rules of [A] that a pass leaves in place. *)
Definition kept_by_unit (A : string) (r : rule) : bool :=
  negb (Cnf.is_unit r) || bool_decide (r = [A]).

Definition key_rules (g : grammar) (A : string) (rules : list rule)
  : list rule :=
  (fold_left (key_step g A) rules (rules, false)).1.

(** ** Invariants of the binarization state *)

(** [liftable t] is to hold of the terminals handed to [get_term_var],
    [unary A t] of the one-terminal rules [t] appended to [final[A]]. *)
Record bin_inv (liftable : symbol -> Prop) (unary : string -> symbol -> Prop)
    (st : Cnf.bin_state) : Prop := BinInv {
  inv_term_map :
    forall t v, (t, v) ∈ Cnf.term_map st -> Cnf.is_variable v = true;
  inv_nonterm_map :
    forall v t, (v, t) ∈ Cnf.nonterm_map st ->
                Cnf.is_variable t = false /\ liftable t;
  inv_final :
    forall A rs r, (A, rs) ∈ Cnf.final st -> r ∈ rs ->
                   is_cnf_rule r = true /\ (forall t, r = [t] -> unary A t)
}.

(** What the rules handed to the binarization have to satisfy. *)
Definition rule_admissible (liftable : symbol -> Prop)
    (unary : string -> symbol -> Prop) (A : string) (r : rule) : Prop :=
  (forall t, r = [t] -> unary A t)
  /\ (2 <= length r ->
      Forall (fun s => Cnf.is_variable s = false -> liftable s) r).

(** The symbol ε occurs in the rules of [g] only as the rule [[ε]], and
    that rule only under the key [owner] (under no key for [None]). *)
Definition eps_confined (owner : option string) (g : grammar) : Prop :=
  forall A rules r,
    (A, rules) ∈ g -> r ∈ rules -> epsilon ∈ r ->
    r = eps_rule /\ owner = Some A.

(** Every symbol of a rule of [g] satisfies [P]. *)
Definition rhs_symbols (P : symbol -> Prop) (g : grammar) : Prop :=
  forall A rules r s, (A, rules) ∈ g -> r ∈ rules -> s ∈ r -> P s.

(** What the binarization keeps true of the wrapper variables, with [V0]
    the variables known when it starts: the keys of [nonterm_map] are
    pairwise distinct, known, not among [V0] and no keys of [final]; the
    keys of [final] are pairwise distinct and known. *)
Record wrap_inv (V0 : list string) (st : Cnf.bin_state) : Prop := WrapInv {
  wrap_fresh :
    forall v, v ∈ dict_keys (Cnf.nonterm_map st) ->
              (v ∈ Cnf.all_vars st) /\ (v ∉ V0)
              /\ (v ∉ dict_keys (Cnf.final st));
  wrap_final : forall A, A ∈ dict_keys (Cnf.final st) -> A ∈ Cnf.all_vars st;
  wrap_known : forall A, A ∈ V0 -> A ∈ Cnf.all_vars st;
  wrap_nodup : NoDup (dict_keys (Cnf.nonterm_map st));
  wrap_final_nodup : NoDup (dict_keys (Cnf.final st))
}.

(** ** The recognizer, cell by cell *)

(** An [n] by [n] table. *)
Definition wf_table (n : nat) (t : Cyk.table) : Prop :=
  length t = n /\ Forall (fun row => length row = n) t.

(** The effect of [combine_rule] on the cell [table[i][j]]. *)
Definition cell_rule (k : nat) (left_cell right_cell : Cyk.cell) (A : string)
    (c : Cyk.cell) (r : rule) : Cyk.cell :=
  match r with
  | [B; C] =>
      match Cyk.matches B left_cell with
      | [] => c
      | b0 :: _ =>
          match Cyk.matches C right_cell with
          | [] => c
          | c0 :: _ =>
              if Cyk.present A c then c else c ++ [Cyk.EBin A k b0 c0]
          end
      end
  | _ => c
  end.

Definition cell_rules (g : grammar) (k : nat) (left_cell right_cell c : Cyk.cell)
  : Cyk.cell :=
  fold_left
    (fun c '(A, rules) => fold_left (cell_rule k left_cell right_cell A) rules c)
    g c.

(** The effect of [combine_split] on the cell; [get] reads the other
    cells. *)
Definition cell_split (g : grammar) (get : nat -> nat -> Cyk.cell) (i j : nat)
    (c : Cyk.cell) (k : nat) : Cyk.cell :=
  let left_cell := get i k in
  let right_cell := get (k + 1) j in
  if bool_decide (left_cell = []) || bool_decide (right_cell = []) then c
  else cell_rules g k left_cell right_cell c.

(** The cell of the span from [i] to [j] after all its splits. *)
Definition cell_span (g : grammar) (get : nat -> nat -> Cyk.cell) (i j : nat)
  : Cyk.cell :=
  fold_left (cell_split g get i j) (seq i (j - i)) [].

(** The effect of [init_rule] on the diagonal cell, and the whole cell of
    a token. *)
Definition diag_rule (tok A : string) (c : Cyk.cell) (r : rule) : Cyk.cell :=
  match r with
  | [a] => if str_eqb a tok then c ++ [Cyk.ETerm A tok] else c
  | _ => c
  end.

Definition diag_fold (g : grammar) (tok : string) (c : Cyk.cell) : Cyk.cell :=
  fold_left (fun c '(A, rules) => fold_left (diag_rule tok A) rules c) g c.

Definition diag_cell (g : grammar) (tok : string) : Cyk.cell :=
  diag_fold g tok [].

(** [f] changes at most the cell [(i, j)] of a table, by [F]. *)
Definition local_step (n i j : nat) (f : Cyk.table -> Cyk.table)
    (F : Cyk.cell -> Cyk.cell) : Prop :=
  forall t,
    wf_table n t ->
    wf_table n (f t)
    /\ Cyk.tget (f t) i j = F (Cyk.tget t i j)
    /\ forall i' j', (i', j') ≠ (i, j) -> Cyk.tget (f t) i' j' = Cyk.tget t i' j'.

(** The table after the diagonal and all spans of fewer than [len]
    tokens. *)
Definition filled_below (g : grammar) (tokens : list string) (len : nat)
    (t : Cyk.table) : Prop :=
  wf_table (length tokens) t
  /\ forall i j,
       i < length tokens -> j < length tokens ->
       (j < i -> Cyk.tget t i j = [])
       /\ (i = j -> forall tok, tokens !! i = Some tok ->
                    Cyk.tget t i j = diag_cell g tok)
       /\ (i < j -> j - i + 1 < len ->
           Cyk.tget t i j = cell_span g (Cyk.tget t) i j)
       /\ (i < j -> len <= j - i + 1 -> Cyk.tget t i j = []).

(** ** Reconstruction *)

(** A tree that [flatten_tree] leaves alone and whose root, when it is a
    leaf, is not spliced away by [append_child]. *)
Definition tree_ok (t : Cyk.tree) : Prop :=
  TreeBuilder.flatten_tree t = t
  /\ (Cyk.tree_children t = None -> startswith "X" (Cyk.tree_name t) = false).

(** The tokens from position [i] to position [j]. *)
Definition slice (i j : nat) (tokens : list string) : list string :=
  take (S j - i) (drop i tokens).

(** ** Evidence *)

(** The evidence a split adds to a cell, key by key. *)
Definition split_news (g : grammar) (k : nat) (lc rc c : list Cyk.entry)
  : list Cyk.entry :=
  omap (fun '(A, rules) =>
          if Cyk.present A c then None else first_evidence rules A k lc rc)
    g.

(** The diagonal entries of a token, key by key. *)
Definition diag_news (g : grammar) (tok : string) : list Cyk.entry :=
  omap (fun '(A, rules) =>
          if bool_decide ([tok] ∈ rules) then Some (Cyk.ETerm A tok) else None)
    g.

(** ** Strings *)

(** Words without white space. *)
Definition no_space (w : string) : Prop := str_any isspace w = false.

(** ** The language of the recognizer *)

(** [derives g A w]: the variable [A] derives the token sequence [w] with
    the rules [run_cyk] uses, those of one symbol (matched against a token)
    and those of two symbols. *)
Inductive derives (g : grammar) : string -> list string -> Prop :=
  | derives_token A rules tok :
      (A, rules) ∈ g -> [tok] ∈ rules -> derives g A [tok]
  | derives_pair A rules B C w1 w2 :
      (A, rules) ∈ g -> [B; C] ∈ rules ->
      derives g B w1 -> derives g C w2 -> derives g A (w1 ++ w2).

(** The entries of the cell [(i, j)] are of the kind the reconstruction
    expects: on the diagonal a token entry for the token at [i], above it
    a split entry whose two parts are entries of the cells it points to. *)
Definition entry_ok (tokens : list string) (T : Cyk.table) (i j : nat)
    (e : Cyk.entry) : Prop :=
  match e with
  | Cyk.ETerm A tok => i = j /\ tokens !! i = Some tok
  | Cyk.EBin A k b0 c0 =>
      i <= k < j /\ b0 ∈ Cyk.tget T i k /\ c0 ∈ Cyk.tget T (k + 1) j
  end.

(** ** Trees *)

(** No node carries an empty list of children. *)
Fixpoint no_empty_children (t : Cyk.tree) : bool :=
  match t with
  | Cyk.Node _ None => true
  | Cyk.Node _ (Some []) => false
  | Cyk.Node _ (Some cs) => forallb no_empty_children cs
  end.

(** Some node with a name that [simplify_node] takes for an intermediate
    variable has two children or more. *)
Fixpoint has_split_node (t : Cyk.tree) : bool :=
  match t with
  | Cyk.Node _ None => false
  | Cyk.Node name (Some cs) =>
      (TreeBuilder.is_intermediate name && bool_decide (2 <= length cs))
      || existsb has_split_node cs
  end.

(** No node that has children has such a name. *)
Fixpoint no_intermediate (t : Cyk.tree) : bool :=
  match t with
  | Cyk.Node _ None => true
  | Cyk.Node name (Some cs) =>
      (negb (TreeBuilder.is_intermediate name) || bool_decide (cs = []))
      && forallb no_intermediate cs
  end.

(** [[f(x) for x in xs]] for an [f] that may raise: the first exception
    leaves the comprehension. *)
Fixpoint map_outcome {A B} (f : A -> outcome B) (xs : list A)
  : outcome (list B) :=
  match xs with
  | [] => Ok []
  | x :: xs' => y ← f x; ys ← map_outcome f xs'; Ok (y :: ys)
  end.

(** ** Strings, continued *)

(** The number of occurrences of a character. *)
Fixpoint str_count (c : ascii) (s : string) : nat :=
  match s with
  | EmptyString => 0
  | String x s' => (if bool_decide (x = c) then 1 else 0) + str_count c s'
  end.

(** A right-hand side written the way the front end sends it: the symbols
    of a rule separated by single spaces, the rules by [" | "]. *)
Definition format_rhs (rules : list rule) : string :=
  str_join " | " (map (str_join " ") rules).

(** ** The validator *)

(** A computation that returns or raises [CFGError]: it raises nothing
    else and does not run out of fuel. *)
Definition returns_or_cfg_error {A} (o : outcome A) : Prop :=
  match o with
  | Ok _ => True
  | Raise (CFGError _) => True
  | _ => False
  end.

(** The variables of [u] were found useful one after the other: each has
    a rule whose variables came before it. *)
Inductive justified (g : grammar) : list string -> Prop :=
  | justified_nil : justified g []
  | justified_snoc u A r :
      justified g u ->
      r ∈ dict_get_list g A -> Parser.rule_useful u r = true ->
      justified g (u ++ [A]).

(** The step of the search for the reachable variables on one symbol. *)
Definition reach_step (g : grammar) (st : list string * list string)
    (sym : string) : list string * list string :=
  let '(reachable, stack) := st in
  if Parser.is_variable sym && negb (py_in sym reachable) && dict_mem g sym
  then (reachable ++ [sym], stack ++ [sym])
  else (reachable, stack).

(** The keys of [g] that are not in [reachable] yet. *)
Definition unvisited (g : grammar) (reachable : list string) : list string :=
  List.filter (fun k => negb (py_in k reachable)) (dict_keys g).

(** The variables of the rules of [A] that are keys of [g] are in [R]. *)
Definition closed_under (g : grammar) (R : list string) (A : string) : Prop :=
  forall r sym,
    r ∈ dict_get_list g A -> sym ∈ r -> Parser.is_variable sym = true ->
    sym ∈ dict_keys g -> sym ∈ R.

(** [A] has a rule, and so has, in turn, every variable of that rule: [A]
    derives a string of terminals. *)
Inductive generating (g : grammar) : string -> Prop :=
  | generating_rule A rules r :
      (A, rules) ∈ g -> r ∈ rules ->
      (forall sym, sym ∈ r -> Parser.is_variable sym = true -> generating g sym) ->
      generating g A.

(** [A] occurs in a derivation from [start]. *)
Inductive reachable_from (g : grammar) (start : string) : string -> Prop :=
  | reachable_start : reachable_from g start start
  | reachable_step A rules r sym :
      reachable_from g start A ->
      (A, rules) ∈ g -> r ∈ rules -> sym ∈ r ->
      Parser.is_variable sym = true ->
      reachable_from g start sym.

(** ** The converter *)

(** The two maps are inverse to each other. *)
Definition mirror (tm nm : dict string) : Prop :=
  forall t v, dict_get tm t = Some v <-> dict_get nm v = Some t.

(** The set that the nullable loop of [convert_to_cnf] computes, by the
    test it applies: [A] has a rule every variable of which is in the set
    (for the rule [[ε]], and for a rule of terminals, no variable is to be
    checked). *)
Inductive code_nullable (g : grammar) : string -> Prop :=
  | code_nullable_rule A rules r :
      (A, rules) ∈ g -> r ∈ rules ->
      (forall sym, sym ∈ r -> Cnf.is_variable sym = true -> code_nullable g sym) ->
      code_nullable g A.

(** The members of [nl] were added one after the other, each for a rule
    whose variables were there before. *)
Inductive nullable_justified (g : grammar) : list string -> Prop :=
  | nullable_justified_nil : nullable_justified g []
  | nullable_justified_snoc nl A rules r :
      nullable_justified g nl ->
      (A, rules) ∈ g -> r ∈ rules ->
      (forall sym, sym ∈ r -> Cnf.is_variable sym = true -> sym ∈ nl) ->
      nullable_justified g (nl ++ [A]).

(** Every symbol of a right-hand side that [convert_to_cnf] takes for a
    variable (capital first letter) is one for [parse_cfg] as well. *)
Definition capitals_are_variables (g : grammar) : bool :=
  forallb
    (fun '(_, rules) =>
       forallb
         (forallb (fun sym => negb (Cnf.is_variable sym) || Parser.is_variable sym))
         rules)
    g.

(** Some key [A] that is a variable has the rule [A -> A]. *)
Definition has_self_unit (g : grammar) : bool :=
  existsb (fun '(A, rules) => Cnf.is_variable A && py_in [A] rules) g.

(** The message of the [ValueError] that [left, right = chain] raises for
    a chain of one symbol. *)
Definition unpack_one : string :=
  "not enough values to unpack (expected 2, got 1)".

(** [drops nl r s]: [s] is the rule [r] with some occurrences of variables
    of [nl] left out (possibly none, possibly all). *)
Inductive drops (nl : list string) : list string -> list string -> Prop :=
  | drops_nil : drops nl [] []
  | drops_keep sym r s : drops nl r s -> drops nl (sym :: r) (sym :: s)
  | drops_drop sym r s :
      Cnf.is_variable sym = true -> sym ∈ nl -> drops nl r s ->
      drops nl (sym :: r) s.

(** ** The generator *)

(** A string that [generate_strings] keeps: empty, or fewer than 200
    characters and at most 40 words. *)
Definition kept_string (s : string) : Prop :=
  Generator.str_len s = 0
  \/ (Generator.str_len s < 200 /\ length (split_ws s) <= 40).

(** The [for sym in rule] loop of [generate_one] over a function [gen] for
    the recursive calls. *)
Fixpoint expand_with {rng : Type} (gen : symbol -> rng -> string * rng)
    (syms parts : list string) (r : rng) : string * rng :=
  match syms with
  | [] => (str_join " " parts, r)
  | s :: syms' =>
      let '(res, r) := gen s r in
      if str_eqb res Generator.truncated then (Generator.truncated, r)
      else expand_with gen syms'
             (if str_eqb res "" then parts else parts ++ [res]) r
  end.

(** The strings of [w] that are not empty, joined by single spaces. *)
Definition join_words (w : list string) : string :=
  str_join " " (List.filter (fun t => negb (str_eqb t "")) w).

(** [yields g sym w]: [generate_one] can expand [sym] into the symbols
    [w].  A symbol that is no variable stands for itself; a variable
    without rules, or one for which the rule [[ε]] is chosen, gives
    nothing; any other rule gives what its symbols give, in order. *)
Inductive yields (g : grammar) : symbol -> list string -> Prop :=
  | yields_terminal sym :
      Generator.is_variable sym = false -> yields g sym [sym]
  | yields_no_rules A :
      Generator.is_variable A = true -> dict_get_list g A = [] -> yields g A []
  | yields_epsilon A rules :
      Generator.is_variable A = true ->
      dict_get g A = Some rules -> eps_rule ∈ rules -> yields g A []
  | yields_rule A rules r ws :
      Generator.is_variable A = true ->
      dict_get g A = Some rules -> r ∈ rules -> r ≠ eps_rule ->
      Forall2 (yields g) r ws ->
      yields g A (concat ws).

(** ** The server *)

(** The states the server goes through: it starts with the five globals
    [None], and [set_grammar] is the only handler that assigns them. *)
Inductive served (set_iter : list string -> list string)
  : App.app_state -> Prop :=
  | served_initial : served set_iter initial_state
  | served_set_grammar st data :
      served set_iter st -> served set_iter (App.set_grammar set_iter st data).1.

(** The body of a [/validate] request. *)
Definition validate_request (input : string) : json :=
  JDict [("string", JStr input)].

(** ** What the productions list *)

(** The rules that the value under ["rhs"] of an entry of the list form
    lists: the alternatives of a string, the rules of a list of lists, or
    the one rule of a list of tokens. *)
Definition rhs_rules (rhs : json) : list rule :=
  match rhs with
  | JStr s => Parser._parse_rhs_string s
  | JList rs =>
      if negb (bool_decide (length rs = 0)) && forallb Parser.is_jlist rs
      then omap (fun r =>
                   match r with
                   | JList r =>
                       Some (Parser.or_epsilon (Parser.stripped_symbols r))
                   | _ => None
                   end)
             rs
      else [Parser.or_epsilon (Parser.stripped_symbols rs)]
  | _ => []
  end.

(** The rule that an item of the mapping form lists: the tokens of a
    string, or a list of tokens. *)
Definition item_rules (rhs : json) : list rule :=
  match rhs with
  | JStr s =>
      [Parser.or_epsilon
         (List.filter (fun t => negb (str_eqb t "")) (split_ws s))]
  | JList r => [Parser.or_epsilon (Parser.stripped_symbols r)]
  | _ => []
  end.

(** The rules that one entry of the list form, and one entry of the
    mapping form, lists for the variable [A]. *)
Definition entry_rules (A : string) (entry : json) : list rule :=
  match entry with
  | JDict fields =>
      match dict_get fields "lhs", dict_get fields "rhs" with
      | Some (JStr lhs), Some rhs =>
          if bool_decide (strip lhs = A) then rhs_rules rhs else []
      | _, _ => []
      end
  | _ => []
  end.

Definition field_rules (A : string) (kv : string * json) : list rule :=
  if bool_decide (strip kv.1 = A) then
    match kv.2 with
    | JList rhss => concat (map item_rules rhss)
    | _ => []
    end
  else [].

(** The rules that the productions list for the variable [A], in the
    order of the input and as often as it lists them. *)
Definition listed_rules (productions : json) (A : string) : list rule :=
  match productions with
  | JList entries => concat (map (entry_rules A) entries)
  | JDict fields => concat (map (field_rules A) fields)
  | _ => []
  end.

(** Every variable of the rule is one of [keys]. *)
Definition rule_over (keys : list string) (r : rule) : bool :=
  forallb (fun sym => negb (Parser.is_variable sym) || py_in sym keys) r.

(** ** Productions written out *)

(** The list form of the productions [(lhs, rules)], each right-hand side
    written by [format_rhs]. *)
Definition list_form (entries : list (string * list rule)) : json :=
  JList (map (fun e => production e.1 (format_rhs e.2)) entries).

(** The entries as a grammar, and the rules they list for [A]. *)
Definition entries_grammar (entries : list (string * list rule)) : grammar :=
  map (fun e => (strip e.1, e.2)) entries.

Definition entries_rules (entries : list (string * list rule)) (A : string)
  : list rule :=
  concat (map (fun e => if bool_decide (strip e.1 = A) then e.2 else [])
            entries).

(** Every left-hand side is a variable and has a rule, no rule is empty,
    and the symbols are plain words. *)
Definition well_formed_entries (entries : list (string * list rule)) : bool :=
  forallb
    (fun e =>
       Parser.is_variable (strip e.1)
       && negb (bool_decide (length e.2 = 0))
       && forallb
            (fun r => negb (bool_decide (length r = 0)) && forallb plain_word r)
            e.2)
    entries.

(** Every variable of a right-hand side is a left-hand side. *)
Definition declared_entries (entries : list (string * list rule)) : bool :=
  forallb
    (fun e =>
       forallb
         (forallb
            (fun sym =>
               negb (Parser.is_variable sym)
               || py_in sym (dict_keys (entries_grammar entries))))
         e.2)
    entries.

(** [S -> a ε b | A ε], [A -> a] *)
Definition entries_epsilon_inside : list (string * list rule) :=
  [("S", [["a"; epsilon; "b"]; ["A"; epsilon]]); ("A", [["a"]])].
(* ================================================================== *)
(** * Properties                                                       *)
(* ================================================================== *)

(** ** The symbol ε *)

Lemma cnf_epsilon_not_variable : Cnf.is_variable epsilon = false.
Proof. reflexivity. Qed.

(** ** C1: the conversion is not total *)

(** C1.  The validator accepts [S -> S | a] and returns it unchanged;
    [convert_to_cnf] then leaves the self-unit rule [S -> S] in place
    (unit elimination skips it) and the binarization step, which treats
    every remaining rule as having three or more symbols, fails at
    [left, right = chain] with a [ValueError].  The conversion is therefore
    not total on validated grammars. *)
Theorem convert_to_cnf_raises_on_self_unit :
  Parser.parse_cfg Parser.insertion_order "S" (JList [production "S" "S | a"])
    = Ok g_self_unit
  /\ Cnf.eliminate_units
       [("S", [["S"]; ["a"]]); ("S'", [["S"]; eps_rule])]
     = Ok [("S", [["S"]; ["a"]]); ("S'", [eps_rule; ["a"]])]
  /\ Cnf.convert_to_cnf g_self_unit "S"
     = Raise (ValueError "not enough values to unpack (expected 2, got 1)").
Proof. repeat split; vm_compute; reflexivity. Qed.

(** ** C2: the nullable set *)

(** C2.  For the grammar [S -> a] the nullable computation puts [S] into
    the nullable set (the test of the second case only looks at the
    variables of a rule, and [a] has none), although [S] is not nullable in
    the sense of the specification; the conversion then introduces the
    fresh start variable [S'] with an ε rule. *)
Theorem nullable_contains_terminal_only_variable :
  Cnf.compute_nullable g_single_terminal = Ok ["S"]
  /\ ~ spec_nullable g_single_terminal "S"
  /\ Cnf.convert_to_cnf g_single_terminal "S"
     = Ok (Cnf.CnfResult [("S", [["a"]]); ("S'", [eps_rule; ["a"]])] "S'" [] []).
Proof.
  split; [reflexivity | split; [ | reflexivity]].
  intros H. inversion H as [A rules Hget Hin | A rules r Hget Hin Hall]; subst.
  - vm_compute in Hget. injection Hget as <-.
    apply list_elem_of_singleton in Hin. discriminate Hin.
  - vm_compute in Hget. injection Hget as <-.
    apply list_elem_of_singleton in Hin. subst r.
    inversion Hall as [ | s l [Hvar _] _]; subst. discriminate Hvar.
Qed.

(** ** C4: the define-grammar operation *)

(** No request completes: the dictionary returned by [convert_to_cnf] has
    no key ["start"]. *)
Lemma cnf_result_has_no_start r :
  dict_getitem (Cnf.cnf_result_dict r) "start" = Raise (KeyError "start").
Proof. reflexivity. Qed.

(** C4.  On a freshly started server the request for the grammar [S -> a]
    fails with [KeyError('start')], raised by [cnf_result["start"]] after
    [GLOBAL_ORIGINAL_CFG] and [GLOBAL_CNF] were assigned: the failure
    response comes with two of the five globals changed and three left as
    they were. *)
Theorem set_grammar_partial_update :
  App.set_grammar Parser.insertion_order initial_state
    (grammar_request "S" [production "S" "a"])
  = (App.AppState (Some g_single_terminal)
       (Some (Cnf.VGrammar [("S", [["a"]]); ("S'", [eps_rule; ["a"]])]))
       None None None,
     App.GrammarError (KeyError "start")).
Proof. reflexivity. Qed.

Lemma set_grammar_try_never_succeeds set_iter st start productions st' cnf :
  App.set_grammar_try set_iter st start productions ≠ (st', Ok cnf).
Proof.
  unfold App.set_grammar_try.
  destruct (Parser.parse_cfg set_iter start productions) as [g | e | ]; try done.
  destruct (Cnf.convert_to_cnf g start) as [r | e | ]; done.
Qed.

(** No request is answered with success. *)
Lemma set_grammar_never_succeeds set_iter st data cnf :
  (App.set_grammar set_iter st data).2 ≠ App.Success cnf.
Proof.
  unfold App.set_grammar.
  destruct (App.data_get data "start" (JStr "") ≫= App.json_strip)
    as [start | e | ]; try done.
  destruct (App.data_get data "productions" (JList [])) as [productions | e | ];
    try done.
  pose proof (set_grammar_try_never_succeeds set_iter st start productions) as H.
  destruct (App.set_grammar_try set_iter st start productions) as [st' [c | e | ]];
    try done.
  by destruct (H st' c).
Qed.

(** A request whose grammar the validator or the converter refuses leaves
    the five globals as they were. *)
Lemma set_grammar_refused_keeps_state set_iter st start productions e :
  Parser.parse_cfg set_iter (strip start) productions = Raise e
  \/ (exists g,
        Parser.parse_cfg set_iter (strip start) productions = Ok g
        /\ Cnf.convert_to_cnf g (strip start) = Raise e) ->
  App.set_grammar set_iter st
    (JDict [("start", JStr start); ("productions", productions)])
  = (st, App.GrammarError e).
Proof.
  intros H. unfold App.set_grammar.
  change (App.data_get
            (JDict [("start", JStr start); ("productions", productions)])
            "start" (JStr ""))
    with (Ok (A := json) (JStr start)).
  change (App.data_get
            (JDict [("start", JStr start); ("productions", productions)])
            "productions" (JList []))
    with (Ok (A := json) productions).
  cbn [mbind outcome_bind App.json_strip]. unfold App.set_grammar_try.
  destruct H as [-> | (g & -> & ->)]; done.
Qed.

(** ** C8: flattening in [reconstruct_tree] *)

(** C8.  For the grammar [S -> X Y], [X -> a], [Y -> b], whose variable
    [X] is a variable of the original grammar, the whole pipeline accepts
    [a b] and [reconstruct_tree] splices the subtree of [X] into its parent:
    the node [X] is gone from the tree, the node [Y] is kept.  The sibling
    test in [simplify_node] (a name starting with X that has a digit) would
    have kept [X]. *)
Theorem reconstruct_tree_splices_original_X :
  Parser.parse_cfg Parser.insertion_order "S"
    (JList [production "S" "X Y"; production "X" "a"; production "Y" "b"])
    = Ok g_original_X
  /\ (exists r,
        Cnf.convert_to_cnf g_original_X "S" = Ok r
        /\ Cnf.res_nonterm_map r = []
        /\ Cyk.cyk_success
             (Cyk.run_cyk (Cnf.res_grammar r) (Cnf.res_start_var r) ["a"; "b"])
           = true
        /\ Cyk.reconstruct_tree 2
             (Cyk.cyk_table
                (Cyk.run_cyk (Cnf.res_grammar r) (Cnf.res_start_var r)
                   ["a"; "b"]))
             0 1 (Cnf.res_start_var r) (Cnf.res_nonterm_map r)
           = Ok (Cyk.Node "S'"
                   (Some [Cyk.Node (Cyk.quoted "a") None;
                          Cyk.Node "Y"
                            (Some [Cyk.Node (Cyk.quoted "b") None])])))
  /\ TreeBuilder.is_intermediate "X" = false.
Proof.
  split; [reflexivity | split; [ | reflexivity]].
  eexists. split; [vm_compute; reflexivity | ].
  repeat split; vm_compute; reflexivity.
Qed.

(** ** Dictionaries *)

Section DictFacts.
Context {V : Type}.
Implicit Types (d : dict V) (k : string) (v : V).

Lemma dict_get_set_eq d k v : dict_get (dict_set d k v) k = Some v.
Proof.
  induction d as [ | [k' v'] d IH]; simpl.
  - by rewrite decide_True.
  - destruct (decide (k' = k)); simpl.
    + by rewrite decide_True.
    + by rewrite decide_False.
Qed.

Lemma dict_get_set_ne d k k' v :
  k ≠ k' -> dict_get (dict_set d k v) k' = dict_get d k'.
Proof.
  intros Hne. induction d as [ | [k0 v0] d IH]; simpl.
  - by rewrite decide_False.
  - destruct (decide (k0 = k)) as [-> | ]; simpl.
    + by rewrite !decide_False.
    + by rewrite IH.
Qed.

Lemma dict_get_Some_elem d k v : dict_get d k = Some v -> (k, v) ∈ d.
Proof.
  induction d as [ | [k' v'] d IH]; simpl; [done | ].
  destruct (decide (k' = k)) as [-> | ].
  - intros [= ->]. apply list_elem_of_here.
  - intros H. apply list_elem_of_further. auto.
Qed.

Lemma dict_get_None d k : dict_get d k = None <-> k ∉ dict_keys d.
Proof.
  unfold dict_keys. induction d as [ | [k' v'] d IH]; simpl.
  - split; [intros _; apply not_elem_of_nil | done].
  - rewrite not_elem_of_cons. destruct (decide (k' = k)) as [-> | ].
    + split; [done | intros [? _]; done].
    + rewrite IH. split; [intros ?; split; [congruence | done] | by intros [_ ?]].
Qed.

Lemma dict_get_is_Some d k : is_Some (dict_get d k) <-> k ∈ dict_keys d.
Proof.
  destruct (dict_get d k) eqn:E.
  - split; [intros _ | by eauto].
    apply dict_get_Some_elem in E. unfold dict_keys.
    apply list_elem_of_fmap. by exists (k, v).
  - split; [by intros [? ?] | ]. intros Hin. by apply dict_get_None in E.
Qed.

Lemma dict_mem_true d k : dict_mem d k = true <-> k ∈ dict_keys d.
Proof.
  unfold dict_mem. rewrite <- dict_get_is_Some.
  destruct (dict_get d k); split; intros H; try done; by eauto.
Qed.

Lemma dict_mem_false d k : dict_mem d k = false <-> k ∉ dict_keys d.
Proof.
  rewrite <- dict_mem_true. destruct (dict_mem d k); split; congruence.
Qed.

Lemma dict_get_NoDup d k v :
  NoDup (dict_keys d) -> (k, v) ∈ d -> dict_get d k = Some v.
Proof.
  unfold dict_keys. induction d as [ | [k' v'] d IH]; simpl.
  - intros _ H. by apply elem_of_nil in H.
  - intros Hnd Hin. apply NoDup_cons in Hnd as [Hnotin Hnd].
    apply elem_of_cons in Hin as [[= -> ->] | Hin].
    + by rewrite decide_True.
    + destruct (decide (k' = k)) as [-> | ]; [ | by auto].
      exfalso. apply Hnotin. apply list_elem_of_fmap. by exists (k, v).
Qed.

Lemma dict_keys_set d k v :
  dict_keys (dict_set d k v)
  = if dict_mem d k then dict_keys d else dict_keys d ++ [k].
Proof.
  unfold dict_keys, dict_mem. induction d as [ | [k' v'] d IH]; csimpl; [done | ].
  destruct (decide (k' = k)) as [-> | ]; csimpl; [done | ].
  rewrite IH. by destruct (dict_get d k).
Qed.

Lemma dict_keys_set_NoDup d k v :
  NoDup (dict_keys d) -> NoDup (dict_keys (dict_set d k v)).
Proof.
  intros Hnd. rewrite dict_keys_set. destruct (dict_mem d k) eqn:E; [done | ].
  apply NoDup_app. split; [done | ]. split; [ | apply NoDup_singleton].
  intros x Hx Hx'. apply list_elem_of_singleton in Hx'. subst x.
  by apply dict_mem_false in E.
Qed.

Lemma elem_of_dict_set d k v k' v' :
  (k', v') ∈ dict_set d k v -> (k', v') ∈ d \/ (k' = k /\ v' = v).
Proof.
  induction d as [ | [k0 v0] d IH]; simpl.
  - intros H. apply list_elem_of_singleton in H. injection H as -> ->. by right.
  - destruct (decide (k0 = k)) as [-> | ].
    + intros H. apply elem_of_cons in H as [[= -> ->] | H]; [by right | ].
      left. by apply list_elem_of_further.
    + intros H. apply elem_of_cons in H as [[= -> ->] | H].
      * left. apply list_elem_of_here.
      * destruct (IH H) as [? | ?]; [left; by apply list_elem_of_further | by right].
Qed.

Lemma dict_set_same d k v : dict_get d k = Some v -> dict_set d k v = d.
Proof.
  induction d as [ | [k' v'] d IH]; simpl; [done | ].
  destruct (decide (k' = k)) as [-> | ].
  - by intros [= ->].
  - intros H. by rewrite IH.
Qed.

Lemma dict_set_set d k v v' : dict_set (dict_set d k v) k v' = dict_set d k v'.
Proof.
  induction d as [ | [k0 v0] d IH]; simpl.
  - by rewrite decide_True.
  - destruct (decide (k0 = k)) as [-> | ]; simpl.
    + by rewrite decide_True.
    + by rewrite decide_False, IH.
Qed.

Lemma dict_get_app_middle (pre suf : dict V) k v :
  k ∉ dict_keys pre -> dict_get (pre ++ (k, v) :: suf) k = Some v.
Proof.
  unfold dict_keys. induction pre as [ | [k' v'] pre IH]; simpl.
  - intros _. by rewrite decide_True.
  - rewrite not_elem_of_cons. intros [Hne Hnotin].
    rewrite decide_False by done. auto.
Qed.

Lemma dict_set_app_middle (pre suf : dict V) k v v' :
  k ∉ dict_keys pre ->
  dict_set (pre ++ (k, v) :: suf) k v' = pre ++ (k, v') :: suf.
Proof.
  unfold dict_keys. induction pre as [ | [k' v0] pre IH]; simpl.
  - intros _. by rewrite decide_True.
  - rewrite not_elem_of_cons. intros [Hne Hnotin].
    rewrite decide_False by done. by rewrite IH.
Qed.

End DictFacts.

Lemma dict_update_get {V} (d : dict V) k f v :
  dict_get d k = Some v -> dict_update d k f = dict_set d k (f v).
Proof. intros H. unfold dict_update. by rewrite H. Qed.

Lemma py_in_true {A} `{EqDecision A} (x : A) xs : py_in x xs = true <-> x ∈ xs.
Proof. unfold py_in. apply bool_decide_eq_true. Qed.

Lemma py_in_false {A} `{EqDecision A} (x : A) xs : py_in x xs = false <-> x ∉ xs.
Proof. unfold py_in. apply bool_decide_eq_false. Qed.

Lemma str_eqb_true a b : str_eqb a b = true <-> a = b.
Proof. unfold str_eqb. apply bool_decide_eq_true. Qed.

Lemma str_eqb_false a b : str_eqb a b = false <-> a ≠ b.
Proof. unfold str_eqb. apply bool_decide_eq_false. Qed.

(** Outcomes: inversion of a bind that succeeded. *)
Lemma bind_Ok {A B} (m : outcome A) (k : A -> outcome B) b :
  m ≫= k = Ok b -> exists a, m = Ok a /\ k a = Ok b.
Proof. destruct m; simpl; intros H; try discriminate. eauto. Qed.

(** An invariant of the state carries through a [for] loop. *)
Lemma for_each_invariant {A S} (P : S -> Prop) (Q : A -> Prop)
    (body : A -> S -> outcome S) xs s s' :
  (forall x s s', Q x -> P s -> body x s = Ok s' -> P s') ->
  Forall Q xs ->
  P s -> for_each body xs s = Ok s' -> P s'.
Proof.
  intros Hbody. revert s. induction xs as [ | x xs IH]; simpl; intros s HQ HP H.
  - by injection H as <-.
  - apply Forall_cons in HQ as [HQx HQ].
    apply bind_Ok in H as (s1 & H1 & H2). eauto.
Qed.

(** ** C9: the validator keeps what is listed twice *)

Lemma fold_dict_set_keys_NoDup {V} (f : string -> V) (ks : list string) d :
  NoDup (dict_keys d) ->
  NoDup (dict_keys (fold_left (fun d k => dict_set d k (f k)) ks d)).
Proof.
  revert d. induction ks as [ | k ks IH]; simpl; intros d Hnd; [done | ].
  apply IH. by apply dict_keys_set_NoDup.
Qed.

(** C9, counterexample.  The alternation [a | a] is returned as the rule
    [["a"]] twice under [S]: nothing in [parse_cfg] removes duplicates. *)
Lemma parse_cfg_keeps_duplicate_rules :
  Parser.parse_cfg Parser.insertion_order "S" (JList [production "S" "a | a"])
    = Ok [("S", [["a"]; ["a"]])]
  /\ ~ no_duplicate_rules [("S", [["a"]; ["a"]])].
Proof.
  split; [reflexivity | ].
  intros H. apply Forall_cons in H as [H _]. simpl in H.
  apply NoDup_cons in H as [H _]. apply H. apply list_elem_of_here.
Qed.

(** ** C5: unit-production elimination *)

#[global] Arguments Cnf.is_variable : simpl never.

Lemma copied_by_unit_spec rB :
  Cnf.copied_by_unit rB = negb (Cnf.is_unit rB).
Proof.
  unfold Cnf.copied_by_unit. destruct rB as [ | s [ | s' rB]]; simpl; try done.
  by destruct (Cnf.is_variable s).
Qed.

Lemma dict_get_list_set {A} (d : dict (list A)) k v :
  dict_get_list (dict_set d k v) k = v.
Proof. unfold dict_get_list. by rewrite dict_get_set_eq. Qed.

Lemma dict_get_list_Some {A} (d : dict (list A)) k v :
  dict_get d k = Some v -> dict_get_list d k = v.
Proof. unfold dict_get_list. by intros ->. Qed.

Lemma unit_copy_fold np A rs changed rBs :
  dict_get np A = Some rs ->
  fold_left
    (fun '(new_prod, changed) rB =>
       if Cnf.copied_by_unit rB then
         if py_in rB (dict_get_list new_prod A) then (new_prod, changed)
         else (dict_update new_prod A (fun rs => rs ++ [rB]), true)
       else (new_prod, changed))
    rBs (np, changed)
  = (dict_set np A (fold_left copy_step rBs (rs, changed)).1,
     (fold_left copy_step rBs (rs, changed)).2).
Proof.
  revert np rs changed. induction rBs as [ | rB rBs IH]; intros np rs changed Hget.
  - simpl. by rewrite dict_set_same.
  - simpl. destruct (Cnf.copied_by_unit rB); [ | by apply IH].
    rewrite (dict_get_list_Some _ _ _ Hget).
    destruct (py_in rB rs); [by apply IH | ].
    rewrite (dict_update_get _ _ _ _ Hget).
    rewrite (IH _ (rs ++ [rB])) by apply dict_get_set_eq.
    by rewrite dict_set_set.
Qed.

Lemma unit_step_key g np A rs changed r :
  dict_get np A = Some rs ->
  Cnf.unit_step g A r (np, changed)
  = (dict_set np A (key_step g A (rs, changed) r).1,
     (key_step g A (rs, changed) r).2).
Proof.
  intros Hget. unfold Cnf.unit_step, key_step.
  destruct r as [ | B [ | ? ?]]; simpl; try by rewrite dict_set_same.
  destruct (Cnf.is_variable B); [ | simpl; by rewrite dict_set_same].
  case_bool_decide; [simpl; by rewrite dict_set_same | ].
  rewrite (unit_copy_fold _ _ _ _ _ Hget).
  destruct (fold_left copy_step (dict_get_list g B) (rs, changed)) as [rs1 ch1].
  simpl. rewrite dict_get_list_set.
  destruct (py_in _ rs1); simpl; [ | done].
  rewrite (dict_update_get _ _ _ rs1) by apply dict_get_set_eq.
  by rewrite dict_set_set.
Qed.

Lemma unit_step_fold g np A rs changed rules :
  dict_get np A = Some rs ->
  fold_left (fun st r => Cnf.unit_step g A r st) rules (np, changed)
  = (dict_set np A (fold_left (key_step g A) rules (rs, changed)).1,
     (fold_left (key_step g A) rules (rs, changed)).2).
Proof.
  revert np rs changed.
  induction rules as [ | r rules IH]; intros np rs changed Hget; simpl.
  - by rewrite dict_set_same.
  - rewrite (unit_step_key _ _ _ _ _ _ Hget).
    destruct (key_step g A (rs, changed) r) as [rs1 ch1]. simpl.
    rewrite (IH _ rs1) by apply dict_get_set_eq.
    by rewrite dict_set_set.
Qed.

(** The [changed] flag does not influence the rules. *)
Lemma copy_step_flag rs c1 c2 rB :
  (copy_step (rs, c1) rB).1 = (copy_step (rs, c2) rB).1.
Proof.
  unfold copy_step. destruct (Cnf.copied_by_unit rB); [ | done].
  by destruct (py_in rB rs).
Qed.

Lemma copy_fold_flag rBs rs c1 c2 :
  (fold_left copy_step rBs (rs, c1)).1 = (fold_left copy_step rBs (rs, c2)).1.
Proof.
  revert rs c1 c2. induction rBs as [ | rB rBs IH]; intros rs c1 c2; [done | ].
  cbn [fold_left]. pose proof (copy_step_flag rs c1 c2 rB) as H.
  destruct (copy_step (rs, c1) rB) as [r1 d1].
  destruct (copy_step (rs, c2) rB) as [r2 d2]. simpl in H. subst r2.
  apply IH.
Qed.

Lemma key_step_flag g A rs c1 c2 r :
  (key_step g A (rs, c1) r).1 = (key_step g A (rs, c2) r).1.
Proof.
  unfold key_step. destruct r as [ | B [ | ? ?]]; try done.
  destruct (Cnf.is_variable B); [ | done]. case_bool_decide; [done | ].
  pose proof (copy_fold_flag (dict_get_list g B) rs c1 c2) as Hc.
  destruct (fold_left copy_step (dict_get_list g B) (rs, c1)) as [r1 d1].
  destruct (fold_left copy_step (dict_get_list g B) (rs, c2)) as [r2 d2].
  simpl in Hc. subst r2. by destruct (py_in _ r1).
Qed.

Lemma key_fold_flag g A rules rs c1 c2 :
  (fold_left (key_step g A) rules (rs, c1)).1
  = (fold_left (key_step g A) rules (rs, c2)).1.
Proof.
  revert rs c1 c2. induction rules as [ | r rules IH]; intros rs c1 c2; [done | ].
  cbn [fold_left]. pose proof (key_step_flag g A rs c1 c2 r) as H.
  destruct (key_step g A (rs, c1) r) as [r1 d1].
  destruct (key_step g A (rs, c2) r) as [r2 d2]. simpl in H. subst r2.
  apply IH.
Qed.

(** A pass rewrites the rule list of every key on its own. *)
Lemma unit_pass_suffix g (pre suf : grammar) changed :
  NoDup (dict_keys (pre ++ suf)) ->
  (fold_left
     (fun st '(A, rules) => fold_left (fun st r => Cnf.unit_step g A r st) rules st)
     suf (pre ++ suf, changed)).1
  = pre ++ map (fun '(A, rules) => (A, key_rules g A rules)) suf.
Proof.
  revert pre changed.
  induction suf as [ | [A rules] suf IH]; intros pre changed Hnd; [done | ].
  cbn [fold_left map].
  assert (A ∉ dict_keys pre) as Hpre.
  { unfold dict_keys in *. rewrite fmap_app in Hnd.
    apply NoDup_app in Hnd as (_ & Hdisj & _). intros Hin.
    apply (Hdisj _ Hin). csimpl. apply list_elem_of_here. }
  rewrite (unit_step_fold _ _ _ rules)
    by (by apply dict_get_app_middle).
  rewrite dict_set_app_middle by done.
  rewrite (key_fold_flag _ _ _ _ changed false). fold (key_rules g A rules).
  rewrite (cons_middle _ pre), app_assoc.
  rewrite IH.
  - by rewrite <- app_assoc.
  - unfold dict_keys in *. rewrite <- app_assoc. cbn [app].
    rewrite !fmap_app in *. csimpl in *. done.
Qed.

Lemma unit_pass_rules g :
  NoDup (dict_keys g) ->
  (Cnf.unit_pass g).1 = map (fun '(A, rules) => (A, key_rules g A rules)) g.
Proof.
  intros Hnd. unfold Cnf.unit_pass. by apply (unit_pass_suffix g [] g false).
Qed.

Lemma copy_fold_shape rBs rs changed :
  exists added,
    (fold_left copy_step rBs (rs, changed)).1 = rs ++ added
    /\ Forall (fun x => Cnf.is_unit x = false /\ x ∈ rBs) added
    /\ (forall x, x ∈ rBs -> Cnf.is_unit x = false -> x ∈ rs ++ added).
Proof.
  revert rs changed.
  induction rBs as [ | rB rBs IH]; intros rs changed.
  - exists []. rewrite app_nil_r. split; [done | ]. split; [constructor | ].
    intros x Hx. by apply elem_of_nil in Hx.
  - cbn [fold_left]. unfold copy_step at 2. rewrite copied_by_unit_spec.
    destruct (Cnf.is_unit rB) eqn:Hunit; simpl.
    + destruct (IH rs changed) as (added & Heq & Hall & Hin).
      exists added. split; [done | ]. split.
      * eapply Forall_impl; [exact Hall | ]. intros x [? ?].
        split; [done | by apply list_elem_of_further].
      * intros x Hx Hx'. apply elem_of_cons in Hx as [-> | Hx]; [congruence | auto].
    + destruct (py_in rB rs) eqn:Hpy.
      * destruct (IH rs changed) as (added & Heq & Hall & Hin).
        exists added. split; [done | ]. split.
        -- eapply Forall_impl; [exact Hall | ]. intros x [? ?].
           split; [done | by apply list_elem_of_further].
        -- intros x Hx Hx'. apply elem_of_cons in Hx as [-> | Hx]; [ | auto].
           apply elem_of_app. left. by apply py_in_true.
      * destruct (IH (rs ++ [rB]) true) as (added & Heq & Hall & Hin).
        exists (rB :: added). rewrite Heq, <- app_assoc. split; [done | ]. split.
        -- constructor; [split; [done | apply list_elem_of_here] | ].
           eapply Forall_impl; [exact Hall | ]. intros x [? ?].
           split; [done | by apply list_elem_of_further].
        -- intros x Hx Hx'. apply elem_of_cons in Hx as [-> | Hx].
           ++ apply elem_of_app. right. apply list_elem_of_here.
           ++ specialize (Hin x Hx Hx'). by rewrite <- app_assoc in Hin.
Qed.

Lemma list_remove_first_middle {A} `{EqDecision A} (x : A) l1 l2 :
  x ∉ l1 -> list_remove_first x (l1 ++ x :: l2) = l1 ++ l2.
Proof.
  induction l1 as [ | y l1 IH]; simpl.
  - intros _. by rewrite decide_True.
  - rewrite not_elem_of_cons. intros [Hne Hnotin].
    rewrite decide_False by done. by rewrite IH.
Qed.

Lemma elem_of_List_filter {A} (f : A -> bool) (l : list A) x :
  x ∈ List.filter f l <-> x ∈ l /\ f x = true.
Proof. rewrite !list_elem_of_In. apply filter_In. Qed.

Lemma kept_by_unit_false A r :
  kept_by_unit A r = false <-> Cnf.is_unit r = true /\ r ≠ [A].
Proof.
  unfold kept_by_unit. destruct (Cnf.is_unit r); simpl.
  - rewrite bool_decide_eq_false. split; [by intros ? | by intros [_ ?]].
  - split; [done | by intros [? _]].
Qed.

Lemma kept_by_unit_true A r :
  kept_by_unit A r = true <-> Cnf.is_unit r = false \/ r = [A].
Proof.
  unfold kept_by_unit. destruct (Cnf.is_unit r); simpl.
  - rewrite bool_decide_eq_true. split; [by right | by intros [? | ?]].
  - split; [by left | done].
Qed.

(** A rule that is not a unit rule to another variable leaves the state
    alone. *)
Lemma key_step_kept g A st r : kept_by_unit A r = true -> key_step g A st r = st.
Proof.
  intros H. apply kept_by_unit_true in H. unfold key_step.
  destruct r as [ | B [ | ? ?]]; try done.
  destruct (Cnf.is_variable B) eqn:HB; [ | done].
  case_bool_decide; [done | ].
  destruct H as [H | H]; [simpl in H; congruence | congruence].
Qed.

Lemma unit_step_kept g A st r :
  kept_by_unit A r = true -> Cnf.unit_step g A r st = st.
Proof.
  intros H. apply kept_by_unit_true in H. unfold Cnf.unit_step.
  destruct r as [ | B [ | ? ?]]; try done.
  destruct (Cnf.is_variable B) eqn:HB; [ | done].
  case_bool_decide; [done | ].
  destruct H as [H | H]; [simpl in H; congruence | congruence].
Qed.

Lemma key_fold_shape g A todo :
  forall done extras changed,
    Forall (fun x => Cnf.is_unit x = false) extras ->
    exists extras',
      (fold_left (key_step g A) todo
         (List.filter (kept_by_unit A) done ++ todo ++ extras, changed)).1
      = List.filter (kept_by_unit A) (done ++ todo) ++ extras'
      /\ Forall (fun x => Cnf.is_unit x = false) extras'
      /\ (forall x, x ∈ extras' ->
            x ∈ extras
            \/ exists B, [B] ∈ todo /\ Cnf.is_variable B = true /\ B ≠ A
                         /\ x ∈ dict_get_list g B)
      /\ (forall x, x ∈ extras -> x ∈ extras')
      /\ (forall B x,
            [B] ∈ todo -> Cnf.is_variable B = true -> B ≠ A ->
            x ∈ dict_get_list g B -> Cnf.is_unit x = false ->
            x ∈ List.filter (kept_by_unit A) (done ++ todo) ++ extras').
Proof.
  induction todo as [ | r todo IH]; intros done extras changed Hex.
  - exists extras. simpl. rewrite !app_nil_r. split; [done | ].
    split; [done | ]. split; [by left | ]. split; [done | ].
    intros B x HB. by apply elem_of_nil in HB.
  - cbn [fold_left].
    destruct (kept_by_unit A r) eqn:Hkeep.
    + rewrite key_step_kept by done.
      destruct (IH (done ++ [r]) extras changed Hex)
        as (extras' & Heq & Hunit & Hfrom & Hto & Hcopied).
      rewrite List.filter_app in Heq. cbn [List.filter] in Heq.
      rewrite Hkeep in Heq. rewrite <- !app_assoc in Heq. cbn [app] in Heq.
      rewrite <- app_assoc in Hcopied. cbn [app] in Hcopied.
      exists extras'. split; [done | ]. split; [done | ]. split; [ | split; [done | ]].
      * intros x Hx. destruct (Hfrom x Hx) as [? | (B & ? & ?)]; [by left | ].
        right. exists B. split; [by apply list_elem_of_further | done].
      * intros B x HB Hvar Hne Hx Hux.
        apply elem_of_cons in HB as [HB | HB]; [ | by eauto].
        exfalso. subst r. apply kept_by_unit_true in Hkeep as [Hk | Hk].
        -- simpl in Hk. congruence.
        -- congruence.
    + pose proof Hkeep as Hk. apply kept_by_unit_false in Hk as [Hunit_r Hne_r].
      destruct r as [ | B [ | ? ?]]; try discriminate Hunit_r.
      simpl in Hunit_r. unfold key_step at 2. rewrite Hunit_r.
      rewrite bool_decide_false by (by intros ->).
      match goal with
      | |- context [fold_left copy_step ?l (?c, ?ch)] =>
          destruct (copy_fold_shape l c ch) as (added & Hadd & Hadded & Hall);
          destruct (fold_left copy_step l (c, ch)) as [rs1 ch1]
      end.
      simpl in Hadd. subst rs1.
      match goal with
      | |- context [@py_in ?T ?E ?x ?l] => assert (@py_in T E x l = true) as ->
      end.
      { apply py_in_true. rewrite !elem_of_app. left. right.
        apply list_elem_of_here. }
      match goal with
      | |- context [@list_remove_first ?T ?E ?x ?l] =>
          assert (@list_remove_first T E x l
                  = List.filter (kept_by_unit A) (done ++ [[B]]) ++ todo
                    ++ (extras ++ added)) as ->
      end.
      { rewrite <- !app_assoc. cbn [app].
        rewrite list_remove_first_middle.
        - rewrite List.filter_app. cbn [List.filter]. rewrite Hkeep.
          by rewrite app_nil_r, <- !app_assoc.
        - intros Hin. apply elem_of_List_filter in Hin as [_ Hin]. congruence. }
      destruct (IH (done ++ [[B]]) (extras ++ added) true)
        as (extras' & Heq & Hunit & Hfrom & Hto & Hcopied).
      { apply Forall_app. split; [done | ].
        eapply Forall_impl; [exact Hadded | ]. by intros x [? _]. }
      rewrite <- app_assoc in Heq, Hcopied. cbn [app] in Heq, Hcopied.
      exists extras'. split; [done | ]. split; [done | ]. split; [ | split].
      * intros x Hx. destruct (Hfrom x Hx) as [Hx' | (B' & ? & ?)].
        -- apply elem_of_app in Hx' as [? | Hx']; [by left | ].
           right. exists B. split; [apply list_elem_of_here | ].
           split; [done | ]. split; [by intros -> | ].
           rewrite Forall_forall in Hadded. by apply Hadded.
        -- right. exists B'. split; [by apply list_elem_of_further | done].
      * intros x Hx. apply Hto. apply elem_of_app. by left.
      * intros B' x HB' Hvar Hne Hx Hux.
        apply elem_of_cons in HB' as [HB' | HB']; [ | by eauto].
        injection HB' as ->.
        specialize (Hall x Hx Hux).
        rewrite !elem_of_app in Hall. rewrite elem_of_cons in Hall.
        rewrite elem_of_app.
        destruct Hall as [[Hin | [[Hin | Hin] | Hin]] | Hin].
        -- left. apply elem_of_List_filter in Hin as [Hin ?].
           apply elem_of_List_filter. split; [ | done].
           apply elem_of_app. by left.
        -- subst x. simpl in Hux. congruence.
        -- left. apply elem_of_List_filter. split.
           ++ apply elem_of_app. right. by apply list_elem_of_further.
           ++ apply kept_by_unit_true. by left.
        -- right. apply Hto. apply elem_of_app. by left.
        -- right. apply Hto. apply elem_of_app. by right.
Qed.

(** What a pass makes of the rules of [A]. *)
Lemma key_rules_spec g A rules r :
  r ∈ key_rules g A rules
  <-> (r ∈ rules /\ (Cnf.is_unit r = false \/ r = [A]))
      \/ (exists B, [B] ∈ rules /\ Cnf.is_variable B = true /\ B ≠ A
                    /\ r ∈ dict_get_list g B /\ Cnf.is_unit r = false).
Proof.
  unfold key_rules.
  destruct (key_fold_shape g A rules [] [] false)
    as (extras & Heq & Hunit & Hfrom & _ & Hcopied); [constructor | ].
  simpl in Heq. rewrite app_nil_r in Heq. rewrite Heq.
  simpl in Hcopied. rewrite elem_of_app, elem_of_List_filter, kept_by_unit_true.
  split.
  - intros [? | Hin]; [by left | ].
    destruct (Hfrom r Hin) as [Hnil | (B & ? & ? & ? & ?)].
    + by apply elem_of_nil in Hnil.
    + right. exists B. repeat split; try done.
      rewrite Forall_forall in Hunit. by apply Hunit.
  - intros [? | (B & HB & Hvar & Hne & Hr & Hu)]; [by left | ].
    specialize (Hcopied B r HB Hvar Hne Hr Hu).
    by rewrite elem_of_app, elem_of_List_filter, kept_by_unit_true in Hcopied.
Qed.

(** Without unit rules to other variables a pass changes nothing. *)
Lemma unit_pass_fixed g :
  (forall A rules r, (A, rules) ∈ g -> r ∈ rules -> kept_by_unit A r = true) ->
  Cnf.unit_pass g = (g, false).
Proof.
  intros Hkept. unfold Cnf.unit_pass.
  assert (forall (suf : grammar) st,
            (forall A rules, (A, rules) ∈ suf -> (A, rules) ∈ g) ->
            fold_left
              (fun st '(A, rules) =>
                 fold_left (fun st r => Cnf.unit_step g A r st) rules st)
              suf st = st) as Hsuf.
  { induction suf as [ | [A rules] suf IH]; intros st Hsub; [done | ].
    cbn [fold_left].
    assert (forall (rs : list rule) st,
              (forall r, r ∈ rs -> r ∈ rules) ->
              fold_left (fun st r => Cnf.unit_step g A r st) rs st = st) as Hrs.
    { induction rs as [ | r rs IHrs]; intros st' Hin; [done | ].
      cbn [fold_left]. rewrite unit_step_kept.
      - apply IHrs. intros r' Hr'. apply Hin. by apply list_elem_of_further.
      - apply (Hkept A rules); [apply Hsub | apply Hin]; apply list_elem_of_here. }
    rewrite Hrs by done. apply IH. intros A' rules' Hin.
    apply Hsub. by apply list_elem_of_further. }
  by apply Hsuf.
Qed.

Lemma unit_pass_result_kept g A rules r :
  NoDup (dict_keys g) ->
  (A, rules) ∈ (Cnf.unit_pass g).1 -> r ∈ rules -> kept_by_unit A r = true.
Proof.
  intros Hnd Hin Hr. rewrite unit_pass_rules in Hin by done.
  apply list_elem_of_fmap in Hin as ([A' rules'] & [= -> ->] & Hin).
  apply kept_by_unit_true.
  apply key_rules_spec in Hr as [[_ ?] | (B & _ & _ & _ & _ & ?)]; [done | by left].
Qed.

Lemma unit_pass_keys g :
  NoDup (dict_keys g) -> dict_keys (Cnf.unit_pass g).1 = dict_keys g.
Proof.
  intros Hnd. rewrite unit_pass_rules by done. unfold dict_keys.
  rewrite <- list_fmap_compose. apply list_fmap_ext. by intros i [A rules].
Qed.

(** Two passes are enough: the second one finds nothing to do. *)
Lemma unit_loop_two_passes fuel g :
  NoDup (dict_keys g) ->
  Cnf.unit_loop (S (S fuel)) g = Ok (Cnf.unit_pass g).1.
Proof.
  intros Hnd. cbn [Cnf.unit_loop].
  destruct (Cnf.unit_pass g) as [g1 changed] eqn:Hpass.
  destruct changed; [ | done].
  rewrite unit_pass_fixed; [done | ].
  intros A rules r Hin Hr.
  apply (unit_pass_result_kept g A rules r Hnd); [ | done]. by rewrite Hpass.
Qed.

Lemma eliminate_units_pass g :
  NoDup (dict_keys g) -> Cnf.eliminate_units g = Ok (Cnf.unit_pass g).1.
Proof. intros Hnd. by apply (unit_loop_two_passes (length g)). Qed.

(** C5 (as amended).  On a dictionary (pairwise distinct keys) unit
    elimination returns a grammar with the same keys on which a further
    pass changes nothing.  For every unit rule [A -> B] with [B] distinct
    from [A], every rule of [B] that is not a unit rule is a rule of [A]
    in the result -- the rules of [B] that consist of one terminal among
    them -- while no unit rule [A -> B] is left; the rules of [A] that
    are not unit rules stay. *)
Theorem eliminate_units_spec g :
  NoDup (dict_keys g) ->
  exists g',
    Cnf.eliminate_units g = Ok g'
    /\ Cnf.unit_pass g' = (g', false)
    /\ dict_keys g' = dict_keys g
    /\ forall A rules,
         dict_get g A = Some rules ->
         exists rules',
           dict_get g' A = Some rules'
           /\ (forall r, r ∈ rules -> Cnf.is_unit r = false -> r ∈ rules')
           /\ (forall B, Cnf.is_variable B = true -> B ≠ A -> [B] ∉ rules')
           /\ (forall B r,
                 [B] ∈ rules -> Cnf.is_variable B = true -> B ≠ A ->
                 r ∈ dict_get_list g B -> Cnf.is_unit r = false ->
                 r ∈ rules').
Proof.
  intros Hnd. exists (Cnf.unit_pass g).1.
  split; [by apply eliminate_units_pass | ].
  split.
  { apply unit_pass_fixed. intros A rules r Hin Hr.
    by apply (unit_pass_result_kept g A rules r Hnd). }
  split; [by apply unit_pass_keys | ].
  intros A rules Hget. exists (key_rules g A rules). split.
  { apply dict_get_NoDup.
    - by rewrite unit_pass_keys.
    - rewrite unit_pass_rules by done. apply list_elem_of_fmap.
      exists (A, rules). split; [done | by apply dict_get_Some_elem]. }
  split; [ | split].
  - intros r Hr Hu. apply key_rules_spec. left. by auto.
  - intros B HB Hne Hin.
    assert (Cnf.is_unit [B] = true) as Hunit.
    { unfold Cnf.is_unit. cbn. by rewrite HB. }
    apply key_rules_spec in Hin as [[_ [Hu | [= ->]]] | (B' & _ & _ & _ & _ & Hu)];
      [congruence | done | congruence].
  - intros B r HB Hvar Hne Hr Hu. apply key_rules_spec. right.
    exists B. by auto.
Qed.

Lemma eliminate_units_spec_witness :
  exists g',
    Cnf.eliminate_units g_unit_chain = Ok g'
    /\ Cnf.unit_pass g' = (g', false)
    /\ dict_keys g' = dict_keys g_unit_chain
    /\ forall A rules,
         dict_get g_unit_chain A = Some rules ->
         exists rules',
           dict_get g' A = Some rules'
           /\ (forall r, r ∈ rules -> Cnf.is_unit r = false -> r ∈ rules')
           /\ (forall B, Cnf.is_variable B = true -> B ≠ A -> [B] ∉ rules')
           /\ (forall B r,
                 [B] ∈ rules -> Cnf.is_variable B = true -> B ≠ A ->
                 r ∈ dict_get_list g_unit_chain B -> Cnf.is_unit r = false ->
                 r ∈ rules').
Proof.
  apply (eliminate_units_spec g_unit_chain).
  unfold g_unit_chain, dict_keys. csimpl.
  apply NoDup_cons. split.
  - intros H. apply list_elem_of_singleton in H. discriminate H.
  - apply NoDup_singleton.
Defined.

(** C5, counterexample.  For [S -> A], [A -> a] the one-terminal rule
    [a] of [A] is copied into [S]. *)
Lemma eliminate_units_copies_terminal_rule :
  Cnf.eliminate_units g_unit_chain = Ok [("S", [["a"]]); ("A", [["a"]])]
  /\ (["A"] ∈ dict_get_list g_unit_chain "S")
  /\ (["a"] ∈ dict_get_list g_unit_chain "A")
  /\ (["a"] ∉ dict_get_list g_unit_chain "S")
  /\ (["a"] ∈ dict_get_list [("S", [["a"]]); ("A", [["a"]])] "S").
Proof.
  split; [reflexivity | ]. vm_compute.
  split; [apply list_elem_of_here | ]. split; [apply list_elem_of_here | ].
  split; [ | apply list_elem_of_here].
  intros H. apply list_elem_of_singleton in H. discriminate H.
Qed.

(** ** C3: the shape of the converted grammar *)

Lemma X_name_is_variable n : Cnf.is_variable (Cnf.X_name n) = true.
Proof. reflexivity. Qed.

Lemma fresh_var_from_is_variable fuel c all_vars v c' :
  Cnf.fresh_var_from fuel c all_vars = Ok (v, c') -> Cnf.is_variable v = true.
Proof.
  revert c. induction fuel as [ | fuel IH]; intros c; simpl; [done | ].
  destruct (py_in _ all_vars); [apply IH | ].
  intros [= <- _]. apply X_name_is_variable.
Qed.

Lemma fresh_var_spec st v st' :
  Cnf.fresh_var st = Ok (v, st') ->
  Cnf.is_variable v = true
  /\ Cnf.term_map st' = Cnf.term_map st
  /\ Cnf.nonterm_map st' = Cnf.nonterm_map st
  /\ Cnf.final st' = Cnf.final st.
Proof.
  unfold Cnf.fresh_var. intros H.
  apply bind_Ok in H as ([v0 c] & Hfresh & H). injection H as <- <-.
  split; [by eapply fresh_var_from_is_variable | done].
Qed.

Lemma is_cnf_rule_not_unit r : is_cnf_rule r = true -> Cnf.is_unit r = false.
Proof.
  destruct r as [ | s [ | ? ?]]; simpl; try done.
  by destruct (Cnf.is_variable s).
Qed.

Section BinarizeInvariant.
Variable liftable : symbol -> Prop.
Variable unary : string -> symbol -> Prop.
Local Abbreviation inv := (bin_inv liftable unary).

Lemma get_term_var_inv t st v st' :
  Cnf.is_variable t = false -> liftable t ->
  inv st -> Cnf.get_term_var t st = Ok (v, st') ->
  inv st' /\ Cnf.is_variable v = true.
Proof.
  intros Ht Hlift Hinv. unfold Cnf.get_term_var. intros H.
  apply bind_Ok in H as (st1 & Hst1 & H).
  apply bind_Ok in H as (v1 & Hv1 & H). injection H as <- <-.
  assert (inv st1) as Hinv1.
  { destruct (dict_mem (Cnf.term_map st) t); [by injection Hst1 as <- | ].
    apply bind_Ok in Hst1 as ([v0 st0] & Hfresh & Hst1). injection Hst1 as <-.
    apply fresh_var_spec in Hfresh as (Hv0 & Htm & Hnm & Hfin).
    destruct Hinv as [Hi1 Hi2 Hi3]. split; simpl.
    - intros t' v' Hin. apply elem_of_dict_set in Hin as [Hin | [_ ->]]; [ | done].
      rewrite Htm in Hin. eauto.
    - intros v' t' Hin. apply elem_of_dict_set in Hin as [Hin | [_ ->]]; [ | done].
      rewrite Hnm in Hin. eauto.
    - rewrite Hfin. eauto. }
  split; [done | ].
  unfold dict_getitem in Hv1.
  destruct (dict_get (Cnf.term_map st1) t) as [v' | ] eqn:Hget; [ | done].
  injection Hv1 as <-. apply dict_get_Some_elem in Hget.
  by eapply inv_term_map.
Qed.

Lemma lift_inv s st s' st' :
  (Cnf.is_variable s = false -> liftable s) ->
  inv st -> Cnf.lift s st = Ok (s', st') ->
  inv st' /\ Cnf.is_variable s' = true.
Proof.
  intros Hlift Hinv. unfold Cnf.lift.
  destruct (Cnf.is_variable s) eqn:Hs.
  - by intros [= <- <-].
  - apply get_term_var_inv; auto.
Qed.

Lemma with_final_inv st f :
  inv st ->
  (forall A rs r, (A, rs) ∈ f -> r ∈ rs ->
                  is_cnf_rule r = true /\ (forall t, r = [t] -> unary A t)) ->
  inv (Cnf.with_final st f).
Proof. intros [Hi1 Hi2 Hi3] Hf. by split. Qed.

Lemma final_append_inv A r st st' :
  is_cnf_rule r = true -> (forall t, r = [t] -> unary A t) ->
  inv st -> Cnf.final_append A r st = Ok st' -> inv st'.
Proof.
  intros Hr Hun Hinv. unfold Cnf.final_append. intros H.
  apply bind_Ok in H as (rs & Hrs & H). injection H as <-.
  apply with_final_inv; [done | ].
  intros A' rs' r' Hin Hr'.
  apply elem_of_dict_set in Hin as [Hin | [-> ->]].
  - by eapply inv_final.
  - apply elem_of_app in Hr' as [Hr' | Hr'].
    + unfold dict_getitem in Hrs.
      destruct (dict_get (Cnf.final st) A) as [rs0 | ] eqn:Hget; [ | done].
      injection Hrs as <-. apply dict_get_Some_elem in Hget.
      by eapply inv_final.
    + apply list_elem_of_singleton in Hr'. by subst r'.
Qed.

Lemma binarize_chain_inv chain :
  forall current st st',
    2 <= length chain ->
    Forall (fun s => Cnf.is_variable s = false -> liftable s) chain ->
    inv st -> Cnf.binarize_chain current chain st = Ok st' -> inv st'.
Proof.
  induction chain as [ | s chain IH]; intros current st st' Hlen Hall Hinv H.
  - simpl in Hlen. lia.
  - apply Forall_cons in Hall as [Hs Hall].
    destruct chain as [ | s2 [ | s3 chain]].
    + simpl in Hlen. lia.
    + cbn [Cnf.binarize_chain] in H.
      apply Forall_cons in Hall as [Hs2 _].
      apply bind_Ok in H as ([l' st1] & Hl & H).
      apply bind_Ok in H as ([r' st2] & Hr & H).
      apply lift_inv in Hl as [Hinv1 Hl']; [ | done | done].
      apply lift_inv in Hr as [Hinv2 Hr']; [ | done | done].
      eapply final_append_inv; [ | | exact Hinv2 | exact H].
      * simpl. by rewrite Hl', Hr'.
      * intros t Ht. discriminate Ht.
    + cbn [Cnf.binarize_chain] in H.
      apply bind_Ok in H as ([s' st1] & Hl & H).
      apply bind_Ok in H as ([new_var st2] & Hfresh & H).
      apply lift_inv in Hl as [Hinv1 Hs']; [ | done | done].
      apply fresh_var_spec in Hfresh as (Hnew & Htm & Hnm & Hfin).
      eapply (IH new_var); [simpl; lia | exact Hall | | exact H].
      destruct Hinv1 as [Hi1 Hi2 Hi3].
      split; cbn [Cnf.with_final Cnf.term_map Cnf.nonterm_map Cnf.final].
      * rewrite Htm. eauto.
      * rewrite Hnm. eauto.
      * rewrite Hfin. intros A rs r Hin Hr.
        unfold dict_setdefault in Hin.
        assert (forall A rs r,
                  (A, rs) ∈ (if dict_mem (Cnf.final st1) current
                             then Cnf.final st1
                             else dict_set (Cnf.final st1) current []) ->
                  r ∈ rs ->
                  is_cnf_rule r = true /\ (forall t, r = [t] -> unary A t))
          as Hf1.
        { intros A0 rs0 r0 Hin0 Hr0.
          destruct (dict_mem (Cnf.final st1) current); [by eauto | ].
          apply elem_of_dict_set in Hin0 as [Hin0 | [_ ->]]; [by eauto | ].
          by apply elem_of_nil in Hr0. }
        match type of Hin with
        | _ ∈ (if ?b then ?x else _) => destruct b
        end.
        -- apply elem_of_dict_set in Hin as [Hin | [-> ->]]; [by eauto | ].
           apply elem_of_app in Hr as [Hr | Hr].
           ++ unfold dict_get_list in Hr.
              match type of Hr with
              | _ ∈ default [] (dict_get ?d ?k) =>
                  destruct (dict_get d k) as [rs0 | ] eqn:Hget
              end.
              ** apply dict_get_Some_elem in Hget. by eapply Hf1.
              ** by apply elem_of_nil in Hr.
           ++ apply list_elem_of_singleton in Hr. subst r. split.
              ** simpl. by rewrite Hs', Hnew.
              ** intros t Ht. discriminate Ht.
        -- apply elem_of_dict_set in Hin as [Hin | [-> ->]].
           2: { by apply elem_of_nil in Hr. }
           apply elem_of_dict_set in Hin as [Hin | [-> ->]]; [by eauto | ].
           apply elem_of_app in Hr as [Hr | Hr].
           ++ unfold dict_get_list in Hr.
              match type of Hr with
              | _ ∈ default [] (dict_get ?d ?k) =>
                  destruct (dict_get d k) as [rs0 | ] eqn:Hget
              end.
              ** apply dict_get_Some_elem in Hget. by eapply Hf1.
              ** by apply elem_of_nil in Hr.
           ++ apply list_elem_of_singleton in Hr. subst r. split.
              ** simpl. by rewrite Hs', Hnew.
              ** intros t Ht. discriminate Ht.
Qed.

Lemma binarize_rule_inv A r st st' :
  rule_admissible liftable unary A r ->
  inv st -> Cnf.binarize_rule A r st = Ok st' -> inv st'.
Proof.
  intros [Hun Hlift] Hinv H. unfold Cnf.binarize_rule in H.
  destruct r as [ | s1 [ | s2 [ | s3 r]]].
  - discriminate H.
  - destruct (Cnf.is_variable s1) eqn:Hs1; simpl in H; [discriminate H | ].
    eapply final_append_inv; [ | | exact Hinv | exact H].
    + simpl. by rewrite Hs1.
    + intros t [= <-]. by apply Hun.
  - specialize (Hlift ltac:(simpl; lia)).
    apply Forall_cons in Hlift as [H1 Hlift]. apply Forall_cons in Hlift as [H2 _].
    apply bind_Ok in H as ([s1' st1] & Hl1 & H).
    apply bind_Ok in H as ([s2' st2] & Hl2 & H).
    apply lift_inv in Hl1 as [Hinv1 Hs1']; [ | done | done].
    apply lift_inv in Hl2 as [Hinv2 Hs2']; [ | done | done].
    eapply final_append_inv; [ | | exact Hinv2 | exact H].
    + simpl. by rewrite Hs1', Hs2'.
    + intros t Ht. discriminate Ht.
  - eapply binarize_chain_inv; [ | | exact Hinv | exact H].
    + simpl. lia.
    + apply Hlift. simpl. lia.
Qed.

Lemma binarize_inv g st st' :
  (forall A rules r, (A, rules) ∈ g -> r ∈ rules ->
                     rule_admissible liftable unary A r) ->
  inv st -> Cnf.binarize g st = Ok st' -> inv st'.
Proof.
  intros Hadm Hinv. unfold Cnf.binarize.
  apply (for_each_invariant inv (fun x => x ∈ g)); [ | | done].
  - intros [A rules] s s' Hin Hs.
    apply (for_each_invariant inv (fun r => r ∈ rules)).
    + intros r s1 s2 Hr Hs1. apply binarize_rule_inv; [ | done]. by eapply Hadm.
    + by apply Forall_forall.
    + apply with_final_inv; [done | ].
      intros A' rs' r' Hin' Hr'.
      apply elem_of_dict_set in Hin' as [Hin' | [_ ->]].
      * by eapply inv_final.
      * by apply elem_of_nil in Hr'.
  - by apply Forall_forall.
Qed.

End BinarizeInvariant.

(** The wrappers and the removal of empty rule lists. *)
Lemma add_wrappers_elem nm : forall (f : grammar) A rs r,
  (A, rs) ∈ Cnf.add_wrappers nm f -> r ∈ rs ->
  (exists rs0, (A, rs0) ∈ f /\ r ∈ rs0)
  \/ (exists t, r = [t] /\ (A, t) ∈ nm).
Proof.
  unfold Cnf.add_wrappers.
  induction nm as [ | [v t] nm IH]; intros f A rs r Hin Hr.
  - left. by exists rs.
  - cbn [fold_left] in Hin.
    destruct (IH _ A rs r Hin Hr) as [(rs0 & Hin0 & Hr0) | (t' & -> & Hin')].
    + apply elem_of_dict_set in Hin0 as [Hin0 | [-> ->]].
      * destruct (dict_mem f v); [left; by exists rs0 | ].
        apply elem_of_dict_set in Hin0 as [Hin0 | [_ ->]]; [left; by exists rs0 | ].
        by apply elem_of_nil in Hr0.
      * apply elem_of_app in Hr0 as [Hr0 | Hr0].
        -- unfold dict_get_list in Hr0.
           match type of Hr0 with
           | _ ∈ default [] (dict_get ?d ?k) =>
               destruct (dict_get d k) as [rs1 | ] eqn:Hget
           end; [ | by apply elem_of_nil in Hr0].
           apply dict_get_Some_elem in Hget.
           destruct (dict_mem f v); [left; by exists rs1 | ].
           apply elem_of_dict_set in Hget as [Hget | [_ ->]]; [left; by exists rs1 | ].
           by apply elem_of_nil in Hr0.
        -- apply list_elem_of_singleton in Hr0. subst r.
           right. exists t. split; [done | apply list_elem_of_here].
    + right. exists t'. split; [done | by apply list_elem_of_further].
Qed.

Lemma drop_empty_elem f A rs : (A, rs) ∈ Cnf.drop_empty f -> (A, rs) ∈ f.
Proof. unfold Cnf.drop_empty. intros H. by apply elem_of_List_filter in H as [? _]. Qed.

Lemma initial_bin_inv liftable unary all_vars :
  bin_inv liftable unary (Cnf.BinState 1 all_vars [] [] []).
Proof.
  split; simpl.
  - intros t v H. by apply elem_of_nil in H.
  - intros v t H. by apply elem_of_nil in H.
  - intros A rs r H. by apply elem_of_nil in H.
Qed.

(** Every rule of the grammar built from a binarization state that
    satisfies the invariant is in normal form; the one-symbol rules are the
    admissible ones and the wrappers. *)
Lemma assembled_grammar_rules liftable unary st A rs r :
  bin_inv liftable unary st ->
  (A, rs) ∈ Cnf.drop_empty (Cnf.add_wrappers (Cnf.nonterm_map st) (Cnf.final st)) ->
  r ∈ rs ->
  is_cnf_rule r = true
  /\ (forall t, r = [t] -> unary A t \/ liftable t).
Proof.
  intros Hinv Hin Hr. apply drop_empty_elem in Hin.
  destruct (add_wrappers_elem _ _ _ _ _ Hin Hr)
    as [(rs0 & Hin0 & Hr0) | (t & -> & Hnm)].
  - destruct (inv_final _ _ _ Hinv _ _ _ Hin0 Hr0) as [? Hun].
    split; [done | ]. intros t Ht. left. by apply Hun.
  - destruct (inv_nonterm_map _ _ _ Hinv _ _ Hnm) as [Hvar Hlift].
    split; [simpl; by rewrite Hvar | ]. intros t' [= <-]. by right.
Qed.

Lemma fold_left_invariant {A S} (P : S -> Prop) (Q : A -> Prop)
    (f : S -> A -> S) xs s :
  (forall x s, Q x -> P s -> P (f s x)) ->
  Forall Q xs -> P s -> P (fold_left f xs s).
Proof.
  intros Hf. revert s. induction xs as [ | x xs IH]; intros s HQ HP; [done | ].
  apply Forall_cons in HQ as [HQx HQ]. simpl. auto.
Qed.

Lemma elem_of_dict_update {V} (d : dict V) k f k' v' :
  (k', v') ∈ dict_update d k f ->
  (k', v') ∈ d \/ (k' = k /\ exists v, (k, v) ∈ d /\ v' = f v).
Proof.
  unfold dict_update. destruct (dict_get d k) as [v | ] eqn:Hget; [ | by left].
  intros H. apply elem_of_dict_set in H as [? | [-> ->]]; [by left | ].
  right. split; [done | ]. exists v. split; [by apply dict_get_Some_elem | done].
Qed.

Lemma dict_keys_update {V} (d : dict V) k f :
  dict_keys (dict_update d k f) = dict_keys d.
Proof.
  unfold dict_update. destruct (dict_get d k) as [v | ] eqn:Hget; [ | done].
  rewrite dict_keys_set.
  assert (dict_mem d k = true) as ->; [ | done].
  unfold dict_mem. by rewrite Hget.
Qed.

(** *** Epsilon elimination *)

Lemma nullable_subsets_symbols (P : symbol -> Prop) nl r :
  Forall P r -> forall s, s ∈ Cnf.nullable_subsets nl r -> Forall P s.
Proof.
  unfold Cnf.nullable_subsets. intros Hr.
  apply (fold_left_invariant
           (fun subsets => forall s, s ∈ subsets -> Forall P s) P); [ | done | ].
  - intros sym subsets Hsym Hsub s Hs.
    apply list_elem_of_In, in_flat_map in Hs as (s0 & Hs0 & Hs).
    apply list_elem_of_In in Hs0, Hs. specialize (Hsub s0 Hs0).
    apply elem_of_cons in Hs as [-> | Hs].
    + apply Forall_app. split; [done | by apply Forall_singleton].
    + destruct (Cnf.is_variable sym && py_in sym nl).
      * apply list_elem_of_singleton in Hs. by subst s.
      * by apply elem_of_nil in Hs.
  - intros s Hs. apply list_elem_of_singleton in Hs. subst s. constructor.
Qed.

Lemma add_subsets_elem rules subsets r :
  r ∈ Cnf.add_subsets rules subsets -> r ∈ rules \/ r ∈ subsets.
Proof.
  unfold Cnf.add_subsets. revert rules.
  induction subsets as [ | s subsets IH]; intros rules; simpl; [by left | ].
  intros H. case_bool_decide.
  - destruct (IH _ H); [by left | right; by apply list_elem_of_further].
  - destruct (py_in s rules).
    + destruct (IH _ H); [by left | right; by apply list_elem_of_further].
    + destruct (IH _ H) as [Hin | Hin]; [ | right; by apply list_elem_of_further].
      apply elem_of_app in Hin as [? | Hin]; [by left | right].
      apply list_elem_of_singleton in Hin. subst. apply list_elem_of_here.
Qed.

(** Every rule after epsilon elimination is made of symbols of one rule of
    the same key that is not the ε rule. *)
Lemma eliminate_epsilon_rules g nl A rs r :
  (A, rs) ∈ Cnf.eliminate_epsilon g nl -> r ∈ rs ->
  exists rules r0,
    (A, rules) ∈ g /\ r0 ∈ rules /\ r0 ≠ eps_rule /\ forall s, s ∈ r -> s ∈ r0.
Proof.
  unfold Cnf.eliminate_epsilon. revert A rs r.
  set (P := fun ng : dict (list (list string)) =>
              forall A rs r, (A, rs) ∈ ng -> r ∈ rs ->
              exists rules r0,
                (A, rules) ∈ g /\ r0 ∈ rules /\ r0 ≠ eps_rule
                /\ forall s, s ∈ r -> s ∈ r0).
  apply (fold_left_invariant P (fun x => x ∈ g)).
  - intros [A rules] ng Hin Hng.
    apply (fold_left_invariant P (fun r0 : list string => r0 ∈ rules));
      [ | by apply Forall_forall | done].
    intros r0 ng' Hr0 Hng' A' rs' r' Hin' Hr'.
    case_bool_decide as Heps; [by eauto | ].
    apply elem_of_dict_update in Hin' as [? | [-> (rs0 & Hin0 & ->)]]; [by eauto | ].
    apply add_subsets_elem in Hr' as [? | Hr']; [by eauto | ].
    exists rules, r0. repeat split; try done.
    pose proof (nullable_subsets_symbols (fun s => s ∈ r0) nl r0) as Hsub.
    assert (Forall (fun s => s ∈ r0) r') as Hall.
    { apply Hsub; [by apply Forall_forall | done]. }
    rewrite Forall_forall in Hall. exact Hall.
  - by apply Forall_forall.
  - intros A rs r Hin Hr.
    apply list_elem_of_fmap in Hin as ([A' rules'] & [= -> ->] & _).
    by apply elem_of_nil in Hr.
Qed.

Lemma eliminate_epsilon_keys g nl :
  dict_keys (Cnf.eliminate_epsilon g nl) = dict_keys g.
Proof.
  unfold Cnf.eliminate_epsilon.
  set (P := fun ng : dict (list (list string)) => dict_keys ng = dict_keys g).
  apply (fold_left_invariant P (fun _ => True)).
  - intros [A rules] ng _ Hng.
    apply (fold_left_invariant P (fun _ : list string => True));
      [ | by apply Forall_forall | done].
    intros r0 ng' _ Hng'. case_bool_decide; [done | ].
    unfold P. by rewrite dict_keys_update.
  - by apply Forall_forall.
  - unfold P, dict_keys. rewrite <- list_fmap_compose.
    apply list_fmap_ext. by intros i [A rules].
Qed.

(** *** The new start variable *)

Lemma string_length_append (a b : string) :
  String.length (a +:+ b) = String.length a + String.length b.
Proof. induction a as [ | c a IH]; simpl; [done | by rewrite IH]. Qed.

Lemma new_start_loop_spec fuel (g : grammar) s r :
  Cnf.new_start_loop fuel g s = Ok r ->
  dict_mem g r = false /\ String.length s <= String.length r.
Proof.
  revert s. induction fuel as [ | fuel IH]; intros s; simpl.
  - destruct (dict_mem g s) eqn:E; [done | ]. intros [= <-]. by split.
  - destruct (dict_mem g s) eqn:E.
    + intros H. apply IH in H as [? Hlen]. split; [done | ].
      rewrite string_length_append in Hlen. lia.
    + intros [= <-]. by split.
Qed.

Lemma introduce_start_spec g start nl av g2 cs av2 :
  Cnf.introduce_start g start nl av = Ok (g2, cs, av2) ->
  (g2 = g /\ cs = start)
  \/ (g2 = dict_set g cs [[start]; eps_rule]
      /\ dict_mem g cs = false /\ cs ≠ start).
Proof.
  unfold Cnf.introduce_start. destruct (py_in start nl).
  - intros H. apply bind_Ok in H as (S_new & Hloop & H).
    injection H as <- <- <-. right.
    apply new_start_loop_spec in Hloop as [Hmem Hlen].
    split; [done | ]. split; [done | ]. intros ->.
    rewrite string_length_append in Hlen. simpl in Hlen. lia.
  - intros [= <- <- <-]. by left.
Qed.

(** *** Unit elimination keeps ε where it is *)

Lemma unit_pass_confined owner g :
  NoDup (dict_keys g) ->
  eps_confined owner g ->
  (forall S A rules,
     owner = Some S -> (A, rules) ∈ g -> [S] ∈ rules ->
     Cnf.is_variable S = true -> S = A) ->
  eps_confined owner (Cnf.unit_pass g).1.
Proof.
  intros Hnd Hconf Hown A rs r Hin Hr Heps.
  rewrite unit_pass_rules in Hin by done.
  apply list_elem_of_fmap in Hin as ([A' rules] & [= -> ->] & Hin).
  apply key_rules_spec in Hr
    as [[Hr _] | (B & HB & Hvar & Hne & Hr & _)]; [by eauto | ].
  exfalso. unfold dict_get_list in Hr.
  destruct (dict_get g B) as [rsB | ] eqn:Hget; [ | by apply elem_of_nil in Hr].
  apply dict_get_Some_elem in Hget.
  destruct (Hconf B rsB r Hget Hr Heps) as [_ Howner].
  apply Hne. by apply (Hown B A' rules).
Qed.

(** C3 (as amended).  In every grammar returned by [convert_to_cnf] each
    rule is one symbol that is not a variable or two variables, so no unit
    production remains.  When, moreover, the input is a dictionary whose
    rules use ε only as the whole rule [[ε]] and whose variable symbols are
    all keys, a rule [[ε]] of the result belongs to the returned start
    variable, and that variable is fresh: it is no key of the input. *)
Theorem convert_to_cnf_shape g start res A rules r :
  Cnf.convert_to_cnf g start = Ok res ->
  (A, rules) ∈ Cnf.res_grammar res ->
  r ∈ rules ->
  is_cnf_rule r = true
  /\ Cnf.is_unit r = false
  /\ (NoDup (dict_keys g) -> epsilon_only_alone g -> rhs_closed g ->
      r = eps_rule ->
      A = Cnf.res_start_var res /\ A ∉ dict_keys g).
Proof.
  unfold Cnf.convert_to_cnf. intros H Hin Hr.
  apply bind_Ok in H as (nl & _ & H).
  apply bind_Ok in H as ([[g2 cs] av] & Hstart & H).
  apply bind_Ok in H as (g3 & Hunits & H).
  apply bind_Ok in H as (st & Hbin & H).
  injection H as <-. cbn [Cnf.res_grammar Cnf.res_start_var] in *.
  assert (is_cnf_rule r = true) as Hshape.
  { eapply (binarize_inv (fun _ => True) (fun _ _ => True)) in Hbin.
    - by destruct (assembled_grammar_rules _ _ _ _ _ _ Hbin Hin Hr).
    - intros A0 rules0 r0 _ _. split; [done | ]. intros _.
      by apply Forall_forall.
    - apply initial_bin_inv. }
  split; [done | ]. split; [by apply is_cnf_rule_not_unit | ].
  intros Hnd Halone Hclosed ->.
  set (g1 := Cnf.eliminate_epsilon g nl) in *.
  (* after epsilon elimination *)
  assert (dict_keys g1 = dict_keys g) as Hkeys1
    by apply eliminate_epsilon_keys.
  assert (eps_confined None g1) as Hconf1.
  { intros A0 rs0 r0 Hin0 Hr0 Heps. exfalso.
    destruct (eliminate_epsilon_rules _ _ _ _ _ Hin0 Hr0)
      as (rules0 & r1 & Hg & Hr1 & Hne & Hsub).
    apply Hne. eapply Halone; eauto. }
  assert (rhs_symbols (fun s => Cnf.is_variable s = true -> s ∈ dict_keys g) g1)
    as Hsym1.
  { intros A0 rs0 r0 s Hin0 Hr0 Hs Hvar.
    destruct (eliminate_epsilon_rules _ _ _ _ _ Hin0 Hr0)
      as (rules0 & r1 & Hg & Hr1 & _ & Hsub).
    eapply Hclosed; eauto. }
  (* with the new start variable *)
  assert (exists owner,
             eps_confined owner g2 /\ NoDup (dict_keys g2)
             /\ (forall S, owner = Some S -> S = cs /\ S ∉ dict_keys g)
             /\ (forall S A rules,
                   owner = Some S -> (A, rules) ∈ g2 -> [S] ∈ rules ->
                   Cnf.is_variable S = true -> S = A))
    as (owner & Hconf2 & Hnd2 & Howner & Hnounit).
  { apply introduce_start_spec in Hstart
      as [[-> ->] | (-> & Hmem & Hne)].
    - exists None. split; [done | ]. split; [by rewrite Hkeys1 | ].
      split; intros; discriminate.
    - apply dict_mem_false in Hmem. rewrite Hkeys1 in Hmem.
      exists (Some cs). split; [ | split; [ | split]].
      + intros A0 rs0 r0 Hin0 Hr0 Heps.
        apply elem_of_dict_set in Hin0 as [Hin0 | [-> ->]].
        * by destruct (Hconf1 _ _ _ Hin0 Hr0 Heps).
        * split; [ | done].
          apply elem_of_cons in Hr0 as [-> | Hr0].
          -- apply list_elem_of_singleton in Heps. by subst start.
          -- by apply list_elem_of_singleton in Hr0.
      + apply dict_keys_set_NoDup. by rewrite Hkeys1.
      + by intros S [= <-].
      + intros S A0 rs0 [= <-] Hin0 HS Hvar.
        apply elem_of_dict_set in Hin0 as [Hin0 | [-> _]]; [ | done].
        exfalso. apply Hmem.
        apply (Hsym1 A0 rs0 [cs] cs Hin0 HS); [apply list_elem_of_here | done]. }
  (* after unit elimination *)
  assert (eps_confined owner g3) as Hconf3.
  { rewrite eliminate_units_pass in Hunits by done. injection Hunits as <-.
    by apply unit_pass_confined. }
  (* binarization and wrappers *)
  eapply (binarize_inv (fun t => t ≠ epsilon)
            (fun A t => t = epsilon -> owner = Some A)) in Hbin.
  - destruct (assembled_grammar_rules _ _ _ _ _ _ Hbin Hin Hr) as [_ Hun].
    destruct (Hun epsilon eq_refl) as [Hown | Hne]; [ | done].
    by destruct (Howner A (Hown eq_refl)) as [-> ?].
  - intros A0 rules0 r0 Hin0 Hr0. split.
    + intros t -> ->.
      apply (Hconf3 A0 rules0 [epsilon] Hin0 Hr0). apply list_elem_of_here.
    + intros Hlen. apply Forall_forall. intros s Hs _ ->.
      destruct (Hconf3 A0 rules0 r0 Hin0 Hr0 Hs) as [-> _].
      simpl in Hlen. lia.
  - apply initial_bin_inv.
Qed.

Lemma convert_to_cnf_shape_witness :
  is_cnf_rule eps_rule = true
  /\ Cnf.is_unit eps_rule = false
  /\ "S'" = "S'" /\ "S'" ∉ dict_keys g_single_terminal.
Proof.
  destruct (convert_to_cnf_shape g_single_terminal "S"
              (Cnf.CnfResult [("S", [["a"]]); ("S'", [eps_rule; ["a"]])] "S'"
                 [] [])
              "S'" [eps_rule; ["a"]] eps_rule) as (H1 & H2 & H3).
  - reflexivity.
  - apply list_elem_of_further, list_elem_of_here.
  - apply list_elem_of_here.
  - split; [exact H1 | split; [exact H2 | ]]. apply H3.
    + apply NoDup_singleton.
    + intros A rules r HA Hr Heps.
      apply list_elem_of_singleton in HA. injection HA as -> ->.
      apply list_elem_of_singleton in Hr. subst r.
      apply list_elem_of_singleton in Heps. discriminate Heps.
    + intros A rules r s HA Hr Hs Hvar.
      apply list_elem_of_singleton in HA. injection HA as -> ->.
      apply list_elem_of_singleton in Hr. subst r.
      apply list_elem_of_singleton in Hs. subst s. discriminate Hvar.
    + reflexivity.
Defined.

(** C3, counterexample.  For [S -> a ε], which the validator returns
    unchanged, ε is lifted like any terminal: the result has the rule
    [[ε]] under the wrapper [X2], which is not the start variable. *)
Lemma convert_to_cnf_epsilon_under_wrapper :
  Parser.parse_cfg Parser.insertion_order "S" (JList [production "S" "a ε"])
    = Ok g_inner_epsilon
  /\ Cnf.convert_to_cnf g_inner_epsilon "S"
     = Ok (Cnf.CnfResult
             [("S", [["X1"; "X2"]]); ("S'", [eps_rule; ["X1"; "X2"]]);
              ("X1", [["a"]]); ("X2", [eps_rule])]
             "S'"
             [("a", "X1"); (epsilon, "X2")]
             [("X1", "a"); ("X2", epsilon)])
  /\ "X2" ≠ "S'".
Proof. split; [reflexivity | split; [reflexivity | discriminate]]. Qed.

(** Why the variable symbols have to be keys: [S''] is no variable for the
    validator (two apostrophes) but one for the converter, and it is the
    name of the fresh start variable here, so unit elimination copies the
    ε rule of [S''] into [S]. *)
Example convert_to_cnf_epsilon_copied_by_unit_rule :
  Parser.parse_cfg Parser.insertion_order "S"
    (JList [production "S" "S'' | S'"; production "S'" "a"])
    = Ok [("S", [["S''"]; ["S'"]]); ("S'", [["a"]])]
  /\ Cnf.convert_to_cnf [("S", [["S''"]; ["S'"]]); ("S'", [["a"]])] "S"
     = Ok (Cnf.CnfResult
             [("S", [eps_rule; ["a"]]); ("S'", [["a"]]); ("S''", [eps_rule])]
             "S''" [] []).
Proof. split; reflexivity. Qed.

(** ** Self-unit rules stop the conversion *)

Lemma for_each_Ok_elem {A S} (body : A -> S -> outcome S) xs s s' x :
  for_each body xs s = Ok s' -> x ∈ xs -> exists s1 s2, body x s1 = Ok s2.
Proof.
  revert s. induction xs as [ | y xs IH]; intros s H Hx.
  - by apply elem_of_nil in Hx.
  - simpl in H. apply bind_Ok in H as (s1 & H1 & H2).
    apply elem_of_cons in Hx as [-> | Hx]; [by eauto | by eapply IH].
Qed.

Lemma binarize_rule_unit A B st :
  Cnf.is_variable B = true ->
  Cnf.binarize_rule A [B] st
  = Raise (ValueError "not enough values to unpack (expected 2, got 1)").
Proof. intros H. unfold Cnf.binarize_rule. by rewrite H. Qed.

Lemma binarize_unit_raises (g : dict (list (list string))) st st' A rules B :
  Cnf.binarize g st = Ok st' ->
  (A, rules) ∈ g -> [B] ∈ rules -> Cnf.is_variable B = true -> False.
Proof.
  unfold Cnf.binarize. intros H Hin HB Hvar.
  destruct (for_each_Ok_elem _ _ _ _ _ H Hin) as (s1 & s2 & Hkey).
  destruct (for_each_Ok_elem _ _ _ _ _ Hkey HB) as (s3 & s4 & Hrule).
  by rewrite binarize_rule_unit in Hrule.
Qed.

Lemma fold_left_establish {A S} (K M : S -> Prop) (f : S -> A -> S) xs x0 s :
  x0 ∈ xs -> K s ->
  (forall x s, K s -> K (f s x)) ->
  (forall x s, K s -> M s -> M (f s x)) ->
  (forall s, K s -> M (f s x0)) ->
  M (fold_left f xs s).
Proof.
  intros Hx HK HKstep HMstep Hx0. revert s HK.
  induction xs as [ | y xs IH]; intros s HK; [by apply elem_of_nil in Hx | ].
  cbn [fold_left]. apply elem_of_cons in Hx as [<- | Hx]; [ | by auto].
  assert (K (f s x0) /\ M (f s x0)) as [HK1 HM1] by auto.
  clear IH. revert HK1 HM1. generalize (f s x0). clear s HK.
  induction xs as [ | z xs IH]; intros s HK HM; [done | ].
  cbn [fold_left]. auto.
Qed.

Lemma nullable_subsets_full nl (r : list string) : r ∈ Cnf.nullable_subsets nl r.
Proof.
  unfold Cnf.nullable_subsets.
  assert (forall syms pre (subsets : list (list string)),
            pre ∈ subsets ->
            pre ++ syms
            ∈ fold_left
                (fun subsets sym =>
                   flat_map
                     (fun s =>
                        (s ++ [sym])
                        :: (if Cnf.is_variable sym && py_in sym nl
                            then [s] else []))
                     subsets)
                syms subsets) as H.
  { induction syms as [ | sym syms IH]; intros pre subsets Hpre.
    - by rewrite app_nil_r.
    - cbn [fold_left]. rewrite (cons_middle sym pre syms), app_assoc.
      apply IH. apply list_elem_of_In, in_flat_map. exists pre.
      split; [by apply list_elem_of_In | ]. apply list_elem_of_In.
      apply list_elem_of_here. }
  apply (H r [] [[]]). apply list_elem_of_here.
Qed.

Lemma add_subsets_mono rules subsets (r : list string) :
  r ∈ rules -> r ∈ Cnf.add_subsets rules subsets.
Proof.
  unfold Cnf.add_subsets. revert rules.
  induction subsets as [ | s subsets IH]; intros rules Hr; [done | ].
  cbn [fold_left]. case_bool_decide; [by apply IH | ].
  destruct (py_in s rules); [by apply IH | ].
  apply IH. apply elem_of_app. by left.
Qed.

Lemma add_subsets_adds rules subsets (r : list string) :
  r ∈ subsets -> r ≠ [] -> r ∈ Cnf.add_subsets rules subsets.
Proof.
  unfold Cnf.add_subsets. revert rules.
  induction subsets as [ | s subsets IH]; intros rules Hr Hne;
    [by apply elem_of_nil in Hr | ].
  cbn [fold_left]. apply elem_of_cons in Hr as [<- | Hr].
  - rewrite bool_decide_false by (by destruct r).
    destruct (py_in r rules) eqn:Hin.
    + apply add_subsets_mono. by apply py_in_true.
    + apply add_subsets_mono. apply elem_of_app. right. apply list_elem_of_here.
  - case_bool_decide; [by apply IH | ].
    destruct (py_in s rules); by apply IH.
Qed.

(** Epsilon elimination keeps every rule that is neither empty nor the ε
    rule. *)
Lemma eliminate_epsilon_keeps g nl A rules (r : list string) :
  (A, rules) ∈ g -> r ∈ rules -> r ≠ eps_rule -> r ≠ [] ->
  exists rs, (A, rs) ∈ Cnf.eliminate_epsilon g nl /\ r ∈ rs.
Proof.
  intros Hin Hr Heps Hne. unfold Cnf.eliminate_epsilon.
  set (K := fun ng : dict (list (list string)) => dict_keys ng = dict_keys g).
  set (M := fun ng : dict (list (list string)) =>
              exists rs, dict_get ng A = Some rs /\ r ∈ rs).
  assert (forall (A' : string) (r' : list string) ng,
            K ng ->
            K (if bool_decide (r' = eps_rule) then ng
               else dict_update ng A'
                      (fun rs => Cnf.add_subsets rs (Cnf.nullable_subsets nl r'))))
    as HKrule.
  { intros A' r' ng HK. case_bool_decide; [done | ].
    unfold K. by rewrite dict_keys_update. }
  assert (forall (A' : string) (r' : list string) ng,
            M ng ->
            M (if bool_decide (r' = eps_rule) then ng
               else dict_update ng A'
                      (fun rs => Cnf.add_subsets rs (Cnf.nullable_subsets nl r'))))
    as HMrule.
  { intros A' r' ng (rs & Hget & Hrs). case_bool_decide; [by exists rs | ].
    unfold dict_update. destruct (dict_get ng A') as [rs' | ] eqn:Hget';
      [ | by exists rs].
    destruct (decide (A' = A)) as [-> | Hneq].
    - rewrite Hget in Hget'. injection Hget' as <-.
      eexists. split; [apply dict_get_set_eq | by apply add_subsets_mono].
    - exists rs. split; [by rewrite dict_get_set_ne | done]. }
  assert (M (fold_left
               (fun new_grammar '(A, rules) =>
                  fold_left
                    (fun new_grammar r =>
                       if bool_decide (r = eps_rule) then new_grammar
                       else dict_update new_grammar A
                              (fun rs => Cnf.add_subsets rs
                                           (Cnf.nullable_subsets nl r)))
                    rules new_grammar)
               g (map (fun '(A, _) => (A, [])) g))) as (rs & Hget & Hrs).
  { apply (fold_left_establish K M _ g (A, rules)); [done | | | | ].
    - unfold K, dict_keys. rewrite <- list_fmap_compose.
      apply list_fmap_ext. by intros i [A' rules'].
    - intros [A' rules'] ng HK.
      apply (fold_left_invariant K (fun _ : list string => True));
        [ | by apply Forall_forall | done].
      intros r' ng' _ HK'. by apply HKrule.
    - intros [A' rules'] ng HK HM.
      apply (fold_left_invariant M (fun _ : list string => True));
        [ | by apply Forall_forall | done].
      intros r' ng' _ HM'. by apply HMrule.
    - intros ng HK.
      apply (fold_left_establish K M _ rules r); [done | done | | | ].
      + intros r' ng' HK'. by apply HKrule.
      + intros r' ng' _ HM'. by apply HMrule.
      + intros ng' HK'. rewrite bool_decide_false by done.
        assert (A ∈ dict_keys ng') as HA.
        { rewrite HK'. unfold dict_keys. apply list_elem_of_fmap.
          by exists (A, rules). }
        apply dict_get_is_Some in HA as [rs0 Hget0].
        unfold M, dict_update. rewrite Hget0.
        eexists. split; [apply dict_get_set_eq | ].
        apply add_subsets_adds; [apply nullable_subsets_full | done]. }
  exists rs. split; [by apply dict_get_Some_elem | done].
Qed.

(** On a dictionary with a self-unit rule [A -> A] the conversion returns
    no result. *)
Lemma convert_to_cnf_fails_on_self_unit g start A rules :
  NoDup (dict_keys g) ->
  (A, rules) ∈ g -> [A] ∈ rules -> Cnf.is_variable A = true ->
  forall res, Cnf.convert_to_cnf g start ≠ Ok res.
Proof.
  intros Hnd Hin HA Hvar res H. unfold Cnf.convert_to_cnf in H.
  apply bind_Ok in H as (nl & _ & H).
  apply bind_Ok in H as ([[g2 cs] av] & Hstart & H).
  apply bind_Ok in H as (g3 & Hunits & H).
  apply bind_Ok in H as (st & Hbin & _).
  destruct (eliminate_epsilon_keeps g nl A rules [A] Hin HA) as (rs1 & Hin1 & Hr1).
  { intros [= ->]. discriminate Hvar. }
  { discriminate. }
  pose proof (eliminate_epsilon_keys g nl) as Hkeys1.
  assert (NoDup (dict_keys g2) /\ exists rs2, (A, rs2) ∈ g2 /\ [A] ∈ rs2)
    as (Hnd2 & rs2 & Hin2 & Hr2).
  { apply introduce_start_spec in Hstart as [[-> ->] | (-> & Hmem & Hne)].
    - split; [by rewrite Hkeys1 | by exists rs1].
    - split; [apply dict_keys_set_NoDup; by rewrite Hkeys1 | ].
      exists rs1. split; [ | done].
      apply dict_get_Some_elem. rewrite dict_get_set_ne.
      + apply dict_get_NoDup; [by rewrite Hkeys1 | done].
      + intros ->. apply dict_mem_false in Hmem. apply Hmem.
        unfold dict_keys. apply list_elem_of_fmap. by exists (A, rs1). }
  rewrite eliminate_units_pass in Hunits by done. injection Hunits as <-.
  apply (binarize_unit_raises _ _ _ A (key_rules g2 A rs2) A Hbin); [ | | done].
  - rewrite unit_pass_rules by done. apply list_elem_of_fmap.
    by exists (A, rs2).
  - apply key_rules_spec. left. split; [done | by right].
Qed.

(** ** The wrapper variables of the result *)

Lemma fresh_var_from_fresh fuel : forall c vars v c',
  Cnf.fresh_var_from fuel c vars = Ok (v, c') -> v ∉ vars.
Proof.
  induction fuel as [ | fuel IH]; intros c vars v c' H; [discriminate H | ].
  cbn [Cnf.fresh_var_from] in H.
  destruct (py_in (Cnf.X_name c) vars) eqn:Hin; [by eapply IH | ].
  injection H as <- <-. by apply py_in_false.
Qed.

Lemma fresh_var_fresh st v st' :
  Cnf.fresh_var st = Ok (v, st') ->
  (v ∉ Cnf.all_vars st)
  /\ Cnf.all_vars st' = Cnf.all_vars st ++ [v]
  /\ Cnf.term_map st' = Cnf.term_map st
  /\ Cnf.nonterm_map st' = Cnf.nonterm_map st
  /\ Cnf.final st' = Cnf.final st.
Proof.
  unfold Cnf.fresh_var. intros H.
  apply bind_Ok in H as ([v0 c] & Hfresh & H). injection H as <- <-.
  split; [by eapply fresh_var_from_fresh | done].
Qed.

Lemma elem_of_dict_keys_set {V} (d : dict V) k v A :
  A ∈ dict_keys (dict_set d k v) <-> A ∈ dict_keys d \/ A = k.
Proof.
  rewrite dict_keys_set. destruct (dict_mem d k) eqn:Hmem.
  - apply dict_mem_true in Hmem. split; [by left | by intros [? | ->]].
  - rewrite elem_of_app, list_elem_of_singleton. done.
Qed.

Lemma elem_of_dict_keys_setdefault {V} (d : dict (list V)) k A :
  A ∈ dict_keys (dict_setdefault d k) <-> A ∈ dict_keys d \/ A = k.
Proof.
  unfold dict_setdefault. destruct (dict_mem d k) eqn:Hmem.
  - apply dict_mem_true in Hmem. split; [by left | by intros [? | ->]].
  - apply elem_of_dict_keys_set.
Qed.

Lemma dict_keys_setdefault_NoDup {V} (d : dict (list V)) k :
  NoDup (dict_keys d) -> NoDup (dict_keys (dict_setdefault d k)).
Proof.
  unfold dict_setdefault. destruct (dict_mem d k); [done | ].
  apply dict_keys_set_NoDup.
Qed.

Section WrapperInvariant.
Variable V0 : list string.
Local Abbreviation winv := (wrap_inv V0).

Lemma get_term_var_wrap t st v st' :
  winv st -> Cnf.get_term_var t st = Ok (v, st') ->
  winv st' /\ Cnf.final st' = Cnf.final st.
Proof.
  intros Hinv. unfold Cnf.get_term_var. intros H.
  apply bind_Ok in H as (st1 & Hst1 & H).
  apply bind_Ok in H as (v1 & Hv1 & H). injection H as <- <-.
  destruct (dict_mem (Cnf.term_map st) t); [by injection Hst1 as <- | ].
  apply bind_Ok in Hst1 as ([v0 st0] & Hfresh & Hst1). injection Hst1 as <-.
  apply fresh_var_fresh in Hfresh as (Hv0 & Hav & Htm & Hnm & Hfin).
  destruct Hinv as [Hi1 Hi2 Hi3 Hi4 Hi5].
  split; [ | done].
  split; cbn [Cnf.all_vars Cnf.nonterm_map Cnf.final].
  - intros v Hv. rewrite Hav, Hfin, elem_of_app, list_elem_of_singleton.
    apply elem_of_dict_keys_set in Hv as [Hv | ->].
    + rewrite Hnm in Hv. destruct (Hi1 v Hv) as (? & ? & ?). by auto.
    + split; [by right | ]. split; intros ?; apply Hv0; auto.
  - intros A HA. rewrite Hav, elem_of_app. left. rewrite Hfin in HA. auto.
  - intros A HA. rewrite Hav, elem_of_app. left. auto.
  - apply dict_keys_set_NoDup. by rewrite Hnm.
  - by rewrite Hfin.
Qed.

Lemma lift_wrap s st s' st' :
  winv st -> Cnf.lift s st = Ok (s', st') ->
  winv st' /\ Cnf.final st' = Cnf.final st.
Proof.
  intros Hinv. unfold Cnf.lift. destruct (Cnf.is_variable s).
  - by intros [= <- <-].
  - by apply get_term_var_wrap.
Qed.

Lemma final_append_wrap A r st st' :
  winv st -> Cnf.final_append A r st = Ok st' ->
  winv st'
  /\ forall B, B ∈ dict_keys (Cnf.final st) -> B ∈ dict_keys (Cnf.final st').
Proof.
  intros Hinv. unfold Cnf.final_append. intros H.
  apply bind_Ok in H as (rs & Hrs & H). injection H as <-.
  unfold dict_getitem in Hrs.
  destruct (dict_get (Cnf.final st) A) as [rs0 | ] eqn:Hget; [ | done].
  assert (A ∈ dict_keys (Cnf.final st)) as HA
    by (apply dict_get_is_Some; by eauto).
  destruct Hinv as [Hi1 Hi2 Hi3 Hi4 Hi5].
  split.
  - split; cbn [Cnf.with_final Cnf.all_vars Cnf.nonterm_map Cnf.final].
    + intros v Hv. destruct (Hi1 v Hv) as (? & ? & Hnot).
      split; [done | ]. split; [done | ].
      rewrite elem_of_dict_keys_set. by intros [? | ->].
    + intros B HB. apply elem_of_dict_keys_set in HB as [HB | ->]; auto.
    + done.
    + done.
    + by apply dict_keys_set_NoDup.
  - intros B HB. cbn [Cnf.with_final Cnf.final].
    apply elem_of_dict_keys_set. by left.
Qed.

Lemma binarize_chain_wrap chain :
  forall current st st',
    current ∈ dict_keys (Cnf.final st) ->
    winv st -> Cnf.binarize_chain current chain st = Ok st' ->
    winv st'
    /\ forall B, B ∈ dict_keys (Cnf.final st) -> B ∈ dict_keys (Cnf.final st').
Proof.
  induction chain as [ | s chain IH]; intros current st st' Hcur Hinv H.
  - discriminate H.
  - destruct chain as [ | s2 [ | s3 chain]].
    + discriminate H.
    + cbn [Cnf.binarize_chain] in H.
      apply bind_Ok in H as ([l' st1] & Hl & H).
      apply bind_Ok in H as ([r' st2] & Hr & H).
      apply lift_wrap in Hl as [Hinv1 Hf1]; [ | done].
      apply lift_wrap in Hr as [Hinv2 Hf2]; [ | done].
      apply final_append_wrap in H as [Hinv3 Hmono]; [ | done].
      split; [done | ]. intros B HB. apply Hmono. by rewrite Hf2, Hf1.
    + cbn [Cnf.binarize_chain] in H.
      apply bind_Ok in H as ([s' st1] & Hl & H).
      apply bind_Ok in H as ([new_var st2] & Hfresh & H).
      apply lift_wrap in Hl as [Hinv1 Hf1]; [ | done].
      apply fresh_var_fresh in Hfresh as (Hnew & Hav & Htm & Hnm & Hfin).
      destruct Hinv1 as [Hi1 Hi2 Hi3 Hi4 Hi5].
      apply (IH new_var) in H as [Hinv' Hmono].
      * split; [done | ]. intros B HB. apply Hmono.
        cbn [Cnf.with_final Cnf.final].
        rewrite elem_of_dict_keys_setdefault, elem_of_dict_keys_set,
          elem_of_dict_keys_setdefault, Hfin, Hf1.
        by auto.
      * cbn [Cnf.with_final Cnf.final].
        rewrite elem_of_dict_keys_setdefault. by right.
      * split; cbn [Cnf.with_final Cnf.all_vars Cnf.nonterm_map Cnf.final].
        -- intros v Hv. rewrite Hnm in Hv. destruct (Hi1 v Hv) as (Hv1 & Hv2 & Hv3).
           rewrite Hav, elem_of_app. split; [by left | ]. split; [done | ].
           rewrite elem_of_dict_keys_setdefault, elem_of_dict_keys_set,
             elem_of_dict_keys_setdefault, Hfin.
           intros [[[? | ->] | ->] | ->]; try done.
           ++ apply Hv3. by rewrite Hf1.
           ++ apply Hv3. by rewrite Hf1.
        -- intros B HB. rewrite Hav, elem_of_app, list_elem_of_singleton.
           apply elem_of_dict_keys_setdefault in HB as [HB | ->]; [ | by right].
           apply elem_of_dict_keys_set in HB as [HB | ->].
           ++ apply elem_of_dict_keys_setdefault in HB as [HB | ->].
              ** left. apply Hi2. by rewrite <- Hfin.
              ** left. apply Hi2. by rewrite Hf1.
           ++ left. apply Hi2. by rewrite Hf1.
        -- intros B HB. rewrite Hav, elem_of_app. left. auto.
        -- by rewrite Hnm.
        -- apply dict_keys_setdefault_NoDup, dict_keys_set_NoDup,
             dict_keys_setdefault_NoDup. by rewrite Hfin.
Qed.

Lemma binarize_rule_wrap A r st st' :
  A ∈ dict_keys (Cnf.final st) ->
  winv st -> Cnf.binarize_rule A r st = Ok st' ->
  winv st'
  /\ forall B, B ∈ dict_keys (Cnf.final st) -> B ∈ dict_keys (Cnf.final st').
Proof.
  intros HA Hinv H. unfold Cnf.binarize_rule in H.
  destruct r as [ | s1 [ | s2 [ | s3 r]]].
  - discriminate H.
  - destruct (Cnf.is_variable s1); simpl in H; [discriminate H | ].
    by eapply final_append_wrap.
  - apply bind_Ok in H as ([s1' st1] & Hl1 & H).
    apply bind_Ok in H as ([s2' st2] & Hl2 & H).
    apply lift_wrap in Hl1 as [Hinv1 Hf1]; [ | done].
    apply lift_wrap in Hl2 as [Hinv2 Hf2]; [ | done].
    apply final_append_wrap in H as [Hinv3 Hmono]; [ | done].
    split; [done | ]. intros B HB. apply Hmono. by rewrite Hf2, Hf1.
  - by eapply binarize_chain_wrap.
Qed.

Lemma binarize_wrap (g : grammar) st st' :
  (forall A, A ∈ dict_keys g -> A ∈ V0) ->
  winv st -> Cnf.binarize g st = Ok st' -> winv st'.
Proof.
  intros Hkeys Hinv. unfold Cnf.binarize.
  apply (for_each_invariant winv (fun x => x ∈ g)); [ | by apply Forall_forall | done].
  intros [A rules] s s' Hin Hs Hbody.
  assert (A ∈ V0) as HA.
  { apply Hkeys. unfold dict_keys. apply list_elem_of_fmap. by exists (A, rules). }
  set (P := fun st : Cnf.bin_state => winv st /\ A ∈ dict_keys (Cnf.final st)).
  assert (P s') as [? _]; [ | done].
  apply (for_each_invariant P (fun _ : rule => True)) in Hbody; [done | | | ].
  - intros r s1 s2 _ [Hs1 HA1] Hrule.
    apply binarize_rule_wrap in Hrule as [? Hmono]; [ | done | done].
    split; [done | by apply Hmono].
  - by apply Forall_forall.
  - destruct Hs as [Hi1 Hi2 Hi3 Hi4 Hi5]. split.
    + split; cbn [Cnf.with_final Cnf.all_vars Cnf.nonterm_map Cnf.final].
      * intros v Hv. destruct (Hi1 v Hv) as (? & ? & ?).
        split; [done | ]. split; [done | ].
        rewrite elem_of_dict_keys_set. by intros [? | ->].
      * intros B HB. apply elem_of_dict_keys_set in HB as [HB | ->]; auto.
      * done.
      * done.
      * by apply dict_keys_set_NoDup.
    + cbn [Cnf.with_final Cnf.final]. apply elem_of_dict_keys_set. by right.
Qed.

End WrapperInvariant.

Lemma add_wrappers_frame nm : forall (f : grammar) A,
  A ∉ dict_keys nm -> dict_get (Cnf.add_wrappers nm f) A = dict_get f A.
Proof.
  unfold Cnf.add_wrappers.
  induction nm as [ | [v t] nm IH]; intros f A HA; [done | ].
  cbn [fold_left]. unfold dict_keys in HA. csimpl in HA.
  apply not_elem_of_cons in HA as [Hne HA].
  rewrite IH by done. rewrite dict_get_set_ne by done.
  destruct (dict_mem f v); [done | by rewrite dict_get_set_ne].
Qed.

Lemma add_wrappers_keys_NoDup nm : forall (f : grammar),
  NoDup (dict_keys f) -> NoDup (dict_keys (Cnf.add_wrappers nm f)).
Proof.
  unfold Cnf.add_wrappers.
  induction nm as [ | [v t] nm IH]; intros f Hnd; [done | ].
  cbn [fold_left]. apply IH. apply dict_keys_set_NoDup.
  destruct (dict_mem f v); [done | by apply dict_keys_set_NoDup].
Qed.

(** A wrapper that is no key yet gets its terminal as its only rule. *)
Lemma add_wrappers_get nm : forall (f : grammar) v t,
  NoDup (dict_keys nm) ->
  (forall v, v ∈ dict_keys nm -> v ∉ dict_keys f) ->
  dict_get nm v = Some t ->
  dict_get (Cnf.add_wrappers nm f) v = Some [[t]].
Proof.
  induction nm as [ | [v0 t0] nm IH]; intros f v t Hnd Hfresh Hget; [done | ].
  unfold dict_keys in Hnd, Hfresh. csimpl in Hnd. csimpl in Hfresh.
  apply NoDup_cons in Hnd as [Hv0 Hnd].
  assert (dict_mem f v0 = false) as Hmem.
  { apply dict_mem_false. apply Hfresh. apply list_elem_of_here. }
  unfold Cnf.add_wrappers. cbn [fold_left]. rewrite Hmem.
  unfold dict_get_list. rewrite dict_get_set_eq, dict_set_set. cbn [default app].
  fold (Cnf.add_wrappers nm (dict_set f v0 [[t0]])).
  simpl in Hget. destruct (decide (v0 = v)) as [-> | Hne].
  - injection Hget as <-. rewrite add_wrappers_frame by done.
    apply dict_get_set_eq.
  - apply IH; [done | | done].
    intros v' Hv'. rewrite elem_of_dict_keys_set. intros [Hin | ->]; [ | done].
    apply (Hfresh v'); [by apply list_elem_of_further | done].
Qed.

Lemma introduce_start_known (g : grammar) start nl av g2 cs av2 :
  Cnf.introduce_start g start nl av = Ok (g2, cs, av2) ->
  (forall A, A ∈ dict_keys g -> A ∈ av) ->
  forall A, A ∈ dict_keys g2 -> A ∈ av2.
Proof.
  unfold Cnf.introduce_start. destruct (py_in start nl).
  - intros H Hkeys A HA. apply bind_Ok in H as (S_new & _ & H).
    injection H as <- <- <-. rewrite elem_of_app, list_elem_of_singleton.
    apply elem_of_dict_keys_set in HA as [HA | ->]; auto.
  - intros [= <- <- <-]. auto.
Qed.

(** The translation table returned by [convert_to_cnf] names, for each
    wrapper variable, the terminal of its only rule: the hypothesis of the
    round trip holds of what the converter returns. *)
Lemma convert_to_cnf_wrappers_consistent g start res :
  NoDup (dict_keys g) ->
  Cnf.convert_to_cnf g start = Ok res ->
  wrappers_consistent (Cnf.res_grammar res) (Cnf.res_nonterm_map res).
Proof.
  intros Hnd H. unfold Cnf.convert_to_cnf in H.
  apply bind_Ok in H as (nl & _ & H).
  apply bind_Ok in H as ([[g2 cs] av] & Hstart & H).
  apply bind_Ok in H as (g3 & Hunits & H).
  apply bind_Ok in H as (st & Hbin & H).
  injection H as <-. cbn [Cnf.res_grammar Cnf.res_nonterm_map].
  pose proof (eliminate_epsilon_keys g nl) as Hkeys1.
  assert (NoDup (dict_keys g2)) as Hnd2.
  { apply introduce_start_spec in Hstart as [[-> ->] | (-> & _ & _)].
    - by rewrite Hkeys1.
    - apply dict_keys_set_NoDup. by rewrite Hkeys1. }
  rewrite eliminate_units_pass in Hunits by done. injection Hunits as <-.
  apply (binarize_wrap av) in Hbin.
  - destruct Hbin as [Hi1 Hi2 Hi3 Hi4 Hi5].
    intros A w rules t Hget Hin Ht. apply drop_empty_elem in Hin.
    apply dict_get_NoDup in Hin; [ | by apply add_wrappers_keys_NoDup].
    rewrite (add_wrappers_get _ _ A w) in Hin.
    + injection Hin as <-. apply list_elem_of_singleton in Ht. by injection Ht.
    + done.
    + intros v Hv. by destruct (Hi1 v Hv) as (_ & _ & ?).
    + done.
  - intros A HA. rewrite unit_pass_keys in HA by done.
    eapply introduce_start_known; [exact Hstart | | exact HA].
    intros B HB. by rewrite Hkeys1 in HB.
  - split; cbn [Cnf.all_vars Cnf.nonterm_map Cnf.final].
    + intros v Hv. by apply elem_of_nil in Hv.
    + intros A HA. by apply elem_of_nil in HA.
    + done.
    + apply NoDup_nil_2.
    + apply NoDup_nil_2.
Qed.

(** ** The CYK table *)

(** Two cells are not the same one. *)
Ltac cell_neq :=
  let H := fresh in intros H; inversion H; lia.

Lemma tget_tappend_eq n t i j e :
  wf_table n t -> i < n -> j < n ->
  Cyk.tget (Cyk.tappend t i j e) i j = Cyk.tget t i j ++ [e].
Proof.
  intros [Hlen Hrows] Hi Hj. unfold Cyk.tappend, Cyk.tget.
  destruct (t !! i) as [row | ] eqn:Hrow.
  - rewrite list_lookup_insert_eq by lia. simpl.
    rewrite list_lookup_insert_eq; [done | ].
    rewrite Forall_forall in Hrows.
    rewrite (Hrows row); [done | ]. by eapply list_elem_of_lookup_2.
  - apply lookup_ge_None in Hrow. lia.
Qed.

Lemma tget_tappend_ne t i j e i' j' :
  (i', j') ≠ (i, j) ->
  Cyk.tget (Cyk.tappend t i j e) i' j' = Cyk.tget t i' j'.
Proof.
  intros Hne. unfold Cyk.tappend, Cyk.tget.
  destruct (t !! i) as [row | ] eqn:Hrow; [ | done].
  destruct (decide (i' = i)) as [-> | Hi].
  - destruct (decide (i < length t)).
    + rewrite list_lookup_insert_eq by done. rewrite Hrow. simpl.
      rewrite list_lookup_insert_ne; [done | congruence].
    + apply lookup_lt_Some in Hrow. lia.
  - by rewrite list_lookup_insert_ne.
Qed.

Lemma wf_tappend n t i j e : wf_table n t -> wf_table n (Cyk.tappend t i j e).
Proof.
  intros [Hlen Hrows]. unfold Cyk.tappend.
  destruct (t !! i) as [row | ] eqn:Hrow; [ | done]. split.
  - by rewrite length_insert.
  - apply Forall_insert; [done | ]. rewrite length_insert.
    rewrite Forall_forall in Hrows. apply Hrows.
    by eapply list_elem_of_lookup_2.
Qed.

Lemma local_step_id n i j : local_step n i j (fun t => t) (fun c => c).
Proof. by intros t Hwf. Qed.

Lemma local_step_tappend n i j e :
  i < n -> j < n ->
  local_step n i j (fun t => Cyk.tappend t i j e) (fun c => c ++ [e]).
Proof.
  intros Hi Hj t Hwf. split; [by apply wf_tappend | ].
  split; [by eapply tget_tappend_eq | ].
  intros i' j' Hne. by apply tget_tappend_ne.
Qed.

Lemma local_step_fold {A} n i j (f : Cyk.table -> A -> Cyk.table)
    (F : Cyk.cell -> A -> Cyk.cell) xs :
  (forall x, local_step n i j (fun t => f t x) (fun c => F c x)) ->
  local_step n i j (fun t => fold_left f xs t) (fun c => fold_left F xs c).
Proof.
  intros Hstep. induction xs as [ | x xs IH]; intros t Hwf; [by apply local_step_id | ].
  cbn [fold_left].
  destruct (Hstep x t Hwf) as (Hwf1 & Hcell1 & Hframe1).
  destruct (IH _ Hwf1) as (Hwf2 & Hcell2 & Hframe2).
  split; [done | ]. split.
  - by rewrite Hcell2, Hcell1.
  - intros i' j' Hne. by rewrite Hframe2, Hframe1.
Qed.

Lemma local_step_combine_rule n i j k lc rc A r :
  i < n -> j < n ->
  local_step n i j (fun t => Cyk.combine_rule i j k lc rc A t r)
    (fun c => cell_rule k lc rc A c r).
Proof.
  intros Hi Hj t Hwf. unfold Cyk.combine_rule, cell_rule.
  destruct r as [ | B [ | C [ | ? ?]]]; try by apply local_step_id.
  destruct (Cyk.matches B lc) as [ | b0 ?]; [by apply local_step_id | ].
  destruct (Cyk.matches C rc) as [ | c0 ?]; [by apply local_step_id | ].
  destruct (Cyk.present A (Cyk.tget t i j)); [by apply local_step_id | ].
  by apply local_step_tappend.
Qed.

Lemma local_step_combine_rules n i j k lc rc g :
  i < n -> j < n ->
  local_step n i j
    (fun t =>
       fold_left
         (fun t '(A, rules) =>
            fold_left (Cyk.combine_rule i j k lc rc A) rules t)
         g t)
    (fun c => cell_rules g k lc rc c).
Proof.
  intros Hi Hj. unfold cell_rules.
  apply (local_step_fold n i j
           (fun t '(A, rules) =>
              fold_left (Cyk.combine_rule i j k lc rc A) rules t)
           (fun c '(A, rules) => fold_left (cell_rule k lc rc A) rules c)).
  intros [A rules].
  apply (local_step_fold n i j (Cyk.combine_rule i j k lc rc A)
           (cell_rule k lc rc A)).
  intros r. by apply local_step_combine_rule.
Qed.

Lemma local_step_combine_split n g i j k t :
  i < n -> j < n -> wf_table n t ->
  wf_table n (Cyk.combine_split g i j t k)
  /\ Cyk.tget (Cyk.combine_split g i j t k) i j
     = cell_split g (Cyk.tget t) i j (Cyk.tget t i j) k
  /\ forall i' j', (i', j') ≠ (i, j) ->
       Cyk.tget (Cyk.combine_split g i j t k) i' j' = Cyk.tget t i' j'.
Proof.
  intros Hi Hj Hwf. unfold Cyk.combine_split, cell_split.
  destruct (bool_decide (Cyk.tget t i k = [])
            || bool_decide (Cyk.tget t (k + 1) j = [])); [done | ].
  by apply (local_step_combine_rules n i j k _ _ g Hi Hj t).
Qed.

(** [cell_split] reads the cells [(i, k)] and [(k + 1, j)] only. *)
Lemma cell_split_ext g get get' i j c k :
  get i k = get' i k -> get (k + 1) j = get' (k + 1) j ->
  cell_split g get i j c k = cell_split g get' i j c k.
Proof. unfold cell_split. by intros -> ->. Qed.

Lemma fold_cell_split_ext g get get' i j ks c :
  (forall k, k ∈ ks -> get i k = get' i k /\ get (k + 1) j = get' (k + 1) j) ->
  fold_left (cell_split g get i j) ks c = fold_left (cell_split g get' i j) ks c.
Proof.
  revert c. induction ks as [ | k ks IH]; intros c Hks; [done | ].
  cbn [fold_left]. destruct (Hks k) as [H1 H2]; [apply list_elem_of_here | ].
  rewrite (cell_split_ext g get get' i j c k H1 H2).
  apply IH. intros k' Hk'. apply Hks. by apply list_elem_of_further.
Qed.

Lemma cell_span_ext g get get' i j :
  (forall k, i <= k < j -> get i k = get' i k /\ get (k + 1) j = get' (k + 1) j) ->
  cell_span g get i j = cell_span g get' i j.
Proof.
  intros H. unfold cell_span. apply fold_cell_split_ext.
  intros k Hk. apply H. apply elem_of_seq in Hk. lia.
Qed.

(** All the splits of one span. *)
Lemma combine_splits_spec n g i j ks : forall t,
  i < n -> j < n -> wf_table n t ->
  (forall k, k ∈ ks -> i <= k < j) ->
  wf_table n (fold_left (Cyk.combine_split g i j) ks t)
  /\ Cyk.tget (fold_left (Cyk.combine_split g i j) ks t) i j
     = fold_left (cell_split g (Cyk.tget t) i j) ks (Cyk.tget t i j)
  /\ forall i' j', (i', j') ≠ (i, j) ->
       Cyk.tget (fold_left (Cyk.combine_split g i j) ks t) i' j'
       = Cyk.tget t i' j'.
Proof.
  induction ks as [ | k ks IH]; intros t Hi Hj Hwf Hks; [done | ].
  cbn [fold_left].
  destruct (local_step_combine_split n g i j k t Hi Hj Hwf)
    as (Hwf1 & Hcell1 & Hframe1).
  destruct (IH _ Hi Hj Hwf1) as (Hwf2 & Hcell2 & Hframe2).
  { intros k' Hk'. apply Hks. by apply list_elem_of_further. }
  split; [done | ]. split.
  - rewrite Hcell2, Hcell1. apply fold_cell_split_ext.
    intros k' Hk'.
    assert (i <= k' < j) by (apply Hks; by apply list_elem_of_further).
    split; apply Hframe1; cell_neq.
  - intros i' j' Hne. by rewrite Hframe2, Hframe1.
Qed.

Lemma combine_span_spec n g len i t :
  2 <= len -> i + len <= n -> wf_table n t ->
  Cyk.tget t i (i + len - 1) = [] ->
  wf_table n (Cyk.combine_span g len t i)
  /\ Cyk.tget (Cyk.combine_span g len t i) i (i + len - 1)
     = cell_span g (Cyk.tget t) i (i + len - 1)
  /\ forall i' j', (i', j') ≠ (i, i + len - 1) ->
       Cyk.tget (Cyk.combine_span g len t i) i' j' = Cyk.tget t i' j'.
Proof.
  intros Hlen Hin Hwf Hempty. unfold Cyk.combine_span, cell_span.
  destruct (combine_splits_spec n g i (i + len - 1)
              (seq i (i + len - 1 - i)) t) as (H1 & H2 & H3);
    [lia | lia | done | | ].
  - intros k Hk. apply elem_of_seq in Hk. lia.
  - split; [done | ]. split; [by rewrite H2, Hempty | done].
Qed.

(** All the spans of one length. *)
Lemma combine_length_spec n g len : forall m a t,
  2 <= len -> a + m + len <= n + 1 -> wf_table n t ->
  (forall i, a <= i < a + m -> Cyk.tget t i (i + len - 1) = []) ->
  let t' := fold_left (Cyk.combine_span g len) (seq a m) t in
  wf_table n t'
  /\ (forall i, a <= i < a + m ->
        Cyk.tget t' i (i + len - 1) = cell_span g (Cyk.tget t) i (i + len - 1))
  /\ (forall i' j', ~ (a <= i' < a + m /\ j' = i' + len - 1) ->
        Cyk.tget t' i' j' = Cyk.tget t i' j').
Proof.
  induction m as [ | m IH]; intros a t Hlen Hfit Hwf Hempty t'.
  - subst t'. simpl. split; [done | ]. split; [intros; lia | done].
  - subst t'. cbn [seq fold_left].
    destruct (combine_span_spec n g len a t) as (Hwf1 & Hcell1 & Hframe1);
      [done | lia | done | apply Hempty; lia | ].
    destruct (IH (S a) (Cyk.combine_span g len t a)) as (Hwf2 & Hcell2 & Hframe2);
      [done | lia | done | | ].
    { intros i Hi. rewrite Hframe1; [apply Hempty; lia | ].
      cell_neq. }
    split; [done | ]. split.
    + intros i Hi. destruct (decide (i = a)) as [-> | Hne].
      * rewrite Hframe2 by lia. done.
      * rewrite Hcell2 by lia. apply cell_span_ext.
        intros k Hk. split; apply Hframe1; cell_neq.
    + intros i' j' Hout. rewrite Hframe2 by lia.
      apply Hframe1. cell_neq.
Qed.

(** The diagonal. *)
Lemma wf_empty_table n : wf_table n (Cyk.empty_table n).
Proof.
  unfold Cyk.empty_table. split; [apply length_replicate | ].
  apply Forall_replicate, length_replicate.
Qed.

Lemma tget_empty_table n i j : Cyk.tget (Cyk.empty_table n) i j = [].
Proof.
  unfold Cyk.tget, Cyk.empty_table.
  destruct (replicate n (replicate n []) !! i) as [row | ] eqn:Hrow; [ | done].
  apply lookup_replicate in Hrow as [-> _]. simpl.
  destruct (replicate n [] !! j) as [c | ] eqn:Hc; [ | done].
  by apply lookup_replicate in Hc as [-> _].
Qed.

Lemma local_step_init_token n g i tok :
  i < n ->
  local_step n i i (fun t => Cyk.init_token g t (i, tok)) (diag_fold g tok).
Proof.
  intros Hi. unfold Cyk.init_token, diag_fold.
  apply (local_step_fold n i i
           (fun t '(A, rules) => fold_left (Cyk.init_rule i tok A) rules t)
           (fun c '(A, rules) => fold_left (diag_rule tok A) rules c)).
  intros [A rules].
  apply (local_step_fold n i i (Cyk.init_rule i tok A) (diag_rule tok A)).
  intros r t Hwf. unfold Cyk.init_rule, diag_rule.
  destruct r as [ | a [ | ? ?]]; try by apply local_step_id.
  destruct (str_eqb a tok); [ | by apply local_step_id].
  by apply local_step_tappend.
Qed.

Lemma init_tokens_spec n g : forall toks a t,
  a + length toks <= n -> wf_table n t ->
  let t' :=
    fold_left (Cyk.init_token g) (imap (fun i tok => (a + i, tok)) toks) t in
  wf_table n t'
  /\ (forall i tok, toks !! i = Some tok ->
        Cyk.tget t' (a + i) (a + i)
        = diag_fold g tok (Cyk.tget t (a + i) (a + i)))
  /\ (forall i' j', ~ (i' = j' /\ a <= i' < a + length toks) ->
        Cyk.tget t' i' j' = Cyk.tget t i' j').
Proof.
  induction toks as [ | tok toks IH]; intros a t Hfit Hwf t'.
  - subst t'. simpl. split; [done | ]. split; [ | done].
    intros i tok Hi. done.
  - subst t'. rewrite imap_cons. cbn [fold_left]. simpl in Hfit.
    replace (a + 0) with a by lia.
    destruct (local_step_init_token n g a tok ltac:(lia) t Hwf)
      as (Hwf1 & Hcell1 & Hframe1).
    rewrite (imap_ext _ (fun i tok => (S a + i, tok))).
    2: { intros i x _. simpl. f_equal. lia. }
    destruct (IH (S a) (Cyk.init_token g t (a, tok))) as (Hwf2 & Hcell2 & Hframe2);
      [lia | done | ].
    split; [done | ]. split.
    + intros i tok' Hi. destruct i as [ | i]; simpl in Hi.
      * injection Hi as <-. replace (a + 0) with a by lia.
        rewrite Hframe2 by lia. done.
      * replace (a + S i) with (S a + i) by lia.
        rewrite (Hcell2 i tok' Hi). f_equal. apply Hframe1. cell_neq.
    + intros i' j' Hout. simpl in Hout. rewrite Hframe2 by lia.
      apply Hframe1. cell_neq.
Qed.

Lemma init_diagonal_filled g tokens :
  filled_below g tokens 2
    (Cyk.init_diagonal g tokens (Cyk.empty_table (length tokens))).
Proof.
  unfold Cyk.init_diagonal.
  destruct (init_tokens_spec (length tokens) g tokens 0
              (Cyk.empty_table (length tokens))) as (Hwf & Hcell & Hframe);
    [lia | apply wf_empty_table | ].
  split; [done | ]. intros i j Hi Hj. repeat split.
  - intros Hlt. rewrite Hframe by lia. apply tget_empty_table.
  - intros <- tok Htok. specialize (Hcell i tok Htok). simpl in Hcell.
    rewrite Hcell. by rewrite tget_empty_table.
  - intros; lia.
  - intros Hlt _. rewrite Hframe by lia. apply tget_empty_table.
Qed.

(** One more length. *)
Lemma combine_length_filled g tokens len t :
  2 <= len <= length tokens ->
  filled_below g tokens len t ->
  filled_below g tokens (S len) (Cyk.combine_length g (length tokens) t len).
Proof.
  intros Hlen [Hwf Hcells]. unfold Cyk.combine_length.
  set (n := length tokens) in *.
  destruct (combine_length_spec n g len (n - len + 1) 0 t)
    as (Hwf' & Hnew & Hframe); [lia | lia | done | | ].
  { intros i Hi. destruct (Hcells i (i + len - 1)) as (_ & _ & _ & Hc4); [lia | lia | ].
    apply Hc4; lia. }
  split; [done | ]. intros i j Hi Hj.
  assert (forall i0 j0, i0 < j0 -> j0 < n -> j0 - i0 + 1 <= len ->
            cell_span g (Cyk.tget t) i0 j0
            = cell_span g
                (Cyk.tget
                   (fold_left (Cyk.combine_span g len) (seq 0 (n - len + 1)) t))
                i0 j0) as Hext.
  { intros i0 j0 Hlt Hj0 Hspan. apply cell_span_ext. intros k Hk.
    split; symmetry; apply Hframe; lia. }
  destruct (Hcells i j Hi Hj) as (Hc1 & Hc2 & Hc3 & Hc4).
  repeat split.
  - intros Hlt. rewrite Hframe by lia. by apply Hc1.
  - intros <- tok Htok. rewrite Hframe by lia. by apply Hc2.
  - intros Hlt Hspan. destruct (decide (j = i + len - 1)) as [-> | Hne].
    + rewrite Hnew by lia. apply Hext; lia.
    + rewrite Hframe by lia. rewrite <- Hext by lia. apply Hc3; lia.
  - intros Hlt Hspan. rewrite Hframe by lia. apply Hc4; lia.
Qed.

Lemma combine_lengths_filled g tokens : forall m a t,
  2 <= a -> a + m <= length tokens + 1 ->
  filled_below g tokens a t ->
  filled_below g tokens (a + m)
    (fold_left (Cyk.combine_length g (length tokens)) (seq a m) t).
Proof.
  induction m as [ | m IH]; intros a t Ha Hfit Hfilled.
  - simpl. by replace (a + 0) with a by lia.
  - cbn [seq fold_left]. replace (a + S m) with (S a + m) by lia.
    apply IH; [lia | lia | ]. apply combine_length_filled; [lia | done].
Qed.

(** The table [run_cyk] returns for a sequence that is not empty: cell by
    cell, the diagonal is the cell of the token and a longer span is the
    fold of its splits over the finished cells of the shorter spans. *)
Lemma fill_table_spec g tokens :
  tokens ≠ [] ->
  let t := Cyk.fill_table g tokens in
  wf_table (length tokens) t
  /\ (forall i tok, tokens !! i = Some tok -> Cyk.tget t i i = diag_cell g tok)
  /\ (forall i j, i < j < length tokens ->
        Cyk.tget t i j = cell_span g (Cyk.tget t) i j)
  /\ (forall i j, j < i < length tokens -> Cyk.tget t i j = []).
Proof.
  intros Hne t. subst t. unfold Cyk.fill_table.
  assert (1 <= length tokens) as Hn by (destruct tokens; [done | simpl; lia]).
  destruct (combine_lengths_filled g tokens (length tokens + 1 - 2) 2
              (Cyk.init_diagonal g tokens (Cyk.empty_table (length tokens))))
    as [Hwf Hcells]; [lia | lia | apply init_diagonal_filled | ].
  split; [done | ]. split; [ | split].
  - intros i tok Htok. pose proof (lookup_lt_Some _ _ _ Htok) as Hi.
    destruct (Hcells i i Hi Hi) as (_ & Hc2 & _). by apply Hc2.
  - intros i j Hij.
    destruct (Hcells i j) as (_ & _ & Hc3 & _); [lia | lia | ].
    apply Hc3; lia.
  - intros i j Hij.
    destruct (Hcells i j) as (Hc1 & _); [lia | lia | ].
    apply Hc1; lia.
Qed.

(** ** C6: reconstruction *)

Lemma elem_of_matches B (c : list Cyk.entry) e :
  e ∈ Cyk.matches B c <-> e ∈ c /\ Cyk.evar e = B.
Proof.
  unfold Cyk.matches. rewrite elem_of_List_filter. by rewrite str_eqb_true.
Qed.

Lemma present_true A (c : list Cyk.entry) :
  Cyk.present A c = true <-> exists e, e ∈ c /\ Cyk.evar e = A.
Proof.
  unfold Cyk.present. rewrite existsb_exists. split.
  - intros (e & Hin & He). exists e. split; [by apply list_elem_of_In | ].
    by apply str_eqb_true.
  - intros (e & Hin & He). exists e. split; [by apply list_elem_of_In | ].
    by apply str_eqb_true.
Qed.

Lemma present_matches A (c : list Cyk.entry) :
  Cyk.present A c = true ->
  exists e rest, Cyk.matches A c = e :: rest /\ e ∈ c /\ Cyk.evar e = A.
Proof.
  intros H. apply present_true in H as (e & Hin & He).
  assert (e ∈ Cyk.matches A c) as Hm by (by apply elem_of_matches).
  destruct (Cyk.matches A c) as [ | e0 rest] eqn:E; [by apply elem_of_nil in Hm | ].
  exists e0, rest. split; [done | ]. apply elem_of_matches. rewrite E.
  apply list_elem_of_here.
Qed.

Lemma matches_head A (c : list Cyk.entry) e rest :
  Cyk.matches A c = e :: rest -> e ∈ c /\ Cyk.evar e = A.
Proof.
  intros E. apply elem_of_matches. rewrite E. apply list_elem_of_here.
Qed.

(** What the cells hold. *)
Lemma cell_rule_elem k lc rc A c r e :
  e ∈ cell_rule k lc rc A c r ->
  e ∈ c \/ exists b0 c0, e = Cyk.EBin A k b0 c0 /\ b0 ∈ lc /\ c0 ∈ rc.
Proof.
  unfold cell_rule. destruct r as [ | B [ | C [ | ? ?]]]; try by left.
  destruct (Cyk.matches B lc) as [ | b0 ?] eqn:EB; [by left | ].
  destruct (Cyk.matches C rc) as [ | c0 ?] eqn:EC; [by left | ].
  destruct (Cyk.present A c); [by left | ].
  intros H. apply elem_of_app in H as [? | H]; [by left | right].
  apply list_elem_of_singleton in H. exists b0, c0. split; [done | ].
  apply matches_head in EB as [? _]. by apply matches_head in EC as [? _].
Qed.

Lemma cell_split_elem g get i j c k e :
  e ∈ cell_split g get i j c k ->
  e ∈ c
  \/ exists A b0 c0,
       e = Cyk.EBin A k b0 c0 /\ b0 ∈ get i k /\ c0 ∈ get (k + 1) j.
Proof.
  unfold cell_split.
  destruct (bool_decide (get i k = []) || bool_decide (get (k + 1) j = []));
    [by left | ].
  unfold cell_rules. revert e.
  set (P := fun c' : list Cyk.entry =>
              forall e, e ∈ c' ->
                e ∈ c
                \/ exists A b0 c0,
                     e = Cyk.EBin A k b0 c0 /\ b0 ∈ get i k
                     /\ c0 ∈ get (k + 1) j).
  apply (fold_left_invariant P (fun _ => True)); [ | by apply Forall_forall | by left].
  intros [A rules] c1 _ Hc1.
  apply (fold_left_invariant P (fun _ : list string => True));
    [ | by apply Forall_forall | done].
  intros r c2 _ Hc2 e He.
  apply cell_rule_elem in He as [He | (b0 & c0 & -> & ? & ?)]; [by apply Hc2 | ].
  right. by exists A, b0, c0.
Qed.

Lemma cell_span_elem g get i j e :
  e ∈ cell_span g get i j ->
  exists A k b0 c0,
    e = Cyk.EBin A k b0 c0 /\ i <= k < j /\ b0 ∈ get i k /\ c0 ∈ get (k + 1) j.
Proof.
  unfold cell_span. revert e.
  set (P := fun c : list Cyk.entry =>
              forall e, e ∈ c ->
                exists A k b0 c0,
                  e = Cyk.EBin A k b0 c0 /\ i <= k < j /\ b0 ∈ get i k
                  /\ c0 ∈ get (k + 1) j).
  apply (fold_left_invariant P (fun k => i <= k < j)).
  - intros k c Hk Hc e He.
    apply cell_split_elem in He as [He | (A & b0 & c0 & -> & ? & ?)];
      [by apply Hc | ].
    by exists A, k, b0, c0.
  - apply Forall_forall. intros k Hk. apply elem_of_seq in Hk. lia.
  - intros e He. by apply elem_of_nil in He.
Qed.

Lemma diag_cell_elem g tok e :
  e ∈ diag_cell g tok ->
  exists A rules, e = Cyk.ETerm A tok /\ (A, rules) ∈ g /\ [tok] ∈ rules.
Proof.
  unfold diag_cell, diag_fold. revert e.
  set (P := fun c : list Cyk.entry =>
              forall e, e ∈ c ->
                exists A rules,
                  e = Cyk.ETerm A tok /\ (A, rules) ∈ g /\ [tok] ∈ rules).
  apply (fold_left_invariant P (fun x => x ∈ g)).
  - intros [A rules] c Hin Hc.
    apply (fold_left_invariant P (fun r : list string => r ∈ rules));
      [ | by apply Forall_forall | done].
    intros r c1 Hr Hc1 e He. unfold diag_rule in He.
    destruct r as [ | a [ | ? ?]]; try by apply Hc1.
    destruct (str_eqb a tok) eqn:Ea; [ | by apply Hc1].
    apply str_eqb_true in Ea. subst a.
    apply elem_of_app in He as [He | He]; [by apply Hc1 | ].
    apply list_elem_of_singleton in He. by exists A, rules.
  - by apply Forall_forall.
  - intros e He. by apply elem_of_nil in He.
Qed.

(** Trees. *)
Lemma map_fixed {A} (f : A -> A) l :
  map f l = l <-> Forall (fun x => f x = x) l.
Proof.
  induction l as [ | x l IH]; simpl.
  - split; [constructor | done].
  - split.
    + intros [= Hx Hl]. constructor; [done | by apply IH].
    + intros H. apply Forall_cons in H as [-> H]. f_equal. by apply IH.
Qed.

Lemma flatten_tree_node_fixed name cs :
  TreeBuilder.flatten_tree (Cyk.Node name (Some cs)) = Cyk.Node name (Some cs)
  <-> cs ≠ [] /\ Forall (fun c => TreeBuilder.flatten_tree c = c) cs.
Proof.
  destruct cs as [ | c cs].
  - simpl. split; [discriminate | by intros [? _]].
  - change (Cyk.Node name (Some (map TreeBuilder.flatten_tree (c :: cs)))
            = Cyk.Node name (Some (c :: cs))
            <-> c :: cs ≠ []
                /\ Forall (fun c => TreeBuilder.flatten_tree c = c) (c :: cs)).
    split.
    + intros H.
      assert (map TreeBuilder.flatten_tree (c :: cs) = c :: cs) as Hmap
        by congruence.
      split; [done | by apply map_fixed].
    + intros [_ H]. apply map_fixed in H. by rewrite H.
Qed.

Lemma quoted_not_X w : startswith "X" (Cyk.quoted w) = false.
Proof. reflexivity. Qed.

Lemma append_child_spec nm cs child :
  tree_ok child ->
  Forall (fun c => TreeBuilder.flatten_tree c = c) cs ->
  Forall (fun c => TreeBuilder.flatten_tree c = c) (Cyk.append_child nm cs child)
  /\ flat_map TreeBuilder.leaves (Cyk.append_child nm cs child)
     = flat_map TreeBuilder.leaves cs ++ TreeBuilder.leaves child
  /\ Cyk.append_child nm cs child ≠ [].
Proof.
  intros [Hfix Hleaf] Hcs. unfold Cyk.append_child.
  destruct child as [name [ccs | ]]; cbn [Cyk.tree_name Cyk.tree_children] in *.
  - apply flatten_tree_node_fixed in Hfix as [Hne Hccs].
    destruct (startswith "X" name && negb (dict_mem nm name)).
    + split; [by apply Forall_app | ].
      split; [by rewrite flat_map_app | ].
      destruct cs; [done | done].
    + split; [apply Forall_app; split; [done | ] | ].
      * apply Forall_singleton. by apply flatten_tree_node_fixed.
      * split; [ | by destruct cs].
        rewrite flat_map_app. simpl. by rewrite app_nil_r.
  - rewrite (Hleaf eq_refl). simpl.
    split; [apply Forall_app; split; [done | by apply Forall_singleton] | ].
    split; [ | by destruct cs].
    rewrite flat_map_app. simpl. done.
Qed.

(** Slices of the token sequence. *)
Lemma slice_one i tokens tok : tokens !! i = Some tok -> slice i i tokens = [tok].
Proof.
  intros H. unfold slice. replace (S i - i) with 1 by lia.
  apply list_eq. intros [ | k].
  - rewrite lookup_take_lt by lia. rewrite lookup_drop.
    by replace (i + 0) with i by lia.
  - by rewrite lookup_take_ge by lia.
Qed.

Lemma slice_split i k j tokens :
  i <= k < j ->
  slice i k tokens ++ slice (k + 1) j tokens = slice i j tokens.
Proof.
  intros H. unfold slice.
  replace (drop (k + 1) tokens) with (drop (S k - i) (drop i tokens)).
  - rewrite take_take_drop. f_equal. lia.
  - rewrite drop_drop. f_equal. lia.
Qed.

Lemma slice_all tokens :
  tokens ≠ [] -> slice 0 (length tokens - 1) tokens = tokens.
Proof.
  intros H. unfold slice. rewrite drop_0. apply take_ge.
  destruct tokens; [done | simpl; lia].
Qed.

Lemma table_getitem_wf n t i j :
  wf_table n t -> i < n -> j < n ->
  Cyk.table_getitem t i j = Ok (Cyk.tget t i j).
Proof.
  intros [Hlen Hrows] Hi Hj. unfold Cyk.table_getitem, Cyk.tget.
  destruct (t !! i) as [row | ] eqn:Hrow.
  - simpl. rewrite Forall_forall in Hrows.
    assert (length row = n) as Hrow_len
      by (apply Hrows; by eapply list_elem_of_lookup_2).
    destruct (row !! j) as [c | ] eqn:Hc; [done | ].
    apply lookup_ge_None in Hc. lia.
  - apply lookup_ge_None in Hrow. lia.
Qed.

(** The tree of a variable present in a cell has the tokens of the span
    as its leaves, and needs fuel for the length of the span only. *)
Lemma reconstruct_tree_span g tokens nm :
  tokens ≠ [] ->
  wrappers_consistent g nm ->
  forall d fuel i j V,
    j = i + d -> j < length tokens -> d < fuel ->
    Cyk.present V (Cyk.tget (Cyk.fill_table g tokens) i j) = true ->
    exists t,
      Cyk.reconstruct_tree fuel (Cyk.fill_table g tokens) i j V nm = Ok t
      /\ TreeBuilder.leaves t = map Cyk.quoted (slice i j tokens)
      /\ tree_ok t.
Proof.
  intros Hne Hnm.
  destruct (fill_table_spec g tokens Hne) as (Hwf & Hdiag & Hspan & _).
  set (T := Cyk.fill_table g tokens) in *.
  induction d as [d IH] using lt_wf_ind.
  intros fuel i j V Hj Hjn Hfuel Hpresent.
  destruct fuel as [ | fuel]; [lia | ].
  cbn [Cyk.reconstruct_tree].
  rewrite (table_getitem_wf (length tokens)) by (done || lia).
  cbn [mbind outcome_bind].
  destruct (present_matches _ _ Hpresent) as (e & rest & -> & He & HeV).
  destruct (decide (d = 0)) as [-> | Hd].
  - replace j with i in * by lia.
    destruct (lookup_lt_is_Some_2 tokens i Hjn) as [tok Htok].
    rewrite (Hdiag i tok Htok) in He.
    apply diag_cell_elem in He as (A & rules & -> & Hg & Hrule).
    rewrite (slice_one i tokens tok Htok). simpl.
    destruct (dict_get nm A) as [w | ] eqn:Hw.
    + rewrite <- (Hnm A w rules tok Hw Hg Hrule).
      eexists. split; [done | ]. split; [done | ].
      split; [done | ]. intros _. apply quoted_not_X.
    + eexists. split; [done | ]. split; [done | ].
      split; [done | ]. discriminate.
  - rewrite (Hspan i j) in He by lia.
    apply cell_span_elem in He as (A & k & b0 & c0 & -> & Hk & Hb & Hc).
    destruct (IH (k - i) ltac:(lia) fuel i k (Cyk.evar b0))
      as (t1 & Ht1 & Hl1 & Hok1); [lia | lia | lia | | ].
    { apply present_true. by exists b0. }
    destruct (IH (j - (k + 1)) ltac:(lia) fuel (k + 1) j (Cyk.evar c0))
      as (t2 & Ht2 & Hl2 & Hok2); [lia | lia | lia | | ].
    { apply present_true. by exists c0. }
    rewrite Ht1. cbn [mbind outcome_bind]. rewrite Ht2. cbn [mbind outcome_bind].
    destruct (append_child_spec nm [] t1 Hok1) as (Hf1 & Hlv1 & Hn1);
      [constructor | ].
    destruct (append_child_spec nm (Cyk.append_child nm [] t1) t2 Hok2 Hf1)
      as (Hf2 & Hlv2 & Hn2).
    eexists. split; [done | ]. split; [ | split].
    + cbn [TreeBuilder.leaves]. rewrite Hlv2, Hlv1. simpl.
      rewrite Hl1, Hl2. rewrite <- map_app. f_equal. by apply slice_split.
    + by apply flatten_tree_node_fixed.
    + discriminate.
Qed.

Lemma run_cyk_success_nonempty g start tokens :
  Cyk.cyk_success (Cyk.run_cyk g start tokens) = true -> tokens ≠ [].
Proof. by destruct tokens. Qed.

Lemma run_cyk_table g start tokens :
  tokens ≠ [] ->
  Cyk.run_cyk g start tokens
  = Cyk.CykResult (Cyk.fill_table g tokens)
      (Cyk.present start
         (Cyk.tget (Cyk.fill_table g tokens) 0 (length tokens - 1))).
Proof. by destruct tokens. Qed.

(** C6 (as amended).  When [run_cyk] reports success and [nonterm_map]
    names the terminals of the wrapper variables of the grammar,
    [reconstruct_tree] over the full span returns a tree (fuel for the
    length of the input is enough), [flatten_tree] keeps its leaves, and
    the leaf labels are, in order, the input tokens each enclosed in double
    quotes; joined with single spaces they give the input with every token
    quoted. *)
Theorem reconstruction_round_trip g start tokens nm fuel :
  wrappers_consistent g nm ->
  length tokens <= fuel ->
  Cyk.cyk_success (Cyk.run_cyk g start tokens) = true ->
  exists t,
    Cyk.reconstruct_tree fuel (Cyk.cyk_table (Cyk.run_cyk g start tokens))
      0 (length tokens - 1) start nm = Ok t
    /\ TreeBuilder.leaves (TreeBuilder.flatten_tree t) = map Cyk.quoted tokens
    /\ str_join " " (TreeBuilder.leaves (TreeBuilder.flatten_tree t))
       = str_join " " (map Cyk.quoted tokens).
Proof.
  intros Hnm Hfuel Hsucc.
  pose proof (run_cyk_success_nonempty _ _ _ Hsucc) as Hne.
  rewrite (run_cyk_table _ _ _ Hne) in *. cbn [Cyk.cyk_table Cyk.cyk_success] in *.
  assert (1 <= length tokens) by (destruct tokens; [done | simpl; lia]).
  destruct (reconstruct_tree_span g tokens nm Hne Hnm (length tokens - 1) fuel
              0 (length tokens - 1) start)
    as (t & Ht & Hleaves & [Hfix _]); [lia | lia | lia | done | ].
  exists t. split; [done | ]. rewrite Hfix, Hleaves, slice_all by done. done.
Qed.

Lemma reconstruction_round_trip_witness :
  exists t,
    Cyk.reconstruct_tree 2
      (Cyk.cyk_table (Cyk.run_cyk g_original_X "S" ["a"; "b"]))
      0 (length ["a"; "b"] - 1) "S" [] = Ok t
    /\ TreeBuilder.leaves (TreeBuilder.flatten_tree t)
       = map Cyk.quoted ["a"; "b"]
    /\ str_join " " (TreeBuilder.leaves (TreeBuilder.flatten_tree t))
       = str_join " " (map Cyk.quoted ["a"; "b"]).
Proof.
  apply (reconstruction_round_trip g_original_X "S" ["a"; "b"] [] 2).
  - intros A w rules t H. discriminate H.
  - simpl. lia.
  - reflexivity.
Defined.

(** C6, counterexample.  For [S -> a] and the input [a] the tree is [S]
    over the leaf labelled with [a] in double quotes: the joined leaf
    labels are three characters long, the input is one. *)
Lemma reconstruction_labels_are_quoted :
  Cyk.cyk_success (Cyk.run_cyk g_single_terminal "S" ["a"]) = true
  /\ Cyk.reconstruct_tree 1
       (Cyk.cyk_table (Cyk.run_cyk g_single_terminal "S" ["a"])) 0 0 "S" []
     = Ok (Cyk.Node "S" (Some [Cyk.Node (Cyk.quoted "a") None]))
  /\ str_join " "
       (TreeBuilder.leaves
          (TreeBuilder.flatten_tree
             (Cyk.Node "S" (Some [Cyk.Node (Cyk.quoted "a") None]))))
     = Cyk.quoted "a"
  /\ String.length (Cyk.quoted "a") = 3
  /\ Cyk.quoted "a" ≠ str_join " " ["a"].
Proof. repeat split; try reflexivity. discriminate. Qed.

(** ** C7: the evidence of a cell, split by split *)

Lemma present_app A (c c' : list Cyk.entry) :
  Cyk.present A (c ++ c') = Cyk.present A c || Cyk.present A c'.
Proof. unfold Cyk.present. apply existsb_app. Qed.

Lemma present_false A (c : list Cyk.entry) :
  Cyk.present A c = false <-> forall e, e ∈ c -> Cyk.evar e ≠ A.
Proof.
  split.
  - intros H e He Heq.
    assert (Cyk.present A c = true) by (apply present_true; by exists e).
    congruence.
  - intros H. destruct (Cyk.present A c) eqn:E; [ | done].
    apply present_true in E as (e & He & Heq). by destruct (H e He).
Qed.

Lemma matches_nil A (c : list Cyk.entry) :
  Cyk.matches A c = [] <-> Cyk.present A c = false.
Proof.
  split.
  - intros H. apply present_false. intros e He Heq.
    assert (e ∈ Cyk.matches A c) as Hin by (by apply elem_of_matches).
    rewrite H in Hin. by apply elem_of_nil in Hin.
  - intros H. destruct (Cyk.matches A c) as [ | e rest] eqn:E; [done | ].
    apply matches_head in E as [He Heq].
    rewrite present_false in H. by destruct (H e He).
Qed.

Lemma first_evidence_evar rules A k lc rc e :
  first_evidence rules A k lc rc = Some e -> Cyk.evar e = A.
Proof.
  unfold first_evidence.
  destruct (List.find (rule_matches lc rc) rules) as [[ | B [ | C [ | ? ?]]] | ];
    try done.
  destruct (Cyk.matches B lc); [done | ].
  destruct (Cyk.matches C rc); [done | ]. by intros [= <-].
Qed.

Lemma cell_rule_present k lc rc A c r :
  Cyk.present A c = true -> cell_rule k lc rc A c r = c.
Proof.
  intros H. unfold cell_rule. destruct r as [ | B [ | C [ | ? ?]]]; try done.
  destruct (Cyk.matches B lc); [done | ].
  destruct (Cyk.matches C rc); [done | ]. by rewrite H.
Qed.

Lemma cell_rules_present k lc rc A rules c :
  Cyk.present A c = true -> fold_left (cell_rule k lc rc A) rules c = c.
Proof.
  intros H. induction rules as [ | r rules IH]; [done | ].
  cbn [fold_left]. by rewrite cell_rule_present.
Qed.

(** The rules of one key add the first evidence, if the key is not yet
    present. *)
Lemma cell_rules_key k lc rc A rules : forall c,
  fold_left (cell_rule k lc rc A) rules c
  = if Cyk.present A c then c
    else match first_evidence rules A k lc rc with
         | Some e => c ++ [e]
         | None => c
         end.
Proof.
  intros c. destruct (Cyk.present A c) eqn:Hpresent;
    [by apply cell_rules_present | ].
  unfold first_evidence. induction rules as [ | r rules IH]; [done | ].
  cbn [fold_left List.find].
  destruct (rule_matches lc rc r) eqn:Hmatch.
  - destruct r as [ | B [ | C [ | ? ?]]]; try discriminate Hmatch.
    simpl in Hmatch. apply andb_true_iff in Hmatch as [HB HC].
    destruct (present_matches _ _ HB) as (b0 & ? & EB & _).
    destruct (present_matches _ _ HC) as (c0 & ? & EC & _).
    unfold cell_rule at 2. rewrite EB, EC, Hpresent.
    apply cell_rules_present. rewrite present_app. simpl.
    rewrite (proj2 (str_eqb_true A A) eq_refl). by rewrite orb_true_r.
  - assert (cell_rule k lc rc A c r = c) as ->; [ | exact IH].
    unfold cell_rule. destruct r as [ | B [ | C [ | ? ?]]]; try done.
    simpl in Hmatch. apply andb_false_iff in Hmatch as [H | H].
    + apply matches_nil in H. by rewrite H.
    + apply matches_nil in H. rewrite H. by destruct (Cyk.matches B lc).
Qed.

Lemma cell_rules_closed g k lc rc : forall c extra,
  NoDup (dict_keys g) ->
  (forall e, e ∈ extra -> Cyk.evar e ∉ dict_keys g) ->
  cell_rules g k lc rc (c ++ extra) = c ++ extra ++ split_news g k lc rc c.
Proof.
  unfold cell_rules, split_news.
  induction g as [ | [A rules] g IH]; intros c extra Hnd Hextra.
  - simpl. by rewrite app_nil_r.
  - cbn [fold_left omap list_omap]. unfold dict_keys in *. csimpl in *.
    apply NoDup_cons in Hnd as [HA Hnd].
    rewrite cell_rules_key.
    assert (Cyk.present A (c ++ extra) = Cyk.present A c) as ->.
    { rewrite present_app.
      assert (Cyk.present A extra = false) as ->; [ | by rewrite orb_false_r].
      apply present_false. intros e He Heq.
      apply (Hextra e He). rewrite Heq. apply list_elem_of_here. }
    destruct (Cyk.present A c) eqn:HpA.
    + apply IH; [done | ]. intros e He Hin.
      apply (Hextra e He). by apply list_elem_of_further.
    + destruct (first_evidence rules A k lc rc) as [e0 | ] eqn:Hev.
      * rewrite <- app_assoc. rewrite (IH c (extra ++ [e0])); [ | done | ].
        -- by rewrite <- !app_assoc.
        -- intros e He Hin. apply elem_of_app in He as [He | He].
           ++ apply (Hextra e He). by apply list_elem_of_further.
           ++ apply list_elem_of_singleton in He. subst e.
              apply first_evidence_evar in Hev. by rewrite Hev in Hin.
      * apply IH; [done | ]. intros e He Hin.
        apply (Hextra e He). by apply list_elem_of_further.
Qed.

Lemma first_evidence_empty rules A k lc rc :
  lc = [] \/ rc = [] -> first_evidence rules A k lc rc = None.
Proof.
  intros H. unfold first_evidence.
  destruct (List.find (rule_matches lc rc) rules) as [r | ] eqn:Hfind; [ | done].
  apply find_some in Hfind as [_ Hm].
  destruct r as [ | B [ | C [ | ? ?]]]; try done.
  simpl in Hm. apply andb_true_iff in Hm as [HB HC].
  destruct H as [-> | ->]; discriminate.
Qed.

Lemma split_news_empty g k lc rc c :
  lc = [] \/ rc = [] -> split_news g k lc rc c = [].
Proof.
  intros H. unfold split_news. induction g as [ | [A rules] g IH]; [done | ].
  cbn [omap list_omap]. rewrite first_evidence_empty by done.
  by destruct (Cyk.present A c).
Qed.

Lemma cell_split_closed g get i j c k :
  NoDup (dict_keys g) ->
  cell_split g get i j c k
  = c ++ split_news g k (get i k) (get (k + 1) j) c.
Proof.
  intros Hnd. unfold cell_split.
  destruct (bool_decide (get i k = []) || bool_decide (get (k + 1) j = []))
    eqn:Hempty.
  - rewrite split_news_empty; [by rewrite app_nil_r | ].
    apply orb_true_iff in Hempty as [H | H]; apply bool_decide_eq_true in H; auto.
  - pose proof (cell_rules_closed g k (get i k) (get (k + 1) j) c [] Hnd) as H.
    rewrite app_nil_r in H. rewrite H; [done | ].
    intros e He. by apply elem_of_nil in He.
Qed.

Lemma elem_of_split_news g k lc rc c e :
  e ∈ split_news g k lc rc c
  <-> exists A rules,
        (A, rules) ∈ g /\ Cyk.present A c = false
        /\ first_evidence rules A k lc rc = Some e.
Proof.
  unfold split_news. rewrite list_elem_of_omap. split.
  - intros ([A rules] & Hin & H). exists A, rules.
    destruct (Cyk.present A c); [done | by split].
  - intros (A & rules & Hin & Hp & Hev). exists (A, rules).
    split; [done | ]. by rewrite Hp.
Qed.

(** Entries made key by key from a dictionary carry pairwise distinct
    variables. *)
Lemma NoDup_evar_omap (g : dict (list (list string)))
    (F : string -> list (list string) -> option Cyk.entry) :
  NoDup (dict_keys g) ->
  (forall A rules e, F A rules = Some e -> Cyk.evar e = A) ->
  NoDup (Cyk.evar <$> omap (fun '(A, rules) => F A rules) g).
Proof.
  intros Hnd HF. unfold dict_keys in Hnd.
  induction g as [ | [A rules] g IH]; [constructor | ].
  csimpl in *. apply NoDup_cons in Hnd as [HA Hnd].
  destruct (F A rules) as [e | ] eqn:He; [ | by apply IH].
  csimpl. apply NoDup_cons. split; [ | by apply IH].
  rewrite (HF _ _ _ He). intros Hin. apply HA.
  apply list_elem_of_fmap in Hin as (e' & -> & Hin).
  apply list_elem_of_omap in Hin as ([A' rules'] & Hin & He').
  rewrite (HF _ _ _ He'). apply list_elem_of_fmap. by exists (A', rules').
Qed.

Lemma NoDup_evar_matches A (c : list Cyk.entry) :
  NoDup (Cyk.evar <$> c) -> length (Cyk.matches A c) <= 1.
Proof.
  induction c as [ | e c IH]; csimpl; [lia | ].
  intros Hnd. apply NoDup_cons in Hnd as [He Hnd].
  destruct (str_eqb (Cyk.evar e) A) eqn:E.
  - apply str_eqb_true in E. simpl.
    assert (Cyk.matches A c = []) as ->; [ | simpl; lia].
    apply matches_nil, present_false. intros e' He' Heq.
    apply He. apply list_elem_of_fmap. exists e'. split; [congruence | done].
  - by apply IH.
Qed.

(** The invariant of the fold over the splits of a span. *)
Lemma cell_span_prefix g get i j :
  NoDup (dict_keys g) ->
  forall m,
    let c := fold_left (cell_split g get i j) (seq i m) [] in
    NoDup (Cyk.evar <$> c)
    /\ (forall e, e ∈ c ->
          exists A rules k,
            dict_get g A = Some rules /\ i <= k < i + m
            /\ first_evidence rules A k (get i k) (get (k + 1) j) = Some e
            /\ forall k', i <= k' < k ->
                 first_evidence rules A k' (get i k') (get (k' + 1) j) = None)
    /\ (forall A rules k,
          dict_get g A = Some rules -> i <= k < i + m ->
          first_evidence rules A k (get i k) (get (k + 1) j) ≠ None ->
          Cyk.present A c = true).
Proof.
  intros Hnd. induction m as [ | m (IHnd & IHfrom & IHto)]; intros c.
  - subst c. simpl. split; [constructor | ]. split.
    + intros e He. by apply elem_of_nil in He.
    + intros; lia.
  - subst c. rewrite seq_S, fold_left_app. cbn [fold_left].
    set (c := fold_left (cell_split g get i j) (seq i m) []) in *.
    rewrite cell_split_closed by done.
    set (news := split_news g (i + m) (get i (i + m)) (get (i + m + 1) j) c).
    split; [ | split].
    + rewrite fmap_app. apply NoDup_app. split; [done | ]. split.
      * intros x Hx Hx'.
        apply list_elem_of_fmap in Hx as (e & -> & He).
        apply list_elem_of_fmap in Hx' as (e' & Heq & He').
        apply elem_of_split_news in He' as (A & rules & _ & Hp & Hev).
        apply first_evidence_evar in Hev.
        rewrite present_false in Hp. apply (Hp e He). congruence.
      * unfold news, split_news.
        apply (NoDup_evar_omap g
                 (fun A rules =>
                    if Cyk.present A c then None
                    else first_evidence rules A (i + m) (get i (i + m))
                           (get (i + m + 1) j))); [done | ].
        intros A rules e. destruct (Cyk.present A c); [done | ].
        apply first_evidence_evar.
    + intros e He. apply elem_of_app in He as [He | He].
      * destruct (IHfrom e He) as (A & rules & k & Hget & Hk & Hev & Hbefore).
        exists A, rules, k. repeat split; try done; lia.
      * apply elem_of_split_news in He as (A & rules & Hin & Hp & Hev).
        apply (dict_get_NoDup _ _ _ Hnd) in Hin.
        exists A, rules, (i + m). repeat split; try done; try lia.
        intros k' Hk'.
        destruct (first_evidence rules A k' (get i k') (get (k' + 1) j))
          as [e' | ] eqn:Hev'; [ | done].
        assert (Cyk.present A c = true); [ | congruence].
        apply (IHto A rules k'); [done | lia | congruence].
    + intros A rules k Hget Hk Hev. rewrite present_app.
      destruct (Cyk.present A c) eqn:Hp; [done | ]. simpl.
      destruct (decide (k = i + m)) as [-> | Hne].
      * destruct (first_evidence rules A (i + m) (get i (i + m))
                    (get (i + m + 1) j)) as [e | ] eqn:Hev'; [ | done].
        apply present_true. exists e. split.
        -- apply elem_of_split_news. exists A, rules.
           split; [by apply dict_get_Some_elem | done].
        -- by eapply first_evidence_evar.
      * assert (Cyk.present A c = true); [ | congruence].
        apply (IHto A rules k); [done | lia | done].
Qed.

(** The diagonal. *)
Lemma diag_rules_closed tok A (rules : list (list string)) : forall c,
  NoDup (token_rules rules) ->
  fold_left (diag_rule tok A) rules c
  = c ++ (if bool_decide ([tok] ∈ rules) then [Cyk.ETerm A tok] else []).
Proof.
  induction rules as [ | r rules IH]; intros c Hnd.
  - simpl. by rewrite app_nil_r.
  - cbn [fold_left]. unfold token_rules in *. cbn [List.filter] in Hnd.
    destruct (decide (r = [tok])) as [-> | Hne].
    + rewrite bool_decide_true in Hnd by done.
      apply NoDup_cons in Hnd as [Hr Hnd]. rewrite IH by done.
      unfold diag_rule. rewrite (proj2 (str_eqb_true tok tok) eq_refl).
      rewrite (bool_decide_false ([tok] ∈ rules)).
      * rewrite bool_decide_true by apply list_elem_of_here.
        by rewrite app_nil_r.
      * intros Hin. apply Hr. apply elem_of_List_filter. split; [done | ].
        by apply bool_decide_eq_true.
    + assert (NoDup (List.filter (fun r : list string => bool_decide (length r = 1))
                       rules)) as Hnd'.
      { destruct (bool_decide (length r = 1)); [ | done].
        by apply NoDup_cons in Hnd as [_ ?]. }
      rewrite IH by done.
      assert (diag_rule tok A c r = c) as ->.
      { unfold diag_rule. destruct r as [ | a [ | ? ?]]; try done.
        destruct (str_eqb a tok) eqn:E; [ | done].
        apply str_eqb_true in E. congruence. }
      assert (bool_decide ([tok] ∈ r :: rules) = bool_decide ([tok] ∈ rules))
        as ->; [ | done].
      apply bool_decide_ext. rewrite elem_of_cons.
      split; [by intros [? | ?] | by right].
Qed.

Lemma diag_fold_closed g tok : forall c,
  no_duplicate_token_rules g -> diag_fold g tok c = c ++ diag_news g tok.
Proof.
  unfold diag_fold, diag_news, no_duplicate_token_rules.
  induction g as [ | [A rules] g IH]; intros c Hnd.
  - simpl. by rewrite app_nil_r.
  - apply Forall_cons in Hnd as [Hrules Hnd]. simpl in Hrules.
    cbn [fold_left omap list_omap]. rewrite diag_rules_closed by done.
    rewrite IH by done. rewrite <- app_assoc. f_equal.
    by destruct (bool_decide ([tok] ∈ rules)).
Qed.

Lemma tget_out_of_range n t i j :
  wf_table n t -> n <= i \/ n <= j -> Cyk.tget t i j = [].
Proof.
  intros [Hlen Hrows] Hout. unfold Cyk.tget.
  destruct (t !! i) as [row | ] eqn:Hrow; [ | done]. simpl.
  destruct (row !! j) as [c | ] eqn:Hc; [ | done].
  rewrite Forall_forall in Hrows.
  assert (length row = n) by (apply Hrows; by eapply list_elem_of_lookup_2).
  apply lookup_lt_Some in Hrow, Hc.
  lia.
Qed.

(** Without the Grammar invariant a diagonal cell repeats the entry of a
    rule that is listed twice: step 1 appends without the presence check
    of step 2. *)
Example diagonal_repeats_duplicate_rule :
  Cyk.tget (Cyk.cyk_table (Cyk.run_cyk [("A", [["a"]; ["a"]])] "A" ["a"])) 0 0
  = [Cyk.ETerm "A" "a"; Cyk.ETerm "A" "a"].
Proof. reflexivity. Qed.

(** Scenario E: [S -> S S | a] derives [a a a] in two ways; the table
    records for [S] over the whole input the split after the first token
    only. *)
Example ambiguous_lowest_split :
  Cyk.tget (Cyk.cyk_table (Cyk.run_cyk g_ambiguous "S" ["a"; "a"; "a"])) 0 2
  = [Cyk.EBin "S" 0 (Cyk.ETerm "S" "a")
       (Cyk.EBin "S" 1 (Cyk.ETerm "S" "a") (Cyk.ETerm "S" "a"))].
Proof. reflexivity. Qed.

(** ** Strings: words joined and split *)

#[local] Arguments String.append !s1 s2 / : simpl nomatch.

Lemma str_append_assoc (a b c : string) : (a +:+ b) +:+ c = a +:+ (b +:+ c).
Proof. induction a as [ | x a IH]; simpl; [done | by rewrite IH]. Qed.

Lemma str_append_nil_r (a : string) : a +:+ "" = a.
Proof. induction a as [ | x a IH]; simpl; [done | by rewrite IH]. Qed.

Lemma str_any_append f (a b : string) :
  str_any f (a +:+ b) = str_any f a || str_any f b.
Proof.
  induction a as [ | x a IH]; simpl; [done | ].
  by rewrite IH, orb_assoc.
Qed.

Lemma str_rev_onto_spec (s acc : string) :
  str_rev_onto s acc = str_rev s +:+ acc.
Proof.
  unfold str_rev. revert acc. induction s as [ | c s IH]; intros acc; simpl; [done | ].
  rewrite (IH (String c acc)), (IH (String c "")).
  by rewrite str_append_assoc.
Qed.

Lemma str_rev_cons c (s : string) : str_rev (String c s) = str_rev s +:+ String c "".
Proof. unfold str_rev at 1. simpl. apply str_rev_onto_spec. Qed.

Lemma str_rev_append (a b : string) : str_rev (a +:+ b) = str_rev b +:+ str_rev a.
Proof.
  induction a as [ | x a IH]; simpl.
  - by rewrite str_append_nil_r.
  - by rewrite !str_rev_cons, IH, str_append_assoc.
Qed.

Lemma str_rev_involutive (s : string) : str_rev (str_rev s) = s.
Proof.
  induction s as [ | c s IH]; [done | ].
  by rewrite str_rev_cons, str_rev_append, IH.
Qed.

Lemma str_any_rev f (s : string) : str_any f (str_rev s) = str_any f s.
Proof.
  induction s as [ | c s IH]; [done | ].
  rewrite str_rev_cons, str_any_append, IH. simpl.
  by rewrite orb_false_r, orb_comm.
Qed.

Lemma plain_word_spec w :
  plain_word w = true ->
  w ≠ "" /\ no_space w /\ str_any (fun c => bool_decide (c = "|"%char)) w = false.
Proof.
  unfold plain_word, no_space. intros H.
  apply andb_true_iff in H as [Hne Hany].
  apply negb_true_iff in Hne, Hany. apply str_eqb_false in Hne.
  split; [done | ]. clear Hne.
  induction w as [ | c w IH]; [done | ]. simpl in *.
  apply orb_false_iff in Hany as [Hc Hany].
  apply orb_false_iff in Hc as [Hc1 Hc2].
  destruct (IH Hany) as [-> ->]. by rewrite Hc1, Hc2.
Qed.

Lemma lstrip_no_space w rest :
  w ≠ "" -> no_space w -> lstrip (w +:+ rest) = w +:+ rest.
Proof.
  unfold no_space. destruct w as [ | c w]; [done | ]. simpl.
  intros _ H. apply orb_false_iff in H as [-> _]. done.
Qed.

Lemma str_rev_nonempty (w : string) : w ≠ "" -> str_rev w ≠ "".
Proof.
  destruct w as [ | c w]; [done | ]. intros _. rewrite str_rev_cons.
  by destruct (str_rev w).
Qed.

(** A string that starts and ends with a word without white space is left
    alone by [strip]. *)
Lemma strip_between w1 mid w2 :
  w1 ≠ "" -> no_space w1 -> w2 ≠ "" -> no_space w2 ->
  strip (w1 +:+ mid +:+ w2) = w1 +:+ mid +:+ w2.
Proof.
  intros H1 Hs1 H2 Hs2. unfold strip.
  rewrite lstrip_no_space by done.
  rewrite !str_rev_append, str_append_assoc.
  rewrite lstrip_no_space.
  - rewrite <- str_append_assoc, <- !str_rev_append. apply str_rev_involutive.
  - by apply str_rev_nonempty.
  - unfold no_space. by rewrite str_any_rev.
Qed.

Lemma strip_word w : w ≠ "" -> no_space w -> strip w = w.
Proof.
  intros Hne Hs. unfold strip.
  pose proof (lstrip_no_space w "" Hne Hs) as H1. rewrite str_append_nil_r in H1.
  rewrite H1.
  pose proof (lstrip_no_space (str_rev w) "" (str_rev_nonempty w Hne)) as H2.
  rewrite str_append_nil_r in H2. rewrite H2.
  - apply str_rev_involutive.
  - unfold no_space. by rewrite str_any_rev.
Qed.

(** [split("|")] of a string without a pipe. *)
Lemma split_on_absent sep (s : string) :
  str_any (fun c => bool_decide (c = sep)) s = false -> split_on sep s = [s].
Proof.
  induction s as [ | c s IH]; [done | ]. simpl. intros H.
  apply orb_false_iff in H as [Hc Hs]. rewrite (IH Hs). by rewrite Hc.
Qed.

(** [split()] of words joined by single spaces. *)
Lemma split_ws_go_word w rest :
  no_space w ->
  split_ws_go (w +:+ rest)
  = (w +:+ (split_ws_go rest).1, (split_ws_go rest).2).
Proof.
  unfold no_space. induction w as [ | c w IH]; simpl.
  - intros _. by destruct (split_ws_go rest).
  - intros H. apply orb_false_iff in H as [Hc Hw]. rewrite (IH Hw). by rewrite Hc.
Qed.

Lemma split_ws_go_join ws :
  Forall (fun w => w ≠ "" /\ no_space w) ws ->
  split_ws_go (str_join " " ws)
  = match ws with
    | [] => ("", [])
    | w :: ws' => (w, ws')
    end.
Proof.
  induction ws as [ | w ws IH]; intros Hall; [done | ].
  apply Forall_cons in Hall as [[Hne Hw] Hall].
  destruct ws as [ | w2 ws].
  - simpl. pose proof (split_ws_go_word w "" Hw) as H.
    rewrite str_append_nil_r in H. rewrite H. simpl. by rewrite str_append_nil_r.
  - change (str_join " " (w :: w2 :: ws))
      with (w +:+ String " " (str_join " " (w2 :: ws))).
    rewrite split_ws_go_word by done.
    cbn [split_ws_go]. rewrite (IH Hall).
    change (isspace " ") with true. cbn [fst snd].
    apply Forall_cons in Hall as [[Hne2 _] _].
    rewrite (proj2 (str_eqb_false w2 "") Hne2).
    by rewrite str_append_nil_r.
Qed.

Lemma split_ws_join ws :
  Forall (fun w => w ≠ "" /\ no_space w) ws -> split_ws (str_join " " ws) = ws.
Proof.
  intros Hall. unfold split_ws. rewrite split_ws_go_join by done.
  destruct ws as [ | w ws]; [done | ].
  apply Forall_cons in Hall as [[Hne _] _].
  by rewrite (proj2 (str_eqb_false w "") Hne).
Qed.

Lemma str_any_join f ws :
  Forall (fun w => str_any f w = false) ws -> f " "%char = false ->
  str_any f (str_join " " ws) = false.
Proof.
  intros Hall Hsp. induction ws as [ | w ws IH]; [done | ].
  apply Forall_cons in Hall as [Hw Hall]. destruct ws as [ | w2 ws]; [done | ].
  change (str_join " " (w :: w2 :: ws))
    with (w +:+ String " " (str_join " " (w2 :: ws))).
  rewrite str_any_append, Hw. simpl. rewrite Hsp. by apply IH.
Qed.

(* ================================================================== *)
(** * Further properties of the code                                   *)
(* ================================================================== *)

(** ** The recognizer decides derivability *)

Lemma derives_nonempty g A w : derives g A w -> w ≠ [].
Proof.
  induction 1 as [ | A rules B C w1 w2 _ _ _ IH1 _ _]; [done | ].
  destruct w1; [done | done].
Qed.

Lemma slice_length i j (tokens : list string) :
  j < length tokens -> length (slice i j tokens) = S j - i.
Proof. intros H. unfold slice. rewrite length_take, length_drop. lia. Qed.

Lemma slice_lookup i (tokens : list string) :
  i < length tokens -> exists tok, tokens !! i = Some tok /\ slice i i tokens = [tok].
Proof.
  intros H. destruct (lookup_lt_is_Some_2 tokens i H) as [tok Htok].
  exists tok. split; [done | by apply slice_one].
Qed.

(** A two-part word over a span is cut at some split of the span. *)
Lemma slice_app_inv i j (tokens w1 w2 : list string) :
  i <= j -> j < length tokens ->
  w1 ≠ [] -> w2 ≠ [] -> w1 ++ w2 = slice i j tokens ->
  exists k, i <= k < j /\ w1 = slice i k tokens /\ w2 = slice (k + 1) j tokens.
Proof.
  intros Hij Hj H1 H2 Heq.
  assert (length w1 + length w2 = S j - i) as Hlen.
  { rewrite <- length_app, Heq. by apply slice_length. }
  assert (0 < length w1) by (destruct w1; [done | simpl; lia]).
  assert (0 < length w2) by (destruct w2; [done | simpl; lia]).
  exists (i + length w1 - 1). split; [lia | ].
  rewrite <- (slice_split i (i + length w1 - 1) j tokens) in Heq by lia.
  apply app_inj_1 in Heq; [done | ].
  rewrite slice_length by lia. lia.
Qed.

Lemma diag_fold_mono g tok : forall c e, e ∈ c -> e ∈ diag_fold g tok c.
Proof.
  unfold diag_fold. intros c e He.
  set (P := fun c : list Cyk.entry => e ∈ c).
  apply (fold_left_invariant P (fun _ : string * list (list string) => True));
    [ | by apply Forall_forall | done].
  intros [A rules] c1 _ Hc1.
  apply (fold_left_invariant P (fun _ : list string => True));
    [ | by apply Forall_forall | done].
  intros r c2 _ Hc2. unfold P, diag_rule.
  destruct r as [ | a [ | ? ?]]; try done.
  destruct (str_eqb a tok); [ | done]. apply elem_of_app. by left.
Qed.

Lemma diag_cell_complete g tok A rules :
  (A, rules) ∈ g -> [tok] ∈ rules -> Cyk.ETerm A tok ∈ diag_cell g tok.
Proof.
  intros Hin Hr. unfold diag_cell, diag_fold.
  set (M := fun c : list Cyk.entry => Cyk.ETerm A tok ∈ c).
  apply (fold_left_establish (fun _ => True) M _ g (A, rules)); try done.
  - intros [A' rules'] c _ Hc.
    apply (fold_left_invariant M (fun _ : list string => True));
      [ | by apply Forall_forall | done].
    intros r c2 _ Hc2. unfold M, diag_rule.
    destruct r as [ | a [ | ? ?]]; try done.
    destruct (str_eqb a tok); [ | done]. apply elem_of_app. by left.
  - intros c _.
    apply (fold_left_establish (fun _ => True) M _ rules [tok]); try done.
    + intros r c2 _ Hc2. unfold M, diag_rule.
      destruct r as [ | a [ | ? ?]]; try done.
      destruct (str_eqb a tok); [ | done]. apply elem_of_app. by left.
    + intros c2 _. unfold M, diag_rule.
      assert (str_eqb tok tok = true) as -> by by apply str_eqb_true.
      apply elem_of_app. right. apply list_elem_of_here.
Qed.

Lemma first_evidence_Some_inv rules A k lc rc e :
  first_evidence rules A k lc rc = Some e ->
  exists B C, [B; C] ∈ rules
              /\ Cyk.present B lc = true /\ Cyk.present C rc = true.
Proof.
  unfold first_evidence.
  destruct (List.find (rule_matches lc rc) rules) as [r | ] eqn:Hfind; [ | done].
  apply find_some in Hfind as [Hin Hm].
  destruct r as [ | B [ | C [ | ? ?]]]; try done.
  intros _. exists B, C. apply list_elem_of_In in Hin.
  simpl in Hm. apply andb_true_iff in Hm as [? ?]. done.
Qed.

Lemma first_evidence_matching rules A k lc rc B C :
  [B; C] ∈ rules -> Cyk.present B lc = true -> Cyk.present C rc = true ->
  first_evidence rules A k lc rc ≠ None.
Proof.
  intros Hin HB HC. unfold first_evidence.
  destruct (List.find (rule_matches lc rc) rules) as [r | ] eqn:Hfind.
  - apply find_some in Hfind as [_ Hm].
    destruct r as [ | B' [ | C' [ | ? ?]]]; try done.
    simpl in Hm. apply andb_true_iff in Hm as [HB' HC'].
    apply present_matches in HB' as (b0 & ? & -> & _).
    apply present_matches in HC' as (c0 & ? & -> & _). done.
  - apply list_elem_of_In in Hin.
    apply (find_none _ _ Hfind) in Hin. simpl in Hin. by rewrite HB, HC in Hin.
Qed.

(** Cell by cell: a variable is present over a span exactly when it derives
    the tokens of the span. *)
Lemma cell_derives g tokens :
  NoDup (dict_keys g) -> tokens ≠ [] ->
  forall d i j A,
    j = i + d -> j < length tokens ->
    Cyk.present A (Cyk.tget (Cyk.fill_table g tokens) i j) = true
    <-> derives g A (slice i j tokens).
Proof.
  intros Hnd Hne.
  destruct (fill_table_spec g tokens Hne) as (Hwf & Hdiag & Hspan & _).
  induction d as [d IH] using lt_wf_ind. intros i j A Hd Hj.
  destruct d as [ | d].
  - replace j with i in * by lia.
    destruct (slice_lookup i tokens Hj) as (tok & Htok & ->).
    rewrite (Hdiag i tok Htok). split.
    + intros H. apply present_true in H as (e & He & <-).
      apply diag_cell_elem in He as (A & rules & -> & Hin & Hr).
      by eapply derives_token.
    + intros H. remember [tok] as w eqn:Hw.
      destruct H as [A rules tok' Hin Hr | A rules B C w1 w2 _ _ H1 H2].
      * injection Hw as ->. apply present_true.
        exists (Cyk.ETerm A tok). split; [ | done].
        by eapply diag_cell_complete.
      * apply derives_nonempty in H1, H2.
        destruct w1 as [ | ? [ | ? ?]]; destruct w2; done.
  - rewrite (Hspan i j) by lia.
    destruct (cell_span_prefix g (Cyk.tget (Cyk.fill_table g tokens)) i j Hnd (j - i))
      as (_ & Hsound & Hcomplete).
    fold (cell_span g (Cyk.tget (Cyk.fill_table g tokens)) i j) in Hsound, Hcomplete.
    split.
    + intros H. apply present_true in H as (e & He & <-).
      destruct (Hsound e He) as (A & rules & k & Hget & Hk & Hev & _).
      rewrite (first_evidence_evar _ _ _ _ _ _ Hev).
      apply first_evidence_Some_inv in Hev as (B & C & Hr & HB & HC).
      rewrite <- (slice_split i k j) by lia.
      apply (derives_pair g A rules B C); [by apply dict_get_Some_elem | done | | ].
      * apply (IH (k - i)) with (i := i) (j := k); [lia | lia | lia | done].
      * apply (IH (j - (k + 1))) with (i := k + 1) (j := j); [lia | lia | lia | done].
    + intros H. remember (slice i j tokens) as w eqn:Hw.
      destruct H as [A rules tok' Hin Hr | A rules B C w1 w2 Hin Hr H1 H2].
      * assert (length (slice i j tokens) = 1) as Hlen by by rewrite <- Hw.
        rewrite slice_length in Hlen by lia. lia.
      * destruct (slice_app_inv i j tokens w1 w2) as (k & Hk & -> & ->);
          [lia | done | by eapply derives_nonempty | by eapply derives_nonempty
          | done | ].
        apply (Hcomplete A rules k); [by apply dict_get_NoDup | lia | ].
        apply (first_evidence_matching _ _ _ _ _ B C); [done | | ].
        -- apply (IH (k - i)) with (i := i) (j := k); [lia | lia | lia | done].
        -- apply (IH (j - (k + 1))) with (i := k + 1) (j := j);
             [lia | lia | lia | done].
Qed.

(** X1.  [run_cyk] reports success exactly when the start variable derives
    the token sequence with the one-symbol and two-symbol rules of the
    grammar; for the empty sequence it reports failure. *)
Theorem run_cyk_success_iff_derives g start tokens :
  NoDup (dict_keys g) ->
  Cyk.cyk_success (Cyk.run_cyk g start tokens) = true <-> derives g start tokens.
Proof.
  intros Hnd. destruct (decide (tokens = [])) as [-> | Hne].
  - split; [done | ]. intros H. by apply derives_nonempty in H.
  - rewrite (run_cyk_table _ _ _ Hne). cbn [Cyk.cyk_success].
    assert (0 < length tokens) by (destruct tokens; [done | simpl; lia]).
    rewrite (cell_derives g tokens Hnd Hne (length tokens - 1) 0 (length tokens - 1))
      by lia.
    by rewrite slice_all.
Qed.

Lemma run_cyk_success_iff_derives_witness :
  Cyk.cyk_success (Cyk.run_cyk g_ambiguous "S" ["a"; "a"]) = true
  <-> derives g_ambiguous "S" ["a"; "a"].
Proof.
  apply (run_cyk_success_iff_derives g_ambiguous "S" ["a"; "a"]).
  apply NoDup_singleton.
Defined.

(** X2.  In the table returned for a non-empty input, a variable has an
    entry in the cell of a span exactly when it derives the tokens of that
    span. *)
Theorem run_cyk_cell_iff_derives g start tokens i j A :
  NoDup (dict_keys g) -> i <= j < length tokens ->
  Cyk.present A (Cyk.tget (Cyk.cyk_table (Cyk.run_cyk g start tokens)) i j) = true
  <-> derives g A (slice i j tokens).
Proof.
  intros Hnd Hij.
  assert (tokens ≠ []) as Hne by (intros ->; simpl in Hij; lia).
  rewrite (run_cyk_table _ _ _ Hne). cbn [Cyk.cyk_table].
  apply (cell_derives g tokens Hnd Hne (j - i)); lia.
Qed.

Lemma run_cyk_cell_iff_derives_witness :
  Cyk.present "S"
    (Cyk.tget (Cyk.cyk_table (Cyk.run_cyk g_ambiguous "S" ["a"; "a"; "a"])) 1 2)
  = true
  <-> derives g_ambiguous "S" (slice 1 2 ["a"; "a"; "a"]).
Proof.
  apply (run_cyk_cell_iff_derives g_ambiguous "S" ["a"; "a"; "a"] 1 2 "S").
  - apply NoDup_singleton.
  - simpl. lia.
Defined.

(** X3.  The table returned for [n] tokens is [n] by [n]; the cells below
    the diagonal are empty; every entry of a diagonal cell is a token entry
    for the token at that position, and every entry above the diagonal is
    a split entry whose split lies inside the span and whose two parts are
    entries of the two cells it points to. *)
Theorem run_cyk_table_shape g start tokens :
  tokens ≠ [] ->
  let T := Cyk.cyk_table (Cyk.run_cyk g start tokens) in
  wf_table (length tokens) T
  /\ (forall i j, j < i -> Cyk.tget T i j = [])
  /\ (forall i j e, i <= j < length tokens -> e ∈ Cyk.tget T i j ->
        entry_ok tokens T i j e).
Proof.
  intros Hne. rewrite (run_cyk_table _ _ _ Hne). cbn [Cyk.cyk_table].
  destruct (fill_table_spec g tokens Hne) as (Hwf & Hdiag & Hspan & Hlow).
  split; [done | ]. split.
  - intros i j Hji. destruct (decide (i < length tokens)) as [Hi | Hi].
    + apply Hlow. lia.
    + apply (tget_out_of_range (length tokens)); [done | lia].
  - intros i j e Hij He. destruct (decide (i = j)) as [<- | Hneq].
    + destruct (lookup_lt_is_Some_2 tokens i) as [tok Htok]; [lia | ].
      rewrite (Hdiag i tok Htok) in He.
      apply diag_cell_elem in He as (A & rules & -> & _ & _). by simpl.
    + rewrite Hspan in He by lia.
      apply cell_span_elem in He as (A & k & b0 & c0 & -> & Hk & Hb & Hc).
      by simpl.
Qed.

Lemma run_cyk_table_shape_witness :
  let T := Cyk.cyk_table (Cyk.run_cyk g_ambiguous "S" ["a"; "a"]) in
  wf_table (length ["a"; "a"]) T
  /\ (forall i j, j < i -> Cyk.tget T i j = [])
  /\ (forall i j e, i <= j < length ["a"; "a"] -> e ∈ Cyk.tget T i j ->
        entry_ok ["a"; "a"] T i j e).
Proof. apply (run_cyk_table_shape g_ambiguous "S" ["a"; "a"]). discriminate. Defined.

(** ** Reconstruction never fails inside the table *)

Lemma table_getitem_out n t i j :
  wf_table n t -> n <= i \/ n <= j -> Cyk.table_getitem t i j = Raise IndexError.
Proof.
  intros [Hlen Hrows] Hout. unfold Cyk.table_getitem.
  destruct (t !! i) as [row | ] eqn:Hrow; [ | done].
  destruct (row !! j) as [c | ] eqn:Hc; [ | done].
  rewrite Forall_forall in Hrows.
  assert (length row = n) by (apply Hrows; by eapply list_elem_of_lookup_2).
  apply lookup_lt_Some in Hrow, Hc. lia.
Qed.

Lemma reconstruct_tree_total g tokens nm :
  tokens ≠ [] ->
  forall d fuel i j V,
    j = i + d -> j < length tokens -> d < fuel ->
    exists t, Cyk.reconstruct_tree fuel (Cyk.fill_table g tokens) i j V nm = Ok t.
Proof.
  intros Hne.
  destruct (fill_table_spec g tokens Hne) as (Hwf & Hdiag & Hspan & _).
  induction d as [d IH] using lt_wf_ind. intros fuel i j V Hd Hj Hfuel.
  destruct fuel as [ | fuel]; [lia | ]. cbn [Cyk.reconstruct_tree].
  rewrite (table_getitem_wf (length tokens)) by (done || lia).
  change (Ok ?c ≫= ?k) with (k c). cbv beta.
  destruct (Cyk.matches V (Cyk.tget (Cyk.fill_table g tokens) i j))
    as [ | e rest] eqn:Hm; [by eauto | ].
  apply matches_head in Hm as [He _].
  destruct e as [A tok | A k b0 c0].
  - destruct (dict_get nm A); by eauto.
  - assert (i <= k < j) as Hk.
    { destruct d as [ | d].
      - replace j with i in * by lia.
        destruct (lookup_lt_is_Some_2 tokens i Hj) as [tok Htok].
        rewrite (Hdiag i tok Htok) in He.
        by apply diag_cell_elem in He as (? & ? & ? & _).
      - rewrite Hspan in He by lia.
        apply cell_span_elem in He as (? & ? & ? & ? & [= _ <- _ _] & ? & _). done. }
    destruct (IH (k - i) ltac:(lia) fuel i k (Cyk.evar b0)) as [tl ->];
      [lia | lia | lia | ].
    destruct (IH (j - (k + 1)) ltac:(lia) fuel (k + 1) j (Cyk.evar c0)) as [tr ->];
      [lia | lia | lia | ].
    by eauto.
Qed.

(** X4.  On the table that [run_cyk] returns, [reconstruct_tree] returns a
    tree for every span inside the table, every variable and every
    [nonterm_map]: it raises nothing, and fuel for the length of the span
    is enough. *)
Theorem reconstruct_tree_returns g start tokens nm i j V fuel :
  i <= j < length tokens -> j - i < fuel ->
  exists t,
    Cyk.reconstruct_tree fuel (Cyk.cyk_table (Cyk.run_cyk g start tokens))
      i j V nm = Ok t.
Proof.
  intros Hij Hfuel.
  assert (tokens ≠ []) as Hne by (intros ->; simpl in Hij; lia).
  rewrite (run_cyk_table _ _ _ Hne). cbn [Cyk.cyk_table].
  apply (reconstruct_tree_total g tokens nm Hne (j - i)); lia.
Qed.

Lemma reconstruct_tree_returns_witness :
  exists t,
    Cyk.reconstruct_tree 2
      (Cyk.cyk_table (Cyk.run_cyk g_original_X "S" ["a"; "b"])) 0 1 "Y" [] = Ok t.
Proof.
  apply (reconstruct_tree_returns g_original_X "S" ["a"; "b"] [] 0 1 "Y" 2);
    simpl; lia.
Defined.

(** X5.  The edges of [reconstruct_tree] on the table of [run_cyk]: for a
    variable that has no entry in the cell it returns the leaf
    [ERROR:variable] and raises nothing; for a cell outside the table it
    raises [IndexError]. *)
Theorem reconstruct_tree_edges g start tokens nm i j V fuel :
  tokens ≠ [] ->
  let T := Cyk.cyk_table (Cyk.run_cyk g start tokens) in
  (i < length tokens -> j < length tokens ->
   Cyk.present V (Cyk.tget T i j) = false ->
   Cyk.reconstruct_tree (S fuel) T i j V nm
   = Ok (Cyk.Node ("ERROR:" +:+ V) None))
  /\ (length tokens <= i \/ length tokens <= j ->
      Cyk.reconstruct_tree (S fuel) T i j V nm = Raise IndexError).
Proof.
  intros Hne. rewrite (run_cyk_table _ _ _ Hne). cbn [Cyk.cyk_table].
  destruct (fill_table_spec g tokens Hne) as (Hwf & _).
  split.
  - intros Hi Hj Habs. cbn [Cyk.reconstruct_tree].
    rewrite (table_getitem_wf (length tokens)) by done.
    change (Ok ?c ≫= ?k) with (k c). cbv beta.
    apply matches_nil in Habs. by rewrite Habs.
  - intros Hout. cbn [Cyk.reconstruct_tree].
    by rewrite (table_getitem_out (length tokens)).
Qed.

Lemma reconstruct_tree_edges_witness :
  let T := Cyk.cyk_table (Cyk.run_cyk g_original_X "S" ["a"; "b"]) in
  (0 < length ["a"; "b"] -> 1 < length ["a"; "b"] ->
   Cyk.present "X" (Cyk.tget T 0 1) = false ->
   Cyk.reconstruct_tree 1 T 0 1 "X" [] = Ok (Cyk.Node ("ERROR:" +:+ "X") None))
  /\ (length ["a"; "b"] <= 0 \/ length ["a"; "b"] <= 1 ->
      Cyk.reconstruct_tree 1 T 0 1 "X" [] = Raise IndexError).
Proof.
  apply (reconstruct_tree_edges g_original_X "S" ["a"; "b"] [] 0 1 "X" 0).
  discriminate.
Defined.

(** ** [flatten_tree], [simplify_node] and [build_tree_for_d3] *)

Lemma tree_induction (P : Cyk.tree -> Prop) :
  (forall name, P (Cyk.Node name None)) ->
  (forall name cs, Forall P cs -> P (Cyk.Node name (Some cs))) ->
  forall t, P t.
Proof.
  intros Hleaf Hnode. fix IH 1. intros [name [cs | ]]; [ | apply Hleaf].
  apply Hnode. induction cs as [ | c cs IHcs]; constructor; [apply IH | apply IHcs].
Qed.

(** X6.  [flatten_tree] is idempotent, and its result has no empty list of
    children: a node without children carries no [children] key. *)
Theorem flatten_tree_idempotent t :
  TreeBuilder.flatten_tree (TreeBuilder.flatten_tree t) = TreeBuilder.flatten_tree t
  /\ no_empty_children (TreeBuilder.flatten_tree t) = true.
Proof.
  induction t as [name | name cs IH] using tree_induction; [done | ].
  destruct cs as [ | c cs]; [done | ].
  change (TreeBuilder.flatten_tree (Cyk.Node name (Some (c :: cs))))
    with (Cyk.Node name (Some (map TreeBuilder.flatten_tree (c :: cs)))).
  remember (c :: cs) as l eqn:Hl.
  assert (map TreeBuilder.flatten_tree l ≠ []) as Hne by (subst l; done).
  destruct (map TreeBuilder.flatten_tree l) as [ | c' cs'] eqn:Hmap; [done | ].
  change (TreeBuilder.flatten_tree (Cyk.Node name (Some (c' :: cs'))))
    with (Cyk.Node name (Some (map TreeBuilder.flatten_tree (c' :: cs')))).
  change (no_empty_children (Cyk.Node name (Some (c' :: cs'))))
    with (forallb no_empty_children (c' :: cs')).
  rewrite <- Hmap. split.
  - f_equal. f_equal. rewrite <- list_fmap_compose.
    apply Forall_fmap_ext_1. eapply Forall_impl; [exact IH | ].
    intros x [Hx _]. exact Hx.
  - apply forallb_forall. intros x Hx. apply in_map_iff in Hx as (y & <- & Hy).
    rewrite Forall_forall in IH. apply list_elem_of_In in Hy.
    by destruct (IH y Hy).
Qed.

Lemma flatten_tree_any_children name c cs :
  TreeBuilder.flatten_tree_any (TreeBuilder.SDict name (c :: cs))
  = cs' ← map_outcome TreeBuilder.flatten_tree_any (c :: cs);
    Ok (Cyk.Node name (Some cs')).
Proof.
  cbn [TreeBuilder.flatten_tree_any map_outcome]. f_equal.
  assert ((fix each (l : list TreeBuilder.simplified) : outcome (list Cyk.tree) :=
             match l with
             | [] => Ok []
             | c0 :: l' =>
                 c'0 ← TreeBuilder.flatten_tree_any c0;
                 cs' ← each l';
                 Ok (c'0 :: cs')
             end) cs
          = map_outcome TreeBuilder.flatten_tree_any cs) as ->; [ | done].
  induction cs as [ | x l IH]; [done | ].
  cbn [map_outcome]. by rewrite IH.
Qed.

Lemma map_outcome_Ok {A B} (f : A -> outcome B) (g : A -> B) xs :
  Forall (fun x => f x = Ok (g x)) xs -> map_outcome f xs = Ok (map g xs).
Proof.
  induction 1 as [ | x xs Hx _ IH]; [done | ].
  cbn [map_outcome map]. by rewrite Hx, IH.
Qed.

Lemma map_outcome_cases {A B} (f : A -> outcome B) (bad : A -> bool) e xs :
  Forall (fun x => if bad x then f x = Raise e else exists y, f x = Ok y) xs ->
  if existsb bad xs then map_outcome f xs = Raise e
  else exists ys, map_outcome f xs = Ok ys.
Proof.
  induction 1 as [ | x xs Hx _ IH]; [by exists [] | ].
  cbn [map_outcome existsb]. destruct (bad x).
  - by rewrite Hx.
  - destruct Hx as [y ->]. simpl. destruct (existsb bad xs).
    + by rewrite IH.
    + destruct IH as [ys ->]. by eauto.
Qed.

(** X7.  On a tree in which no node with children has a name that
    [simplify_node] takes for an intermediate variable (an [X] followed by
    characters one of which is a digit), [build_tree_for_d3] returns what
    [flatten_tree] returns. *)
Theorem build_tree_for_d3_plain t :
  no_intermediate t = true ->
  TreeBuilder.build_tree_for_d3 t = Ok (TreeBuilder.flatten_tree t).
Proof.
  unfold TreeBuilder.build_tree_for_d3.
  induction t as [name | name cs IH] using tree_induction; [done | ].
  intros H. cbn [no_intermediate] in H. apply andb_true_iff in H as [Hname Hcs].
  destruct cs as [ | c cs].
  { cbn [TreeBuilder.simplify_node].
    by destruct (TreeBuilder.is_intermediate name). }
  apply orb_true_iff in Hname as [Hname | Hname];
    [ | by apply bool_decide_eq_true in Hname].
  apply negb_true_iff in Hname.
  cbn [TreeBuilder.simplify_node]. rewrite Hname.
  change (map TreeBuilder.simplify_node (c :: cs))
    with (TreeBuilder.simplify_node c :: map TreeBuilder.simplify_node cs).
  rewrite flatten_tree_any_children.
  change (TreeBuilder.simplify_node c :: map TreeBuilder.simplify_node cs)
    with (map TreeBuilder.simplify_node (c :: cs)).
  assert (map_outcome TreeBuilder.flatten_tree_any
            (map TreeBuilder.simplify_node (c :: cs))
          = Ok (map TreeBuilder.flatten_tree (c :: cs))) as ->; [ | done].
  generalize dependent (c :: cs). intros l IH Hl.
  induction l as [ | x l IHl]; [done | ].
  apply Forall_cons in IH as [Hx IH]. cbn [forallb] in Hl.
  apply andb_true_iff in Hl as [Hx' Hl].
  cbn [map map_outcome]. rewrite (Hx Hx'), (IHl IH Hl). done.
Qed.

Lemma build_tree_for_d3_plain_witness :
  TreeBuilder.build_tree_for_d3
    (Cyk.Node "S" (Some [Cyk.Node "A" (Some []); Cyk.Node (Cyk.quoted "b") None]))
  = Ok (TreeBuilder.flatten_tree
          (Cyk.Node "S" (Some [Cyk.Node "A" (Some []); Cyk.Node (Cyk.quoted "b") None]))).
Proof.
  apply (build_tree_for_d3_plain
           (Cyk.Node "S" (Some [Cyk.Node "A" (Some []);
                                Cyk.Node (Cyk.quoted "b") None]))).
  reflexivity.
Defined.

(** X8.  [build_tree_for_d3] raises [AttributeError] exactly on the trees
    in which some node with an intermediate name has two children or more:
    [simplify_node] turns such a node into a list, and [flatten_tree] calls
    [get] on it.  On every other tree it returns a tree. *)
Theorem build_tree_for_d3_outcome t :
  if has_split_node t
  then TreeBuilder.build_tree_for_d3 t = Raise (AttributeError "get")
  else exists t', TreeBuilder.build_tree_for_d3 t = Ok t'.
Proof.
  unfold TreeBuilder.build_tree_for_d3.
  induction t as [name | name cs IH] using tree_induction; [by eexists | ].
  cbn [has_split_node TreeBuilder.simplify_node].
  destruct (TreeBuilder.is_intermediate name) eqn:Hname.
  - destruct cs as [ | c [ | c2 cs]].
    + by eexists.
    + apply Forall_cons in IH as [Hc _]. cbn [length existsb andb orb].
      rewrite bool_decide_false by lia. rewrite orb_false_r. exact Hc.
    + rewrite bool_decide_true by (simpl; lia). done.
  - cbn [andb orb]. destruct cs as [ | c cs]; [by eexists | ].
    change (map TreeBuilder.simplify_node (c :: cs))
      with (TreeBuilder.simplify_node c :: map TreeBuilder.simplify_node cs).
    rewrite flatten_tree_any_children.
    change (TreeBuilder.simplify_node c :: map TreeBuilder.simplify_node cs)
      with (map TreeBuilder.simplify_node (c :: cs)).
    generalize dependent (c :: cs). intros l IH.
    pose proof (map_outcome_cases
                  (fun x => TreeBuilder.flatten_tree_any (TreeBuilder.simplify_node x))
                  has_split_node (AttributeError "get") l IH) as H.
    assert (forall xs : list Cyk.tree,
              map_outcome TreeBuilder.flatten_tree_any
                (map TreeBuilder.simplify_node xs)
              = map_outcome
                  (fun x => TreeBuilder.flatten_tree_any (TreeBuilder.simplify_node x))
                  xs) as Hmap.
    { induction xs as [ | x xs IHxs]; [done | ].
      cbn [map map_outcome]. by rewrite IHxs. }
    rewrite Hmap. destruct (existsb has_split_node l).
    + by rewrite H.
    + destruct H as [ys ->]. by eexists.
Qed.

(** ** [_parse_rhs_string] *)

Lemma split_on_length sep (s : string) :
  length (split_on sep s) = S (str_count sep s).
Proof.
  induction s as [ | c s IH]; [done | ]. cbn [split_on str_count].
  destruct (split_on sep s) as [ | w ws]; [done | ].
  destruct (bool_decide (c = sep)); simpl in *; lia.
Qed.

Lemma split_ws_go_words (s : string) :
  no_space (split_ws_go s).1
  /\ Forall (fun w => w ≠ "" /\ no_space w) (split_ws_go s).2.
Proof.
  unfold no_space. induction s as [ | c s [IH1 IH2]]; [by split | ].
  cbn [split_ws_go]. destruct (split_ws_go s) as [w ws]. cbn [fst snd] in *.
  destruct (isspace c) eqn:Hc; cbn [fst snd].
  - split; [done | ]. destruct (str_eqb w "") eqn:Hw; [done | ].
    apply str_eqb_false in Hw. by constructor.
  - split; [ | done]. simpl. by rewrite Hc, IH1.
Qed.

(** The pieces [str.split()] returns are not empty and hold no white
    space. *)
Lemma split_ws_words (s : string) :
  Forall (fun w => w ≠ "" /\ no_space w) (split_ws s).
Proof.
  unfold split_ws. destruct (split_ws_go_words s) as [H1 H2].
  destruct (split_ws_go s) as [w ws]. cbn [fst snd] in *.
  destruct (str_eqb w "") eqn:Hw; [done | ].
  apply str_eqb_false in Hw. by constructor.
Qed.

Lemma rhs_symbols_of_words ws :
  Forall (fun w => w ≠ "" /\ no_space w) ws ->
  map strip (List.filter (fun tok => negb (str_eqb (strip tok) "")) ws) = ws.
Proof.
  induction 1 as [ | w ws [Hw Hs] _ IH]; [done | ].
  cbn [List.filter]. rewrite strip_word by done.
  rewrite (proj2 (str_eqb_false w "") Hw). cbn [negb map].
  by rewrite strip_word, IH.
Qed.

(** X9.  Whatever the string, [_parse_rhs_string] returns one rule for each
    alternative (one more than there are pipes), no rule is empty, and no
    symbol is empty or holds white space. *)
Theorem parse_rhs_string_shape (s : string) :
  length (Parser._parse_rhs_string s) = S (str_count "|" s)
  /\ forall r, r ∈ Parser._parse_rhs_string s ->
       r ≠ [] /\ forall sym, sym ∈ r -> sym ≠ "" /\ no_space sym.
Proof.
  unfold Parser._parse_rhs_string. split.
  - by rewrite !length_map, split_on_length.
  - intros r Hr. apply list_elem_of_fmap in Hr as (p & -> & _).
    destruct (str_eqb p "").
    { split; [done | ]. intros sym Hsym.
      apply list_elem_of_singleton in Hsym. by subst sym. }
    rewrite rhs_symbols_of_words by apply split_ws_words.
    pose proof (split_ws_words p) as Hwords.
    destruct (split_ws p) as [ | w ws].
    + split; [done | ]. intros sym Hsym.
      apply list_elem_of_singleton in Hsym. by subst sym.
    + split; [done | ]. intros sym Hsym.
      rewrite Forall_forall in Hwords. by apply Hwords.
Qed.

(** Round trip. *)
Lemma split_on_app sep (a b : string) :
  str_any (fun c => bool_decide (c = sep)) a = false ->
  split_on sep (a +:+ String sep b) = a :: split_on sep b.
Proof.
  induction a as [ | c a IH]; intros Ha.
  - cbn [String.append split_on]. rewrite bool_decide_true by done.
    pose proof (split_on_length sep b) as Hlen.
    destruct (split_on sep b); [done | done].
  - simpl in Ha. apply orb_false_iff in Ha as [Hc Ha].
    change (String c a +:+ String sep b) with (String c (a +:+ String sep b)).
    cbn [split_on]. rewrite (IH Ha), Hc. done.
Qed.

Lemma lstrip_spaces (pre s : string) :
  str_any (fun c => negb (isspace c)) pre = false ->
  lstrip (pre +:+ s) = lstrip s.
Proof.
  induction pre as [ | c pre IH]; [done | ]. simpl. intros H.
  apply orb_false_iff in H as [Hc Hpre]. apply negb_false_iff in Hc.
  rewrite Hc. by apply IH.
Qed.

Lemma join_first_word ws :
  ws ≠ [] -> Forall (fun w => w ≠ "" /\ no_space w) ws ->
  exists w rest, str_join " " ws = w +:+ rest /\ w ≠ "" /\ no_space w.
Proof.
  intros Hne Hall. destruct ws as [ | w ws]; [done | ].
  apply Forall_cons in Hall as [[Hw Hs] _]. destruct ws as [ | w2 ws].
  - exists w, "". by rewrite str_append_nil_r.
  - exists w, (String " " (str_join " " (w2 :: ws))). done.
Qed.

Lemma join_last_word ws :
  ws ≠ [] -> Forall (fun w => w ≠ "" /\ no_space w) ws ->
  exists rest w, str_join " " ws = rest +:+ w /\ w ≠ "" /\ no_space w.
Proof.
  intros Hne Hall. induction ws as [ | w ws IH]; [done | ].
  apply Forall_cons in Hall as [[Hw Hs] Hall]. destruct ws as [ | w2 ws].
  - by exists "", w.
  - destruct (IH ltac:(done) Hall) as (rest & wl & Heq & Hwl & Hsl).
    exists (w +:+ String " " rest), wl.
    change (str_join " " (w :: w2 :: ws))
      with (w +:+ String " " (str_join " " (w2 :: ws))).
    rewrite Heq. split; [ | done].
    rewrite str_append_assoc. done.
Qed.

(** [strip] removes the white space around words joined by spaces. *)
Lemma strip_padded (pre post : string) ws :
  str_any (fun c => negb (isspace c)) pre = false ->
  str_any (fun c => negb (isspace c)) post = false ->
  ws ≠ [] -> Forall (fun w => w ≠ "" /\ no_space w) ws ->
  strip (pre +:+ str_join " " ws +:+ post) = str_join " " ws.
Proof.
  intros Hpre Hpost Hne Hall. unfold strip.
  rewrite lstrip_spaces by done.
  destruct (join_first_word ws Hne Hall) as (w & rest & Heq & Hw & Hs).
  assert (lstrip (str_join " " ws +:+ post) = str_join " " ws +:+ post) as ->.
  { rewrite Heq, str_append_assoc. by apply lstrip_no_space. }
  rewrite str_rev_append, lstrip_spaces by by rewrite str_any_rev.
  destruct (join_last_word ws Hne Hall) as (rest' & wl & Heq' & Hwl & Hsl).
  assert (lstrip (str_rev (str_join " " ws)) = str_rev (str_join " " ws)) as ->.
  { rewrite Heq', str_rev_append. apply lstrip_no_space.
    - by apply str_rev_nonempty.
    - unfold no_space. by rewrite str_any_rev. }
  apply str_rev_involutive.
Qed.

Lemma join_nonempty ws :
  ws ≠ [] -> Forall (fun w => w ≠ "" /\ no_space w) ws -> str_join " " ws ≠ "".
Proof.
  intros Hne Hall. destruct (join_first_word ws Hne Hall) as (w & rest & -> & Hw & _).
  by destruct w.
Qed.

Lemma words_of_plain ws :
  Forall (fun w => plain_word w = true) ws ->
  Forall (fun w => w ≠ "" /\ no_space w) ws
  /\ str_any (fun c => bool_decide (c = "|"%char)) (str_join " " ws) = false.
Proof.
  intros Hall. split.
  - eapply Forall_impl; [exact Hall | ]. intros w Hw.
    by destruct (plain_word_spec w Hw) as (? & ? & _).
  - apply str_any_join; [ | done].
    eapply Forall_impl; [exact Hall | ]. intros w Hw.
    by destruct (plain_word_spec w Hw) as (_ & _ & ?).
Qed.

Lemma split_format_rhs (rules : list (list string)) :
  rules ≠ [] ->
  Forall (fun r => r ≠ [] /\ Forall (fun w => plain_word w = true) r) rules ->
  forall pre : string,
    str_any (fun c => negb (isspace c)) pre = false ->
    str_any (fun c => bool_decide (c = "|"%char)) pre = false ->
    map strip (split_on "|" (pre +:+ format_rhs rules)) = map (str_join " ") rules.
Proof.
  unfold format_rhs.
  induction rules as [ | r rules IH]; intros Hne Hall pre Hpre Hpipe; [done | ].
  apply Forall_cons in Hall as [[Hr Hplain] Hall].
  destruct (words_of_plain r Hplain) as [Hwords Hnopipe].
  destruct rules as [ | r2 rules].
  - cbn [map str_join]. rewrite split_on_absent.
    + cbn [map]. f_equal.
      pose proof (strip_padded pre "" r Hpre eq_refl Hr Hwords) as H.
      by rewrite str_append_nil_r in H.
    + by rewrite str_any_append, Hpipe, Hnopipe.
  - change (str_join " | " (map (str_join " ") (r :: r2 :: rules)))
      with (str_join " " r +:+ " | " +:+ str_join " | " (map (str_join " ") (r2 :: rules))).
    change (" | " +:+ ?x) with (String " " (String "|" (String " " x))).
    replace (pre +:+ str_join " " r
             +:+ String " " (String "|" (String " "
                   (str_join " | " (map (str_join " ") (r2 :: rules))))))
      with ((pre +:+ str_join " " r +:+ " ")
            +:+ String "|" (" " +:+ str_join " | " (map (str_join " ") (r2 :: rules)))).
    2: { rewrite !str_append_assoc. done. }
    rewrite split_on_app.
    + cbn [map]. f_equal.
      * by apply strip_padded.
      * by apply (IH ltac:(done) Hall " ").
    + by rewrite !str_any_append, Hpipe, Hnopipe.
Qed.

(** The alternatives of a right-hand side that [format_rhs] wrote. *)
Lemma format_rhs_alternatives (rules : list (list string)) :
  rules ≠ [] ->
  Forall (fun r => r ≠ [] /\ Forall (fun w => plain_word w = true) r) rules ->
  Parser._parse_rhs_string (format_rhs rules) = rules.
Proof.
  intros Hne Hall. unfold Parser._parse_rhs_string.
  pose proof (split_format_rhs rules Hne Hall "" eq_refl eq_refl) as Hsplit.
  cbn [String.append] in Hsplit. rewrite Hsplit. clear Hsplit Hne.
  induction Hall as [ | r rules [Hr Hplain] _ IH]; [done | ].
  cbn [map]. rewrite IH. f_equal.
  destruct (words_of_plain r Hplain) as [Hwords _].
  rewrite (proj2 (str_eqb_false _ _) (join_nonempty r Hr Hwords)).
  rewrite split_ws_join, rhs_symbols_of_words by done.
  by destruct r.
Qed.

(** X10.  Parsing what [format_rhs] writes gives the rules back: for rules
    that are not empty and whose symbols are plain words (not empty, no
    white space, no pipe), [_parse_rhs_string] is a left inverse of the
    formatting with [" "] and [" | "]. *)
Theorem parse_rhs_string_format (rules : list (list string)) :
  rules ≠ [] ->
  Forall (fun r => r ≠ [] /\ Forall (fun w => plain_word w = true) r) rules ->
  Parser._parse_rhs_string (format_rhs rules) = rules.
Proof. apply format_rhs_alternatives. Qed.

Lemma parse_rhs_string_format_witness :
  Parser._parse_rhs_string (format_rhs [["NP"; "VP"]; ["a"; "b"]; [epsilon]])
  = [["NP"; "VP"]; ["a"; "b"]; [epsilon]].
Proof.
  apply (parse_rhs_string_format [["NP"; "VP"]; ["a"; "b"]; [epsilon]]).
  - discriminate.
  - repeat constructor; discriminate.
Defined.

(** ** [parse_cfg]: what it raises, and that its loops end *)

Lemma returns_or_cfg_error_bind {A B} (m : outcome A) (k : A -> outcome B) :
  returns_or_cfg_error m ->
  (forall a, m = Ok a -> returns_or_cfg_error (k a)) ->
  returns_or_cfg_error (m ≫= k).
Proof. destruct m as [a | e | ]; simpl; [by auto | done | done]. Qed.

Lemma returns_or_cfg_error_for_each {A S} (body : A -> S -> outcome S) xs s :
  (forall x s, returns_or_cfg_error (body x s)) ->
  returns_or_cfg_error (for_each body xs s).
Proof.
  intros Hbody. revert s. induction xs as [ | x xs IH]; intros s; [done | ].
  cbn [for_each]. apply returns_or_cfg_error_bind; [apply Hbody | auto].
Qed.

Lemma parse_mapping_entry_raises kv pm :
  returns_or_cfg_error (Parser.parse_mapping_entry kv pm).
Proof.
  destruct kv as [lhs rhs_list]. unfold Parser.parse_mapping_entry.
  destruct (str_eqb lhs ""); [done | ].
  destruct (str_eqb (strip lhs) ""); [done | ].
  destruct (Parser.is_variable (strip lhs)); [ | done]. cbn [negb].
  destruct rhs_list; try done.
  apply returns_or_cfg_error_for_each. intros rhs pm'. by destruct rhs.
Qed.

Lemma parse_list_entry_raises entry pm :
  returns_or_cfg_error (Parser.parse_list_entry entry pm).
Proof.
  unfold Parser.parse_list_entry. destruct entry; try done.
  destruct (dict_get fields "lhs") as [[ | | | lhs | | ] | ]; try done.
  destruct (str_eqb lhs ""); [done | ].
  destruct (str_eqb (strip lhs) ""); [done | ].
  destruct (Parser.is_variable (strip lhs)); [ | done]. cbn [negb].
  destruct (dict_get fields "rhs") as [[ | | | rhs | rhs | ] | ]; try done.
  by destruct (negb (bool_decide (length rhs = 0)) && forallb Parser.is_jlist rhs).
Qed.

Lemma build_productions_map_raises productions :
  returns_or_cfg_error (Parser.build_productions_map productions).
Proof.
  destruct productions; try done; apply returns_or_cfg_error_for_each.
  - intros. apply parse_list_entry_raises.
  - intros. apply parse_mapping_entry_raises.
Qed.

Lemma check_declared_raises pm : returns_or_cfg_error (Parser.check_declared pm).
Proof.
  unfold Parser.check_declared.
  apply returns_or_cfg_error_for_each. intros [lhs rules] [].
  apply returns_or_cfg_error_for_each. intros r [].
  apply returns_or_cfg_error_for_each. intros sym [].
  destruct (str_eqb sym epsilon); [done | ].
  by destruct (Parser.is_variable sym && negb (py_in sym (dict_keys pm))).
Qed.

(** The usefulness loop. *)
Lemma rule_useful_mono u u' (r : list string) :
  (forall x, x ∈ u -> x ∈ u') ->
  Parser.rule_useful u r = true -> Parser.rule_useful u' r = true.
Proof.
  intros Hsub. unfold Parser.rule_useful. rewrite !forallb_forall.
  intros H sym Hsym. specialize (H sym Hsym).
  destruct (str_eqb sym epsilon); [done | ]. cbn [orb] in *.
  destruct (Parser.is_variable sym); [ | done]. cbn [andb] in *.
  apply negb_true_iff, negb_false_iff, py_in_true in H.
  apply negb_true_iff, negb_false_iff, py_in_true. auto.
Qed.

Lemma justified_mono_elem g u :
  justified g u ->
  forall A, A ∈ u ->
    exists r, r ∈ dict_get_list g A /\ Parser.rule_useful u r = true.
Proof.
  induction 1 as [ | u A r Hu IH Hr Huse]; intros B HB.
  - by apply elem_of_nil in HB.
  - apply elem_of_app in HB as [HB | HB].
    + destruct (IH B HB) as (r' & Hr' & Huse'). exists r'. split; [done | ].
      eapply rule_useful_mono; [ | exact Huse']. intros x Hx.
      apply elem_of_app. by left.
    + apply list_elem_of_singleton in HB. subst B. exists r. split; [done | ].
      eapply rule_useful_mono; [ | exact Huse]. intros x Hx.
      apply elem_of_app. by left.
Qed.

Lemma useful_pass_spec (g : grammar) u :
  NoDup u -> (forall x, x ∈ u -> x ∈ dict_keys g) -> justified g u ->
  exists added,
    (Parser.useful_pass g u).1 = u ++ added
    /\ NoDup (u ++ added)
    /\ (forall x, x ∈ u ++ added -> x ∈ dict_keys g)
    /\ justified g (u ++ added)
    /\ ((Parser.useful_pass g u).2 = true -> added ≠ [])
    /\ ((Parser.useful_pass g u).2 = false ->
        added = []
        /\ forall A, A ∈ dict_keys g -> A ∉ u ->
             existsb (Parser.rule_useful u) (dict_get_list g A) = false).
Proof.
  intros Hnd Hsub Hjust. unfold Parser.useful_pass.
  set (step := fun '(useful, changed) (var : string) =>
                 if py_in var useful then (useful, changed)
                 else if existsb (Parser.rule_useful useful) (dict_get_list g var)
                      then (useful ++ [var], true)
                      else (useful, changed)).
  assert (forall ks st,
            (forall k, k ∈ ks -> k ∈ dict_keys g) ->
            NoDup st.1 -> (forall x, x ∈ st.1 -> x ∈ dict_keys g) ->
            justified g st.1 ->
            exists added,
              (fold_left step ks st).1 = st.1 ++ added
              /\ NoDup (st.1 ++ added)
              /\ (forall x, x ∈ st.1 ++ added -> x ∈ dict_keys g)
              /\ justified g (st.1 ++ added)
              /\ ((fold_left step ks st).2 = true -> st.2 = true \/ added ≠ [])
              /\ ((fold_left step ks st).2 = false ->
                  st.2 = false /\ added = []
                  /\ forall A, A ∈ ks -> A ∉ st.1 ->
                       existsb (Parser.rule_useful st.1) (dict_get_list g A)
                       = false)) as Hfold.
  { induction ks as [ | k ks IH]; intros [useful changed] Hks Hnd' Hsub' Hj.
    - exists []. cbn [fold_left fst snd]. rewrite app_nil_r.
      repeat split; try done; [by left | ].
      intros A HA. by apply elem_of_nil in HA.
    - cbn [fold_left]. cbn [fst snd] in *.
      assert (k ∈ dict_keys g) as Hk by (apply Hks; apply list_elem_of_here).
      assert (forall k', k' ∈ ks -> k' ∈ dict_keys g) as Hks'
        by (intros; apply Hks; by apply list_elem_of_further).
      change (step (useful, changed) k)
        with (if py_in k useful then (useful, changed)
              else if existsb (Parser.rule_useful useful) (dict_get_list g k)
                   then (useful ++ [k], true)
                   else (useful, changed)).
      destruct (py_in k useful) eqn:Hin.
      + destruct (IH (useful, changed) Hks' Hnd' Hsub' Hj)
          as (added & H1 & H2 & H3 & H4 & H5 & H6).
        exists added. repeat split; try done; cbn [fst snd] in *.
        * by apply H6.
        * by apply H6.
        * intros A HA HAu. apply elem_of_cons in HA as [-> | HA].
          -- apply py_in_true in Hin. done.
          -- by apply H6.
      + apply py_in_false in Hin.
        destruct (existsb (Parser.rule_useful useful) (dict_get_list g k)) eqn:Hex.
        * apply existsb_exists in Hex as (r & Hr & Huse).
          apply list_elem_of_In in Hr.
          destruct (IH (useful ++ [k], true) Hks') as (added & H1 & H2 & H3 & H4 & H5 & H6);
            cbn [fst snd].
          -- apply NoDup_app. split; [done | ]. split; [ | apply NoDup_singleton].
             intros x Hx Hx'. apply list_elem_of_singleton in Hx'. by subst x.
          -- intros x Hx. apply elem_of_app in Hx as [Hx | Hx]; [by auto | ].
             apply list_elem_of_singleton in Hx. by subst x.
          -- by eapply justified_snoc.
          -- cbn [fst snd] in *. exists (k :: added).
             rewrite <- app_assoc in H1, H2, H3, H4. cbn [app] in H1, H2, H3, H4.
             split; [done | ]. split; [done | ]. split; [done | ].
             split; [done | ]. split.
             ++ intros _. by right.
             ++ intros Hf. destruct (H6 Hf) as (Habs & _). discriminate Habs.
        * destruct (IH (useful, changed) Hks' Hnd' Hsub' Hj)
            as (added & H1 & H2 & H3 & H4 & H5 & H6).
          exists added. repeat split; try done; cbn [fst snd] in *.
          -- by apply H6.
          -- by apply H6.
          -- intros A HA HAu. apply elem_of_cons in HA as [-> | HA]; [done | ].
             by apply H6. }
  destruct (Hfold (dict_keys g) (u, false)) as (added & H1 & H2 & H3 & H4 & H5 & H6);
    try done.
  exists added. cbn [fst snd] in *.
  split; [done | ]. split; [done | ]. split; [done | ]. split; [done | ]. split.
  - intros Ht. by destruct (H5 Ht).
  - intros Hf. destruct (H6 Hf) as (_ & ? & ?). done.
Qed.

Lemma NoDup_subset_length (l k : list string) :
  NoDup l -> (forall x, x ∈ l -> x ∈ k) -> length l <= length k.
Proof. intros Hnd Hsub. apply submseteq_length. by apply NoDup_submseteq. Qed.

(** The loop ends within the fuel it is given, with a list of keys, each
    of them justified, that no further pass extends. *)
Lemma useful_loop_spec (g : grammar) : forall fuel u,
  NoDup u -> (forall x, x ∈ u -> x ∈ dict_keys g) -> justified g u ->
  length (dict_keys g) < fuel + length u ->
  exists u',
    Parser.useful_loop fuel g u = Ok u'
    /\ NoDup u' /\ (forall x, x ∈ u' -> x ∈ dict_keys g) /\ justified g u'
    /\ (forall A, A ∈ dict_keys g -> A ∉ u' ->
          existsb (Parser.rule_useful u') (dict_get_list g A) = false).
Proof.
  induction fuel as [ | fuel IH]; intros u Hnd Hsub Hj Hlen.
  - pose proof (NoDup_subset_length u (dict_keys g) Hnd Hsub). simpl in Hlen. lia.
  - cbn [Parser.useful_loop].
    destruct (useful_pass_spec g u Hnd Hsub Hj)
      as (added & H1 & H2 & H3 & H4 & H5 & H6).
    destruct (Parser.useful_pass g u) as [u1 changed]. cbn [fst snd] in *.
    subst u1. destruct changed.
    + apply IH; try done.
      specialize (H5 eq_refl). rewrite length_app.
      destruct added; [done | ]. simpl. lia.
    + destruct (H6 eq_refl) as [-> Hclosed]. rewrite app_nil_r in *.
      exists u. done.
Qed.

(** The search for the reachable variables. *)
Lemma reach_visit_concat (g : grammar) v st :
  Parser.reach_visit g v st
  = fold_left (reach_step g) (concat (dict_get_list g v)) st.
Proof.
  unfold Parser.reach_visit. generalize (dict_get_list g v). intros rules.
  revert st. induction rules as [ | r rules IH]; intros st; [done | ].
  cbn [fold_left concat]. rewrite fold_left_app, IH. f_equal.
  revert st. induction r as [ | sym r IHr]; intros [reachable stack]; [done | ].
  cbn [fold_left]. by rewrite IHr.
Qed.

Lemma filter_length_mono {A} (P Q : A -> bool) (l : list A) :
  (forall x, P x = true -> Q x = true) ->
  length (List.filter P l) <= length (List.filter Q l).
Proof.
  intros H. induction l as [ | x l IH]; [done | ]. cbn [List.filter].
  destruct (P x) eqn:HP.
  - rewrite (H x HP). simpl. lia.
  - destruct (Q x); simpl; lia.
Qed.

Lemma filter_length_strict {A} (P Q : A -> bool) (l : list A) x :
  (forall x, P x = true -> Q x = true) ->
  x ∈ l -> P x = false -> Q x = true ->
  length (List.filter P l) < length (List.filter Q l).
Proof.
  intros H Hx HP HQ. induction l as [ | y l IH]; [by apply elem_of_nil in Hx | ].
  cbn [List.filter]. apply elem_of_cons in Hx as [<- | Hx].
  - rewrite HP, HQ. pose proof (filter_length_mono P Q l H). simpl. lia.
  - specialize (IH Hx). destruct (P y) eqn:HPy.
    + rewrite (H y HPy). simpl. lia.
    + destruct (Q y); simpl; lia.
Qed.

Lemma unvisited_add (g : grammar) reachable sym :
  sym ∈ dict_keys g -> sym ∉ reachable ->
  length (unvisited g (reachable ++ [sym])) < length (unvisited g reachable).
Proof.
  intros Hkey Hnew. unfold unvisited.
  apply (filter_length_strict _ _ _ sym); [ | done | | ].
  - intros x Hx. apply negb_true_iff, py_in_false in Hx.
    apply negb_true_iff, py_in_false. intros Hin. apply Hx.
    apply elem_of_app. by left.
  - apply negb_false_iff, py_in_true, elem_of_app. right. apply list_elem_of_here.
  - by apply negb_true_iff, py_in_false.
Qed.

Lemma reach_steps_spec (g : grammar) syms : forall reachable stack,
  exists added,
    fold_left (reach_step g) syms (reachable, stack)
    = (reachable ++ added, stack ++ added)
    /\ (forall sym, sym ∈ added ->
          Parser.is_variable sym = true /\ sym ∈ dict_keys g /\ sym ∈ syms)
    /\ (forall sym, sym ∈ syms -> Parser.is_variable sym = true ->
          sym ∈ dict_keys g -> sym ∈ reachable ++ added)
    /\ length added + length (unvisited g (reachable ++ added))
       <= length (unvisited g reachable)
    /\ (NoDup reachable -> NoDup (reachable ++ added)).
Proof.
  induction syms as [ | sym syms IH]; intros reachable stack.
  - exists []. rewrite !app_nil_r. cbn [fold_left length]. split; [done | ].
    split; [intros ? H; by apply elem_of_nil in H | ].
    split; [intros ? H; by apply elem_of_nil in H | ]. split; [lia | done].
  - cbn [fold_left]. unfold reach_step at 2.
    destruct (Parser.is_variable sym && negb (py_in sym reachable) && dict_mem g sym)
      eqn:Hcond.
    + apply andb_true_iff in Hcond as [Hcond Hmem].
      apply andb_true_iff in Hcond as [Hvar Hnew].
      apply negb_true_iff, py_in_false in Hnew. apply dict_mem_true in Hmem.
      destruct (IH (reachable ++ [sym]) (stack ++ [sym]))
        as (added & Heq & Hadded & Hclosed & Hlen & Hnd).
      exists (sym :: added). rewrite <- !app_assoc in Heq. cbn [app] in Heq.
      split; [done | ]. split; [ | split; [ | split]].
      * intros x Hx. apply elem_of_cons in Hx as [-> | Hx].
        -- split; [done | ]. split; [done | apply list_elem_of_here].
        -- destruct (Hadded x Hx) as (? & ? & ?).
           split; [done | ]. split; [done | by apply list_elem_of_further].
      * intros x Hx Hxvar Hxkey. rewrite (cons_middle sym), app_assoc.
        apply elem_of_cons in Hx as [-> | Hx]; [ | by apply Hclosed].
        apply elem_of_app. left. apply elem_of_app. right. apply list_elem_of_here.
      * pose proof (unvisited_add g reachable sym Hmem Hnew).
        rewrite <- app_assoc in Hlen. cbn [app] in Hlen. simpl. lia.
      * intros Hnd0. rewrite (cons_middle sym), app_assoc. apply Hnd.
        apply NoDup_app. split; [done | ]. split; [ | apply NoDup_singleton].
        intros x Hx Hx'. apply list_elem_of_singleton in Hx'. by subst x.
    + destruct (IH reachable stack) as (added & Heq & Hadded & Hclosed & Hlen & Hnd).
      exists added. split; [done | ]. split; [ | split; [ | done]].
      * intros x Hx. destruct (Hadded x Hx) as (? & ? & ?).
        split; [done | ]. split; [done | by apply list_elem_of_further].
      * intros x Hx Hxvar Hxkey.
        apply elem_of_cons in Hx as [-> | Hx]; [ | by apply Hclosed].
        rewrite Hxvar in Hcond. apply dict_mem_true in Hxkey. rewrite Hxkey in Hcond.
        cbn [andb] in Hcond. rewrite andb_true_r in Hcond.
        apply negb_false_iff, py_in_true in Hcond.
        apply elem_of_app. by left.
Qed.

Lemma elem_of_concat {A} (x : A) (ls : list (list A)) :
  x ∈ concat ls <-> exists l, x ∈ l /\ l ∈ ls.
Proof.
  rewrite list_elem_of_In, in_concat. split.
  - intros (l & Hl & Hx). exists l. by rewrite !list_elem_of_In.
  - intros (l & Hx & Hl). exists l. by rewrite <- !list_elem_of_In.
Qed.

Lemma reach_loop_spec (g : grammar) : forall fuel reachable stack,
  length stack + length (unvisited g reachable) <= fuel ->
  (forall x, x ∈ stack -> x ∈ reachable) ->
  exists R,
    Parser.reach_loop fuel g reachable stack = Ok R
    /\ (forall x, x ∈ reachable -> x ∈ R)
    /\ (forall P : string -> Prop,
          (forall A, A ∈ reachable -> P A) ->
          (forall v r sym,
             P v -> v ∈ R -> r ∈ dict_get_list g v -> sym ∈ r ->
             Parser.is_variable sym = true -> sym ∈ dict_keys g -> P sym) ->
          forall A, A ∈ R -> P A)
    /\ ((forall A, A ∈ reachable -> A ∈ stack \/ closed_under g R A) ->
        forall A, A ∈ R -> closed_under g R A)
    /\ (NoDup reachable -> NoDup R).
Proof.
  assert (forall fuel reachable,
            exists R, Parser.reach_loop fuel g reachable [] = Ok R /\ R = reachable)
    as Hempty.
  { intros [ | fuel] reachable; exists reachable; done. }
  induction fuel as [ | fuel IH]; intros reachable stack Hlen Hstack.
  - destruct stack; [ | simpl in Hlen; lia].
    destruct (Hempty 0 reachable) as (R & -> & ->). exists reachable.
    split; [done | ]. split; [done | ]. split; [by auto | ]. split; [ | done].
    intros H A HA. destruct (H A HA) as [Hin | ?]; [ | done].
    by apply elem_of_nil in Hin.
  - destruct (reverse stack) as [ | v rest] eqn:Hrev.
    + assert (stack = []) as ->.
      { rewrite <- (reverse_involutive stack), Hrev. done. }
      destruct (Hempty (S fuel) reachable) as (R & -> & ->). exists reachable.
      split; [done | ]. split; [done | ]. split; [by auto | ]. split; [ | done].
      intros H A HA. destruct (H A HA) as [Hin | ?]; [ | done].
      by apply elem_of_nil in Hin.
    + assert (stack = reverse rest ++ [v]) as ->.
      { rewrite <- (reverse_involutive stack), Hrev. apply reverse_cons. }
      cbn [Parser.reach_loop]. rewrite Hrev.
      rewrite reach_visit_concat.
      destruct (reach_steps_spec g (concat (dict_get_list g v)) reachable (reverse rest))
        as (added & -> & Hadded & Hclosed & Hmeasure & Hnd).
      rewrite length_app in Hlen. simpl in Hlen.
      destruct (IH (reachable ++ added) (reverse rest ++ added))
        as (R & HR & Hmono & Hsound & Hcl & HndR).
      * rewrite length_app. lia.
      * intros x Hx. apply elem_of_app in Hx as [Hx | Hx]; apply elem_of_app.
        -- left. apply Hstack. apply elem_of_app. by left.
        -- by right.
      * assert (v ∈ reachable) as Hv.
        { apply Hstack. apply elem_of_app. right. apply list_elem_of_here. }
        assert (v ∈ R) as HvR by (apply Hmono, elem_of_app; by left).
        exists R. split; [done | ]. split; [ | split; [ | split]].
        -- intros x Hx. apply Hmono, elem_of_app. by left.
        -- intros P HP Hstep. apply Hsound; [ | done].
           intros A HA. apply elem_of_app in HA as [HA | HA]; [by auto | ].
           destruct (Hadded A HA) as (Hvar & Hkey & Hin).
           apply elem_of_concat in Hin as (r & Hsym & Hr).
           by apply (Hstep v r A); auto.
        -- intros H. apply Hcl. intros A HA.
           apply elem_of_app in HA as [HA | HA].
           ++ destruct (H A HA) as [Hin | ?]; [ | by right].
              apply elem_of_app in Hin as [Hin | Hin].
              ** left. apply elem_of_app. by left.
              ** apply list_elem_of_singleton in Hin. subst A. right.
                 intros r sym Hr Hsym Hvar Hkey. apply Hmono.
                 apply Hclosed; [ | done | done].
                 apply elem_of_concat. by exists r.
           ++ left. apply elem_of_app. by right.
        -- by auto.
Qed.

(** The grammars built key by key. *)
Lemma dict_of_keys_get {V} (F : string -> V) ks : forall d k,
  dict_get (fold_left (fun d k => dict_set d k (F k)) ks d) k
  = if decide (k ∈ ks) then Some (F k) else dict_get d k.
Proof.
  induction ks as [ | k0 ks IH]; intros d k.
  - cbn [fold_left]. rewrite decide_False; [done | apply not_elem_of_nil].
  - cbn [fold_left]. rewrite IH. destruct (decide (k ∈ ks)) as [Hin | Hnin].
    + rewrite decide_True; [done | by apply list_elem_of_further].
    + destruct (decide (k0 = k)) as [-> | Hne].
      * rewrite dict_get_set_eq. rewrite decide_True; [done | apply list_elem_of_here].
      * rewrite dict_get_set_ne by done. rewrite decide_False; [done | ].
        intros Hin. apply elem_of_cons in Hin as [-> | Hin]; done.
Qed.

Lemma filter_useful_get set_iter (pm : grammar) u A :
  (forall l, set_iter l ≡ₚ l) ->
  dict_get (Parser.filter_useful set_iter pm u) A
  = if decide (A ∈ u)
    then Some (List.filter (Parser.rule_useful u) (dict_get_list pm A))
    else None.
Proof.
  intros Hperm. unfold Parser.filter_useful.
  rewrite (dict_of_keys_get
             (fun var => List.filter (Parser.rule_useful u) (dict_get_list pm var))).
  destruct (decide (A ∈ set_iter u)) as [Hin | Hnin].
  - rewrite decide_True; [done | by rewrite <- (Hperm u)].
  - rewrite decide_False; [done | by rewrite <- (Hperm u)].
Qed.

Lemma filter_reachable_get set_iter (g : grammar) R A :
  (forall l, set_iter l ≡ₚ l) ->
  dict_get (Parser.filter_reachable set_iter g R) A
  = if decide (A ∈ R) then Some (dict_get_list g A) else None.
Proof.
  intros Hperm. unfold Parser.filter_reachable.
  rewrite (dict_of_keys_get (fun var => dict_get_list g var)).
  destruct (decide (A ∈ set_iter R)) as [Hin | Hnin].
  - rewrite decide_True; [done | by rewrite <- (Hperm R)].
  - rewrite decide_False; [done | by rewrite <- (Hperm R)].
Qed.

(** No rule of the preliminary map is empty. *)
Lemma or_epsilon_nonempty symbols : Parser.or_epsilon symbols ≠ [].
Proof. by destruct symbols. Qed.

Lemma pm_declare_rules (pm : grammar) lhs :
  (forall A rules r, (A, rules) ∈ pm -> r ∈ rules -> r ≠ []) ->
  forall A rules r, (A, rules) ∈ Parser.pm_declare pm lhs -> r ∈ rules -> r ≠ [].
Proof.
  intros H A rules r Hin Hr. unfold Parser.pm_declare in Hin.
  destruct (dict_mem pm lhs); [by eauto | ].
  apply elem_of_dict_set in Hin as [Hin | [_ ->]]; [by eauto | ].
  by apply elem_of_nil in Hr.
Qed.

Lemma pm_extend_rules (pm : grammar) lhs rs :
  Forall (fun r => r ≠ []) rs ->
  (forall A rules r, (A, rules) ∈ pm -> r ∈ rules -> r ≠ []) ->
  forall A rules r, (A, rules) ∈ Parser.pm_extend pm lhs rs -> r ∈ rules -> r ≠ [].
Proof.
  intros Hrs H A rules r Hin Hr. unfold Parser.pm_extend in Hin.
  apply elem_of_dict_update in Hin as [Hin | (-> & old & Hold & ->)]; [by eauto | ].
  apply elem_of_app in Hr as [Hr | Hr]; [by eauto | ].
  rewrite Forall_forall in Hrs. by apply Hrs.
Qed.

Lemma parse_rhs_string_nonempty (s : string) :
  Forall (fun r => r ≠ []) (Parser._parse_rhs_string s).
Proof.
  unfold Parser._parse_rhs_string. apply Forall_forall. intros r Hr.
  apply list_elem_of_fmap in Hr as (p & -> & _).
  destruct (str_eqb p ""); [done | apply or_epsilon_nonempty].
Qed.

Lemma build_productions_map_rules productions pm :
  Parser.build_productions_map productions = Ok pm ->
  forall A rules r, (A, rules) ∈ pm -> r ∈ rules -> r ≠ [].
Proof.
  set (P := fun pm : grammar =>
              forall A rules r, (A, rules) ∈ pm -> r ∈ rules -> r ≠ []).
  assert (P []) as Hnil by (intros A rules r H; by apply elem_of_nil in H).
  assert (forall l, Forall (fun r : list string => r ≠ []) [Parser.or_epsilon l])
    as Hone.
  { intros l. constructor; [apply or_epsilon_nonempty | constructor]. }
  unfold Parser.build_productions_map. destruct productions; try done.
  - apply (for_each_invariant P (fun _ => True)); [ | by apply Forall_forall | done].
    intros entry pm1 pm2 _ Hpm1. unfold Parser.parse_list_entry.
    destruct entry; try done.
    destruct (dict_get fields "lhs") as [[ | | | lhs | | ] | ]; try done.
    destruct (str_eqb lhs ""); [done | ].
    destruct (str_eqb (strip lhs) ""); [by intros [= <-] | ].
    destruct (Parser.is_variable (strip lhs)); [ | done]. cbn [negb].
    pose proof (pm_declare_rules pm1 (strip lhs) Hpm1) as Hdecl.
    destruct (dict_get fields "rhs") as [[ | | | rhs | rhs | ] | ]; try done.
    + intros [= <-]. exact (pm_extend_rules _ _ _ (parse_rhs_string_nonempty rhs) Hdecl).
    + destruct (negb (bool_decide (length rhs = 0)) && forallb Parser.is_jlist rhs).
      * intros [= <-].
        apply (fold_left_invariant P (fun _ => True)); [ | by apply Forall_forall | done].
        intros x pm' _ Hpm'. destruct x; try done.
        exact (pm_extend_rules _ _ _ (Hone _) Hpm').
      * intros [= <-]. exact (pm_extend_rules _ _ _ (Hone _) Hdecl).
  - apply (for_each_invariant P (fun _ => True)); [ | by apply Forall_forall | done].
    intros [lhs rhs_list] pm1 pm2 _ Hpm1. unfold Parser.parse_mapping_entry.
    destruct (str_eqb lhs ""); [done | ].
    destruct (str_eqb (strip lhs) ""); [by intros [= <-] | ].
    destruct (Parser.is_variable (strip lhs)); [ | done]. cbn [negb].
    pose proof (pm_declare_rules pm1 (strip lhs) Hpm1) as Hdecl.
    destruct rhs_list; try done.
    apply (for_each_invariant P (fun _ => True)); [ | by apply Forall_forall | done].
    intros rhs pm3 pm4 _ Hpm3. destruct rhs; try done.
    + intros [= <-]. exact (pm_extend_rules _ _ _ (Hone _) Hpm3).
    + intros [= <-]. exact (pm_extend_rules _ _ _ (Hone _) Hpm3).
Qed.

Lemma drop_blank_elem (pm : grammar) A rules :
  (A, rules) ∈ Parser.drop_blank pm -> (A, rules) ∈ pm.
Proof.
  unfold Parser.drop_blank. intros H. by apply elem_of_List_filter in H as [? _].
Qed.

Lemma rule_useful_variable u (r : list string) sym :
  Parser.rule_useful u r = true -> sym ∈ r -> Parser.is_variable sym = true ->
  sym ∈ u.
Proof.
  unfold Parser.rule_useful. rewrite forallb_forall. intros H Hsym Hvar.
  apply list_elem_of_In in Hsym. specialize (H sym Hsym).
  rewrite Hvar in H. cbn [andb] in H.
  destruct (str_eqb sym epsilon) eqn:Heps.
  - apply str_eqb_true in Heps. subst sym. discriminate Hvar.
  - cbn [orb] in H. by apply negb_true_iff, negb_false_iff, py_in_true in H.
Qed.

(** What a successful run of [parse_cfg] went through. *)
Lemma parse_cfg_stages set_iter start productions G :
  Parser.parse_cfg set_iter start productions = Ok G ->
  exists pm0 u R,
    Parser.build_productions_map productions = Ok pm0
    /\ Parser.is_variable (strip start) = true
    /\ Parser.useful_loop (S (length (Parser.drop_blank pm0)))
         (Parser.drop_blank pm0) [] = Ok u
    /\ strip start ∈ u
    /\ Parser.reach_loop
         (S (length (Parser.filter_useful set_iter (Parser.drop_blank pm0) u)))
         (Parser.filter_useful set_iter (Parser.drop_blank pm0) u)
         [strip start] [strip start] = Ok R
    /\ G = Parser.filter_reachable set_iter
             (Parser.filter_useful set_iter (Parser.drop_blank pm0) u) R
    /\ strip start ∈ dict_keys G.
Proof.
  unfold Parser.parse_cfg. intros H.
  destruct (str_eqb start ""); [done | ].
  destruct (Parser.is_variable (strip start)) eqn:Hvar; [ | done]. cbn [negb] in H.
  apply bind_Ok in H as (pm0 & Hpm0 & H).
  destruct (bool_decide (length (Parser.drop_blank pm0) = 0)); [done | ].
  apply bind_Ok in H as ([] & _ & H).
  apply bind_Ok in H as (u & Hu & H).
  destruct (py_in (strip start) u) eqn:Hstart; [ | done]. cbn [negb] in H.
  apply bind_Ok in H as (R & HR & H).
  destruct (py_in (strip start) R); [ | done]. cbn [negb] in H.
  match type of H with
  | (if negb (dict_mem ?g ?k) then _ else _) = _ =>
      destruct (dict_mem g k) eqn:Hmem; [ | done]
  end.
  cbn [negb] in H. injection H as <-.
  exists pm0, u, R. apply py_in_true in Hstart. apply dict_mem_true in Hmem. done.
Qed.

Lemma unvisited_length (g : grammar) reachable :
  length (unvisited g reachable) <= length g.
Proof.
  unfold unvisited, dict_keys.
  rewrite <- (length_fmap fst g). apply List.filter_length_le.
Qed.

(** The facts about the stages that the properties below rest on. *)
Lemma parse_cfg_analysis set_iter start productions G :
  (forall l, set_iter l ≡ₚ l) ->
  Parser.parse_cfg set_iter start productions = Ok G ->
  exists pm0 pm u g R,
    Parser.build_productions_map productions = Ok pm0
    /\ pm = Parser.drop_blank pm0
    /\ justified pm u
    /\ (forall A rules r, (A, rules) ∈ pm -> r ∈ rules -> r ≠ [])
    /\ strip start ∈ u /\ strip start ∈ R
    /\ Parser.is_variable (strip start) = true
    /\ (forall A, dict_get g A
                  = if decide (A ∈ u)
                    then Some (List.filter (Parser.rule_useful u)
                                 (dict_get_list pm A))
                    else None)
    /\ (forall A, dict_get G A
                  = if decide (A ∈ R) then Some (dict_get_list g A) else None)
    /\ NoDup (dict_keys G)
    /\ (forall A, A ∈ R -> Parser.is_variable A = true /\ A ∈ u)
    /\ (forall A, A ∈ R -> closed_under g R A)
    /\ (forall P : string -> Prop,
          P (strip start) ->
          (forall v r sym,
             P v -> v ∈ R -> r ∈ dict_get_list g v -> sym ∈ r ->
             Parser.is_variable sym = true -> sym ∈ dict_keys g -> P sym) ->
          forall A, A ∈ R -> P A).
Proof.
  intros Hperm H.
  apply parse_cfg_stages in H as (pm0 & u & R & Hpm0 & Hvar & Hu & Hstart & HR & -> & _).
  set (pm := Parser.drop_blank pm0) in *.
  set (g := Parser.filter_useful set_iter pm u) in *.
  destruct (useful_loop_spec pm (S (length pm)) [])
    as (u' & Hu' & _ & Hsub & Hjust & _).
  { apply NoDup_nil_2. }
  { intros x Hx. by apply elem_of_nil in Hx. }
  { constructor. }
  { unfold dict_keys. rewrite length_fmap. simpl. lia. }
  rewrite Hu in Hu'. injection Hu' as <-.
  destruct (reach_loop_spec g (S (length g)) [strip start] [strip start])
    as (R' & HR' & Hmono & Hsound & Hclosed & _).
  { pose proof (unvisited_length g [strip start]). simpl. lia. }
  { done. }
  rewrite HR in HR'. injection HR' as <-.
  assert (forall A, dict_get g A
                    = if decide (A ∈ u)
                      then Some (List.filter (Parser.rule_useful u)
                                   (dict_get_list pm A))
                      else None) as Hg.
  { intros A. by apply filter_useful_get. }
  assert (forall A, A ∈ dict_keys g -> A ∈ u) as Hgkeys.
  { intros A HA. apply dict_get_is_Some in HA. rewrite Hg in HA.
    destruct (decide (A ∈ u)); [done | by destruct HA]. }
  exists pm0, pm, u, g, R.
  split; [done | ]. split; [done | ].
  split; [done | ]. split.
  { intros A rules r Hin Hr. apply drop_blank_elem in Hin.
    by apply (build_productions_map_rules productions pm0 Hpm0 A rules r). }
  split; [done | ]. split; [apply Hmono, list_elem_of_here | ].
  split; [done | ]. split; [done | ].
  split; [intros A; by apply filter_reachable_get | ].
  split.
  { unfold Parser.filter_reachable.
    apply (fold_dict_set_keys_NoDup (fun var => dict_get_list g var)).
    apply NoDup_nil_2. }
  split; [ | split].
  - apply (Hsound (fun A => Parser.is_variable A = true /\ A ∈ u)).
    + intros A HA. apply list_elem_of_singleton in HA. by subst A.
    + intros v r sym _ _ _ _ Hsym Hkey. split; [done | by apply Hgkeys].
  - apply Hclosed. intros A HA. by left.
  - intros P Hstart' Hstep. apply Hsound; [ | done].
    intros A HA. apply list_elem_of_singleton in HA. by subst A.
Qed.

(** X11.  Whatever the start value and the productions, and whatever the
    order in which sets are iterated, [parse_cfg] returns a grammar or
    raises [CFGError]: it raises no other exception, and its two loops end
    within the passes the model allows them. *)
Theorem parse_cfg_raises_only_cfg_error set_iter start productions :
  returns_or_cfg_error (Parser.parse_cfg set_iter start productions).
Proof.
  unfold Parser.parse_cfg.
  destruct (str_eqb start ""); [done | ].
  destruct (Parser.is_variable (strip start)); [ | done]. cbn [negb].
  apply returns_or_cfg_error_bind; [apply build_productions_map_raises | ].
  intros pm0 _. set (pm := Parser.drop_blank pm0).
  destruct (bool_decide (length pm = 0)); [done | ].
  apply returns_or_cfg_error_bind; [apply check_declared_raises | ].
  intros [] _.
  destruct (useful_loop_spec pm (S (length pm)) []) as (u & -> & _).
  { apply NoDup_nil_2. }
  { intros x Hx. by apply elem_of_nil in Hx. }
  { constructor. }
  { unfold dict_keys. rewrite length_fmap. simpl. lia. }
  cbn [mbind outcome_bind].
  destruct (py_in (strip start) u); [ | done]. cbn [negb].
  set (g := Parser.filter_useful set_iter pm u).
  destruct (reach_loop_spec g (S (length g)) [strip start] [strip start])
    as (R & -> & _).
  { pose proof (unvisited_length g [strip start]). simpl. lia. }
  { done. }
  cbn [mbind outcome_bind].
  destruct (py_in (strip start) R); [ | done]. cbn [negb].
  by destruct (dict_mem (Parser.filter_reachable set_iter g R) (strip start)).
Qed.

(** X12.  A grammar returned by [parse_cfg] has the (stripped) start
    variable among its keys; every key is a variable and has at least one
    rule; no rule is empty; and every symbol of a rule that is a variable
    is itself a key.  This holds whenever iterating over a set visits the
    elements of the set. *)
Theorem parse_cfg_validated set_iter start productions G :
  (forall l, set_iter l ≡ₚ l) ->
  Parser.parse_cfg set_iter start productions = Ok G ->
  (strip start ∈ dict_keys G)
  /\ forall A rules,
       (A, rules) ∈ G ->
       Parser.is_variable A = true /\ rules ≠ []
       /\ forall r, r ∈ rules ->
            r ≠ []
            /\ forall sym, sym ∈ r -> Parser.is_variable sym = true ->
                 sym ∈ dict_keys G.
Proof.
  intros Hperm H.
  destruct (parse_cfg_analysis set_iter start productions G Hperm H)
    as (pm0 & pm & u & g & R & _ & _ & Hjust & Hrules & Hstart & HstartR & Hvar & Hg & HG
        & HndG & HR & Hclosed & _).
  assert (forall A, A ∈ R -> A ∈ dict_keys G) as HkeysG.
  { intros A HA. apply dict_get_is_Some. rewrite HG. by rewrite decide_True. }
  split; [by apply HkeysG | ].
  intros A rules Hin. apply dict_get_NoDup in Hin; [ | done].
  rewrite HG in Hin. destruct (decide (A ∈ R)) as [HA | ]; [ | done].
  injection Hin as <-. destruct (HR A HA) as [HAvar HAu].
  assert (dict_get_list g A
          = List.filter (Parser.rule_useful u) (dict_get_list pm A)) as Hrules_g.
  { unfold dict_get_list at 1. rewrite Hg. by rewrite decide_True. }
  split; [done | ]. split.
  - destruct (justified_mono_elem pm u Hjust A HAu) as (r & Hr & Huse).
    rewrite Hrules_g. intros Hnil.
    assert (r ∈ List.filter (Parser.rule_useful u) (dict_get_list pm A)) as Hin.
    { apply elem_of_List_filter. by split. }
    rewrite Hnil in Hin. by apply elem_of_nil in Hin.
  - intros r Hr. pose proof Hr as Hr'. rewrite Hrules_g in Hr'.
    apply elem_of_List_filter in Hr' as [Hr' Huse]. split.
    + unfold dict_get_list in Hr'.
      destruct (dict_get pm A) as [rs | ] eqn:Hget; [ | by apply elem_of_nil in Hr'].
      apply dict_get_Some_elem in Hget. by eapply Hrules.
    + intros sym Hsym Hsvar. apply HkeysG.
      apply (Hclosed A HA r sym Hr Hsym Hsvar).
      apply dict_get_is_Some. rewrite Hg.
      rewrite decide_True; [done | by eapply rule_useful_variable].
Qed.

Lemma parse_cfg_validated_witness :
  ("S" ∈ dict_keys g_unit_chain)
  /\ forall A rules,
       (A, rules) ∈ g_unit_chain ->
       Parser.is_variable A = true /\ rules ≠ []
       /\ forall r, r ∈ rules ->
            r ≠ []
            /\ forall sym, sym ∈ r -> Parser.is_variable sym = true ->
                 sym ∈ dict_keys g_unit_chain.
Proof.
  apply (parse_cfg_validated Parser.insertion_order " S "
           (JList [production "S" "A"; production "A" "a"; production "B" "B"])).
  - done.
  - reflexivity.
Defined.

Lemma parse_cfg_generating set_iter start productions G A :
  (forall l, set_iter l ≡ₚ l) ->
  Parser.parse_cfg set_iter start productions = Ok G ->
  A ∈ dict_keys G -> generating G A.
Proof.
  intros Hperm H HA.
  destruct (parse_cfg_analysis set_iter start productions G Hperm H)
    as (pm0 & pm & u & g & R & _ & _ & Hjust & Hrules & Hstart & HstartR & Hvar & Hg & HG
        & HndG & HR & Hclosed & Hsound).
  assert (forall B, B ∈ R -> (B, dict_get_list g B) ∈ G) as HinG.
  { intros B HB. apply dict_get_Some_elem. rewrite HG. by rewrite decide_True. }
  assert (A ∈ R) as HAR.
  { apply dict_get_is_Some in HA. rewrite HG in HA.
    destruct (decide (A ∈ R)); [done | by destruct HA]. }
  assert (forall B, B ∈ u ->
            dict_get_list g B
            = List.filter (Parser.rule_useful u) (dict_get_list pm B)) as Hrules_g.
  { intros B HB. unfold dict_get_list at 1. rewrite Hg. by rewrite decide_True. }
  assert (forall u0,
            justified pm u0 -> (forall x, x ∈ u0 -> x ∈ u) ->
            forall B, B ∈ u0 -> B ∈ R -> generating G B) as Hgen.
  { induction 1 as [ | u0 B r Hu0 IH Hr Huse]; intros Hsub C HC HCR.
    - by apply elem_of_nil in HC.
    - assert (forall x, x ∈ u0 -> x ∈ u) as Hsub0.
      { intros x Hx. apply Hsub, elem_of_app. by left. }
      apply elem_of_app in HC as [HC | HC]; [by apply IH | ].
      apply list_elem_of_singleton in HC. subst C.
      assert (B ∈ u) as HBu.
      { apply Hsub, elem_of_app. right. apply list_elem_of_here. }
      assert (r ∈ dict_get_list g B) as Hrg.
      { rewrite Hrules_g by done. apply elem_of_List_filter. split; [done | ].
        by eapply rule_useful_mono. }
      apply (generating_rule G B (dict_get_list g B) r); [by apply HinG | done | ].
      intros sym Hsym Hsvar.
      assert (sym ∈ u0) as Hsu0 by by eapply rule_useful_variable.
      apply IH; [done | done | ].
      apply (Hclosed B HCR r sym Hrg Hsym Hsvar).
      apply dict_get_is_Some. rewrite Hg. rewrite decide_True; [done | by auto]. }
  apply (Hgen u Hjust); [done | by apply HR | done].
Qed.

Lemma parse_cfg_reachable set_iter start productions G A :
  (forall l, set_iter l ≡ₚ l) ->
  Parser.parse_cfg set_iter start productions = Ok G ->
  A ∈ dict_keys G -> reachable_from G (strip start) A.
Proof.
  intros Hperm H HA.
  destruct (parse_cfg_analysis set_iter start productions G Hperm H)
    as (pm0 & pm & u & g & R & _ & _ & Hjust & Hrules & Hstart & HstartR & Hvar & Hg & HG
        & HndG & HR & Hclosed & Hsound).
  assert (forall B, B ∈ R -> (B, dict_get_list g B) ∈ G) as HinG.
  { intros B HB. apply dict_get_Some_elem. rewrite HG. by rewrite decide_True. }
  assert (A ∈ R) as HAR.
  { apply dict_get_is_Some in HA. rewrite HG in HA.
    destruct (decide (A ∈ R)); [done | by destruct HA]. }
  apply (Hsound (reachable_from G (strip start))); [constructor | | done].
  intros v r sym Hv HvR Hr Hsym Hsvar _.
  by apply (reachable_step G (strip start) v (dict_get_list g v) r sym); auto.
Qed.

(** X13.  Every key of a grammar returned by [parse_cfg] is useful in that
    grammar: it is generating (it has a rule all of whose variables are
    generating in turn) and it is reachable from the start variable. *)
Theorem parse_cfg_keys_useful set_iter start productions G A :
  (forall l, set_iter l ≡ₚ l) ->
  Parser.parse_cfg set_iter start productions = Ok G ->
  A ∈ dict_keys G ->
  generating G A /\ reachable_from G (strip start) A.
Proof.
  intros Hperm H HA. split.
  - by eapply parse_cfg_generating.
  - by eapply parse_cfg_reachable.
Qed.

Lemma parse_cfg_keys_useful_witness :
  generating g_unit_chain "A" /\ reachable_from g_unit_chain (strip " S ") "A".
Proof.
  apply (parse_cfg_keys_useful Parser.insertion_order " S "
           (JList [production "S" "A"; production "A" "a"; production "B" "B"])).
  - done.
  - reflexivity.
  - apply list_elem_of_further, list_elem_of_here.
Defined.

(** ** The translation table of [convert_to_cnf] *)

Lemma fresh_var_from_name fuel : forall c vars v c',
  Cnf.fresh_var_from fuel c vars = Ok (v, c') -> exists n, v = Cnf.X_name n.
Proof.
  induction fuel as [ | fuel IH]; intros c vars v c' H; [discriminate H | ].
  cbn [Cnf.fresh_var_from] in H.
  destruct (py_in (Cnf.X_name c) vars); [by eapply IH | ].
  injection H as <- <-. by exists c.
Qed.

Lemma fresh_var_name st v st' :
  Cnf.fresh_var st = Ok (v, st') -> exists n, v = Cnf.X_name n.
Proof.
  unfold Cnf.fresh_var. intros H.
  apply bind_Ok in H as ([v0 c] & Hfresh & H). injection H as <- <-.
  by eapply fresh_var_from_name.
Qed.

Section MapsInvariant.
(** An invariant of [all_vars], [term_map] and [nonterm_map] that the two
    ways of changing them keep. *)
Variable I : list string -> dict string -> dict string -> Prop.
Hypothesis I_fresh : forall av tm nm v, I av tm nm -> I (av ++ [v]) tm nm.
Hypothesis I_term :
  forall av tm nm t v n,
    I av tm nm -> dict_mem tm t = false -> v ∉ av -> v = Cnf.X_name n ->
    Cnf.is_variable t = false ->
    I (av ++ [v]) (dict_set tm t v) (dict_set nm v t).

Local Abbreviation minv :=
  (fun st => I (Cnf.all_vars st) (Cnf.term_map st) (Cnf.nonterm_map st)).

Lemma lift_maps s st s' st' :
  minv st -> Cnf.lift s st = Ok (s', st') -> minv st'.
Proof.
  intros Hinv. unfold Cnf.lift. destruct (Cnf.is_variable s) eqn:Hs.
  { by intros [= <- <-]. }
  unfold Cnf.get_term_var. intros H.
  apply bind_Ok in H as (st1 & Hst1 & H).
  apply bind_Ok in H as (v1 & Hv1 & H). injection H as <- <-.
  destruct (dict_mem (Cnf.term_map st) s) eqn:Hmem; [by injection Hst1 as <- | ].
  apply bind_Ok in Hst1 as ([v0 st0] & Hfresh & Hst1). injection Hst1 as <-.
  destruct (fresh_var_name _ _ _ Hfresh) as [n Hn].
  apply fresh_var_fresh in Hfresh as (Hv0 & Hav & Htm & Hnm & Hfin).
  cbn [Cnf.all_vars Cnf.term_map Cnf.nonterm_map].
  rewrite Hav, Htm, Hnm. by eapply I_term.
Qed.

Lemma final_append_maps A r st st' :
  minv st -> Cnf.final_append A r st = Ok st' -> minv st'.
Proof.
  intros Hinv. unfold Cnf.final_append. intros H.
  apply bind_Ok in H as (rs & _ & H). by injection H as <-.
Qed.

Lemma binarize_chain_maps chain : forall current st st',
  minv st -> Cnf.binarize_chain current chain st = Ok st' -> minv st'.
Proof.
  induction chain as [ | s chain IH]; intros current st st' Hinv H.
  - discriminate H.
  - destruct chain as [ | s2 [ | s3 chain]].
    + discriminate H.
    + cbn [Cnf.binarize_chain] in H.
      apply bind_Ok in H as ([l' st1] & Hl & H).
      apply bind_Ok in H as ([r' st2] & Hr & H).
      apply lift_maps in Hl; [ | done]. apply lift_maps in Hr; [ | done].
      by eapply final_append_maps.
    + cbn [Cnf.binarize_chain] in H.
      apply bind_Ok in H as ([s' st1] & Hl & H).
      apply bind_Ok in H as ([new_var st2] & Hfresh & H).
      apply lift_maps in Hl; [ | done].
      apply fresh_var_fresh in Hfresh as (Hnew & Hav & Htm & Hnm & Hfin).
      apply (IH new_var) in H; [done | ].
      cbn [Cnf.with_final Cnf.all_vars Cnf.term_map Cnf.nonterm_map].
      rewrite Hav, Htm, Hnm. by apply I_fresh.
Qed.

Lemma binarize_rule_maps A r st st' :
  minv st -> Cnf.binarize_rule A r st = Ok st' -> minv st'.
Proof.
  intros Hinv H. unfold Cnf.binarize_rule in H.
  destruct r as [ | s1 [ | s2 [ | s3 r]]].
  - discriminate H.
  - destruct (Cnf.is_variable s1); cbn [negb Cnf.binarize_chain] in H.
    + discriminate H.
    + exact (final_append_maps _ _ _ _ Hinv H).
  - apply bind_Ok in H as ([s1' st1] & Hl1 & H).
    apply bind_Ok in H as ([s2' st2] & Hl2 & H).
    apply lift_maps in Hl1; [ | done]. apply lift_maps in Hl2; [ | done].
    by eapply final_append_maps.
  - exact (binarize_chain_maps _ _ _ _ Hinv H).
Qed.

Lemma binarize_maps (g : grammar) st st' :
  minv st -> Cnf.binarize g st = Ok st' -> minv st'.
Proof.
  intros Hinv. unfold Cnf.binarize.
  apply (for_each_invariant minv (fun _ => True)); [ | by apply Forall_forall | done].
  intros [A rules] s s' _ Hs.
  apply (for_each_invariant minv (fun _ => True)); [ | by apply Forall_forall | done].
  intros r s1 s2 _ Hs1. by apply binarize_rule_maps.
Qed.

End MapsInvariant.

Lemma mirror_set tm nm t v :
  mirror tm nm -> dict_mem tm t = false -> v ∉ dict_keys nm ->
  mirror (dict_set tm t v) (dict_set nm v t).
Proof.
  intros Hm Ht Hv t' v'. apply dict_mem_false, dict_get_None in Ht.
  apply dict_get_None in Hv.
  destruct (decide (t = t')) as [<- | Hnet]; destruct (decide (v = v')) as [<- | Hnev].
  - by rewrite !dict_get_set_eq.
  - rewrite dict_get_set_eq, dict_get_set_ne by done. split.
    + by intros [= ->].
    + intros H. apply Hm in H. congruence.
  - rewrite dict_get_set_ne, dict_get_set_eq by done. split.
    + intros H. apply Hm in H. congruence.
    + by intros [= ->].
  - rewrite !dict_get_set_ne by done. apply Hm.
Qed.

Lemma dict_get_drop_empty (f : grammar) A rules :
  dict_get f A = Some rules -> rules ≠ [] ->
  dict_get (Cnf.drop_empty f) A = Some rules.
Proof.
  unfold Cnf.drop_empty. induction f as [ | [k v] f IH]; [done | ].
  cbn [dict_get List.filter]. intros Hget Hne.
  destruct (decide (k = A)) as [-> | Hk].
  - injection Hget as ->. rewrite bool_decide_false by by destruct rules.
    cbn [negb dict_get]. by rewrite decide_True.
  - destruct (negb (bool_decide (length v = 0))); [ | by apply IH].
    cbn [dict_get]. rewrite decide_False by done. by apply IH.
Qed.

(** X14.  The translation table returned for a dictionary: [term_map] and
    [nonterm_map] are inverse to each other, and every key of
    [nonterm_map] is a name [X<n>] that is no key of the input, stands for
    a symbol that is not a variable, and has that symbol as its only rule
    in the returned grammar. *)
Theorem convert_to_cnf_translation_table g start res :
  NoDup (dict_keys g) ->
  Cnf.convert_to_cnf g start = Ok res ->
  mirror (Cnf.res_term_map res) (Cnf.res_nonterm_map res)
  /\ forall v t,
       dict_get (Cnf.res_nonterm_map res) v = Some t ->
       Cnf.is_variable t = false
       /\ (v ∉ dict_keys g)
       /\ (exists n, v = Cnf.X_name n)
       /\ dict_get (Cnf.res_grammar res) v = Some [[t]].
Proof.
  intros Hnd H. unfold Cnf.convert_to_cnf in H.
  apply bind_Ok in H as (nl & _ & H).
  apply bind_Ok in H as ([[g2 cs] av] & Hstart & H).
  apply bind_Ok in H as (g3 & Hunits & H).
  apply bind_Ok in H as (st & Hbin & H).
  injection H as <-.
  cbn [Cnf.res_grammar Cnf.res_term_map Cnf.res_nonterm_map].
  pose proof (eliminate_epsilon_keys g nl) as Hkeys1.
  assert (NoDup (dict_keys g2)) as Hnd2.
  { apply introduce_start_spec in Hstart as [[-> ->] | (-> & _ & _)].
    - by rewrite Hkeys1.
    - apply dict_keys_set_NoDup. by rewrite Hkeys1. }
  assert (forall A, A ∈ dict_keys g -> A ∈ av) as Hav.
  { intros A HA. unfold Cnf.introduce_start in Hstart.
    destruct (py_in start nl).
    - apply bind_Ok in Hstart as (? & _ & Hstart). injection Hstart as _ _ <-.
      apply elem_of_app. by left.
    - by injection Hstart as _ _ <-. }
  rewrite eliminate_units_pass in Hunits by done. injection Hunits as <-.
  pose proof Hbin as Hwrap. apply (binarize_wrap av) in Hwrap.
  2: { intros A HA. rewrite unit_pass_keys in HA by done.
       eapply introduce_start_known; [exact Hstart | | exact HA].
       intros B HB. by rewrite Hkeys1 in HB. }
  2: { split; cbn [Cnf.all_vars Cnf.nonterm_map Cnf.final].
       - intros v Hv. by apply elem_of_nil in Hv.
       - intros A HA. by apply elem_of_nil in HA.
       - done.
       - apply NoDup_nil_2.
       - apply NoDup_nil_2. }
  pose proof Hbin as Hshape.
  apply (binarize_inv (fun _ => True) (fun _ _ => True)) in Hshape.
  2: { intros A0 rules0 r0 _ _. split; [done | ]. intros _. by apply Forall_forall. }
  2: { apply initial_bin_inv. }
  pose proof Hbin as Hmaps.
  apply (binarize_maps
           (fun av tm nm =>
              (forall v, v ∈ dict_keys nm -> v ∈ av)
              /\ mirror tm nm
              /\ forall v, v ∈ dict_keys nm -> exists n, v = Cnf.X_name n))
    in Hmaps.
  - cbn beta in Hmaps. destruct Hmaps as (_ & Hmirror & Hnames).
    destruct Hwrap as [Hi1 Hi2 Hi3 Hi4 Hi5].
    split; [done | ]. intros v t Hget.
    assert (v ∈ dict_keys (Cnf.nonterm_map st)) as Hv
      by (apply dict_get_is_Some; by eauto).
    destruct (Hi1 v Hv) as (_ & HvV0 & Hvfin).
    split; [ | split; [ | split]].
    + apply dict_get_Some_elem in Hget.
      by destruct (inv_nonterm_map _ _ _ Hshape _ _ Hget).
    + intros Hin. by apply HvV0, Hav.
    + by apply Hnames.
    + apply dict_get_drop_empty; [ | done].
      apply add_wrappers_get; [done | | done].
      intros v' Hv'. by destruct (Hi1 v' Hv') as (_ & _ & ?).
  - intros av' tm nm v (H1 & H2 & H3). split; [ | done].
    intros v' Hv'. apply elem_of_app. left. by apply H1.
  - intros av' tm nm t v n (H1 & H2 & H3) Hmem Hv Hn Ht.
    assert (v ∉ dict_keys nm) as Hvnm by (intros Hin; by apply Hv, H1).
    split; [ | split].
    + intros v' Hv'. apply elem_of_dict_keys_set in Hv' as [Hv' | ->];
        apply elem_of_app; [left; by apply H1 | right; apply list_elem_of_here].
    + by apply mirror_set.
    + intros v' Hv'. apply elem_of_dict_keys_set in Hv' as [Hv' | ->];
        [by apply H3 | by exists n].
  - cbn [Cnf.all_vars Cnf.term_map Cnf.nonterm_map]. split; [ | split].
    + intros v Hv. by apply elem_of_nil in Hv.
    + intros t v. done.
    + intros v Hv. by apply elem_of_nil in Hv.
Qed.

Lemma convert_to_cnf_translation_table_witness :
  mirror [("a", "X1"); (epsilon, "X2")] [("X1", "a"); ("X2", epsilon)]
  /\ forall v t,
       dict_get [("X1", "a"); ("X2", epsilon)] v = Some t ->
       Cnf.is_variable t = false
       /\ (v ∉ dict_keys g_inner_epsilon)
       /\ (exists n, v = Cnf.X_name n)
       /\ dict_get
            [("S", [["X1"; "X2"]]); ("S'", [eps_rule; ["X1"; "X2"]]);
             ("X1", [["a"]]); ("X2", [eps_rule])] v
          = Some [[t]].
Proof.
  apply (convert_to_cnf_translation_table g_inner_epsilon "S"
           (Cnf.CnfResult
              [("S", [["X1"; "X2"]]); ("S'", [eps_rule; ["X1"; "X2"]]);
               ("X1", [["a"]]); ("X2", [eps_rule])]
              "S'"
              [("a", "X1"); (epsilon, "X2")]
              [("X1", "a"); ("X2", epsilon)])).
  - apply NoDup_singleton.
  - reflexivity.
Defined.

(** ** The nullable set *)

Lemma rule_makes_nullable_spec nl (r : list string) :
  Cnf.rule_makes_nullable nl r = true
  <-> forall sym, sym ∈ r -> Cnf.is_variable sym = true -> sym ∈ nl.
Proof.
  unfold Cnf.rule_makes_nullable. split.
  - intros H sym Hsym Hvar. apply orb_true_iff in H as [H | H].
    + apply bool_decide_eq_true in H. subst r.
      apply list_elem_of_singleton in Hsym. subst sym. discriminate Hvar.
    + rewrite forallb_forall in H. apply py_in_true, H, filter_In.
      by rewrite <- list_elem_of_In.
  - intros H. apply orb_true_iff. right. apply forallb_forall.
    intros sym Hsym. apply filter_In in Hsym as [Hsym Hvar].
    apply py_in_true, H; [by apply list_elem_of_In | done].
Qed.

Lemma nullable_pass_spec (g : grammar) nl :
  NoDup nl -> (forall x, x ∈ nl -> x ∈ dict_keys g) -> nullable_justified g nl ->
  exists added,
    (Cnf.nullable_pass g nl).1 = nl ++ added
    /\ NoDup (nl ++ added)
    /\ (forall x, x ∈ nl ++ added -> x ∈ dict_keys g)
    /\ nullable_justified g (nl ++ added)
    /\ ((Cnf.nullable_pass g nl).2 = true -> added ≠ [])
    /\ ((Cnf.nullable_pass g nl).2 = false ->
        added = []
        /\ forall A rules, (A, rules) ∈ g -> A ∉ nl ->
             existsb (Cnf.rule_makes_nullable nl) rules = false).
Proof.
  intros Hnd Hsub Hjust. unfold Cnf.nullable_pass.
  set (step := fun '(nl, changed) '(A, rules) =>
                 if py_in A nl then (nl, changed)
                 else if existsb (Cnf.rule_makes_nullable nl) rules
                      then (nl ++ [A], true)
                      else (nl, changed)).
  assert (forall (entries : grammar) st,
            (forall kv, kv ∈ entries -> kv ∈ g) ->
            NoDup st.1 -> (forall x, x ∈ st.1 -> x ∈ dict_keys g) ->
            nullable_justified g st.1 ->
            exists added,
              (fold_left step entries st).1 = st.1 ++ added
              /\ NoDup (st.1 ++ added)
              /\ (forall x, x ∈ st.1 ++ added -> x ∈ dict_keys g)
              /\ nullable_justified g (st.1 ++ added)
              /\ ((fold_left step entries st).2 = true ->
                  st.2 = true \/ added ≠ [])
              /\ ((fold_left step entries st).2 = false ->
                  st.2 = false /\ added = []
                  /\ forall A rules, (A, rules) ∈ entries -> A ∉ st.1 ->
                       existsb (Cnf.rule_makes_nullable st.1) rules = false))
    as Hfold.
  { induction entries as [ | [A rules] entries IH];
      intros [nl0 changed] Hentries Hnd' Hsub' Hj.
    - exists []. cbn [fold_left fst snd]. rewrite app_nil_r.
      split; [done | ]. split; [done | ]. split; [done | ]. split; [done | ].
      split; [by left | ]. intros ->. split; [done | ]. split; [done | ].
      intros A rules HA. by apply elem_of_nil in HA.
    - cbn [fold_left]. cbn [fst snd] in *.
      assert ((A, rules) ∈ g) as Hin by (apply Hentries; apply list_elem_of_here).
      assert (forall kv, kv ∈ entries -> kv ∈ g) as Hentries'
        by (intros; apply Hentries; by apply list_elem_of_further).
      change (step (nl0, changed) (A, rules))
        with (if py_in A nl0 then (nl0, changed)
              else if existsb (Cnf.rule_makes_nullable nl0) rules
                   then (nl0 ++ [A], true)
                   else (nl0, changed)).
      destruct (py_in A nl0) eqn:HA.
      + destruct (IH (nl0, changed) Hentries' Hnd' Hsub' Hj)
          as (added & H1 & H2 & H3 & H4 & H5 & H6).
        exists added. cbn [fst snd] in *.
        split; [done | ]. split; [done | ]. split; [done | ]. split; [done | ].
        split; [done | ]. intros Hf. destruct (H6 Hf) as (? & ? & Hcl).
        split; [done | ]. split; [done | ].
        intros B rulesB HB HBnl. apply elem_of_cons in HB as [[= -> ->] | HB].
        * apply py_in_true in HA. done.
        * by eapply Hcl.
      + apply py_in_false in HA.
        destruct (existsb (Cnf.rule_makes_nullable nl0) rules) eqn:Hex.
        * apply existsb_exists in Hex as (r & Hr & Hmakes).
          apply list_elem_of_In in Hr.
          destruct (IH (nl0 ++ [A], true) Hentries')
            as (added & H1 & H2 & H3 & H4 & H5 & H6); cbn [fst snd].
          -- apply NoDup_app. split; [done | ]. split; [ | apply NoDup_singleton].
             intros x Hx Hx'. apply list_elem_of_singleton in Hx'. by subst x.
          -- intros x Hx. apply elem_of_app in Hx as [Hx | Hx]; [by auto | ].
             apply list_elem_of_singleton in Hx. subst x.
             unfold dict_keys. apply list_elem_of_fmap. by exists (A, rules).
          -- apply (nullable_justified_snoc g nl0 A rules r); try done.
             by apply rule_makes_nullable_spec.
          -- cbn [fst snd] in *. exists (A :: added).
             rewrite <- app_assoc in H1, H2, H3, H4. cbn [app] in H1, H2, H3, H4.
             split; [done | ]. split; [done | ]. split; [done | ].
             split; [done | ]. split.
             ++ intros _. by right.
             ++ intros Hf. destruct (H6 Hf) as (Habs & _). discriminate Habs.
        * destruct (IH (nl0, changed) Hentries' Hnd' Hsub' Hj)
            as (added & H1 & H2 & H3 & H4 & H5 & H6).
          exists added. cbn [fst snd] in *.
          split; [done | ]. split; [done | ]. split; [done | ]. split; [done | ].
          split; [done | ]. intros Hf. destruct (H6 Hf) as (? & ? & Hcl).
          split; [done | ]. split; [done | ].
          intros B rulesB HB HBnl. apply elem_of_cons in HB as [[= -> ->] | HB].
          -- done.
          -- by eapply Hcl. }
  destruct (Hfold g (nl, false)) as (added & H1 & H2 & H3 & H4 & H5 & H6); try done.
  exists added. cbn [fst snd] in *.
  split; [done | ]. split; [done | ]. split; [done | ]. split; [done | ]. split.
  - intros Ht. by destruct (H5 Ht).
  - intros Hf. destruct (H6 Hf) as (_ & ? & ?). done.
Qed.

Lemma nullable_loop_spec (g : grammar) : forall fuel nl,
  NoDup nl -> (forall x, x ∈ nl -> x ∈ dict_keys g) -> nullable_justified g nl ->
  length (dict_keys g) < fuel + length nl ->
  exists nl',
    Cnf.nullable_loop fuel g nl = Ok nl'
    /\ NoDup nl' /\ (forall x, x ∈ nl' -> x ∈ dict_keys g)
    /\ nullable_justified g nl'
    /\ (forall A rules, (A, rules) ∈ g -> A ∉ nl' ->
          existsb (Cnf.rule_makes_nullable nl') rules = false).
Proof.
  induction fuel as [ | fuel IH]; intros nl Hnd Hsub Hj Hlen.
  - pose proof (NoDup_subset_length nl (dict_keys g) Hnd Hsub). simpl in Hlen. lia.
  - cbn [Cnf.nullable_loop].
    destruct (nullable_pass_spec g nl Hnd Hsub Hj)
      as (added & H1 & H2 & H3 & H4 & H5 & H6).
    destruct (Cnf.nullable_pass g nl) as [nl1 changed]. cbn [fst snd] in *.
    subst nl1. destruct changed.
    + apply IH; try done.
      specialize (H5 eq_refl). rewrite length_app.
      destruct added; [done | ]. simpl. lia.
    + destruct (H6 eq_refl) as [-> Hclosed]. rewrite app_nil_r in *.
      exists nl. done.
Qed.

Lemma nullable_justified_sound g nl :
  nullable_justified g nl -> forall A, A ∈ nl -> code_nullable g A.
Proof.
  induction 1 as [ | nl A rules r Hnl IH Hin Hr Hsyms]; intros B HB.
  - by apply elem_of_nil in HB.
  - apply elem_of_app in HB as [HB | HB]; [by apply IH | ].
    apply list_elem_of_singleton in HB. subst B.
    apply (code_nullable_rule g A rules r); [done | done | ].
    intros sym Hsym Hvar. by apply IH, Hsyms.
Qed.

Lemma compute_nullable_analysis (g : grammar) :
  exists nl,
    Cnf.compute_nullable g = Ok nl
    /\ NoDup nl
    /\ forall A, A ∈ nl <-> code_nullable g A.
Proof.
  unfold Cnf.compute_nullable.
  destruct (nullable_loop_spec g (S (length g)) [])
    as (nl & Hnl & Hnd & Hsub & Hjust & Hclosed).
  { apply NoDup_nil_2. }
  { intros x Hx. by apply elem_of_nil in Hx. }
  { constructor. }
  { unfold dict_keys. rewrite length_fmap. simpl. lia. }
  exists nl. split; [done | ]. split; [done | ]. intros A. split.
  - by apply nullable_justified_sound.
  - induction 1 as [A rules r Hin Hr _ IH].
    destruct (decide (A ∈ nl)) as [ | HA]; [done | ].
    specialize (Hclosed A rules Hin HA).
    assert (existsb (Cnf.rule_makes_nullable nl) rules = true) as Habs.
    { apply existsb_exists. exists r. split; [by apply list_elem_of_In | ].
      by apply rule_makes_nullable_spec. }
    congruence.
Qed.

(** X15.  The nullable loop of [convert_to_cnf] ends, on every grammar,
    within one pass more than there are keys, and the set it computes is
    the least one such that [A] is in it whenever [A] has a rule all of
    whose variables are in it; terminals are not looked at, so a key with
    a rule of terminals only is in the set. *)
Theorem compute_nullable_spec (g : grammar) :
  exists nl,
    Cnf.compute_nullable g = Ok nl
    /\ NoDup nl
    /\ forall A, A ∈ nl <-> code_nullable g A.
Proof. apply compute_nullable_analysis. Qed.

Lemma generating_code_nullable (G : grammar) :
  capitals_are_variables G = true ->
  forall A, generating G A -> code_nullable G A.
Proof.
  intros Hsyms A. induction 1 as [A rules r Hin Hr _ IH].
  apply (code_nullable_rule G A rules r); [done | done | ].
  intros sym Hsym Hvar. apply IH; [done | ].
  unfold capitals_are_variables in Hsyms. rewrite forallb_forall in Hsyms.
  apply list_elem_of_In in Hin. specialize (Hsyms _ Hin). cbn beta iota in Hsyms.
  rewrite forallb_forall in Hsyms. apply list_elem_of_In in Hr.
  specialize (Hsyms _ Hr). rewrite forallb_forall in Hsyms.
  apply list_elem_of_In in Hsym. specialize (Hsyms _ Hsym).
  rewrite Hvar in Hsyms. done.
Qed.

(** X16.  On a grammar returned by [parse_cfg] in which every symbol with
    a capital first letter is a variable for [parse_cfg] as well, the
    nullable loop puts every key into the set, the start variable
    included; so [convert_to_cnf] introduces a new start variable on every
    such grammar, whether or not it derives the empty string. *)
Theorem convert_to_cnf_always_new_start set_iter start productions G res :
  (forall l, set_iter l ≡ₚ l) ->
  Parser.parse_cfg set_iter start productions = Ok G ->
  capitals_are_variables G = true ->
  Cnf.convert_to_cnf G (strip start) = Ok res ->
  (exists nl, Cnf.compute_nullable G = Ok nl
              /\ forall A, A ∈ dict_keys G -> A ∈ nl)
  /\ (Cnf.res_start_var res ∉ dict_keys G)
  /\ Cnf.res_start_var res ≠ strip start.
Proof.
  intros Hperm Hparse Hsyms Hcnf.
  destruct (compute_nullable_analysis G) as (nl & Hnl & _ & Hiff).
  assert (forall A, A ∈ dict_keys G -> A ∈ nl) as Hall.
  { intros A HA. apply Hiff. apply generating_code_nullable; [done | ].
    by eapply parse_cfg_generating. }
  split; [by exists nl | ].
  assert (strip start ∈ dict_keys G) as HstartG.
  { by apply parse_cfg_stages in Hparse as (? & ? & ? & _ & _ & _ & _ & _ & _ & ?). }
  unfold Cnf.convert_to_cnf in Hcnf. rewrite Hnl in Hcnf.
  cbn [mbind outcome_bind] in Hcnf.
  apply bind_Ok in Hcnf as ([[g2 cs] av] & Hstart' & Hcnf).
  apply bind_Ok in Hcnf as (g3 & _ & Hcnf).
  apply bind_Ok in Hcnf as (st & _ & Hcnf).
  injection Hcnf as <-. cbn [Cnf.res_start_var].
  unfold Cnf.introduce_start in Hstart'.
  rewrite (proj2 (py_in_true _ _) (Hall _ HstartG)) in Hstart'.
  apply bind_Ok in Hstart' as (S_new & Hloop & Hstart').
  injection Hstart' as _ <- _.
  apply new_start_loop_spec in Hloop as [Hmem Hlen].
  apply dict_mem_false in Hmem. rewrite eliminate_epsilon_keys in Hmem.
  split; [done | ]. intros ->. done.
Qed.

Lemma convert_to_cnf_always_new_start_witness :
  (exists nl, Cnf.compute_nullable g_unit_chain = Ok nl
              /\ forall A, A ∈ dict_keys g_unit_chain -> A ∈ nl)
  /\ ("S'" ∉ dict_keys g_unit_chain)
  /\ "S'" ≠ strip " S ".
Proof.
  apply (convert_to_cnf_always_new_start Parser.insertion_order " S "
           (JList [production "S" "A"; production "A" "a"; production "B" "B"])
           g_unit_chain
           (Cnf.CnfResult [("S", [["a"]]); ("A", [["a"]]); ("S'", [eps_rule])]
              "S'" [] [])).
  - done.
  - reflexivity.
  - reflexivity.
  - reflexivity.
Defined.

(** ** When [convert_to_cnf] returns *)

Lemma X_name_inj n m : Cnf.X_name n = Cnf.X_name m -> n = m.
Proof.
  unfold Cnf.X_name. cbn [String.append]. intros [= H].
  by apply (inj pretty) in H.
Qed.

(** The search for a fresh name ends: one step more than there are names
    to skip is enough. *)
Lemma fresh_var_from_total fuel : forall c vars,
  length (List.filter (fun v => negb (py_in v (map Cnf.X_name (seq 0 c)))) vars)
  < fuel ->
  exists v c', Cnf.fresh_var_from fuel c vars = Ok (v, c').
Proof.
  induction fuel as [ | fuel IH]; intros c vars Hlen; [lia | ].
  cbn [Cnf.fresh_var_from]. destruct (py_in (Cnf.X_name c) vars) eqn:Hin.
  - apply IH. apply py_in_true in Hin.
    assert (length (List.filter
                      (fun v => negb (py_in v (map Cnf.X_name (seq 0 (S c))))) vars)
            < length (List.filter
                        (fun v => negb (py_in v (map Cnf.X_name (seq 0 c)))) vars));
      [ | lia].
    apply (filter_length_strict _ _ _ (Cnf.X_name c)); [ | done | | ].
    + intros x Hx. apply negb_true_iff, py_in_false in Hx.
      apply negb_true_iff, py_in_false. intros Hx'. apply Hx.
      rewrite seq_S, map_app. apply elem_of_app. by left.
    + apply negb_false_iff, py_in_true. rewrite seq_S, map_app.
      apply elem_of_app. right. apply list_elem_of_here.
    + apply negb_true_iff, py_in_false. intros Hx.
      apply list_elem_of_fmap in Hx as (m & Heq & Hm).
      apply X_name_inj in Heq. subst m.
      apply list_elem_of_In, in_seq in Hm. lia.
  - by eauto.
Qed.

Lemma fresh_var_total st : exists v st', Cnf.fresh_var st = Ok (v, st').
Proof.
  unfold Cnf.fresh_var.
  destruct (fresh_var_from_total (S (length (Cnf.all_vars st))) (Cnf.counter st)
              (Cnf.all_vars st)) as (v & c & ->).
  - pose proof (List.filter_length_le
                  (fun v => negb (py_in v (map Cnf.X_name (seq 0 (Cnf.counter st)))))
                  (Cnf.all_vars st)).
    lia.
  - by eauto.
Qed.

Lemma lift_total s st : exists s' st', Cnf.lift s st = Ok (s', st').
Proof.
  unfold Cnf.lift. destruct (Cnf.is_variable s); [by eauto | ].
  unfold Cnf.get_term_var. destruct (dict_mem (Cnf.term_map st) s) eqn:Hmem.
  - cbn [mbind outcome_bind]. unfold dict_getitem, dict_mem in *.
    destruct (dict_get (Cnf.term_map st) s); [by eauto | done].
  - destruct (fresh_var_total st) as (v & st1 & ->). cbn [mbind outcome_bind].
    cbn [Cnf.term_map]. unfold dict_getitem. rewrite dict_get_set_eq. by eauto.
Qed.

Lemma final_append_total A r st :
  A ∈ dict_keys (Cnf.final st) -> exists st', Cnf.final_append A r st = Ok st'.
Proof.
  intros HA. unfold Cnf.final_append, dict_getitem.
  apply dict_get_is_Some in HA as [rs ->]. by eauto.
Qed.

Section Totality.
Variable V0 : list string.

Lemma binarize_chain_total chain : forall current st,
  2 <= length chain ->
  wrap_inv V0 st -> current ∈ dict_keys (Cnf.final st) ->
  exists st', Cnf.binarize_chain current chain st = Ok st'.
Proof.
  induction chain as [ | s chain IH]; intros current st Hlen Hinv Hcur.
  - simpl in Hlen. lia.
  - destruct chain as [ | s2 [ | s3 chain]].
    + simpl in Hlen. lia.
    + cbn [Cnf.binarize_chain].
      destruct (lift_total s st) as (l' & st1 & Hl). rewrite Hl.
      cbn [mbind outcome_bind].
      destruct (lift_total s2 st1) as (r' & st2 & Hr). rewrite Hr.
      cbn [mbind outcome_bind].
      apply (lift_wrap V0) in Hl as [Hinv1 Hf1]; [ | done].
      apply (lift_wrap V0) in Hr as [Hinv2 Hf2]; [ | done].
      apply final_append_total. by rewrite Hf2, Hf1.
    + cbn [Cnf.binarize_chain].
      destruct (lift_total s st) as (s' & st1 & Hl). rewrite Hl.
      cbn [mbind outcome_bind].
      destruct (fresh_var_total st1) as (new_var & st2 & Hfresh). rewrite Hfresh.
      cbn [mbind outcome_bind].
      apply (lift_wrap V0) in Hl as [Hinv1 Hf1]; [ | done].
      apply fresh_var_fresh in Hfresh as (Hnew & Hav & Htm & Hnm & Hfin).
      destruct Hinv1 as [Hi1 Hi2 Hi3 Hi4 Hi5].
      apply IH.
      * simpl. lia.
      * split; cbn [Cnf.with_final Cnf.all_vars Cnf.nonterm_map Cnf.final].
        -- intros v Hv. rewrite Hnm in Hv. destruct (Hi1 v Hv) as (Hv1 & Hv2 & Hv3).
           rewrite Hav, elem_of_app. split; [by left | ]. split; [done | ].
           rewrite elem_of_dict_keys_setdefault, elem_of_dict_keys_set,
             elem_of_dict_keys_setdefault, Hfin.
           intros [[[? | ->] | ->] | ->]; try done.
           ++ apply Hv3. by rewrite Hf1.
           ++ apply Hv3. by rewrite Hf1.
        -- intros B HB. rewrite Hav, elem_of_app, list_elem_of_singleton.
           apply elem_of_dict_keys_setdefault in HB as [HB | ->]; [ | by right].
           apply elem_of_dict_keys_set in HB as [HB | ->].
           ++ apply elem_of_dict_keys_setdefault in HB as [HB | ->].
              ** left. apply Hi2. by rewrite <- Hfin.
              ** left. apply Hi2. by rewrite Hf1.
           ++ left. apply Hi2. by rewrite Hf1.
        -- intros B HB. rewrite Hav, elem_of_app. left. auto.
        -- by rewrite Hnm.
        -- apply dict_keys_setdefault_NoDup, dict_keys_set_NoDup,
             dict_keys_setdefault_NoDup. by rewrite Hfin.
      * cbn [Cnf.with_final Cnf.final].
        rewrite elem_of_dict_keys_setdefault. by right.
Qed.

Lemma binarize_rule_total A r st :
  r ≠ [] -> wrap_inv V0 st -> A ∈ dict_keys (Cnf.final st) ->
  if Cnf.is_unit r
  then Cnf.binarize_rule A r st = Raise (ValueError unpack_one)
  else exists st', Cnf.binarize_rule A r st = Ok st'.
Proof.
  intros Hne Hinv HA. unfold Cnf.binarize_rule.
  destruct r as [ | s1 [ | s2 [ | s3 r]]]; [done | | | ].
  - cbn [Cnf.is_unit]. destruct (Cnf.is_variable s1); cbn [negb].
    + done.
    + by apply final_append_total.
  - cbn [Cnf.is_unit].
    destruct (lift_total s1 st) as (s1' & st1 & Hl1). rewrite Hl1.
    cbn [mbind outcome_bind].
    destruct (lift_total s2 st1) as (s2' & st2 & Hl2). rewrite Hl2.
    cbn [mbind outcome_bind].
    apply (lift_wrap V0) in Hl1 as [Hinv1 Hf1]; [ | done].
    apply (lift_wrap V0) in Hl2 as [Hinv2 Hf2]; [ | done].
    apply final_append_total. by rewrite Hf2, Hf1.
  - cbn [Cnf.is_unit]. apply binarize_chain_total; [simpl; lia | done | done].
Qed.

Lemma binarize_rules_total A (rules : list (list string)) : forall st,
  Forall (fun r => r ≠ []) rules ->
  wrap_inv V0 st -> A ∈ dict_keys (Cnf.final st) ->
  if existsb Cnf.is_unit rules
  then for_each (Cnf.binarize_rule A) rules st = Raise (ValueError unpack_one)
  else exists st',
         for_each (Cnf.binarize_rule A) rules st = Ok st' /\ wrap_inv V0 st'.
Proof.
  induction rules as [ | r rules IH]; intros st Hall Hinv HA.
  - by exists st.
  - apply Forall_cons in Hall as [Hr Hall]. cbn [for_each existsb].
    pose proof (binarize_rule_total A r st Hr Hinv HA) as Hrule.
    destruct (Cnf.is_unit r).
    + by rewrite Hrule.
    + destruct Hrule as [st1 Hst1]. rewrite Hst1. cbn [mbind outcome_bind orb].
      apply (binarize_rule_wrap V0) in Hst1 as [Hinv1 Hmono]; [ | done | done].
      apply IH; [done | done | by apply Hmono].
Qed.

Lemma reset_final_wrap A st :
  A ∈ V0 -> wrap_inv V0 st ->
  wrap_inv V0 (Cnf.with_final st (dict_set (Cnf.final st) A [])).
Proof.
  intros HA [Hi1 Hi2 Hi3 Hi4 Hi5].
  split; cbn [Cnf.with_final Cnf.all_vars Cnf.nonterm_map Cnf.final].
  - intros v Hv. destruct (Hi1 v Hv) as (? & ? & ?).
    split; [done | ]. split; [done | ].
    rewrite elem_of_dict_keys_set. by intros [? | ->].
  - intros B HB. apply elem_of_dict_keys_set in HB as [HB | ->]; auto.
  - done.
  - done.
  - by apply dict_keys_set_NoDup.
Qed.

Lemma binarize_total (g : grammar) : forall st,
  (forall A, A ∈ dict_keys g -> A ∈ V0) ->
  (forall A rules r, (A, rules) ∈ g -> r ∈ rules -> r ≠ []) ->
  wrap_inv V0 st ->
  if existsb (fun '(_, rules) => existsb Cnf.is_unit rules) g
  then Cnf.binarize g st = Raise (ValueError unpack_one)
  else exists st', Cnf.binarize g st = Ok st'.
Proof.
  unfold Cnf.binarize.
  induction g as [ | [A rules] g IH]; intros st Hkeys Hne Hinv.
  - by exists st.
  - cbn [for_each existsb].
    assert (A ∈ V0) as HA.
    { apply Hkeys. unfold dict_keys. csimpl. apply list_elem_of_here. }
    pose proof (binarize_rules_total A rules
                  (Cnf.with_final st (dict_set (Cnf.final st) A []))) as Hrules.
    destruct (existsb Cnf.is_unit rules).
    + rewrite Hrules; [done | | by apply reset_final_wrap | ].
      * apply Forall_forall. intros r Hr.
        apply (Hne A rules r); [apply list_elem_of_here | done].
      * cbn [Cnf.with_final Cnf.final]. apply elem_of_dict_keys_set. by right.
    + destruct Hrules as (st1 & Hst1 & Hinv1).
      * apply Forall_forall. intros r Hr.
        apply (Hne A rules r); [apply list_elem_of_here | done].
      * by apply reset_final_wrap.
      * cbn [Cnf.with_final Cnf.final]. apply elem_of_dict_keys_set. by right.
      * rewrite Hst1. cbn [mbind outcome_bind orb]. apply IH; [ | | done].
        -- intros B HB. apply Hkeys. unfold dict_keys in *. csimpl.
           by apply list_elem_of_further.
        -- intros B rs r HB Hr. apply (Hne B rs r); [ | done].
           by apply list_elem_of_further.
Qed.

End Totality.

(** The loop that names the new start variable ends. *)
Lemma new_start_loop_total (g : grammar) : forall fuel s,
  length (List.filter (fun k => Nat.leb (String.length s) (String.length k)) (dict_keys g))
  <= fuel ->
  exists r, Cnf.new_start_loop fuel g s = Ok r.
Proof.
  assert (forall s : string, dict_mem g s = true ->
            length (List.filter
                      (fun k => Nat.leb (String.length (s +:+ "'")) (String.length k))
                      (dict_keys g))
            < length (List.filter
                        (fun k => Nat.leb (String.length s) (String.length k))
                        (dict_keys g))) as Hstep.
  { intros s Hmem. apply dict_mem_true in Hmem.
    apply (filter_length_strict _ _ _ s); [ | done | | ].
    - intros x Hx. apply Nat.leb_le in Hx. apply Nat.leb_le.
      rewrite string_length_append in Hx. lia.
    - apply Nat.leb_gt. rewrite string_length_append. simpl. lia.
    - by apply Nat.leb_le. }
  induction fuel as [ | fuel IH]; intros s Hlen; cbn [Cnf.new_start_loop].
  - destruct (dict_mem g s) eqn:Hmem; [ | by eauto].
    specialize (Hstep s Hmem). lia.
  - destruct (dict_mem g s) eqn:Hmem; [ | by eauto].
    apply IH. specialize (Hstep s Hmem). lia.
Qed.

Lemma add_subsets_nonempty rules subsets (r : list string) :
  (r ∈ rules -> r ≠ []) -> r ∈ Cnf.add_subsets rules subsets -> r ≠ [].
Proof.
  unfold Cnf.add_subsets. revert rules.
  induction subsets as [ | s subsets IH]; intros rules Hrules; [done | ].
  cbn [fold_left]. case_bool_decide as Hs; [by apply IH | ].
  destruct (py_in s rules); [by apply IH | ].
  apply IH. intros Hin. apply elem_of_app in Hin as [Hin | Hin]; [by auto | ].
  apply list_elem_of_singleton in Hin. subst r. by destruct s.
Qed.

Lemma eliminate_epsilon_nonempty (g : grammar) nl A rs r :
  (A, rs) ∈ Cnf.eliminate_epsilon g nl -> r ∈ rs -> r ≠ [].
Proof.
  unfold Cnf.eliminate_epsilon. revert A rs r.
  set (P := fun ng : dict (list (list string)) =>
              forall A rs r, (A, rs) ∈ ng -> r ∈ rs -> r ≠ []).
  apply (fold_left_invariant P (fun _ => True)); [ | by apply Forall_forall | ].
  - intros [A rules] ng _ Hng.
    apply (fold_left_invariant P (fun _ : list string => True));
      [ | by apply Forall_forall | done].
    intros r0 ng' _ Hng' A' rs' r' Hin' Hr'.
    case_bool_decide as Heps; [by eauto | ].
    apply elem_of_dict_update in Hin' as [? | [-> (rs0 & Hin0 & ->)]]; [by eauto | ].
    eapply add_subsets_nonempty; [ | exact Hr']. by eauto.
  - intros A rs r Hin Hr.
    apply list_elem_of_fmap in Hin as ([A' rules'] & [= -> ->] & _).
    by apply elem_of_nil in Hr.
Qed.

Lemma has_self_unit_true (g : grammar) :
  has_self_unit g = true
  <-> exists A rules, (A, rules) ∈ g /\ [A] ∈ rules /\ Cnf.is_variable A = true.
Proof.
  unfold has_self_unit. rewrite existsb_exists. split.
  - intros ([A rules] & Hin & H). apply andb_true_iff in H as [Hvar Hr].
    exists A, rules. apply list_elem_of_In in Hin. apply py_in_true in Hr. done.
  - intros (A & rules & Hin & Hr & Hvar). exists (A, rules).
    split; [by apply list_elem_of_In | ]. rewrite Hvar. by apply py_in_true.
Qed.

(** The unit rules left by unit elimination are the self-unit rules. *)
Lemma unit_pass_units (g : grammar) :
  NoDup (dict_keys g) ->
  existsb (fun '(_, rules) => existsb Cnf.is_unit rules) (Cnf.unit_pass g).1
  = has_self_unit g.
Proof.
  intros Hnd. rewrite unit_pass_rules by done.
  apply eq_true_iff_eq. rewrite has_self_unit_true, existsb_exists. split.
  - intros ([A rs] & Hin & Hex). apply in_map_iff in Hin as ([A' rules] & [= -> <-] & Hin).
    apply existsb_exists in Hex as (r & Hr & Hunit).
    apply list_elem_of_In in Hr, Hin.
    apply key_rules_spec in Hr as [[Hr [Hnu | ->]] | (B & _ & _ & _ & _ & Hnu)];
      try congruence.
    exists A, rules. done.
  - intros (A & rules & Hin & Hr & Hvar).
    exists (A, key_rules g A rules). split.
    + apply in_map_iff. exists (A, rules). split; [done | by apply list_elem_of_In].
    + apply existsb_exists. exists [A]. split; [ | done].
      apply list_elem_of_In, key_rules_spec. left. split; [done | by right].
Qed.

Lemma unit_pass_nonempty (g : grammar) :
  NoDup (dict_keys g) ->
  (forall A rules r, (A, rules) ∈ g -> r ∈ rules -> r ≠ []) ->
  forall A rules r, (A, rules) ∈ (Cnf.unit_pass g).1 -> r ∈ rules -> r ≠ [].
Proof.
  intros Hnd Hne A rs r Hin Hr. rewrite unit_pass_rules in Hin by done.
  apply list_elem_of_fmap in Hin as ([A' rules] & [= -> ->] & Hin).
  apply key_rules_spec in Hr as [[Hr _] | (B & _ & _ & _ & Hr & _)].
  - by eapply Hne.
  - unfold dict_get_list in Hr.
    destruct (dict_get g B) as [rsB | ] eqn:Hget; [ | by apply elem_of_nil in Hr].
    apply dict_get_Some_elem in Hget. by eapply Hne.
Qed.

(** X17.  On a dictionary, [convert_to_cnf] returns a result unless, once
    the ε rules are eliminated, some variable [A] has the rule [A -> A];
    in that case it raises the [ValueError] of [left, right = chain].  It
    raises nothing else, and its loops end within the steps the model
    allows them. *)
Theorem convert_to_cnf_outcome g start :
  NoDup (dict_keys g) ->
  exists nl,
    Cnf.compute_nullable g = Ok nl
    /\ if has_self_unit (Cnf.eliminate_epsilon g nl)
       then Cnf.convert_to_cnf g start = Raise (ValueError unpack_one)
       else exists res, Cnf.convert_to_cnf g start = Ok res.
Proof.
  intros Hnd. destruct (compute_nullable_analysis g) as (nl & Hnl & _ & _).
  exists nl. split; [done | ].
  unfold Cnf.convert_to_cnf. rewrite Hnl. cbn [mbind outcome_bind].
  set (g1 := Cnf.eliminate_epsilon g nl).
  pose proof (eliminate_epsilon_keys g nl) as Hkeys1. fold g1 in Hkeys1.
  assert (forall A rules r, (A, rules) ∈ g1 -> r ∈ rules -> r ≠ []) as Hne1.
  { intros A rules r. apply eliminate_epsilon_nonempty. }
  assert (exists g2 cs av,
            Cnf.introduce_start g1 start nl (dict_keys g) = Ok (g2, cs, av)
            /\ NoDup (dict_keys g2)
            /\ (forall A, A ∈ dict_keys g2 -> A ∈ av)
            /\ (forall A rules r, (A, rules) ∈ g2 -> r ∈ rules -> r ≠ [])
            /\ has_self_unit g2 = has_self_unit g1)
    as (g2 & cs & av & -> & Hnd2 & Hav & Hne2 & Hself).
  { unfold Cnf.introduce_start. destruct (py_in start nl).
    - destruct (new_start_loop_total g1 (length g1) (start +:+ "'"))
        as [S_new Hloop].
      { unfold dict_keys. rewrite <- (length_fmap fst g1).
        apply List.filter_length_le. }
      rewrite Hloop. cbn [mbind outcome_bind].
      apply new_start_loop_spec in Hloop as [Hmem Hlen].
      assert (S_new ≠ start) as Hneq.
      { intros ->. rewrite string_length_append in Hlen. simpl in Hlen. lia. }
      eexists _, _, _. split; [done | ]. split; [ | split; [ | split]].
      + apply dict_keys_set_NoDup. by rewrite Hkeys1.
      + intros A HA. rewrite elem_of_app, list_elem_of_singleton.
        apply elem_of_dict_keys_set in HA as [HA | ->]; [left | by right].
        by rewrite <- Hkeys1.
      + intros A rules r Hin Hr.
        apply elem_of_dict_set in Hin as [Hin | [-> ->]]; [by eapply Hne1 | ].
        apply elem_of_cons in Hr as [-> | Hr]; [done | ].
        apply list_elem_of_singleton in Hr. by subst r.
      + apply eq_true_iff_eq. rewrite !has_self_unit_true. split.
        * intros (A & rules & Hin & Hr & Hvar).
          apply elem_of_dict_set in Hin as [Hin | [-> ->]]; [by eauto | ].
          apply elem_of_cons in Hr as [[= ->] | Hr]; [done | ].
          apply list_elem_of_singleton in Hr. injection Hr as ->.
          discriminate Hvar.
        * intros (A & rules & Hin & Hr & Hvar). exists A, rules.
          split; [ | done]. apply dict_get_Some_elem.
          rewrite dict_get_set_ne.
          -- apply dict_get_NoDup; [by rewrite Hkeys1 | done].
          -- intros ->. apply dict_mem_false in Hmem. apply Hmem.
             unfold dict_keys. apply list_elem_of_fmap. by exists (A, rules).
    - eexists _, _, _. split; [done | ]. split; [by rewrite Hkeys1 | ].
      split; [ | done]. intros A HA. by rewrite <- Hkeys1. }
  cbn [mbind outcome_bind].
  rewrite eliminate_units_pass by done. cbn [mbind outcome_bind].
  pose proof (binarize_total av (Cnf.unit_pass g2).1
                (Cnf.BinState 1 av [] [] [])) as Hbin.
  rewrite unit_pass_units, Hself in Hbin by done.
  destruct (has_self_unit g1).
  - rewrite Hbin; [done | | | ].
    + intros A HA. rewrite unit_pass_keys in HA by done. by apply Hav.
    + by apply unit_pass_nonempty.
    + split; cbn [Cnf.all_vars Cnf.nonterm_map Cnf.final]; try done.
      * intros v Hv. by apply elem_of_nil in Hv.
      * intros A HA. by apply elem_of_nil in HA.
      * apply NoDup_nil_2.
      * apply NoDup_nil_2.
  - destruct Hbin as [st ->].
    + intros A HA. rewrite unit_pass_keys in HA by done. by apply Hav.
    + by apply unit_pass_nonempty.
    + split; cbn [Cnf.all_vars Cnf.nonterm_map Cnf.final]; try done.
      * intros v Hv. by apply elem_of_nil in Hv.
      * intros A HA. by apply elem_of_nil in HA.
      * apply NoDup_nil_2.
      * apply NoDup_nil_2.
    + cbn [mbind outcome_bind]. by eexists.
Qed.

Lemma convert_to_cnf_outcome_witness :
  exists nl,
    Cnf.compute_nullable g_self_unit = Ok nl
    /\ if has_self_unit (Cnf.eliminate_epsilon g_self_unit nl)
       then Cnf.convert_to_cnf g_self_unit "S" = Raise (ValueError unpack_one)
       else exists res, Cnf.convert_to_cnf g_self_unit "S" = Ok res.
Proof. apply (convert_to_cnf_outcome g_self_unit "S"). apply NoDup_singleton. Defined.

(** ** Epsilon elimination, exactly *)

Lemma drops_cons_inv nl sym r s :
  drops nl (sym :: r) s ->
  (exists s0, s = sym :: s0 /\ drops nl r s0)
  \/ (Cnf.is_variable sym = true /\ (sym ∈ nl) /\ drops nl r s).
Proof.
  intros H. remember (sym :: r) as l eqn:Hl.
  destruct H as [ | sym' r' s' H | sym' r' s' Hv Hn H]; [discriminate Hl | | ];
    injection Hl as -> ->.
  - left. by exists s'.
  - right. by auto.
Qed.

Lemma subsets_fold_drops nl syms (subsets : list (list string)) s :
  s ∈ fold_left
        (fun subsets sym =>
           flat_map
             (fun s =>
                (s ++ [sym])
                :: (if Cnf.is_variable sym && py_in sym nl then [s] else []))
             subsets)
        syms subsets
  <-> exists pre s', pre ∈ subsets /\ drops nl syms s' /\ s = pre ++ s'.
Proof.
  revert subsets. induction syms as [ | sym syms IH]; intros subsets.
  - cbn [fold_left]. split.
    + intros Hs. exists s, []. rewrite app_nil_r. split; [done | ].
      split; [constructor | done].
    + intros (pre & s' & Hpre & Hd & ->). inversion Hd; subst.
      by rewrite app_nil_r.
  - cbn [fold_left]. rewrite IH. split.
    + intros (pre' & s' & Hpre' & Hd & ->).
      apply list_elem_of_In, in_flat_map in Hpre' as (pre & Hpre & Hin).
      apply list_elem_of_In in Hpre, Hin.
      apply elem_of_cons in Hin as [-> | Hin].
      * exists pre, (sym :: s'). split; [done | ].
        split; [by constructor | ]. by rewrite <- app_assoc.
      * destruct (Cnf.is_variable sym && py_in sym nl) eqn:Hc;
          [ | by apply elem_of_nil in Hin].
        apply list_elem_of_singleton in Hin. subst pre'.
        apply andb_true_iff in Hc as [Hv Hn]. apply py_in_true in Hn.
        exists pre, s'. split; [done | ]. split; [by apply drops_drop | done].
    + intros (pre & s' & Hpre & Hd & ->).
      apply drops_cons_inv in Hd as [(s0 & -> & Hd) | (Hv & Hn & Hd)].
      * exists (pre ++ [sym]), s0. split.
        { apply list_elem_of_In, in_flat_map. exists pre.
          split; [by apply list_elem_of_In | ]. apply list_elem_of_In.
          apply list_elem_of_here. }
        split; [done | ]. by rewrite <- app_assoc.
      * exists pre, s'. split; [ | done].
        apply list_elem_of_In, in_flat_map. exists pre.
        split; [by apply list_elem_of_In | ]. apply list_elem_of_In.
        apply list_elem_of_further.
        assert (Cnf.is_variable sym && py_in sym nl = true) as ->.
        { apply andb_true_iff. split; [done | by apply py_in_true]. }
        apply list_elem_of_here.
Qed.

Lemma nullable_subsets_drops nl r s :
  s ∈ Cnf.nullable_subsets nl r <-> drops nl r s.
Proof.
  unfold Cnf.nullable_subsets. rewrite subsets_fold_drops. split.
  - intros (pre & s' & Hpre & Hd & ->).
    apply list_elem_of_singleton in Hpre. by subst pre.
  - intros Hd. exists [], s. split; [apply list_elem_of_here | done].
Qed.

Lemma add_subsets_spec rules subsets :
  NoDup rules ->
  NoDup (Cnf.add_subsets rules subsets)
  /\ forall s, s ∈ Cnf.add_subsets rules subsets
               <-> s ∈ rules \/ (s ∈ subsets /\ s ≠ []).
Proof.
  unfold Cnf.add_subsets. revert rules.
  induction subsets as [ | x subsets IH]; intros rules Hnd.
  - cbn [fold_left]. split; [done | ]. intros s. split; [by left | ].
    intros [? | [H _]]; [done | by apply elem_of_nil in H].
  - cbn [fold_left]. case_bool_decide as Hlen.
    + destruct (IH rules Hnd) as (Hnd' & Hel). split; [done | ].
      intros s. rewrite Hel, elem_of_cons. split.
      * intros [? | [? ?]]; [by left | right; by auto].
      * intros [? | [[-> | ?] Hne]]; [by left | | right; by auto].
        destruct x; [done | discriminate Hlen].
    + assert (x ≠ []) as Hx by (intros ->; by apply Hlen).
      destruct (py_in x rules) eqn:Hin.
      * apply py_in_true in Hin.
        destruct (IH rules Hnd) as (Hnd' & Hel). split; [done | ].
        intros s. rewrite Hel, elem_of_cons. split.
        -- intros [? | [? ?]]; [by left | right; by auto].
        -- intros [? | [[-> | ?] Hne]]; [by left | by left | right; by auto].
      * apply py_in_false in Hin.
        assert (NoDup (rules ++ [x])) as Hnd2.
        { apply NoDup_app. split; [done | ]. split; [ | apply NoDup_singleton].
          intros y Hy Hy'. apply list_elem_of_singleton in Hy'. by subst y. }
        destruct (IH _ Hnd2) as (Hnd' & Hel). split; [done | ].
        intros s. rewrite Hel, elem_of_app, list_elem_of_singleton, elem_of_cons.
        split.
        -- intros [[? | ->] | [? ?]]; [by left | right; by auto | right; by auto].
        -- intros [? | [[-> | ?] Hne]];
             [left; by left | left; by right | right; by auto].
Qed.

Lemma fold_left_prefix_invariant {A S} (P : list A -> S -> Prop)
    (Q : A -> Prop) (f : S -> A -> S) xs pre s :
  (forall pre x s, Q x -> P pre s -> P (pre ++ [x]) (f s x)) ->
  Forall Q xs -> P pre s -> P (pre ++ xs) (fold_left f xs s).
Proof.
  intros Hf. revert pre s.
  induction xs as [ | x xs IH]; intros pre s HQ HP.
  - by rewrite app_nil_r.
  - apply Forall_cons in HQ as [HQx HQ]. cbn [fold_left].
    rewrite (cons_middle x pre xs), app_assoc. apply IH; [done | ].
    by apply Hf.
Qed.

Lemma dict_get_emptied {V} (g : dict (list V)) A :
  A ∈ dict_keys g ->
  dict_get (map (fun '(A, _) => (A, [])) g : dict (list V)) A = Some [].
Proof.
  unfold dict_keys. induction g as [ | [k v] g IH]; cbn.
  - intros H. by apply elem_of_nil in H.
  - intros H. destruct (decide (k = A)) as [-> | Hne]; [done | ].
    apply elem_of_cons in H as [-> | H]; [done | by apply IH].
Qed.

(** The rules that epsilon elimination collects for a key: the invariant
    of the two loops speaks of the entries, and of the rules of the
    current entry, that are through. *)
Lemma eliminate_epsilon_analysis (g : grammar) nl :
  dict_keys (Cnf.eliminate_epsilon g nl) = dict_keys g
  /\ forall A, A ∈ dict_keys g ->
       exists rs,
         dict_get (Cnf.eliminate_epsilon g nl) A = Some rs /\ NoDup rs
         /\ forall s, s ∈ rs
              <-> s ≠ []
                  /\ exists rules r,
                       (A, rules) ∈ g /\ r ∈ rules /\ r ≠ eps_rule
                       /\ drops nl r s.
Proof.
  split; [apply eliminate_epsilon_keys | ].
  unfold Cnf.eliminate_epsilon.
  set (ng0 := map (fun '(A, _) => (A, [])) g).
  set (Inv := fun (seen : list (string * list (list string)))
                  (ng : dict (list (list string))) =>
     dict_keys ng = dict_keys g
     /\ forall A, A ∈ dict_keys g ->
          exists rs,
            dict_get ng A = Some rs /\ NoDup rs
            /\ forall s, s ∈ rs
                 <-> s ≠ []
                     /\ exists rules r,
                          (A, rules) ∈ seen /\ r ∈ rules /\ r ≠ eps_rule
                          /\ drops nl r s).
  enough (Inv ([] ++ g)
            (fold_left
               (fun new_grammar '(A, rules) =>
                  fold_left
                    (fun new_grammar r =>
                       if bool_decide (r = eps_rule) then new_grammar
                       else dict_update new_grammar A
                              (fun rs => Cnf.add_subsets rs
                                           (Cnf.nullable_subsets nl r)))
                    rules new_grammar)
               g ng0)) as [_ H]; [exact H | ].
  apply (fold_left_prefix_invariant Inv (fun x => x ∈ g));
    [ | by apply Forall_forall | ].
  - intros seen [B rules] ng HB [Hkeys Hinv].
    set (Inner := fun (seen_rules : list (list string))
                      (ng : dict (list (list string))) =>
       dict_keys ng = dict_keys g
       /\ forall A, A ∈ dict_keys g ->
            exists rs,
              dict_get ng A = Some rs /\ NoDup rs
              /\ forall s, s ∈ rs
                   <-> s ≠ []
                       /\ ((exists rules r,
                              (A, rules) ∈ seen /\ r ∈ rules /\ r ≠ eps_rule
                              /\ drops nl r s)
                           \/ (A = B
                               /\ exists r, r ∈ seen_rules /\ r ≠ eps_rule
                                            /\ drops nl r s))).
    assert (Inner ([] ++ rules)
              (fold_left
                 (fun new_grammar r =>
                    if bool_decide (r = eps_rule) then new_grammar
                    else dict_update new_grammar B
                           (fun rs => Cnf.add_subsets rs
                                        (Cnf.nullable_subsets nl r)))
                 rules ng)) as [Hkeys' Hinner].
    { apply (fold_left_prefix_invariant Inner (fun _ => True));
        [ | by apply Forall_forall | ].
      - intros seen_rules r ng' _ [Hk Hin]. case_bool_decide as Heps.
        + split; [done | ]. intros A HA.
          destruct (Hin A HA) as (rs & Hget & Hnd & Hel).
          exists rs. split; [done | ]. split; [done | ].
          intros s. rewrite Hel. split.
          * intros [Hne [H | (-> & r0 & Hr0 & Hr0e & Hd)]];
              (split; [done | ]); [by left | right].
            split; [done | ]. exists r0.
            split; [apply elem_of_app; by left | done].
          * intros [Hne [H | (-> & r0 & Hr0 & Hr0e & Hd)]];
              (split; [done | ]); [by left | right].
            split; [done | ]. exists r0. split; [ | done].
            apply elem_of_app in Hr0 as [? | Hr0]; [done | ].
            apply list_elem_of_singleton in Hr0. by subst r0.
        + split; [by rewrite dict_keys_update | ]. intros A HA.
          assert (B ∈ dict_keys g) as HBk.
          { unfold dict_keys. apply list_elem_of_fmap. by exists (B, rules). }
          destruct (Hin B HBk) as (rsB & HgetB & HndB & HelB).
          rewrite (dict_update_get _ _ _ _ HgetB).
          destruct (add_subsets_spec rsB (Cnf.nullable_subsets nl r) HndB)
            as (Hnd' & Hel').
          destruct (decide (B = A)) as [<- | Hne].
          * eexists. split; [apply dict_get_set_eq | ]. split; [done | ].
            intros s. rewrite Hel', HelB, nullable_subsets_drops. split.
            -- intros [[Hne [H | (_ & r0 & Hr0 & Hr0e & Hd)]] | [Hd Hne]];
                 (split; [done | ]); [by left | right | right].
               ++ split; [done | ]. exists r0.
                  split; [apply elem_of_app; by left | done].
               ++ split; [done | ]. exists r.
                  split; [apply elem_of_app; right; apply list_elem_of_here | done].
            -- intros [Hne [H | (_ & r0 & Hr0 & Hr0e & Hd)]].
               ++ left. split; [done | by left].
               ++ apply elem_of_app in Hr0 as [Hr0 | Hr0].
                  ** left. split; [done | ]. right. split; [done | ].
                     by exists r0.
                  ** apply list_elem_of_singleton in Hr0. subst r0. by right.
          * destruct (Hin A HA) as (rs & Hget & Hnd & Hel).
            exists rs. rewrite dict_get_set_ne by done.
            split; [done | ]. split; [done | ].
            intros s. rewrite Hel. split.
            -- intros [Hne' [H | (-> & _)]]; [ | done].
               split; [done | by left].
            -- intros [Hne' [H | (-> & _)]]; [ | done].
               split; [done | by left].
      - split; [done | ]. intros A HA.
        destruct (Hinv A HA) as (rs & Hget & Hnd & Hel).
        exists rs. split; [done | ]. split; [done | ].
        intros s. rewrite Hel. split.
        + intros [Hne H]. split; [done | by left].
        + intros [Hne [H | (_ & r0 & Hr0 & _)]]; [done | ].
          by apply elem_of_nil in Hr0. }
    split; [done | ]. intros A HA.
    destruct (Hinner A HA) as (rs & Hget & Hnd & Hel).
    exists rs. split; [done | ]. split; [done | ].
    intros s. rewrite Hel. split.
    + intros [Hne [(rules0 & r0 & Hin0 & Hr0 & Hr0e & Hd)
                   | (-> & r0 & Hr0 & Hr0e & Hd)]]; (split; [done | ]).
      * exists rules0, r0. split; [apply elem_of_app; by left | done].
      * exists rules, r0.
        split; [apply elem_of_app; right; apply list_elem_of_here | done].
    + intros [Hne (rules0 & r0 & Hin0 & Hr0 & Hr0e & Hd)]. split; [done | ].
      apply elem_of_app in Hin0 as [Hin0 | Hin0].
      * left. by exists rules0, r0.
      * apply list_elem_of_singleton in Hin0. injection Hin0 as -> ->.
        right. split; [done | ]. by exists r0.
  - split.
    + unfold ng0, dict_keys. rewrite <- list_fmap_compose.
      apply list_fmap_ext. by intros i [A rules].
    + intros A HA. exists []. split; [by apply dict_get_emptied | ].
      split; [constructor | ]. intros s. split.
      * intros H. by apply elem_of_nil in H.
      * intros [_ (rules0 & r0 & Hin0 & _)]. by apply elem_of_nil in Hin0.
Qed.

(** X24.  What the ε elimination of [convert_to_cnf] leaves: the keys of
    the grammar, in their order, and for each key the rules that are not
    empty and come from one of its rules other than [[ε]] by leaving out
    occurrences of variables of the nullable set, each of them once.  The
    rule [[ε]] gives nothing, for the start variable as for any other
    key. *)
Theorem eliminate_epsilon_spec (g : grammar) nl A rules :
  NoDup (dict_keys g) ->
  dict_get g A = Some rules ->
  dict_keys (Cnf.eliminate_epsilon g nl) = dict_keys g
  /\ exists rs,
       dict_get (Cnf.eliminate_epsilon g nl) A = Some rs /\ NoDup rs
       /\ forall s, s ∈ rs
            <-> s ≠ [] /\ exists r, r ∈ rules /\ r ≠ eps_rule /\ drops nl r s.
Proof.
  intros Hnd Hget.
  destruct (eliminate_epsilon_analysis g nl) as [Hkeys Hall].
  split; [done | ].
  assert (A ∈ dict_keys g) as HA.
  { apply dict_get_is_Some. by eauto. }
  destruct (Hall A HA) as (rs & Hrs & Hndrs & Hel).
  exists rs. split; [done | ]. split; [done | ].
  intros s. rewrite Hel. split.
  - intros [Hne (rules0 & r & Hin0 & Hr & Hre & Hd)]. split; [done | ].
    apply (dict_get_NoDup _ _ _ Hnd) in Hin0.
    rewrite Hget in Hin0. injection Hin0 as <-. by exists r.
  - intros [Hne (r & Hr & Hre & Hd)]. split; [done | ].
    exists rules, r. split; [by apply dict_get_Some_elem | done].
Qed.

Lemma eliminate_epsilon_spec_witness :
  dict_keys (Cnf.eliminate_epsilon g_unit_chain ["A"; "S"])
  = dict_keys g_unit_chain
  /\ exists rs,
       dict_get (Cnf.eliminate_epsilon g_unit_chain ["A"; "S"]) "S" = Some rs
       /\ NoDup rs
       /\ forall s, s ∈ rs
            <-> s ≠ []
                /\ exists r, r ∈ [["A"]] /\ r ≠ eps_rule
                             /\ drops ["A"; "S"] r s.
Proof.
  apply (eliminate_epsilon_spec g_unit_chain ["A"; "S"] "S" [["A"]]).
  - compute_done.
  - reflexivity.
Defined.

(** ** [generate_one] and [generate_strings] *)

Lemma set_add_NoDup s l : NoDup l -> NoDup (Generator.set_add s l).
Proof.
  intros Hnd. unfold Generator.set_add. destruct (py_in s l) eqn:Hin; [done | ].
  apply py_in_false in Hin. apply NoDup_app. split; [done | ].
  split; [ | apply NoDup_singleton].
  intros x Hx Hx'. apply list_elem_of_singleton in Hx'. by subst x.
Qed.

Lemma set_add_length s l : length (Generator.set_add s l) <= S (length l).
Proof.
  unfold Generator.set_add. destruct (py_in s l); [lia | ].
  rewrite length_app. simpl. lia.
Qed.

Lemma set_add_elem s l x : x ∈ Generator.set_add s l -> x ∈ l \/ x = s.
Proof.
  unfold Generator.set_add. destruct (py_in s l); [by left | ].
  rewrite elem_of_app, list_elem_of_singleton. done.
Qed.

Section GeneratorBounds.
Variable rng : Type.
Variable draw : rng -> nat * rng.

Lemma generate_loop_bounds g start max_strings max_depth :
  forall attempts generated r,
    NoDup generated -> length generated <= max_strings ->
    (forall s, s ∈ generated -> s ≠ Generator.truncated /\ kept_string s) ->
    let result :=
      (Generator.generate_loop rng draw attempts g start max_strings max_depth
         generated r).1 in
    NoDup result /\ length result <= max_strings
    /\ forall s, s ∈ result -> s ≠ Generator.truncated /\ kept_string s.
Proof.
  induction attempts as [ | attempts IH]; intros generated r Hnd Hlen Hall;
    cbn [Generator.generate_loop].
  - done.
  - case_bool_decide as Hroom; [ | done].
    destruct (Generator.generate_one rng draw g start max_depth 0 r) as [s r1].
    apply IH.
    + destruct (str_eqb s Generator.truncated); [done | ].
      destruct (bool_decide (Generator.str_len s = 0)); [by apply set_add_NoDup | ].
      destruct (bool_decide (Generator.str_len s < 200)
                && bool_decide (length (split_ws s) <= 40));
        [by apply set_add_NoDup | done].
    + pose proof (set_add_length s generated).
      destruct (str_eqb s Generator.truncated); [done | ].
      destruct (bool_decide (Generator.str_len s = 0)); [lia | ].
      destruct (bool_decide (Generator.str_len s < 200)
                && bool_decide (length (split_ws s) <= 40)); [lia | done].
    + intros x Hx.
      destruct (str_eqb s Generator.truncated) eqn:Htr; [by apply Hall | ].
      apply str_eqb_false in Htr.
      destruct (bool_decide (Generator.str_len s = 0)) eqn:Hzero.
      * apply bool_decide_eq_true in Hzero.
        apply set_add_elem in Hx as [Hx | ->]; [by apply Hall | ].
        split; [done | by left].
      * destruct (bool_decide (Generator.str_len s < 200)
                  && bool_decide (length (split_ws s) <= 40)) eqn:Hok;
          [ | by apply Hall].
        apply andb_true_iff in Hok as [H1 H2].
        apply bool_decide_eq_true in H1, H2.
        apply set_add_elem in Hx as [Hx | ->]; [by apply Hall | ].
        split; [done | by right].
Qed.

(** X18.  Whatever the grammar, the bounds and the random source, the set
    returned by [generate_strings] has at most [max_strings] elements (one
    when [max_strings] is [0], for the empty string of the final attempt);
    no element is the truncation marker, and each is empty or has fewer
    than 200 characters and at most 40 words. *)
Theorem generate_strings_bounds g start max_strings max_attempts max_depth r :
  let generated :=
    (Generator.generate_strings rng draw g start max_strings max_attempts
       max_depth r).1 in
  NoDup generated
  /\ length generated <= Nat.max max_strings 1
  /\ forall s, s ∈ generated -> s ≠ Generator.truncated /\ kept_string s.
Proof.
  unfold Generator.generate_strings. destruct start as [start | ].
  2: { cbn [fst]. split; [apply NoDup_nil_2 | ]. split; [simpl; lia | ].
       intros s Hs. by apply elem_of_nil in Hs. }
  pose proof (generate_loop_bounds g start max_strings max_depth max_attempts [] r)
    as Hloop.
  destruct (Generator.generate_loop rng draw max_attempts g start max_strings
              max_depth [] r) as [generated r1].
  cbn [fst] in Hloop. destruct Hloop as (Hnd & Hlen & Hall).
  { apply NoDup_nil_2. }
  { simpl. lia. }
  { intros s Hs. by apply elem_of_nil in Hs. }
  case_bool_decide as Hempty.
  - destruct (Generator.generate_one rng draw g start max_depth 0 r1) as [s r2].
    destruct (str_eqb s "") eqn:Hs; cbn [fst].
    + apply str_eqb_true in Hs. subst s.
      split; [by apply set_add_NoDup | ]. split.
      * pose proof (set_add_length "" generated). lia.
      * intros x Hx. apply set_add_elem in Hx as [Hx | ->]; [by apply Hall | ].
        split; [done | by left].
    + split; [done | ]. split; [lia | done].
  - cbn [fst]. split; [done | ]. split; [lia | done].
Qed.

(** Soundness of [generate_one]. *)
Lemma generate_one_from_step budget g sym r :
  Generator.generate_one_from rng draw (S budget) g sym r
  = if negb (Generator.is_variable sym) then (sym, r)
    else
      match dict_get g sym with
      | None => ("", r)
      | Some [] => ("", r)
      | Some rules =>
          let '(k, r) := draw r in
          let chosen := nth (k mod length rules) rules [] in
          if bool_decide (chosen = eps_rule) then ("", r)
          else expand_with (Generator.generate_one_from rng draw budget g)
                 chosen [] r
      end.
Proof.
  cbn [Generator.generate_one_from].
  destruct (negb (Generator.is_variable sym)); [done | ].
  destruct (dict_get g sym) as [[ | rule0 rules] | ]; [done | | done].
  destruct (draw r) as [k r1].
  destruct (bool_decide (nth (k mod length (rule0 :: rules)) (rule0 :: rules) []
                         = eps_rule)); [done | ].
  assert (forall syms parts r1,
            (fix expand (syms parts : list string) (r : rng) : string * rng :=
               match syms with
               | [] => (str_join " " parts, r)
               | s :: syms' =>
                   let '(res, r) := Generator.generate_one_from rng draw budget g s r in
                   if str_eqb res Generator.truncated then (Generator.truncated, r)
                   else
                     expand syms'
                       (if str_eqb res "" then parts else parts ++ [res]) r
               end) syms parts r1
            = expand_with (Generator.generate_one_from rng draw budget g)
                syms parts r1) as Hfix; [ | apply Hfix].
  induction syms as [ | s syms IH]; intros parts r2; [done | ].
  cbn [expand_with].
  destruct (Generator.generate_one_from rng draw budget g s r2) as [res r3].
  destruct (str_eqb res Generator.truncated); [done | ]. apply IH.
Qed.

Lemma str_join_nonempty_words (l : list string) :
  l ≠ [] -> Forall (fun t => t ≠ "") l -> str_join " " l ≠ "".
Proof.
  intros Hne Hall. destruct l as [ | t l]; [done | ].
  apply Forall_cons in Hall as [Ht _]. destruct l as [ | t2 l].
  - done.
  - change (str_join " " (t :: t2 :: l)) with (t +:+ " " +:+ str_join " " (t2 :: l)).
    by destruct t.
Qed.

Lemma str_join_app (l1 l2 : list string) :
  l1 ≠ [] -> l2 ≠ [] ->
  str_join " " (l1 ++ l2) = str_join " " l1 +:+ " " +:+ str_join " " l2.
Proof.
  intros H1 H2. induction l1 as [ | t l1 IH]; [done | ].
  destruct l1 as [ | t2 l1].
  - destruct l2 as [ | u l2]; [done | ]. done.
  - change (str_join " " ((t :: t2 :: l1) ++ l2))
      with (t +:+ " " +:+ str_join " " ((t2 :: l1) ++ l2)).
    rewrite IH by done.
    change (str_join " " (t :: t2 :: l1)) with (t +:+ " " +:+ str_join " " (t2 :: l1)).
    by rewrite !str_append_assoc.
Qed.

Lemma filter_nonempty_words (w : list string) :
  Forall (fun t => t ≠ "") (List.filter (fun t => negb (str_eqb t "")) w).
Proof.
  apply Forall_forall. intros t Ht. apply elem_of_List_filter in Ht as [_ Ht].
  apply negb_true_iff in Ht. by apply str_eqb_false in Ht.
Qed.

Lemma join_words_empty w :
  join_words w = "" -> List.filter (fun t => negb (str_eqb t "")) w = [].
Proof.
  unfold join_words. intros H.
  destruct (List.filter (fun t => negb (str_eqb t "")) w) as [ | t l] eqn:Hf; [done | ].
  exfalso. apply (str_join_nonempty_words (t :: l)); [done | | done].
  rewrite <- Hf. apply filter_nonempty_words.
Qed.

Lemma str_join_flatten (A W R : list string) :
  W ≠ [] ->
  str_join " " (A ++ str_join " " W :: R) = str_join " " (A ++ W ++ R).
Proof.
  intros HW. destruct A as [ | a A']; destruct R as [ | r0 R'].
  - cbn [app]. by rewrite app_nil_r.
  - cbn [app]. rewrite (str_join_app W (r0 :: R')) by done. done.
  - rewrite app_nil_r.
    rewrite (str_join_app (a :: A') W) by done.
    rewrite (str_join_app (a :: A') [str_join " " W]) by done. done.
  - rewrite (str_join_app (a :: A') (W ++ r0 :: R')) by (by destruct W).
    rewrite (str_join_app W (r0 :: R')) by done.
    rewrite (str_join_app (a :: A') (str_join " " W :: r0 :: R')) by done.
    done.
Qed.

Lemma join_words_app_mid (acc w rest : list string) :
  join_words ((acc ++ (if str_eqb (join_words w) "" then [] else [join_words w]))
              ++ rest)
  = join_words (acc ++ w ++ rest).
Proof.
  unfold join_words at 1 4. rewrite !List.filter_app, <- !app_assoc.
  destruct (str_eqb (join_words w) "") eqn:He.
  - apply str_eqb_true, join_words_empty in He. by rewrite He.
  - cbn [List.filter]. rewrite He. cbn [negb app].
    apply str_eqb_false in He. unfold join_words in *.
    apply str_join_flatten. intros HW. by rewrite HW in He.
Qed.

Lemma expand_with_sound (gen : symbol -> rng -> string * rng) g :
  (forall sym r s r', gen sym r = (s, r') -> s ≠ Generator.truncated ->
     exists w, yields g sym w /\ s = join_words w) ->
  forall syms (acc : list string) r s r',
    expand_with gen syms (List.filter (fun t => negb (str_eqb t "")) acc) r
    = (s, r') ->
    s ≠ Generator.truncated ->
    exists ws, Forall2 (yields g) syms ws
               /\ s = join_words (acc ++ concat ws).
Proof.
  intros Hgen. induction syms as [ | sym syms IH]; intros acc r s r' H Hs.
  - cbn [expand_with] in H. injection H as <- <-. exists [].
    split; [constructor | ]. by rewrite app_nil_r.
  - cbn [expand_with] in H. destruct (gen sym r) as [res r1] eqn:Hres.
    destruct (str_eqb res Generator.truncated) eqn:Htr.
    { injection H as <- <-. done. }
    apply str_eqb_false in Htr.
    destruct (Hgen sym r res r1 Hres Htr) as (w & Hw & ->).
    assert ((if str_eqb (join_words w) ""
             then List.filter (fun t => negb (str_eqb t "")) acc
             else List.filter (fun t => negb (str_eqb t "")) acc ++ [join_words w])
            = List.filter (fun t => negb (str_eqb t ""))
                (acc ++ (if str_eqb (join_words w) "" then [] else [join_words w])))
      as Heq.
    { rewrite List.filter_app. destruct (str_eqb (join_words w) "") eqn:He.
      - by rewrite app_nil_r.
      - cbn [List.filter]. by rewrite He. }
    rewrite Heq in H. apply IH in H as (ws & Hws & ->); [ | done].
    exists (w :: ws). split; [by constructor | ].
    cbn [concat]. apply join_words_app_mid.
Qed.

Lemma generate_one_from_sound g : forall budget sym r s r',
  Generator.generate_one_from rng draw budget g sym r = (s, r') ->
  s ≠ Generator.truncated ->
  exists w, yields g sym w /\ s = join_words w.
Proof.
  induction budget as [ | budget IH]; intros sym r s r' H Hs.
  - cbn [Generator.generate_one_from] in H. injection H as <- <-. done.
  - rewrite generate_one_from_step in H.
    destruct (Generator.is_variable sym) eqn:Hvar; cbn [negb] in H.
    2: { injection H as <- <-. exists [sym]. split; [by constructor | ].
         unfold join_words. cbn [List.filter].
         destruct (str_eqb sym "") eqn:He; [ | done].
         by apply str_eqb_true in He. }
    destruct (dict_get g sym) as [rules | ] eqn:Hget.
    2: { injection H as <- <-. exists []. split; [ | done].
         apply yields_no_rules; [done | ]. unfold dict_get_list. by rewrite Hget. }
    destruct rules as [ | rule0 rules].
    { injection H as <- <-. exists []. split; [ | done].
      apply yields_no_rules; [done | ]. unfold dict_get_list. by rewrite Hget. }
    destruct (draw r) as [k r1].
    set (rs := rule0 :: rules) in *.
    assert (nth (k mod length rs) rs [] ∈ rs) as Hchosen.
    { apply list_elem_of_In, nth_In. apply Nat.mod_upper_bound. done. }
    case_bool_decide as Heps.
    + injection H as <- <-. exists []. split; [ | done].
      apply (yields_epsilon g sym rs); [done | done | ]. by rewrite <- Heps.
    + apply (expand_with_sound _ g IH _ []) in H as (ws & Hws & ->); [ | done].
      exists (concat ws). split; [ | done].
      by apply (yields_rule g sym rs (nth (k mod length rs) rs [])).
Qed.

(** X19.  A result of [generate_one] other than the truncation marker is
    derivable: it is what [symbol] can be expanded into by the rules of
    the grammar, the non-empty symbols joined by single spaces. *)
Theorem generate_one_sound g sym max_depth current_depth r s r' :
  Generator.generate_one rng draw g sym max_depth current_depth r = (s, r') ->
  s ≠ Generator.truncated ->
  exists w, yields g sym w /\ s = join_words w.
Proof. unfold Generator.generate_one. apply generate_one_from_sound. Qed.

End GeneratorBounds.

Lemma generate_one_sound_witness :
  exists w,
    yields [("S", [["a"; "S"]; [epsilon]])] "S" w /\ "a a" = join_words w.
Proof.
  apply (generate_one_sound (list nat)
           (fun r => match r with [] => (1, []) | k :: r' => (k, r') end)
           [("S", [["a"; "S"]; [epsilon]])] "S" 15 0 [0; 0; 1] "a a" []).
  - reflexivity.
  - discriminate.
Defined.

(** ** The handlers of app.py *)

Lemma set_grammar_try_state set_iter st start productions :
  let st' := (App.set_grammar_try set_iter st start productions).1 in
  st' = st
  \/ exists cfg g,
       st' = App.AppState (Some cfg) (Some (Cnf.VGrammar g))
               (App.GLOBAL_START st) (App.GLOBAL_TERM_MAP st)
               (App.GLOBAL_NONTERM_MAP st).
Proof.
  unfold App.set_grammar_try.
  destruct (Parser.parse_cfg set_iter start productions) as [cfg | e | ];
    [ | by left | by left].
  destruct (Cnf.convert_to_cnf cfg start) as [r | e | ]; [ | by left | by left].
  right. by exists cfg, (Cnf.res_grammar r).
Qed.

Lemma set_grammar_state set_iter st data :
  let st' := (App.set_grammar set_iter st data).1 in
  st' = st
  \/ exists cfg g,
       st' = App.AppState (Some cfg) (Some (Cnf.VGrammar g))
               (App.GLOBAL_START st) (App.GLOBAL_TERM_MAP st)
               (App.GLOBAL_NONTERM_MAP st).
Proof.
  unfold App.set_grammar.
  destruct (App.data_get data "start" (JStr "") ≫= App.json_strip)
    as [start | e | ]; [ | by left | by left].
  destruct (App.data_get data "productions" (JList [])) as [productions | e | ];
    [ | by left | by left].
  pose proof (set_grammar_try_state set_iter st start productions) as H.
  destruct (App.set_grammar_try set_iter st start productions) as [st' [c | e | ]];
    exact H.
Qed.

(** What holds of the globals in every state the server goes through. *)
Lemma served_globals set_iter st :
  served set_iter st ->
  App.GLOBAL_START st = None
  /\ App.GLOBAL_TERM_MAP st = None
  /\ App.GLOBAL_NONTERM_MAP st = None
  /\ ((App.GLOBAL_ORIGINAL_CFG st = None /\ App.GLOBAL_CNF st = None)
      \/ exists cfg g,
           App.GLOBAL_ORIGINAL_CFG st = Some cfg
           /\ App.GLOBAL_CNF st = Some (Cnf.VGrammar g)).
Proof.
  induction 1 as [ | st data Hst (H1 & H2 & H3 & H4)].
  - repeat split; by left.
  - destruct (set_grammar_state set_iter st data) as [-> | (cfg & g & ->)].
    + done.
    + cbn. split; [done | ]. split; [done | ]. split; [done | ].
      right. by exists cfg, g.
Qed.

(** X20.  In no state that the server goes through does [/validate]
    report a string derivable: [set_grammar] never assigns
    [GLOBAL_START], and for [None] as the start neither the test of the
    empty input nor [run_cyk] succeeds.  (The model covers all these
    states.) *)
Theorem validate_never_reports_derivable set_iter rd fd jd st data :
  served set_iter st ->
  App.validate rd fd jd st data ≠ None
  /\ forall t,
       App.validate rd fd jd st data ≠ Some (App.Derivable t)
       /\ App.validate rd fd jd st data ≠ Some (App.EpsilonDerivable t).
Proof.
  intros Hst. destruct (served_globals set_iter st Hst) as (H1 & H2 & H3 & H4).
  unfold App.validate. rewrite H1.
  destruct H4 as [[Hcfg Hcnf] | (cfg & g & Hcfg & Hcnf)]; rewrite Hcnf.
  { split; [done | ]. intros t. split; done. }
  destruct (App.data_get data "string" (JStr "") ≫= App.json_strip)
    as [input | e | ]; [ | by split | by split].
  cbn [App.as_start mbind option_bind]. rewrite Hcfg.
  cbn [App.epsilon_allowed App.run_cyk_from Cyk.cyk_success negb].
  destruct (bool_decide (length (App.tokenize input) = 0)); by split.
Qed.

Lemma validate_never_reports_derivable_witness :
  App.validate 900 450 450
    (App.set_grammar Parser.insertion_order initial_state
       (grammar_request "S" [production "S" "a"])).1
    (validate_request "a") ≠ None
  /\ forall t,
       App.validate 900 450 450
         (App.set_grammar Parser.insertion_order initial_state
            (grammar_request "S" [production "S" "a"])).1
         (validate_request "a") ≠ Some (App.Derivable t)
       /\ App.validate 900 450 450
            (App.set_grammar Parser.insertion_order initial_state
               (grammar_request "S" [production "S" "a"])).1
            (validate_request "a") ≠ Some (App.EpsilonDerivable t).
Proof.
  apply (validate_never_reports_derivable Parser.insertion_order 900 450 450
           (App.set_grammar Parser.insertion_order initial_state
              (grammar_request "S" [production "S" "a"])).1
           (validate_request "a")).
  apply served_set_grammar, served_initial.
Defined.

(** X21.  In no state that the server goes through does [/generate]
    return a string: without a grammar it answers that none is set, and
    with one [GLOBAL_START] is still [None], for which [generate_strings]
    returns the empty set. *)
Theorem generate_never_generates set_iter rng draw st (r : rng) :
  served set_iter st -> set_iter [] = [] ->
  App.generate set_iter rng draw st r = Some (App.GrammarNotSet, r)
  \/ App.generate set_iter rng draw st r = Some (App.Generated [], r).
Proof.
  intros Hst Hnil. destruct (served_globals set_iter st Hst) as (H1 & _ & _ & H4).
  unfold App.generate. rewrite H1.
  destruct H4 as [[-> _] | (cfg & g & -> & _)]; [by left | ].
  right. cbn. by rewrite Hnil.
Qed.

Lemma generate_never_generates_witness :
  App.generate Parser.insertion_order (list nat)
    (fun r => match r with [] => (0, []) | k :: r' => (k, r') end)
    (App.set_grammar Parser.insertion_order initial_state
       (grammar_request "S" [production "S" "a"])).1 [3; 1]
  = Some (App.GrammarNotSet, [3; 1])
  \/ App.generate Parser.insertion_order (list nat)
       (fun r => match r with [] => (0, []) | k :: r' => (k, r') end)
       (App.set_grammar Parser.insertion_order initial_state
          (grammar_request "S" [production "S" "a"])).1 [3; 1]
     = Some (App.Generated [], [3; 1]).
Proof.
  apply (generate_never_generates Parser.insertion_order (list nat)
           (fun r => match r with [] => (0, []) | k :: r' => (k, r') end)
           (App.set_grammar Parser.insertion_order initial_state
              (grammar_request "S" [production "S" "a"])).1 [3; 1]).
  - apply served_set_grammar, served_initial.
  - reflexivity.
Defined.

Lemma tokenize_nonempty input :
  App.tokenize input ≠ [] -> length (App.tokenize input) ≠ 0.
Proof. by destruct (App.tokenize input). Qed.

(** The tree that [reconstruct_tree] returns is the same for every
    nesting that suffices, and its depth is bounded by that nesting. *)
Lemma reconstruct_tree_more_fuel t nm : forall fuel fuel' i j V tr,
  Cyk.reconstruct_tree fuel t i j V nm = Ok tr -> fuel <= fuel' ->
  Cyk.reconstruct_tree fuel' t i j V nm = Ok tr.
Proof.
  induction fuel as [ | fuel IH]; intros fuel' i j V tr H Hle; [done | ].
  destruct fuel' as [ | fuel']; [lia | ].
  cbn [Cyk.reconstruct_tree] in *.
  destruct (Cyk.table_getitem t i j) as [c | e | ]; [ | done | done].
  cbn [mbind outcome_bind] in *.
  destruct (Cyk.matches V c) as [ | [A tok | A k b0 c0] rest]; [done | done | ].
  apply bind_Ok in H as (t1 & H1 & H).
  apply bind_Ok in H as (t2 & H2 & H).
  rewrite (IH fuel' _ _ _ _ H1) by lia. cbn [mbind outcome_bind].
  rewrite (IH fuel' _ _ _ _ H2) by lia. done.
Qed.

Lemma append_child_depth nm n cs child :
  Cyk.tree_depth child <= S n -> Forall (fun c => Cyk.tree_depth c <= S n) cs ->
  Forall (fun c => Cyk.tree_depth c <= S n) (Cyk.append_child nm cs child).
Proof.
  intros Hchild Hcs. unfold Cyk.append_child.
  destruct (startswith "X" (Cyk.tree_name child)
            && negb (dict_mem nm (Cyk.tree_name child))).
  - destruct child as [name [ccs | ]]; cbn [Cyk.tree_children]; [ | done].
    apply Forall_app. split; [done | ].
    cbn [Cyk.tree_depth] in Hchild. apply Forall_forall. intros c Hc.
    assert (Cyk.tree_depth c <= foldr Nat.max 0 (map Cyk.tree_depth ccs)); [ | lia].
    clear -Hc. induction Hc as [c ccs | c c' ccs Hc IH]; simpl; lia.
  - apply Forall_app. split; [done | by apply Forall_singleton].
Qed.

Lemma foldr_max_le n (cs : list Cyk.tree) :
  Forall (fun c => Cyk.tree_depth c <= n) cs ->
  foldr Nat.max 0 (map Cyk.tree_depth cs) <= n.
Proof. induction 1 as [ | c cs Hc _ IH]; simpl; lia. Qed.

Lemma reconstruct_tree_depth t nm : forall fuel i j V tr,
  Cyk.reconstruct_tree fuel t i j V nm = Ok tr -> Cyk.tree_depth tr <= S fuel.
Proof.
  induction fuel as [ | fuel IH]; intros i j V tr H; [done | ].
  cbn [Cyk.reconstruct_tree] in H.
  destruct (Cyk.table_getitem t i j) as [c | e | ]; [ | done | done].
  cbn [mbind outcome_bind] in H.
  destruct (Cyk.matches V c) as [ | [A tok | A k b0 c0] rest].
  - injection H as <-. simpl. lia.
  - destruct (dict_get nm A); injection H as <-; simpl; lia.
  - apply bind_Ok in H as (t1 & H1 & H).
    apply bind_Ok in H as (t2 & H2 & H). injection H as <-.
    apply IH in H1, H2. cbn [Cyk.tree_depth].
    assert (foldr Nat.max 0
              (map Cyk.tree_depth
                 (Cyk.append_child nm (Cyk.append_child nm [] t1) t2))
            <= S fuel); [ | lia].
    apply foldr_max_le. apply append_child_depth; [done | ].
    apply append_child_depth; [done | constructor].
Qed.

(** Within its nesting [flatten_tree] returns what it returns without a
    bound. *)
Lemma flatten_tree_within_depth : forall depth t,
  Cyk.tree_depth t <= depth ->
  TreeBuilder.flatten_tree_within depth t = Ok (TreeBuilder.flatten_tree t).
Proof.
  induction depth as [ | depth IH]; intros [name [cs | ]] Hd;
    cbn [Cyk.tree_depth] in Hd; try lia; [ | done].
  destruct cs as [ | c cs]; [done | ].
  cbn [TreeBuilder.flatten_tree_within TreeBuilder.flatten_tree].
  assert (forall l : list Cyk.tree,
            Forall (fun c => Cyk.tree_depth c <= depth) l ->
            (fix each (l : list Cyk.tree) : outcome (list Cyk.tree) :=
               match l with
               | [] => Ok []
               | c :: l' =>
                   c' ← TreeBuilder.flatten_tree_within depth c;
                   cs' ← each l';
                   Ok (c' :: cs')
               end) l
            = Ok (map TreeBuilder.flatten_tree l)) as Heach.
  { induction 1 as [ | x l Hx _ IHl]; [done | ].
    rewrite (IH x Hx). cbn [mbind outcome_bind]. rewrite IHl. done. }
  assert (Forall (fun x => Cyk.tree_depth x <= depth) (c :: cs)) as Hall.
  { apply Forall_forall. intros x Hx.
    assert (Cyk.tree_depth x <= foldr Nat.max 0 (map Cyk.tree_depth (c :: cs)));
      [ | lia].
    clear -Hx. induction Hx as [x l | x y l Hx IHx]; simpl; simpl in *; lia. }
  apply Forall_cons in Hall as [Hc Hcs].
  rewrite (IH c Hc). cbn [mbind outcome_bind].
  rewrite (Heach cs Hcs). done.
Qed.

(** X22.  When the globals hold a grammar in normal form, its start
    variable and a [nonterm_map] that names the terminals of the wrapper
    variables (a state that [set_grammar] as it is does not reach), and
    the input has no more tokens than the interpreter allows nested calls
    of [reconstruct_tree], and fewer than it allows of [flatten_tree] and
    than the nesting that [jsonify] serialises, [/validate] answers a
    non-empty input with a tree exactly when the start variable derives
    the tokens, and the leaves of the tree are the tokens, each in double
    quotes; otherwise it answers that the string is not derivable.  Within
    these bounds it does not answer with a validation error. *)
Theorem validate_decides rd fd jd st g s nm input :
  App.GLOBAL_CNF st = Some (Cnf.VGrammar g) ->
  App.GLOBAL_START st = Some (Cnf.VStr s) ->
  App.GLOBAL_NONTERM_MAP st = Some (Cnf.VMap nm) ->
  NoDup (dict_keys g) -> wrappers_consistent g nm ->
  App.tokenize (strip input) ≠ [] ->
  length (App.tokenize (strip input)) <= rd ->
  length (App.tokenize (strip input)) < fd ->
  length (App.tokenize (strip input)) < jd ->
  (derives g s (App.tokenize (strip input))
   /\ exists t,
        App.validate rd fd jd st (validate_request input)
        = Some (App.Derivable t)
        /\ TreeBuilder.leaves t = map Cyk.quoted (App.tokenize (strip input)))
  \/ (~ derives g s (App.tokenize (strip input))
      /\ App.validate rd fd jd st (validate_request input)
         = Some App.NotDerivable).
Proof.
  intros Hcnf Hstart Hnm Hnd Hwrap Htok Hrd Hfd Hjd.
  set (tokens := App.tokenize (strip input)) in *.
  unfold App.validate, validate_request. rewrite Hcnf, Hstart, Hnm.
  change (App.data_get (JDict [("string", JStr input)]) "string" (JStr ""))
    with (Ok (A := json) (JStr input)).
  cbn [App.as_start mbind option_bind outcome_bind App.json_strip]. fold tokens.
  rewrite bool_decide_false by by apply tokenize_nonempty.
  cbn [App.run_cyk_from]. rewrite (run_cyk_table g s tokens Htok).
  cbn [Cyk.cyk_success Cyk.cyk_table].
  assert (0 < length tokens) as Hlen by (destruct tokens; [done | simpl; lia]).
  pose proof (cell_derives g tokens Hnd Htok (length tokens - 1) 0
                (length tokens - 1) s ltac:(lia) ltac:(lia)) as Hiff.
  rewrite (slice_all tokens Htok) in Hiff.
  destruct (Cyk.present s (Cyk.tget (Cyk.fill_table g tokens) 0 (length tokens - 1)))
    eqn:Hpresent; cbn [negb].
  - left. split; [by apply Hiff | ].
    destruct (reconstruct_tree_span g tokens nm Htok Hwrap (length tokens - 1)
                (length tokens) 0 (length tokens - 1) s)
      as (t & Ht & Hleaves & [Hfix _]); [lia | lia | lia | done | ].
    pose proof (reconstruct_tree_depth _ _ _ _ _ _ _ Ht) as Hdepth.
    rewrite (reconstruct_tree_more_fuel _ _ _ rd _ _ _ _ Ht) by lia.
    rewrite flatten_tree_within_depth by lia. rewrite Hfix.
    rewrite (proj2 (Nat.leb_le _ _)) by lia.
    exists t. split; [done | ]. by rewrite Hleaves, slice_all.
  - right. split; [ | done]. intros H. apply Hiff in H. congruence.
Qed.

Lemma validate_decides_witness :
  (derives g_original_X "S" (App.tokenize (strip " a  b "))
   /\ exists t,
        App.validate 900 450 450
          (App.AppState (Some g_original_X) (Some (Cnf.VGrammar g_original_X))
             (Some (Cnf.VStr "S")) (Some (Cnf.VMap [])) (Some (Cnf.VMap [])))
          (validate_request " a  b ")
        = Some (App.Derivable t)
        /\ TreeBuilder.leaves t = map Cyk.quoted (App.tokenize (strip " a  b ")))
  \/ (~ derives g_original_X "S" (App.tokenize (strip " a  b "))
      /\ App.validate 900 450 450
           (App.AppState (Some g_original_X) (Some (Cnf.VGrammar g_original_X))
              (Some (Cnf.VStr "S")) (Some (Cnf.VMap [])) (Some (Cnf.VMap [])))
           (validate_request " a  b ")
         = Some App.NotDerivable).
Proof.
  apply (validate_decides 900 450 450
           (App.AppState (Some g_original_X) (Some (Cnf.VGrammar g_original_X))
              (Some (Cnf.VStr "S")) (Some (Cnf.VMap [])) (Some (Cnf.VMap [])))
           g_original_X "S" [] " a  b ").
  - reflexivity.
  - reflexivity.
  - reflexivity.
  - compute_done.
  - intros A w rules t H. discriminate H.
  - discriminate.
  - vm_compute. lia.
  - vm_compute. lia.
  - vm_compute. lia.
Defined.

(** Beyond the bound the handler reports the [RecursionError]: here
    [reconstruct_tree] may be called, but not call itself. *)
Example validate_recursion_error :
  App.validate 1 450 450
    (App.AppState (Some g_original_X) (Some (Cnf.VGrammar g_original_X))
       (Some (Cnf.VStr "S")) (Some (Cnf.VMap [])) (Some (Cnf.VMap [])))
    (validate_request "a b")
  = Some (App.ValidationError RecursionError).
Proof. reflexivity. Qed.

(** X23.  When [GLOBAL_START] holds the start variable that
    [convert_to_cnf] returns for the grammar in [GLOBAL_ORIGINAL_CFG],
    [/validate] answers the empty input with "not derivable", also when the
    start variable of that grammar has the rule ε: a start variable with
    an ε rule is nullable, so the converter returns a new start variable,
    and that one is no key of the original grammar. *)
Theorem validate_empty_input_never_derivable rd fd jd st cfg start res input :
  Cnf.convert_to_cnf cfg start = Ok res ->
  App.GLOBAL_ORIGINAL_CFG st = Some cfg ->
  App.GLOBAL_CNF st = Some (Cnf.VGrammar (Cnf.res_grammar res)) ->
  App.GLOBAL_START st = Some (Cnf.VStr (Cnf.res_start_var res)) ->
  App.tokenize (strip input) = [] ->
  App.validate rd fd jd st (validate_request input) = Some App.EmptyNotDerivable.
Proof.
  intros Hconv Hcfg Hcnf Hstart Htok.
  unfold App.validate, validate_request. rewrite Hcnf, Hstart, Hcfg.
  change (App.data_get (JDict [("string", JStr input)]) "string" (JStr ""))
    with (Ok (A := json) (JStr input)).
  cbn [App.as_start mbind option_bind outcome_bind App.json_strip]. rewrite Htok.
  rewrite bool_decide_true by done.
  assert (App.epsilon_allowed cfg (Some (Cnf.res_start_var res)) = false) as ->;
    [ | done].
  unfold Cnf.convert_to_cnf in Hconv.
  destruct (compute_nullable_analysis cfg) as (nl & Hnl & _ & Hiff).
  rewrite Hnl in Hconv. cbn [mbind outcome_bind] in Hconv.
  apply bind_Ok in Hconv as ([[g2 cs] av] & Hintro & Hconv).
  apply bind_Ok in Hconv as (g3 & _ & Hconv).
  apply bind_Ok in Hconv as (st' & _ & Hconv).
  injection Hconv as <-. cbn [Cnf.res_start_var].
  unfold App.epsilon_allowed.
  destruct (dict_get cfg cs) as [[ | r rules] | ] eqn:Hget; [done | | done].
  apply not_true_iff_false. intros Hex.
  apply existsb_exists in Hex as (r0 & Hr0 & Heps).
  apply bool_decide_eq_true in Heps. subst r0. apply list_elem_of_In in Hr0.
  unfold Cnf.introduce_start in Hintro.
  destruct (py_in start nl) eqn:Hnull.
  - apply bind_Ok in Hintro as (S_new & Hloop & Hintro).
    injection Hintro as _ <- _.
    apply new_start_loop_spec in Hloop as [Hmem _].
    apply dict_mem_false in Hmem. rewrite eliminate_epsilon_keys in Hmem.
    apply Hmem, dict_get_is_Some. by rewrite Hget.
  - injection Hintro as _ <- _. apply py_in_false in Hnull. apply Hnull, Hiff.
    apply (code_nullable_rule cfg start (r :: rules) eps_rule);
      [by apply dict_get_Some_elem | done | ].
    intros sym Hsym Hvar. apply list_elem_of_singleton in Hsym. subst sym.
    discriminate Hvar.
Qed.

Lemma validate_empty_input_never_derivable_witness :
  App.validate 900 450 450
    (App.AppState (Some [("S", [[epsilon]; ["a"]])])
       (Some (Cnf.VGrammar [("S", [["a"]]); ("S'", [eps_rule; ["a"]])]))
       (Some (Cnf.VStr "S'")) (Some (Cnf.VMap [])) (Some (Cnf.VMap [])))
    (validate_request "  ")
  = Some App.EmptyNotDerivable.
Proof.
  apply (validate_empty_input_never_derivable 900 450 450
           (App.AppState (Some [("S", [[epsilon]; ["a"]])])
              (Some (Cnf.VGrammar [("S", [["a"]]); ("S'", [eps_rule; ["a"]])]))
              (Some (Cnf.VStr "S'")) (Some (Cnf.VMap [])) (Some (Cnf.VMap [])))
           [("S", [[epsilon]; ["a"]])] "S"
           (Cnf.CnfResult [("S", [["a"]]); ("S'", [eps_rule; ["a"]])] "S'" [] [])
           "  ").
  - reflexivity.
  - reflexivity.
  - reflexivity.
  - reflexivity.
  - reflexivity.
Defined.

(* ================================================================== *)
(** * Properties that rest on those above                              *)
(* ================================================================== *)

(** ** C9: the rules of the result are the rules the input lists *)

Lemma dict_get_list_update {A} (d : dict (list A)) k f k' :
  is_Some (dict_get d k) ->
  dict_get_list (dict_update d k f) k'
  = if decide (k = k') then f (dict_get_list d k') else dict_get_list d k'.
Proof.
  intros [v Hget]. unfold dict_update, dict_get_list. rewrite Hget.
  destruct (decide (k = k')) as [<- | Hne].
  - by rewrite dict_get_set_eq, Hget.
  - by rewrite dict_get_set_ne.
Qed.

Lemma dict_get_list_declare (pm : grammar) lhs A :
  dict_get_list (Parser.pm_declare pm lhs) A = dict_get_list pm A.
Proof.
  unfold Parser.pm_declare. destruct (dict_mem pm lhs) eqn:Hmem; [done | ].
  unfold dict_get_list. destruct (decide (lhs = A)) as [<- | Hne].
  - rewrite dict_get_set_eq. unfold dict_mem in Hmem.
    by destruct (dict_get pm lhs).
  - by rewrite dict_get_set_ne.
Qed.

Lemma pm_declare_is_Some (pm : grammar) lhs :
  is_Some (dict_get (Parser.pm_declare pm lhs) lhs).
Proof.
  unfold Parser.pm_declare. destruct (dict_mem pm lhs) eqn:Hmem.
  - unfold dict_mem in Hmem. by destruct (dict_get pm lhs).
  - by rewrite dict_get_set_eq.
Qed.

Lemma pm_declare_keys_NoDup (pm : grammar) lhs :
  NoDup (dict_keys pm) -> NoDup (dict_keys (Parser.pm_declare pm lhs)).
Proof.
  intros Hnd. unfold Parser.pm_declare.
  destruct (dict_mem pm lhs); [done | by apply dict_keys_set_NoDup].
Qed.

Lemma pm_extend_get_list (pm : grammar) lhs rs A :
  is_Some (dict_get pm lhs) ->
  dict_get_list (Parser.pm_extend pm lhs rs) A
  = dict_get_list pm A ++ (if bool_decide (lhs = A) then rs else []).
Proof.
  intros Hsome. unfold Parser.pm_extend.
  rewrite dict_get_list_update by done.
  destruct (decide (lhs = A)) as [<- | Hne].
  - by rewrite bool_decide_true.
  - rewrite bool_decide_false by done. by rewrite app_nil_r.
Qed.

Lemma pm_extend_is_Some (pm : grammar) lhs rs k :
  is_Some (dict_get pm k) -> is_Some (dict_get (Parser.pm_extend pm lhs rs) k).
Proof.
  intros Hk. unfold Parser.pm_extend, dict_update.
  destruct (dict_get pm lhs) as [v | ] eqn:Hget; [ | done].
  destruct (decide (lhs = k)) as [<- | Hne].
  - by rewrite dict_get_set_eq.
  - by rewrite dict_get_set_ne.
Qed.

Lemma pm_extend_keys (pm : grammar) lhs rs :
  dict_keys (Parser.pm_extend pm lhs rs) = dict_keys pm.
Proof. unfold Parser.pm_extend. apply dict_keys_update. Qed.

Lemma extend_rules_fold l (rs : list json) : forall p : grammar,
  is_Some (dict_get p l) ->
  dict_keys
    (fold_left
       (fun pm r =>
          match r with
          | JList r =>
              Parser.pm_extend pm l
                [Parser.or_epsilon (Parser.stripped_symbols r)]
          | _ => pm
          end)
       rs p)
  = dict_keys p
  /\ forall A,
       dict_get_list
         (fold_left
            (fun pm r =>
               match r with
               | JList r =>
                   Parser.pm_extend pm l
                     [Parser.or_epsilon (Parser.stripped_symbols r)]
               | _ => pm
               end)
            rs p) A
       = dict_get_list p A
         ++ (if bool_decide (l = A)
             then omap
                    (fun r =>
                       match r with
                       | JList r =>
                           Some (Parser.or_epsilon (Parser.stripped_symbols r))
                       | _ => None
                       end)
                    rs
             else []).
Proof.
  induction rs as [ | r rs IH]; intros p Hp.
  - cbn. split; [done | ]. intros A.
    destruct (bool_decide (l = A)); by rewrite app_nil_r.
  - cbn [fold_left]. destruct r as [ | | | | r | ];
      try (cbn [omap list_omap]; by apply IH).
    destruct (IH (Parser.pm_extend p l
                    [Parser.or_epsilon (Parser.stripped_symbols r)]))
      as [Hk Hg]; [by apply pm_extend_is_Some | ].
    split; [by rewrite Hk, pm_extend_keys | ].
    intros A. rewrite Hg. rewrite pm_extend_get_list by done.
    rewrite <- app_assoc. f_equal. cbn [omap list_omap].
    by destruct (bool_decide (l = A)).
Qed.

(** One entry of the list form appends the rules it lists to those of its
    left-hand side. *)
Lemma parse_list_entry_listed entry (pm pm' : grammar) :
  Parser.parse_list_entry entry pm = Ok pm' ->
  (NoDup (dict_keys pm) -> NoDup (dict_keys pm'))
  /\ forall A, A ≠ "" ->
       dict_get_list pm' A = dict_get_list pm A ++ entry_rules A entry.
Proof.
  unfold Parser.parse_list_entry, entry_rules.
  destruct entry as [ | | | | | fields]; try done.
  destruct (dict_get fields "lhs") as [[ | | | lhs | | ] | ]; try done.
  destruct (str_eqb lhs ""); [done | ].
  destruct (str_eqb (strip lhs) "") eqn:Hblank.
  { intros [= <-]. split; [done | ]. intros A HA.
    apply str_eqb_true in Hblank.
    destruct (dict_get fields "rhs");
      rewrite ?bool_decide_false by congruence; by rewrite app_nil_r. }
  destruct (Parser.is_variable (strip lhs)); [ | done]. cbn [negb].
  set (l := strip lhs).
  pose proof (pm_declare_is_Some pm l) as Hdecl.
  destruct (dict_get fields "rhs") as [[ | | | rhs | rhs | ] | ]; try done.
  - intros [= <-]. split.
    + intros Hnd. rewrite pm_extend_keys. by apply pm_declare_keys_NoDup.
    + intros A _. rewrite pm_extend_get_list by done.
      by rewrite dict_get_list_declare.
  - unfold rhs_rules.
    destruct (negb (bool_decide (length rhs = 0)) && forallb Parser.is_jlist rhs).
    + intros [= <-].
      destruct (extend_rules_fold l rhs _ Hdecl) as [Hk Hg]. split.
      * intros Hnd. rewrite Hk. by apply pm_declare_keys_NoDup.
      * intros A _. by rewrite Hg, dict_get_list_declare.
    + intros [= <-]. split.
      * intros Hnd. rewrite pm_extend_keys. by apply pm_declare_keys_NoDup.
      * intros A _. rewrite pm_extend_get_list by done.
        by rewrite dict_get_list_declare.
Qed.

(** One entry of the mapping form does the same. *)
Lemma parse_mapping_entry_listed kv (pm pm' : grammar) :
  Parser.parse_mapping_entry kv pm = Ok pm' ->
  (NoDup (dict_keys pm) -> NoDup (dict_keys pm'))
  /\ forall A, A ≠ "" ->
       dict_get_list pm' A = dict_get_list pm A ++ field_rules A kv.
Proof.
  unfold Parser.parse_mapping_entry, field_rules. destruct kv as [lhs rhs_list].
  cbn [fst snd].
  destruct (str_eqb lhs ""); [done | ].
  destruct (str_eqb (strip lhs) "") eqn:Hblank.
  { intros [= <-]. split; [done | ]. intros A HA.
    apply str_eqb_true in Hblank.
    rewrite bool_decide_false by congruence. by rewrite app_nil_r. }
  destruct (Parser.is_variable (strip lhs)); [ | done]. cbn [negb].
  set (l := strip lhs).
  pose proof (pm_declare_is_Some pm l) as Hdecl.
  destruct rhs_list as [ | | | | rhss | ]; try done.
  intros H.
  assert (forall (rs : list json) (p p' : grammar),
            is_Some (dict_get p l) ->
            for_each
              (fun rhs pm =>
                 match rhs with
                 | JStr rhs =>
                     Ok (Parser.pm_extend pm l
                           [Parser.or_epsilon
                              (List.filter (fun t => negb (str_eqb t ""))
                                 (split_ws rhs))])
                 | JList rhs =>
                     Ok (Parser.pm_extend pm l
                           [Parser.or_epsilon (Parser.stripped_symbols rhs)])
                 | _ => Raise (CFGError (UnsupportedRhsEntry l))
                 end)
              rs p = Ok p' ->
            dict_keys p' = dict_keys p
            /\ forall A,
                 dict_get_list p' A
                 = dict_get_list p A
                   ++ (if bool_decide (l = A)
                       then concat (map item_rules rs) else [])) as Hfold.
  { induction rs as [ | r rs IH]; intros p p' Hp Hrun.
    - injection Hrun as <-. split; [done | ]. intros A. cbn.
      destruct (bool_decide (l = A)); by rewrite app_nil_r.
    - cbn [for_each] in Hrun. apply bind_Ok in Hrun as (p1 & Hr & Hrun).
      destruct r as [ | | | s | r | ]; try discriminate Hr;
        injection Hr as <-;
        (destruct (IH _ _ (pm_extend_is_Some _ _ _ _ Hp) Hrun) as [Hk Hg];
         split; [by rewrite Hk, pm_extend_keys | ];
         intros A; rewrite Hg, pm_extend_get_list by done;
         rewrite <- app_assoc; f_equal; cbn [map concat item_rules];
         by destruct (bool_decide (l = A))). }
  destruct (Hfold rhss _ _ Hdecl H) as [Hk Hg]. split.
  - intros Hnd. rewrite Hk. by apply pm_declare_keys_NoDup.
  - intros A _. by rewrite Hg, dict_get_list_declare.
Qed.

Lemma for_each_listed {X} (body : X -> grammar -> outcome grammar)
    (listed : string -> X -> list (list string)) :
  (forall x pm pm',
     body x pm = Ok pm' ->
     (NoDup (dict_keys pm) -> NoDup (dict_keys pm'))
     /\ forall A, A ≠ "" ->
          dict_get_list pm' A = dict_get_list pm A ++ listed A x) ->
  forall xs pm pm',
    for_each body xs pm = Ok pm' ->
    (NoDup (dict_keys pm) -> NoDup (dict_keys pm'))
    /\ forall A, A ≠ "" ->
         dict_get_list pm' A
         = dict_get_list pm A ++ concat (map (listed A) xs).
Proof.
  intros Hbody. induction xs as [ | x xs IH]; intros pm pm' H.
  - injection H as <-. split; [done | ]. intros A _. cbn.
    by rewrite app_nil_r.
  - cbn [for_each] in H. apply bind_Ok in H as (pm1 & Hx & H).
    destruct (Hbody _ _ _ Hx) as [Hnd1 Hg1].
    destruct (IH _ _ H) as [Hnd2 Hg2].
    split; [by auto | ]. intros A HA.
    rewrite (Hg2 A HA), (Hg1 A HA). cbn [map concat].
    by rewrite <- app_assoc.
Qed.

(** The preliminary map holds, for each variable, the rules that the
    productions list for it. *)
Lemma build_productions_map_listed productions (pm : grammar) :
  Parser.build_productions_map productions = Ok pm ->
  NoDup (dict_keys pm)
  /\ forall A, A ≠ "" -> dict_get_list pm A = listed_rules productions A.
Proof.
  unfold Parser.build_productions_map, listed_rules.
  destruct productions as [ | | | | entries | fields]; try done; intros H.
  - destruct (for_each_listed Parser.parse_list_entry entry_rules
                parse_list_entry_listed _ _ _ H) as [Hnd Hg].
    split; [apply Hnd, NoDup_nil_2 | ]. intros A HA. by rewrite (Hg A HA).
  - destruct (for_each_listed Parser.parse_mapping_entry field_rules
                parse_mapping_entry_listed _ _ _ H) as [Hnd Hg].
    split; [apply Hnd, NoDup_nil_2 | ]. intros A HA. by rewrite (Hg A HA).
Qed.

Lemma drop_blank_get_list (pm : grammar) A :
  NoDup (dict_keys pm) -> A ≠ "" ->
  dict_get_list (Parser.drop_blank pm) A = dict_get_list pm A.
Proof.
  unfold Parser.drop_blank, dict_get_list, dict_keys.
  induction pm as [ | [k v] pm IH]; [done | ].
  csimpl. intros Hnd HA. apply NoDup_cons in Hnd as [Hk Hnd].
  destruct (decide (k = A)) as [-> | Hne].
  - rewrite (proj2 (str_eqb_false A "") HA). cbn [negb andb].
    case_bool_decide as Hlen; cbn [negb].
    + destruct v; [ | done]. cbn.
      assert (dict_get (List.filter
                          (fun '(k, v) =>
                             negb (str_eqb k "")
                             && negb (bool_decide (length v = 0))) pm) A
              = None) as ->; [ | done].
      apply dict_get_None. intros Hin. apply Hk.
      apply list_elem_of_fmap in Hin as ([k' v'] & -> & Hin).
      apply elem_of_List_filter in Hin as [Hin _].
      apply list_elem_of_fmap. by exists (k', v').
    + cbn. by rewrite decide_True.
  - destruct (negb (str_eqb k "") && negb (bool_decide (length v = 0))).
    + cbn. rewrite decide_False by done. by apply IH.
    + by apply IH.
Qed.

Lemma rule_useful_true (X : list string) (r : list string) :
  Parser.rule_useful X r = true
  <-> forall sym, sym ∈ r -> Parser.is_variable sym = true -> sym ∈ X.
Proof.
  split; [intros H sym; by apply rule_useful_variable | ].
  intros H. unfold Parser.rule_useful. apply forallb_forall. intros sym Hin.
  apply list_elem_of_In in Hin.
  destruct (str_eqb sym epsilon); [done | ]. cbn [orb].
  destruct (Parser.is_variable sym) eqn:Hvar; [ | done]. cbn [andb].
  rewrite (proj2 (py_in_true sym X)); [done | by apply H].
Qed.

Lemma rule_over_true (X : list string) (r : list string) :
  rule_over X r = true
  <-> forall sym, sym ∈ r -> Parser.is_variable sym = true -> sym ∈ X.
Proof.
  unfold rule_over. rewrite forallb_forall. split.
  - intros H sym Hsym Hvar. apply list_elem_of_In in Hsym.
    specialize (H sym Hsym). rewrite Hvar in H. by apply py_in_true.
  - intros H sym Hsym. apply list_elem_of_In in Hsym.
    destruct (Parser.is_variable sym) eqn:Hvar; [ | done]. cbn [negb orb].
    apply py_in_true. by apply H.
Qed.

(** The rules under a key of the result are the listed ones whose
    variables are keys of the result. *)
Lemma parse_cfg_listed set_iter start productions G A rules :
  (forall l, set_iter l ≡ₚ l) ->
  Parser.parse_cfg set_iter start productions = Ok G ->
  dict_get G A = Some rules ->
  rules = List.filter (rule_over (dict_keys G)) (listed_rules productions A).
Proof.
  intros Hperm H Hget.
  destruct (parse_cfg_analysis set_iter start productions G Hperm H)
    as (pm0 & pm & u & g & R & Hpm0 & -> & _ & _ & _ & _ & _ & Hg & HG
        & _ & HR & Hclosed & _).
  destruct (build_productions_map_listed _ _ Hpm0) as [Hnd0 Hlisted].
  assert (forall B, B ∈ dict_keys G <-> B ∈ R) as Hkeys.
  { intros B. rewrite <- dict_get_is_Some, HG.
    destruct (decide (B ∈ R)); [by split; [ | eauto] | ].
    split; [by intros [? ?] | done]. }
  rewrite HG in Hget. destruct (decide (A ∈ R)) as [HA | ]; [ | done].
  injection Hget as <-.
  destruct (HR A HA) as [HvarA HuA].
  assert (A ≠ "") as HneA by (by intros ->).
  assert (dict_get_list g A
          = List.filter (Parser.rule_useful u) (listed_rules productions A))
    as HgA.
  { unfold dict_get_list. rewrite Hg, decide_True by done. cbn [default].
    by rewrite drop_blank_get_list, Hlisted by done. }
  rewrite HgA. apply filter_ext_in. intros r Hr.
  destruct (Parser.rule_useful u r) eqn:Hu.
  - symmetry. apply rule_over_true. intros sym Hsym Hvar.
    apply Hkeys. apply (Hclosed A HA r sym); [ | done | done | ].
    + rewrite HgA. apply elem_of_List_filter. split; [ | done].
      by apply list_elem_of_In.
    + apply dict_get_is_Some. rewrite Hg.
      rewrite decide_True; [by eauto | ].
      by apply (rule_useful_variable u r).
  - symmetry. apply not_true_is_false. intros HG'.
    assert (Parser.rule_useful u r = true); [ | congruence].
    apply rule_useful_true. intros sym Hsym Hvar.
    apply (HR sym). apply Hkeys. by apply (proj1 (rule_over_true _ _) HG').
Qed.

(** C9 (as amended).  The keys of a grammar returned by [parse_cfg] are
    pairwise distinct, and the rules under a key are the rules that the
    productions list for it, in the order of the input and as often as
    the input lists them, those left out that mention a variable that is
    no key of the result: a rule that is listed twice is returned
    twice. *)
Theorem parse_cfg_rules_as_listed set_iter start productions G :
  Parser.parse_cfg set_iter start productions = Ok G ->
  NoDup (dict_keys G)
  /\ ((forall l, set_iter l ≡ₚ l) ->
      forall A rules,
        dict_get G A = Some rules ->
        rules = List.filter (rule_over (dict_keys G))
                  (listed_rules productions A)).
Proof.
  intros H. split.
  - apply parse_cfg_stages in H as (pm0 & u & R & _ & _ & _ & _ & _ & -> & _).
    unfold Parser.filter_reachable.
    apply (fold_dict_set_keys_NoDup (fun var => dict_get_list _ var)).
    apply NoDup_nil_2.
  - intros Hperm A rules Hget. by eapply parse_cfg_listed.
Qed.

Lemma parse_cfg_rules_as_listed_witness :
  NoDup (dict_keys [("S", [["a"]; ["a"]])])
  /\ ((forall l, Parser.insertion_order l ≡ₚ l) ->
      forall A rules,
        dict_get [("S", [["a"]; ["a"]])] A = Some rules ->
        rules = List.filter (rule_over (dict_keys [("S", [["a"]; ["a"]])]))
                  (listed_rules (JList [production "S" "a | a"]) A)).
Proof.
  apply (parse_cfg_rules_as_listed Parser.insertion_order "S"
           (JList [production "S" "a | a"])).
  reflexivity.
Defined.

(** ** C10: ε beside other symbols *)

Lemma well_formed_entries_spec entries lhs rules :
  well_formed_entries entries = true -> (lhs, rules) ∈ entries ->
  Parser.is_variable (strip lhs) = true /\ rules ≠ []
  /\ Forall (fun r => r ≠ [] /\ Forall (fun w => plain_word w = true) r) rules.
Proof.
  unfold well_formed_entries. rewrite forallb_forall. intros Hall Hin.
  apply list_elem_of_In in Hin. specialize (Hall _ Hin). cbn [fst snd] in Hall.
  apply andb_true_iff in Hall as [Hall Hrules].
  apply andb_true_iff in Hall as [Hvar Hne].
  split; [done | ]. split.
  { intros ->. by rewrite bool_decide_true in Hne. }
  apply Forall_forall. intros r Hr.
  rewrite forallb_forall in Hrules. apply list_elem_of_In in Hr.
  specialize (Hrules r Hr). apply andb_true_iff in Hrules as [Hr0 Hwords].
  split.
  { intros ->. by rewrite bool_decide_true in Hr0. }
  apply Forall_forall. intros w Hw. rewrite forallb_forall in Hwords.
  apply Hwords. by apply list_elem_of_In.
Qed.

Lemma declared_entries_spec entries lhs rules r sym :
  declared_entries entries = true -> (lhs, rules) ∈ entries -> r ∈ rules ->
  sym ∈ r -> Parser.is_variable sym = true ->
  sym ∈ dict_keys (entries_grammar entries).
Proof.
  unfold declared_entries. rewrite forallb_forall. intros Hall Hin Hr Hsym Hvar.
  apply list_elem_of_In in Hin. specialize (Hall _ Hin). cbn [snd] in Hall.
  rewrite forallb_forall in Hall. apply list_elem_of_In in Hr.
  specialize (Hall r Hr). rewrite forallb_forall in Hall.
  apply list_elem_of_In in Hsym. specialize (Hall sym Hsym).
  rewrite Hvar in Hall. cbn [negb orb] in Hall. by apply py_in_true.
Qed.

Lemma is_variable_not_blank s :
  Parser.is_variable (strip s) = true ->
  str_eqb s "" = false /\ str_eqb (strip s) "" = false.
Proof.
  intros H. split; apply str_eqb_false; intros Heq.
  - by subst s.
  - by rewrite Heq in H.
Qed.

Lemma parse_list_entry_production (pm : grammar) lhs rhs :
  Parser.is_variable (strip lhs) = true ->
  Parser.parse_list_entry (production lhs rhs) pm
  = Ok (Parser.pm_extend (Parser.pm_declare pm (strip lhs)) (strip lhs)
          (Parser._parse_rhs_string rhs)).
Proof.
  intros Hvar. destruct (is_variable_not_blank lhs Hvar) as [H1 H2].
  unfold Parser.parse_list_entry, production. cbv beta iota.
  change (dict_get [("lhs", JStr lhs); ("rhs", JStr rhs)] "lhs")
    with (Some (JStr lhs)).
  change (dict_get [("lhs", JStr lhs); ("rhs", JStr rhs)] "rhs")
    with (Some (JStr rhs)).
  cbv beta iota. by rewrite H1, H2, Hvar.
Qed.

Lemma build_list_form entries :
  well_formed_entries entries = true ->
  exists pm0, Parser.build_productions_map (list_form entries) = Ok pm0.
Proof.
  intros Hwf. unfold Parser.build_productions_map, list_form.
  assert (forall es (pm : grammar),
            (forall e, e ∈ es -> e ∈ entries) ->
            exists pm',
              for_each Parser.parse_list_entry
                (map (fun e => production e.1 (format_rhs e.2)) es) pm
              = Ok pm') as H.
  { induction es as [ | [lhs rules] es IH]; intros pm Hsub; [by eexists | ].
    cbn [map for_each fst snd].
    destruct (well_formed_entries_spec entries lhs rules Hwf) as (Hvar & _).
    { apply Hsub, list_elem_of_here. }
    rewrite parse_list_entry_production by done. cbn [mbind outcome_bind].
    apply IH. intros e He. by apply Hsub, list_elem_of_further. }
  by apply H.
Qed.

Lemma listed_rules_list_form entries A :
  well_formed_entries entries = true ->
  listed_rules (list_form entries) A = entries_rules entries A.
Proof.
  intros Hwf. unfold listed_rules, list_form, entries_rules.
  assert (forall es,
            (forall e, e ∈ es -> e ∈ entries) ->
            concat (map (entry_rules A)
                      (map (fun e => production e.1 (format_rhs e.2)) es))
            = concat (map (fun e => if bool_decide (strip e.1 = A)
                                    then e.2 else []) es)) as H.
  { induction es as [ | [lhs rules] es IH]; intros Hsub; [done | ].
    cbn [map concat fst snd]. rewrite IH.
    2: { intros e He. by apply Hsub, list_elem_of_further. }
    f_equal. unfold entry_rules, production. cbv beta iota.
    change (dict_get [("lhs", JStr lhs); ("rhs", JStr (format_rhs rules))] "lhs")
      with (Some (JStr lhs)).
    change (dict_get [("lhs", JStr lhs); ("rhs", JStr (format_rhs rules))] "rhs")
      with (Some (JStr (format_rhs rules))).
    cbv beta iota. case_bool_decide; [ | done]. cbn [rhs_rules].
    destruct (well_formed_entries_spec entries lhs rules Hwf) as (_ & Hne & Hall).
    { apply Hsub, list_elem_of_here. }
    by apply format_rhs_alternatives. }
  by apply H.
Qed.

Lemma elem_of_entries_rules entries A r :
  r ∈ entries_rules entries A
  <-> exists lhs rules, (lhs, rules) ∈ entries /\ strip lhs = A /\ r ∈ rules.
Proof.
  unfold entries_rules. rewrite elem_of_concat. split.
  - intros (l & Hr & Hl). apply list_elem_of_fmap in Hl as ([lhs rules] & -> & Hin).
    cbn [fst snd] in Hr. case_bool_decide; [ | by apply elem_of_nil in Hr].
    by exists lhs, rules.
  - intros (lhs & rules & Hin & <- & Hr). exists rules. split; [done | ].
    apply list_elem_of_fmap. exists (lhs, rules). cbn [fst snd].
    by rewrite bool_decide_true.
Qed.

Lemma elem_of_entries_grammar entries A rules :
  (A, rules) ∈ entries_grammar entries
  <-> exists lhs, (lhs, rules) ∈ entries /\ strip lhs = A.
Proof.
  unfold entries_grammar. rewrite list_elem_of_fmap. split.
  - intros ([lhs rs] & [= -> ->] & Hin). by exists lhs.
  - intros (lhs & Hin & <-). by exists (lhs, rules).
Qed.

(** The check of the right-hand sides passes when every variable of a
    rule is a key. *)
Lemma check_declared_Ok (pm : grammar) :
  (forall lhs rules r sym,
     (lhs, rules) ∈ pm -> r ∈ rules -> sym ∈ r ->
     Parser.is_variable sym = true -> sym ∈ dict_keys pm) ->
  Parser.check_declared pm = Ok ().
Proof.
  unfold Parser.check_declared. set (declared := dict_keys pm).
  assert (forall (suf : grammar),
            (forall lhs rules r sym,
               (lhs, rules) ∈ suf -> r ∈ rules -> sym ∈ r ->
               Parser.is_variable sym = true -> sym ∈ declared) ->
            for_each
              (fun '(lhs, rules) (_ : unit) =>
                 for_each
                   (fun r (_ : unit) =>
                      for_each
                        (fun sym (_ : unit) =>
                           if str_eqb sym epsilon then Ok ()
                           else if Parser.is_variable sym
                                   && negb (py_in sym declared)
                           then Raise (CFGError (UndeclaredVariable sym lhs r))
                           else Ok ())
                        r ())
                   rules ())
              suf () = Ok ()) as H.
  { induction suf as [ | [lhs rules] suf IH]; intros Hsuf; [done | ].
    cbn [for_each].
    assert (forall (rs : list (list string)),
              (forall r, r ∈ rs -> r ∈ rules) ->
              for_each
                (fun r (_ : unit) =>
                   for_each
                     (fun sym (_ : unit) =>
                        if str_eqb sym epsilon then Ok ()
                        else if Parser.is_variable sym
                                && negb (py_in sym declared)
                        then Raise (CFGError (UndeclaredVariable sym lhs r))
                        else Ok ())
                     r ())
                rs () = Ok ()) as Hrules.
    { induction rs as [ | r rs IHrs]; intros Hrs; [done | ].
      cbn [for_each].
      assert (forall (syms : list string),
                (forall sym, sym ∈ syms -> sym ∈ r) ->
                for_each
                  (fun sym (_ : unit) =>
                     if str_eqb sym epsilon then Ok ()
                     else if Parser.is_variable sym
                             && negb (py_in sym declared)
                     then Raise (CFGError (UndeclaredVariable sym lhs r))
                     else Ok ())
                  syms () = Ok ()) as Hsyms.
      { induction syms as [ | sym syms IHs]; intros Hs; [done | ].
        cbn [for_each].
        assert ((if str_eqb sym epsilon then Ok ()
                 else if Parser.is_variable sym && negb (py_in sym declared)
                 then Raise (CFGError (UndeclaredVariable sym lhs r))
                 else Ok ()) = Ok ()) as ->.
        { destruct (str_eqb sym epsilon); [done | ].
          destruct (Parser.is_variable sym) eqn:Hvar; [ | done].
          rewrite (proj2 (py_in_true sym declared)); [done | ].
          apply (Hsuf lhs rules r sym); [apply list_elem_of_here | | | done].
          - apply Hrs, list_elem_of_here.
          - apply Hs, list_elem_of_here. }
        cbn [mbind outcome_bind]. apply IHs.
        intros s Hin. by apply Hs, list_elem_of_further. }
      rewrite Hsyms by done. cbn [mbind outcome_bind]. apply IHrs.
      intros r' Hr'. by apply Hrs, list_elem_of_further. }
    rewrite Hrules by done. cbn [mbind outcome_bind]. apply IH.
    intros lhs' rules' r sym Hin. apply (Hsuf lhs' rules' r sym).
    by apply list_elem_of_further. }
  by apply H.
Qed.

Lemma drop_blank_keys_NoDup (pm : grammar) :
  NoDup (dict_keys pm) -> NoDup (dict_keys (Parser.drop_blank pm)).
Proof.
  unfold Parser.drop_blank, dict_keys.
  induction pm as [ | [k v] pm IH]; [done | ].
  csimpl. intros Hnd. apply NoDup_cons in Hnd as [Hk Hnd].
  destruct (negb (str_eqb k "") && negb (bool_decide (length v = 0)));
    [ | by apply IH].
  csimpl. apply NoDup_cons. split; [ | by apply IH].
  intros Hin. apply Hk.
  apply list_elem_of_fmap in Hin as ([k' v'] & -> & Hin).
  apply elem_of_List_filter in Hin as [Hin _].
  apply list_elem_of_fmap. by exists (k', v').
Qed.

Lemma dict_get_list_nonempty_key {A} (d : dict (list A)) k :
  dict_get_list d k ≠ [] -> k ∈ dict_keys d.
Proof.
  unfold dict_get_list. intros H. apply dict_get_is_Some.
  destruct (dict_get d k); [by eauto | done].
Qed.

(** Well-formed productions whose variables are declared and whose start
    variable derives a string of terminals are accepted. *)
Lemma parse_cfg_list_form set_iter start entries :
  (forall l, set_iter l ≡ₚ l) ->
  Parser.is_variable (strip start) = true ->
  well_formed_entries entries = true ->
  declared_entries entries = true ->
  generating (entries_grammar entries) (strip start) ->
  exists G, Parser.parse_cfg set_iter start (list_form entries) = Ok G.
Proof.
  intros Hperm Hvar Hwf Hdecl Hgen.
  destruct (build_list_form entries Hwf) as [pm0 Hpm0].
  destruct (build_productions_map_listed _ _ Hpm0) as [Hnd0 Hlisted].
  set (pm := Parser.drop_blank pm0).
  assert (NoDup (dict_keys pm)) as Hnd by (by apply drop_blank_keys_NoDup).
  assert (forall A, A ≠ "" -> dict_get_list pm A = entries_rules entries A)
    as Hpm.
  { intros A HA. unfold pm. rewrite drop_blank_get_list by done.
    rewrite Hlisted by done. by apply listed_rules_list_form. }
  assert (forall A rules r,
            (A, rules) ∈ entries_grammar entries -> r ∈ rules ->
            A ≠ "" /\ (A ∈ dict_keys pm) /\ r ∈ dict_get_list pm A) as Hin_pm.
  { intros A rules r Hin Hr.
    apply elem_of_entries_grammar in Hin as (lhs & Hin & <-).
    destruct (well_formed_entries_spec entries lhs rules Hwf Hin) as (Hv & _).
    assert (strip lhs ≠ "") as Hne by (intros Heq; by rewrite Heq in Hv).
    assert (r ∈ dict_get_list pm (strip lhs)) as Hr'.
    { rewrite Hpm by done. apply elem_of_entries_rules. by exists lhs, rules. }
    split; [done | ]. split; [ | done].
    apply dict_get_list_nonempty_key. intros Heq. rewrite Heq in Hr'.
    by apply elem_of_nil in Hr'. }
  assert (forall A, A ∈ dict_keys (entries_grammar entries) ->
                    A ∈ dict_keys pm) as Hkeys.
  { intros A HA. unfold dict_keys in HA.
    apply list_elem_of_fmap in HA as ([A' rules] & -> & Hin). cbn [fst].
    pose proof Hin as Hin'.
    apply elem_of_entries_grammar in Hin' as (lhs & Hin' & <-).
    destruct (well_formed_entries_spec entries lhs rules Hwf Hin')
      as (_ & Hne & _).
    destruct rules as [ | r rules]; [done | ].
    by destruct (Hin_pm _ _ r Hin (list_elem_of_here _ _)) as (_ & ? & _). }
  assert (strip start ∈ dict_keys pm) as Hstart.
  { destruct Hgen as [A rules r Hin Hr _].
    by destruct (Hin_pm _ _ _ Hin Hr) as (_ & ? & _). }
  unfold Parser.parse_cfg.
  destruct (is_variable_not_blank start Hvar) as [-> _].
  rewrite Hvar. cbn [negb]. rewrite Hpm0. cbn [mbind outcome_bind]. fold pm.
  rewrite bool_decide_false.
  2: { intros Hlen. destruct pm; [ | done]. by apply elem_of_nil in Hstart. }
  rewrite check_declared_Ok.
  2: { intros lhs rules r sym Hin Hr Hsym Hv.
       assert (lhs ≠ "") as Hne.
       { intros ->. unfold pm, Parser.drop_blank in Hin.
         by apply elem_of_List_filter in Hin as [_ ?]. }
       apply (dict_get_NoDup _ _ _ Hnd) in Hin.
       apply dict_get_list_Some in Hin. rewrite <- Hin, Hpm in Hr by done.
       apply elem_of_entries_rules in Hr as (l & rs & Hl & _ & Hr).
       apply Hkeys. by apply (declared_entries_spec entries l rs r sym). }
  cbn [mbind outcome_bind].
  destruct (useful_loop_spec pm (S (length pm)) [])
    as (u & -> & _ & _ & _ & Hfix).
  { apply NoDup_nil_2. }
  { intros x Hx. by apply elem_of_nil in Hx. }
  { constructor. }
  { unfold dict_keys. rewrite length_fmap. simpl. lia. }
  cbn [mbind outcome_bind].
  assert (forall A, generating (entries_grammar entries) A -> A ∈ u) as Hu.
  { intros A HA. induction HA as [A rules r Hin Hr _ IH].
    destruct (Hin_pm _ _ _ Hin Hr) as (_ & HA & Hr').
    destruct (decide (A ∈ u)) as [ | Hnot]; [done | exfalso].
    specialize (Hfix A HA Hnot).
    assert (existsb (Parser.rule_useful u) (dict_get_list pm A) = true);
      [ | congruence].
    apply existsb_exists. exists r. split; [by apply list_elem_of_In | ].
    by apply rule_useful_true. }
  rewrite (proj2 (py_in_true _ _) (Hu _ Hgen)). cbn [negb].
  set (g := Parser.filter_useful set_iter pm u).
  destruct (reach_loop_spec g (S (length g)) [strip start] [strip start])
    as (R & -> & Hmono & _).
  { pose proof (unvisited_length g [strip start]). simpl. lia. }
  { done. }
  cbn [mbind outcome_bind].
  assert (strip start ∈ R) as HR by apply Hmono, list_elem_of_here.
  rewrite (proj2 (py_in_true _ _) HR). cbn [negb].
  assert (dict_mem (Parser.filter_reachable set_iter g R) (strip start) = true)
    as ->.
  { apply dict_mem_true, dict_get_is_Some.
    rewrite filter_reachable_get by done. by rewrite decide_True. }
  cbn [negb]. by eexists.
Qed.

(** C10.  Productions in the list form whose left-hand sides are
    variables, whose right-hand sides are written with single spaces and
    [" | "], whose variables are all declared and whose start variable
    derives a string of terminals are accepted by [parse_cfg], whether or
    not ε stands beside other symbols in some alternative.  The rules
    returned under a key are the listed ones whose variables are keys of
    the result, as they are listed.  So an alternative that holds ε
    together with other symbols is returned with ε in its position
    whenever its key and its variables are keys of the result, and no
    rule [[ε]] is returned in its place.  [convert_to_cnf] takes ε for a
    terminal, which it lifts like any other. *)
Theorem epsilon_beside_symbols_is_kept set_iter start entries :
  (forall l, set_iter l ≡ₚ l) ->
  Parser.is_variable (strip start) = true ->
  well_formed_entries entries = true ->
  declared_entries entries = true ->
  generating (entries_grammar entries) (strip start) ->
  exists G,
    Parser.parse_cfg set_iter start (list_form entries) = Ok G
    /\ (strip start ∈ dict_keys G)
    /\ (forall A rules,
          dict_get G A = Some rules ->
          rules = List.filter (rule_over (dict_keys G))
                    (entries_rules entries A))
    /\ (forall A r,
          A ∈ dict_keys G -> r ∈ entries_rules entries A ->
          epsilon ∈ r -> r ≠ eps_rule ->
          (forall sym, sym ∈ r -> Parser.is_variable sym = true ->
                       sym ∈ dict_keys G) ->
          (r ∈ dict_get_list G A)
          /\ (eps_rule ∈ dict_get_list G A ->
              eps_rule ∈ entries_rules entries A))
    /\ Cnf.is_variable epsilon = false
    /\ (forall st, Cnf.lift epsilon st = Cnf.get_term_var epsilon st).
Proof.
  intros Hperm Hvar Hwf Hdecl Hgen.
  destruct (parse_cfg_list_form set_iter start entries Hperm Hvar Hwf Hdecl Hgen)
    as [G HG].
  exists G. split; [done | ].
  assert (forall A rules,
            dict_get G A = Some rules ->
            rules = List.filter (rule_over (dict_keys G))
                      (entries_rules entries A)) as Hrules.
  { intros A rules Hget.
    rewrite <- (listed_rules_list_form entries A Hwf).
    by eapply parse_cfg_listed. }
  split.
  { by destruct (parse_cfg_stages _ _ _ _ HG) as (_ & _ & _ & _ & _ & _ & _ & _ & _ & ?). }
  split; [done | ]. split; [ | done].
  intros A r HA Hr _ _ Hsyms.
  apply dict_get_is_Some in HA as [rules Hget].
  rewrite (dict_get_list_Some _ _ _ Hget), (Hrules A rules Hget).
  split.
  - apply elem_of_List_filter. split; [done | by apply rule_over_true].
  - intros Heps. by apply elem_of_List_filter in Heps as [? _].
Qed.

Lemma epsilon_beside_symbols_is_kept_witness :
  exists G,
    Parser.parse_cfg Parser.insertion_order "S"
      (list_form entries_epsilon_inside) = Ok G
    /\ (strip "S" ∈ dict_keys G)
    /\ (forall A rules,
          dict_get G A = Some rules ->
          rules = List.filter (rule_over (dict_keys G))
                    (entries_rules entries_epsilon_inside A))
    /\ (forall A r,
          A ∈ dict_keys G -> r ∈ entries_rules entries_epsilon_inside A ->
          epsilon ∈ r -> r ≠ eps_rule ->
          (forall sym, sym ∈ r -> Parser.is_variable sym = true ->
                       sym ∈ dict_keys G) ->
          (r ∈ dict_get_list G A)
          /\ (eps_rule ∈ dict_get_list G A ->
              eps_rule ∈ entries_rules entries_epsilon_inside A))
    /\ Cnf.is_variable epsilon = false
    /\ (forall st, Cnf.lift epsilon st = Cnf.get_term_var epsilon st).
Proof.
  apply (epsilon_beside_symbols_is_kept Parser.insertion_order "S"
           entries_epsilon_inside).
  - done.
  - reflexivity.
  - reflexivity.
  - reflexivity.
  - apply (generating_rule _ "S" [["a"; epsilon; "b"]; ["A"; epsilon]]
             ["a"; epsilon; "b"]).
    + apply list_elem_of_here.
    + apply list_elem_of_here.
    + intros sym Hsym Hvar. apply list_elem_of_In in Hsym.
      destruct Hsym as [<- | [<- | [<- | []]]]; discriminate Hvar.
Defined.

(** What is returned for these productions, and for the example of the
    claim. *)
Example parse_cfg_epsilon_inside :
  Parser.parse_cfg Parser.insertion_order "S" (list_form entries_epsilon_inside)
  = Ok [("S", [["a"; epsilon; "b"]; ["A"; epsilon]]); ("A", [["a"]])].
Proof. reflexivity. Qed.

Example parse_cfg_a_epsilon_b :
  Parser.parse_cfg Parser.insertion_order "S" (JList [production "S" "a ε b"])
  = Ok [("S", [["a"; epsilon; "b"]])].
Proof. reflexivity. Qed.

(** ** C7: one parse per variable and span *)

(** *** No rule of one symbol twice in a converted grammar *)

Lemma token_rules_app (l1 l2 : list (list string)) :
  token_rules (l1 ++ l2) = token_rules l1 ++ token_rules l2.
Proof.
  unfold token_rules. induction l1 as [ | r l1 IH]; [done | ].
  cbn [app List.filter]. rewrite IH. by destruct (bool_decide (length r = 1)).
Qed.

Lemma NoDup_token_rules (rules : list (list string)) :
  NoDup rules -> NoDup (token_rules rules).
Proof.
  unfold token_rules. induction rules as [ | r rules IH]; [done | ].
  intros Hnd. apply NoDup_cons in Hnd as [Hr Hnd]. cbn [List.filter].
  destruct (bool_decide (length r = 1)); [ | by apply IH].
  apply NoDup_cons. split; [ | by apply IH].
  intros Hin. apply Hr. by apply elem_of_List_filter in Hin as [? _].
Qed.

Lemma dict_get_list_set_ne {A} (d : dict (list A)) k k' v :
  k ≠ k' -> dict_get_list (dict_set d k v) k' = dict_get_list d k'.
Proof. intros Hne. unfold dict_get_list. by rewrite dict_get_set_ne. Qed.

Lemma dict_get_list_setdefault {A} (d : dict (list A)) k k' :
  dict_get_list (dict_setdefault d k) k' = dict_get_list d k'.
Proof.
  unfold dict_setdefault. destruct (dict_mem d k) eqn:Hmem; [done | ].
  destruct (decide (k = k')) as [<- | Hne].
  - rewrite dict_get_list_set. unfold dict_get_list, dict_mem in *.
    by destruct (dict_get d k).
  - by apply dict_get_list_set_ne.
Qed.

(** Unit elimination lists no rule twice. *)

Lemma list_remove_first_NoDup {A} `{EqDecision A} (x : A) xs :
  NoDup xs -> NoDup (list_remove_first x xs).
Proof.
  induction xs as [ | y xs IH]; [done | ].
  intros Hnd. apply NoDup_cons in Hnd as [Hy Hnd]. cbn [list_remove_first].
  destruct (decide (y = x)); [done | ].
  apply NoDup_cons. split; [ | by apply IH].
  intros Hin. apply Hy. clear -Hin.
  induction xs as [ | z xs IH]; [done | ]. cbn [list_remove_first] in Hin.
  destruct (decide (z = x)); [by apply list_elem_of_further | ].
  apply elem_of_cons in Hin as [-> | Hin];
    [apply list_elem_of_here | apply list_elem_of_further; by apply IH].
Qed.

Lemma key_rules_NoDup g A (rules : list (list string)) :
  NoDup rules -> NoDup (key_rules g A rules).
Proof.
  intros Hnd. unfold key_rules.
  apply (fold_left_invariant
           (fun st : list (list string) * bool => NoDup st.1)
           (fun _ => True)); [ | by apply Forall_forall | done].
  intros r [rs changed] _ Hrs. cbn [fst] in Hrs. unfold key_step.
  destruct r as [ | B [ | ? ?]]; try done.
  destruct (Cnf.is_variable B); [ | done].
  case_bool_decide; [done | ].
  assert (NoDup (fold_left copy_step (dict_get_list g B) (rs, changed)).1)
    as Hcopy.
  { apply (fold_left_invariant
             (fun st : list (list string) * bool => NoDup st.1)
             (fun _ => True)); [ | by apply Forall_forall | done].
    intros rB [rs' changed'] _ Hrs'. cbn [fst] in Hrs'. unfold copy_step.
    destruct (Cnf.copied_by_unit rB); [ | done].
    destruct (py_in rB rs') eqn:Hin; [done | ]. cbn [fst].
    apply py_in_false in Hin. apply NoDup_app. split; [done | ].
    split; [ | apply NoDup_singleton].
    intros y Hy Hy'. apply list_elem_of_singleton in Hy'. by subst y. }
  destruct (fold_left copy_step (dict_get_list g B) (rs, changed))
    as [rs1 changed1].
  cbn [fst] in Hcopy. destruct (py_in [B] rs1); [ | done].
  cbn [fst]. by apply list_remove_first_NoDup.
Qed.

(** Binarization appends rules of one symbol to the list of the key at hand only. *)

Lemma lift_final s st s' st' :
  Cnf.lift s st = Ok (s', st') -> Cnf.final st' = Cnf.final st.
Proof.
  unfold Cnf.lift. destruct (Cnf.is_variable s); [by intros [= <- <-] | ].
  unfold Cnf.get_term_var. intros H.
  apply bind_Ok in H as (st1 & Hst1 & H).
  apply bind_Ok in H as (v1 & Hv1 & H). injection H as <- <-.
  destruct (dict_mem (Cnf.term_map st) s); [by injection Hst1 as <- | ].
  apply bind_Ok in Hst1 as ([v0 st0] & Hfresh & Hst1). injection Hst1 as <-.
  apply fresh_var_fresh in Hfresh as (_ & _ & _ & _ & Hfin).
  by cbn [Cnf.final].
Qed.

Lemma final_append_token_rules A (r : list string) st st' K :
  Cnf.final_append A r st = Ok st' ->
  token_rules (dict_get_list (Cnf.final st') K)
  = token_rules (dict_get_list (Cnf.final st) K)
    ++ (if decide (K = A) then token_rules [r] else []).
Proof.
  unfold Cnf.final_append. intros H.
  apply bind_Ok in H as (rs & Hrs & H). injection H as <-.
  cbn [Cnf.with_final Cnf.final]. unfold dict_getitem in Hrs.
  destruct (dict_get (Cnf.final st) A) as [rs0 | ] eqn:Hget; [ | done].
  injection Hrs as ->.
  destruct (decide (K = A)) as [-> | Hne].
  - rewrite dict_get_list_set, token_rules_app.
    by rewrite (dict_get_list_Some _ _ _ Hget).
  - rewrite dict_get_list_set_ne by done. by rewrite app_nil_r.
Qed.

Lemma binarize_chain_token_rules chain : forall current st st' K,
  Cnf.binarize_chain current chain st = Ok st' ->
  token_rules (dict_get_list (Cnf.final st') K)
  = token_rules (dict_get_list (Cnf.final st) K).
Proof.
  induction chain as [ | s chain IH]; intros current st st' K H.
  - discriminate H.
  - destruct chain as [ | s2 [ | s3 chain]].
    + discriminate H.
    + cbn [Cnf.binarize_chain] in H.
      apply bind_Ok in H as ([l' st1] & Hl & H).
      apply bind_Ok in H as ([r' st2] & Hr & H).
      apply lift_final in Hl, Hr.
      rewrite (final_append_token_rules _ _ _ _ K H), Hr, Hl.
      change (token_rules [[l'; r']]) with (@nil (list string)).
      destruct (decide (K = current)); by rewrite app_nil_r.
    + cbn [Cnf.binarize_chain] in H.
      apply bind_Ok in H as ([s' st1] & Hl & H).
      apply bind_Ok in H as ([new_var st2] & Hfresh & H).
      apply lift_final in Hl.
      apply fresh_var_fresh in Hfresh as (_ & _ & _ & _ & Hfin).
      rewrite (IH new_var _ _ K H). cbn [Cnf.with_final Cnf.final].
      rewrite dict_get_list_setdefault, Hfin, Hl.
      destruct (decide (current = K)) as [<- | Hne].
      * rewrite dict_get_list_set, token_rules_app, dict_get_list_setdefault.
        change (token_rules [[s'; new_var]]) with (@nil (list string)).
        by rewrite app_nil_r.
      * rewrite dict_get_list_set_ne by done.
        by rewrite dict_get_list_setdefault.
Qed.

Lemma binarize_rule_token_rules A (r : list string) st st' K :
  Cnf.binarize_rule A r st = Ok st' ->
  token_rules (dict_get_list (Cnf.final st') K)
  = token_rules (dict_get_list (Cnf.final st) K)
    ++ (if decide (K = A) then token_rules [r] else []).
Proof.
  intros H. unfold Cnf.binarize_rule in H.
  destruct r as [ | s1 [ | s2 [ | s3 r]]].
  - discriminate H.
  - destruct (Cnf.is_variable s1); cbn [negb Cnf.binarize_chain] in H.
    + discriminate H.
    + by apply final_append_token_rules.
  - apply bind_Ok in H as ([s1' st1] & Hl1 & H).
    apply bind_Ok in H as ([s2' st2] & Hl2 & H).
    apply lift_final in Hl1, Hl2.
    rewrite (final_append_token_rules _ _ _ _ K H), Hl2, Hl1.
    change (token_rules [[s1'; s2']]) with (@nil (list string)).
    change (token_rules [[s1; s2]]) with (@nil (list string)).
    by destruct (decide (K = A)).
  - rewrite (binarize_chain_token_rules _ _ _ _ K H).
    change (token_rules [s1 :: s2 :: s3 :: r]) with (@nil (list string)).
    destruct (decide (K = A)); by rewrite app_nil_r.
Qed.

Lemma binarize_rules_token_rules A (rules : list (list string)) : forall st st' K,
  for_each (Cnf.binarize_rule A) rules st = Ok st' ->
  token_rules (dict_get_list (Cnf.final st') K)
  = token_rules (dict_get_list (Cnf.final st) K)
    ++ (if decide (K = A) then token_rules rules else []).
Proof.
  induction rules as [ | r rules IH]; intros st st' K H.
  - injection H as <-. destruct (decide (K = A)); by rewrite app_nil_r.
  - cbn [for_each] in H. apply bind_Ok in H as (st1 & Hr & H).
    rewrite (IH _ _ K H), (binarize_rule_token_rules _ _ _ _ K Hr).
    rewrite <- app_assoc. f_equal.
    destruct (decide (K = A)); [ | done].
    by rewrite <- token_rules_app.
Qed.

Lemma binarize_token_rules (g : grammar) st st' :
  no_duplicate_token_rules g ->
  (forall K, NoDup (token_rules (dict_get_list (Cnf.final st) K))) ->
  Cnf.binarize g st = Ok st' ->
  forall K, NoDup (token_rules (dict_get_list (Cnf.final st') K)).
Proof.
  intros Hg Hst. unfold Cnf.binarize.
  apply (for_each_invariant
           (fun st => forall K,
              NoDup (token_rules (dict_get_list (Cnf.final st) K)))
           (fun kv : string * list (list string) => NoDup (token_rules kv.2)));
    [ | exact Hg | exact Hst].
  intros [A rules] s s' Hrules Hs Hbody K. cbn [snd] in Hrules.
  rewrite (binarize_rules_token_rules _ _ _ _ K Hbody).
  cbn [Cnf.with_final Cnf.final].
  destruct (decide (K = A)) as [-> | Hne].
  - by rewrite dict_get_list_set.
  - rewrite dict_get_list_set_ne by done. rewrite app_nil_r. apply Hs.
Qed.

Lemma drop_empty_keys_NoDup (f : grammar) :
  NoDup (dict_keys f) -> NoDup (dict_keys (Cnf.drop_empty f)).
Proof.
  unfold Cnf.drop_empty, dict_keys.
  induction f as [ | [A rules] f IH]; [done | ].
  csimpl. intros Hnd. apply NoDup_cons in Hnd as [HA Hnd].
  destruct (negb (bool_decide (length rules = 0))); [ | by apply IH].
  csimpl. apply NoDup_cons. split; [ | by apply IH].
  intros Hin. apply HA.
  apply list_elem_of_fmap in Hin as ([A' rules'] & -> & Hin).
  apply elem_of_List_filter in Hin as [Hin _].
  apply list_elem_of_fmap. by exists (A', rules').
Qed.

(** The grammars that [convert_to_cnf] returns are dictionaries in which
    no key lists a rule of one symbol twice: the recognizer is run on
    grammars of this kind.  (For the start symbol [ε] the new start
    variable would get the rule [[ε]] twice.) *)
Lemma convert_to_cnf_no_duplicate_token_rules g start res :
  NoDup (dict_keys g) -> start ≠ epsilon ->
  Cnf.convert_to_cnf g start = Ok res ->
  NoDup (dict_keys (Cnf.res_grammar res))
  /\ no_duplicate_token_rules (Cnf.res_grammar res).
Proof.
  intros Hnd Hstart H. unfold Cnf.convert_to_cnf in H.
  apply bind_Ok in H as (nl & _ & H).
  apply bind_Ok in H as ([[g2 cs] av] & Hintro & H).
  apply bind_Ok in H as (g3 & Hunits & H).
  apply bind_Ok in H as (st & Hbin & H).
  injection H as <-. cbn [Cnf.res_grammar].
  destruct (eliminate_epsilon_analysis g nl) as [Hkeys1 Hrules1].
  set (g1 := Cnf.eliminate_epsilon g nl) in *.
  assert (NoDup (dict_keys g1)) as Hnd1 by (by rewrite Hkeys1).
  assert (forall A rs, (A, rs) ∈ g1 -> NoDup rs) as Hg1.
  { intros A rs Hin.
    assert (A ∈ dict_keys g) as HA.
    { rewrite <- Hkeys1. unfold dict_keys. apply list_elem_of_fmap.
      by exists (A, rs). }
    destruct (Hrules1 A HA) as (rs' & Hget & Hndrs & _).
    apply (dict_get_NoDup _ _ _ Hnd1) in Hin. congruence. }
  assert (NoDup (dict_keys g2) /\ forall A rs, (A, rs) ∈ g2 -> NoDup rs)
    as [Hnd2 Hg2].
  { apply introduce_start_spec in Hintro as [[-> ->] | (-> & _ & _)];
      [done | ].
    split; [by apply dict_keys_set_NoDup | ].
    intros A rs Hin. apply elem_of_dict_set in Hin as [Hin | [_ ->]];
      [by eapply Hg1 | ].
    apply NoDup_cons. split; [ | apply NoDup_singleton].
    intros Hin. apply list_elem_of_singleton in Hin. injection Hin as Heq.
    done. }
  rewrite eliminate_units_pass in Hunits by done. injection Hunits as <-.
  assert (no_duplicate_token_rules (Cnf.unit_pass g2).1) as Hg3.
  { rewrite unit_pass_rules by done. apply Forall_forall.
    intros [A rs] Hin.
    apply list_elem_of_fmap in Hin as ([A' rules'] & [= -> ->] & Hin).
    cbn [snd]. apply NoDup_token_rules, key_rules_NoDup. by eapply Hg2. }
  assert (forall K,
            NoDup (token_rules (dict_get_list (Cnf.final st) K))) as Htok.
  { refine (binarize_token_rules _ _ _ Hg3 _ Hbin).
    intros K. cbn. constructor. }
  apply (binarize_wrap av) in Hbin.
  - destruct Hbin as [Hi1 Hi2 Hi3 Hi4 Hi5].
    assert (NoDup (dict_keys (Cnf.add_wrappers (Cnf.nonterm_map st)
                                (Cnf.final st)))) as Hndw
      by (by apply add_wrappers_keys_NoDup).
    split; [by apply drop_empty_keys_NoDup | ].
    apply Forall_forall. intros [K rs] Hin. cbn [snd].
    apply drop_empty_elem in Hin. apply (dict_get_NoDup _ _ _ Hndw) in Hin.
    destruct (dict_get (Cnf.nonterm_map st) K) as [t | ] eqn:Hnm.
    + rewrite (add_wrappers_get _ _ K t) in Hin; [ | done | | done].
      * injection Hin as <-. unfold token_rules. cbn. apply NoDup_singleton.
      * intros v Hv. by destruct (Hi1 v Hv) as (_ & _ & ?).
    + rewrite add_wrappers_frame in Hin by (by apply dict_get_None).
      specialize (Htok K). by rewrite (dict_get_list_Some _ _ _ Hin) in Htok.
  - intros A HA. rewrite unit_pass_keys in HA by done.
    eapply introduce_start_known; [exact Hintro | | exact HA].
    intros B HB. by rewrite Hkeys1 in HB.
  - split; cbn [Cnf.all_vars Cnf.nonterm_map Cnf.final].
    + intros v Hv. by apply elem_of_nil in Hv.
    + intros A HA. by apply elem_of_nil in HA.
    + done.
    + apply NoDup_nil_2.
    + apply NoDup_nil_2.
Qed.

(** *** The single-parse policy of the recognizer *)

Lemma elem_of_diag_news (g : grammar) tok e :
  NoDup (dict_keys g) ->
  e ∈ diag_news g tok
  <-> exists A rules,
        dict_get g A = Some rules /\ ([tok] ∈ rules) /\ e = Cyk.ETerm A tok.
Proof.
  intros Hnd. unfold diag_news. rewrite list_elem_of_omap. split.
  - intros ([A rules] & Hin & H). case_bool_decide as Htok; [ | done].
    injection H as <-. exists A, rules.
    split; [by apply dict_get_NoDup | done].
  - intros (A & rules & Hget & Htok & ->). exists (A, rules).
    split; [by apply dict_get_Some_elem | ].
    by rewrite bool_decide_true.
Qed.

(** C7.  For a grammar that is a dictionary (pairwise distinct keys) in
    which no key lists a rule of one symbol twice, as in every grammar
    that [convert_to_cnf] returns, and for every cell [(i, j)] of a span of
    the input:
    - the cell holds at most one entry per variable, and it holds one for
      [A] exactly when [A] derives the tokens of the span;
    - on the diagonal the entries are the token entries of the keys that
      have the token as a rule;
    - over a span of two or more tokens the entries are, for each key
      [A], the evidence of the lowest split at which some rule of [A]
      matches, built from the first such rule in the order of declaration
      and the first entries of its two variables. *)
Theorem cyk_single_parse g start tokens i j :
  NoDup (dict_keys g) -> no_duplicate_token_rules g ->
  i <= j < length tokens ->
  let T := Cyk.cyk_table (Cyk.run_cyk g start tokens) in
  (forall A, length (Cyk.matches A (Cyk.tget T i j)) <= 1)
  /\ (forall A, Cyk.present A (Cyk.tget T i j) = true
                <-> derives g A (slice i j tokens))
  /\ (i = j ->
      forall e,
        e ∈ Cyk.tget T i j
        <-> exists A rules tok,
              dict_get g A = Some rules /\ tokens !! i = Some tok
              /\ ([tok] ∈ rules) /\ e = Cyk.ETerm A tok)
  /\ (i < j ->
      forall e,
        e ∈ Cyk.tget T i j
        <-> exists A rules k,
              dict_get g A = Some rules /\ i <= k < j
              /\ first_evidence rules A k (Cyk.tget T i k) (Cyk.tget T (k + 1) j)
                 = Some e
              /\ forall k', i <= k' < k ->
                   first_evidence rules A k' (Cyk.tget T i k')
                     (Cyk.tget T (k' + 1) j) = None).
Proof.
  intros Hkeys Hrules Hij T.
  assert (tokens ≠ []) as Hne by (intros ->; simpl in Hij; lia).
  subst T. rewrite (run_cyk_table _ _ _ Hne). cbn [Cyk.cyk_table].
  destruct (fill_table_spec g tokens Hne) as (Hwf & Hdiag & Hspan & Hlow).
  set (T := Cyk.fill_table g tokens) in *.
  split; [ | split; [ | split]].
  - intros A. apply NoDup_evar_matches.
    destruct (decide (i = j)) as [<- | Hneq].
    + destruct (lookup_lt_is_Some_2 tokens i) as [tok Htok]; [lia | ].
      rewrite (Hdiag i tok Htok). unfold diag_cell.
      rewrite diag_fold_closed by done. simpl. unfold diag_news.
      apply (NoDup_evar_omap g
               (fun A rules =>
                  if bool_decide ([tok] ∈ rules)
                  then Some (Cyk.ETerm A tok) else None)); [done | ].
      intros A' rules e. case_bool_decide; [ | done]. by intros [= <-].
    + rewrite Hspan by lia. unfold cell_span.
      by destruct (cell_span_prefix g (Cyk.tget T) i j Hkeys (j - i)) as [? _].
  - intros A. apply (cell_derives g tokens Hkeys Hne (j - i)); lia.
  - intros <- e.
    destruct (lookup_lt_is_Some_2 tokens i) as [tok Htok]; [lia | ].
    rewrite (Hdiag i tok Htok). unfold diag_cell.
    rewrite diag_fold_closed by done. simpl.
    rewrite elem_of_diag_news by done. split.
    + intros (A & rules & Hget & Hin & ->). by exists A, rules, tok.
    + intros (A & rules & tok' & Hget & Htok' & Hin & ->).
      rewrite Htok in Htok'. injection Htok' as <-. by exists A, rules.
  - intros Hlt e. rewrite Hspan by lia. unfold cell_span.
    destruct (cell_span_prefix g (Cyk.tget T) i j Hkeys (j - i))
      as (Hnd & Hfrom & Hto).
    replace (i + (j - i)) with j in * by lia.
    set (c := fold_left (cell_split g (Cyk.tget T) i j) (seq i (j - i)) [])
      in *.
    split; [apply Hfrom | ].
    intros (A & rules & k & Hget & Hk & Hev & Hbefore).
    assert (Cyk.present A c = true) as Hp.
    { apply (Hto A rules k Hget Hk). by rewrite Hev. }
    apply present_true in Hp as (e' & He' & Hvar).
    destruct (Hfrom e' He') as (A' & rules' & k' & Hget' & Hk' & Hev' & Hbefore').
    pose proof (first_evidence_evar _ _ _ _ _ _ Hev') as Hvar'.
    rewrite Hvar in Hvar'. subst A'.
    rewrite Hget in Hget'. injection Hget' as <-.
    destruct (lt_eq_lt_dec k k') as [[Hlt' | <-] | Hgt].
    + rewrite Hbefore' in Hev by lia. discriminate Hev.
    + rewrite Hev in Hev'. injection Hev' as <-. exact He'.
    + rewrite Hbefore in Hev' by lia. discriminate Hev'.
Qed.

Lemma cyk_single_parse_witness :
  let T := Cyk.cyk_table (Cyk.run_cyk g_ambiguous "S" ["a"; "a"; "a"]) in
  (forall A, length (Cyk.matches A (Cyk.tget T 0 2)) <= 1)
  /\ (forall A, Cyk.present A (Cyk.tget T 0 2) = true
                <-> derives g_ambiguous A (slice 0 2 ["a"; "a"; "a"]))
  /\ (0 = 2 ->
      forall e,
        e ∈ Cyk.tget T 0 2
        <-> exists A rules tok,
              dict_get g_ambiguous A = Some rules
              /\ ["a"; "a"; "a"] !! 0 = Some tok
              /\ ([tok] ∈ rules) /\ e = Cyk.ETerm A tok)
  /\ (0 < 2 ->
      forall e,
        e ∈ Cyk.tget T 0 2
        <-> exists A rules k,
              dict_get g_ambiguous A = Some rules /\ 0 <= k < 2
              /\ first_evidence rules A k (Cyk.tget T 0 k) (Cyk.tget T (k + 1) 2)
                 = Some e
              /\ forall k', 0 <= k' < k ->
                   first_evidence rules A k' (Cyk.tget T 0 k')
                     (Cyk.tget T (k' + 1) 2) = None).
Proof.
  apply (cyk_single_parse g_ambiguous "S" ["a"; "a"; "a"] 0 2).
  - apply NoDup_singleton.
  - apply Forall_singleton. compute_done.
  - simpl. lia.
Defined.
